(** * wooting-aim: the HID protocol encoder, the axis state machine, the
    velocity estimator, the adaptive policy and the rate-limited writer,
    embedded from [hid_writer.c] and [main.c].

    C [float] is IEEE-754 binary32 and C [double] is binary64; both are
    modelled with the Standard Library's executable specification
    [SpecFloat] (round to nearest, ties to even), each operation rounded
    to the type of its operands, as a compiler with [FLT_EVAL_METHOD] 0
    evaluates it. *)

From Stdlib Require Import ZArith QArith Qabs Qround Qpower Bool List String Ascii Lia Lqa.
From Stdlib Require Import SpecFloat.
Import ListNotations.
Local Open Scope Z_scope.

(* ================================================================== *)
(** * IEEE-754 arithmetic as C uses it                                  *)
(* ================================================================== *)

(** A binary floating-point format: [fprec] bits of mantissa, infinities
    at exponent [femax]. *)
Record format : Type := Format { fprec : Z; femax : Z }.

Definition binary32 : format := Format 24 128.
Definition binary64 : format := Format 53 1024.

(** Both C types are carried by [spec_float]; the alias says which format
    a value is meant in. *)
Definition float32 : Type := spec_float.
Definition float64 : Type := spec_float.

Definition is_nan (x : spec_float) : bool :=
  match x with S754_nan => true | _ => false end.

Definition is_finite (x : spec_float) : bool :=
  match x with S754_zero _ | S754_finite _ _ _ => true | _ => false end.

Definition is_zero (x : spec_float) : bool :=
  match x with S754_zero _ => true | _ => false end.

(** [(T)m] for an integer [m] scaled by [2^e]: the nearest value of the
    format. *)
Definition round_to (f : format) (m e : Z) : spec_float :=
  binary_normalize (fprec f) (femax f) m e false.

(** A stored value read in another format: [(float)d], [(double)x]. *)
Definition convert (f : format) (x : spec_float) : spec_float :=
  match x with
  | S754_finite s m e => binary_round (fprec f) (femax f) s m e
  | _ => x
  end.

(** The C relational operators; every one is false on a NaN except [!=]. *)
Definition flt (x y : spec_float) : bool := SFltb x y.
Definition fle (x y : spec_float) : bool := SFleb x y.
Definition fgt (x y : spec_float) : bool := SFltb y x.
Definition fge (x y : spec_float) : bool := SFleb y x.
Definition feq (x y : spec_float) : bool := SFeqb x y.
Definition fne (x y : spec_float) : bool := negb (SFeqb x y).

(** ** binary32: C [float] *)

Definition f32_add : float32 -> float32 -> float32 := SFadd 24 128.
Definition f32_sub : float32 -> float32 -> float32 := SFsub 24 128.
Definition f32_mul : float32 -> float32 -> float32 := SFmul 24 128.
Definition f32_div : float32 -> float32 -> float32 := SFdiv 24 128.
Definition sqrtf : float32 -> float32 := SFsqrt 24 128.
Definition fabsf : float32 -> float32 := SFabs.
Definition f32_neg : float32 -> float32 := SFopp.
Definition f32_of_Z (z : Z) : float32 := round_to binary32 z 0.
Definition f32_of_double (d : float64) : float32 := convert binary32 d.

(** The literal [n/d f]: the binary32 value nearest to the decimal, which
    the correctly rounded quotient of two exactly representable integers
    is. *)
Definition lit32 (n d : Z) : float32 := f32_div (f32_of_Z n) (f32_of_Z d).

(** ** binary64: C [double] *)

Definition f64_add : float64 -> float64 -> float64 := SFadd 53 1024.
Definition f64_sub : float64 -> float64 -> float64 := SFsub 53 1024.
Definition f64_mul : float64 -> float64 -> float64 := SFmul 53 1024.
Definition f64_div : float64 -> float64 -> float64 := SFdiv 53 1024.
Definition f64_of_Z (z : Z) : float64 := round_to binary64 z 0.
Definition f64_of_float (x : float32) : float64 := convert binary64 x.
Definition lit64 (n d : Z) : float64 := f64_div (f64_of_Z n) (f64_of_Z d).

Declare Scope f32_scope.
Delimit Scope f32_scope with f32.
Notation "x + y" := (f32_add x y) : f32_scope.
Notation "x - y" := (f32_sub x y) : f32_scope.
Notation "x * y" := (f32_mul x y) : f32_scope.
Notation "x / y" := (f32_div x y) : f32_scope.
Notation "- x" := (f32_neg x) : f32_scope.
Notation "x <? y" := (flt x y) : f32_scope.
Notation "x <=? y" := (fle x y) : f32_scope.
Notation "x >? y" := (fgt x y) : f32_scope.
Notation "x >=? y" := (fge x y) : f32_scope.
Notation "x =? y" := (feq x y) : f32_scope.
Notation "x !=? y" := (fne x y) (at level 70) : f32_scope.

Declare Scope f64_scope.
Delimit Scope f64_scope with f64.
Notation "x + y" := (f64_add x y) : f64_scope.
Notation "x - y" := (f64_sub x y) : f64_scope.
Notation "x * y" := (f64_mul x y) : f64_scope.
Notation "x / y" := (f64_div x y) : f64_scope.
Notation "x <? y" := (flt x y) : f64_scope.
Notation "x <=? y" := (fle x y) : f64_scope.
Notation "x >? y" := (fgt x y) : f64_scope.
Notation "x >=? y" := (fge x y) : f64_scope.

(** ** Integer conversions *)

(** The integer part of a finite value, towards zero. *)
Definition Ztrunc_float (x : spec_float) : Z :=
  match x with
  | S754_finite s m e =>
      let a := match e with
               | Z0 => Zpos m
               | Zpos p => Zpos m * 2 ^ Zpos p
               | Zneg p => Zpos m / 2 ^ Zpos p
               end in
      if s then - a else a
  | _ => 0
  end.

Definition INT_MIN : Z := - 2 ^ 31.
Definition INT_MAX : Z := 2 ^ 31 - 1.

(** [(int)x]: truncation; C leaves the conversion undefined for a NaN,
    an infinity and a value whose integer part is no [int], and [None]
    stands for that. *)
Definition int_of_float (x : float32) : option Z :=
  if is_finite x then
    let z := Ztrunc_float x in
    if (INT_MIN <=? z) && (z <=? INT_MAX) then Some z else None
  else None.

(** Wrap-around to [w] unsigned bits, and to 64 signed bits. *)
Definition uwrap (w : Z) (z : Z) : Z := z mod 2 ^ w.
Definition swrap64 (z : Z) : Z := (z + 2 ^ 63) mod 2 ^ 64 - 2 ^ 63.

(** [(double)(a.QuadPart - b.QuadPart)] on two 64-bit counters. *)
Definition double_of_ticks (a b : Z) : float64 := f64_of_Z (swrap64 (a - b)).

(* ================================================================== *)
(** * hid_writer.c: the protocol encoder                                *)
(* ================================================================== *)

Definition MAGIC_0 : Z := 0xD1.
Definition MAGIC_1 : Z := 0xDA.

Definition CMD_ACTUATION : Z := 21.
Definition CMD_RAPID_TRIGGER : Z := 25.

(** Max report sizes per report ID; entry 0 is unused. *)
Definition REPORT_SIZES : list Z := [0; 32; 62; 254; 510; 1022; 2046].
Definition NUM_REPORT_SIZES : Z := 7.

(** Key-value pair for per-key configuration ([row], [col]: [uint8_t]). *)
Record KeySetting : Type := { row : Z; col : Z; mm : float32 }.

Definition mm_to_firmware (mm : float32) : option Z :=
  match int_of_float (mm / f32_of_Z 4 * f32_of_Z 255 + lit32 5 10)%f32 with
  | Some val =>
      let val := if val <? 7 then 7 else val in
      let val := if val >? 255 then 255 else val in
      Some (uwrap 8 val)
  | None => None
  end.

Definition firmware_to_mm (val : Z) : float32 :=
  (f32_of_Z val / f32_of_Z 255 * f32_of_Z 4)%f32.

Definition linear_key_index (row col : Z) : Z :=
  uwrap 8 (Z.lor (Z.shiftl (Z.land row 7) 5) (Z.land col 31)).

Definition encode_key_entry (firmware_val row col : Z) : Z :=
  let idx := linear_key_index row col in
  uwrap 16 (Z.lor (Z.shiftl firmware_val 8) idx).

(** The [while (value > 0x7F)] loop; a [uint32_t] leaves it within five
    rounds, which is the fuel [encode_varint] gives it. *)
Fixpoint encode_varint_loop (fuel : nat) (value : Z) : list Z :=
  match fuel with
  | O => [uwrap 8 (Z.land value 0x7F)]
  | S fuel' =>
      if value >? 0x7F
      then uwrap 8 (Z.lor (Z.land value 0x7F) 0x80)
             :: encode_varint_loop fuel' (Z.shiftr value 7)
      else [uwrap 8 (Z.land value 0x7F)]
  end.

(** The bytes written to [buf]; the C function returns their number. *)
Definition encode_varint (value : Z) : list Z :=
  encode_varint_loop 5 (uwrap 32 value).

(** The [for] loop of [pick_report_id], from index [i]. *)
Fixpoint pick_report_id_from (fuel i : nat) (data_size : Z) : Z :=
  match fuel with
  | O => NUM_REPORT_SIZES - 1
  | S fuel' =>
      if Z.of_nat i <? NUM_REPORT_SIZES then
        if data_size <=? nth i REPORT_SIZES 0 then Z.of_nat i
        else pick_report_id_from fuel' (S i) data_size
      else NUM_REPORT_SIZES - 1
  end.

Definition pick_report_id (data_size : Z) : Z :=
  pick_report_id_from 7 1 data_size.

(** ** The device *)

(** What [hid_writer.c] does to the HID handle, oldest first. *)
Inductive hid_event : Type :=
| HidWrite (buf : list Z)
| HidSleep (ms : Z)
| HidReadTimeout (ms : Z).

(** [struct WootingHID] with the handle's side of the world: the log of
    what was done to it, and what the n-th [hid_write] will return. *)
Record WootingHID : Type := {
  hid_log : list hid_event;
  hid_write_ret : nat -> Z;
  active_profile : Z
}.

Definition is_write (e : hid_event) : bool :=
  match e with HidWrite _ => true | _ => false end.

Definition hid_do (dev : WootingHID) (e : hid_event) : WootingHID :=
  {| hid_log := hid_log dev ++ [e];
     hid_write_ret := hid_write_ret dev;
     active_profile := active_profile dev |}.

Definition hid_write (dev : WootingHID) (buf : list Z) : Z * WootingHID :=
  (hid_write_ret dev (List.length (filter is_write (hid_log dev))),
   hid_do dev (HidWrite buf)).

(** [l[i] = v]; a write past the end is left out. *)
Fixpoint upd {A : Type} (l : list A) (i : nat) (v : A) : list A :=
  match l, i with
  | [], _ => []
  | _ :: l', O => v :: l'
  | x :: l', S i' => x :: upd l' i' v
  end.

Fixpoint memcpy (dst : list Z) (at_ : nat) (src : list Z) : list Z :=
  match src with
  | [] => dst
  | b :: src' => memcpy (upd dst at_ b) (S at_) src'
  end.

(** The buffer [send_data] hands to [hid_write]. *)
Definition send_data_buf (cmd options : Z) (proto : list Z) (proto_len : Z)
  : list Z :=
  let data_size := 6 + proto_len in
  let rid := pick_report_id data_size in
  let pad_size := nth (Z.to_nat rid) REPORT_SIZES 0 in
  let buf_size := 1 + pad_size in
  let buf := repeat 0 (Z.to_nat buf_size) in
  let buf := upd buf 0 (uwrap 8 rid) in
  let buf := upd buf 1 MAGIC_0 in
  let buf := upd buf 2 MAGIC_1 in
  let buf := upd buf 3 cmd in
  let buf := upd buf 4 options in
  let buf := upd buf 5 (uwrap 8 (Z.land proto_len 0xFF)) in
  let buf := upd buf 6 (uwrap 8 (Z.land (Z.shiftr proto_len 8) 0xFF)) in
  memcpy buf 7 (firstn (Z.to_nat proto_len) proto).

Definition send_data (dev : WootingHID) (cmd options : Z)
  (proto : list Z) (proto_len : Z) : bool * WootingHID :=
  let (ret, dev) := hid_write dev (send_data_buf cmd options proto proto_len) in
  if ret <? 0 then (false, dev)
  else
    let is_save := Z.odd options in
    let dev := hid_do dev (HidSleep (if is_save then 50 else 5)) in
    let dev := hid_do dev (HidReadTimeout (if is_save then 50 else 5)) in
    (true, dev).

(** ** The tagged payload *)

(** The [for] loop of [build_partial_proto] from index [i], [n] rounds to
    go: [None] is undefined behaviour (a read past [keys], an undefined
    [int] conversion), [Some None] is [return -1], [Some (Some inner)] the
    entries built. *)
Fixpoint build_inner (n i : nat) (keys : list KeySetting) (inner : list Z)
  : option (option (list Z)) :=
  match n with
  | O => Some (Some inner)
  | S n' =>
      match nth_error keys i with
      | None => None
      | Some k =>
          match mm_to_firmware (mm k) with
          | None => None
          | Some fw_val =>
              let entry := encode_key_entry fw_val (row k) (col k) in
              if Z.of_nat (List.length inner) + 4 >? 512 then Some None
              else build_inner n' (S i) keys
                     (inner ++ 0x08 :: encode_varint entry)
          end
      end
  end.

(** Returns the [int] result with the bytes written to [buf]. *)
Definition build_partial_proto (buf_size : Z) (keys : list KeySetting)
  (count : Z) : option (Z * list Z) :=
  match build_inner (Z.to_nat count) 0 keys [] with
  | None => None
  | Some None => Some (-1, [])
  | Some (Some inner) =>
      let inner_len := Z.of_nat (List.length inner) in
      if 0 + 1 + 5 + inner_len >? buf_size then Some (-1, [])
      else
        let buf := 0x12 :: encode_varint inner_len ++ inner in
        Some (Z.of_nat (List.length buf), buf)
  end.

(** ** Public API *)

Definition write_options (profile_idx : Z) (save : bool) : Z :=
  uwrap 8 (Z.lor (if save then 1 else 0) (Z.shiftl profile_idx 1)).

(** The body shared by the two writers, which differ in the command. A
    [NULL] pointer is [None]; the outer [option] is undefined behaviour. *)
Definition hid_write_keys (cmd : Z) (dev : option WootingHID)
  (profile_idx : Z) (keys : option (list KeySetting)) (count : Z)
  (save : bool) : option (bool * option WootingHID) :=
  match dev, keys with
  | Some d, Some ks =>
      if count <=? 0 then Some (false, dev)
      else
        match build_partial_proto 512 ks count with
        | None => None
        | Some (proto_len, proto) =>
            if proto_len <? 0 then Some (false, dev)
            else
              let (ok, d') :=
                send_data d cmd (write_options profile_idx save)
                  proto proto_len in
              Some (ok, Some d')
        end
  | _, _ => Some (false, dev)
  end.

Definition wooting_hid_write_actuation := hid_write_keys CMD_ACTUATION.
Definition wooting_hid_write_rt := hid_write_keys CMD_RAPID_TRIGGER.

(* ================================================================== *)
(** * main.c: constants and configuration                               *)
(* ================================================================== *)

(** Key indices for per-key arrays. *)
Definition K_W : nat := 0.
Definition K_A : nat := 1.
Definition K_S : nat := 2.
Definition K_D : nat := 3.

(** Wooting 60HE matrix positions for WASD ([hid_writer.h]). *)
Definition KEY_W_ROW : Z := 2.
Definition KEY_W_COL : Z := 2.
Definition KEY_A_ROW : Z := 3.
Definition KEY_A_COL : Z := 1.
Definition KEY_S_ROW : Z := 3.
Definition KEY_S_COL : Z := 2.
Definition KEY_D_ROW : Z := 3.
Definition KEY_D_COL : Z := 3.

Definition DEAD_ZONE : float32 := lit32 1 100.
Definition PROFILE_IDX : Z := 0.

Definition JIGGLE_WINDOW_MS : float64 := f64_of_Z 300.
Definition JIGGLE_MIN_COUNT : Z := 2.
Definition JIGGLE_PREARM_MS : float64 := f64_of_Z 300.

Definition PHASE_ULTRA_MS : float64 := f64_of_Z 80.
Definition PHASE_DECAY_MS : float64 := f64_of_Z 200.

Definition VEL_AGGRO_ZONE : float32 := lit32 50 100.
Definition VEL_MIN_AP_FACTOR : float32 := lit32 5 10.

Definition SV_FRICTION : float32 := lit32 52 10.
Definition SV_ACCELERATE : float32 := lit32 55 10.
Definition SV_STOPSPEED : float32 := f32_of_Z 80.

Inductive WeaponCategory : Type :=
| WCAT_RIFLE | WCAT_AWP | WCAT_PISTOL | WCAT_SMG | WCAT_KNIFE | WCAT_OTHER.

Definition WeaponCategory_eqb (a b : WeaponCategory) : bool :=
  match a, b with
  | WCAT_RIFLE, WCAT_RIFLE | WCAT_AWP, WCAT_AWP | WCAT_PISTOL, WCAT_PISTOL
  | WCAT_SMG, WCAT_SMG | WCAT_KNIFE, WCAT_KNIFE | WCAT_OTHER, WCAT_OTHER => true
  | _, _ => false
  end.

Record WeaponProfile : Type := { ap : float32; rt : float32 }.

(** [Config]; [weapon] is the array indexed by category. *)
Record Config : Type := {
  ap_normal : float32;
  ap_aggro : float32;
  rt_normal : float32;
  rt_aggro : float32;
  write_interval_ms : float32;
  predict_threshold : float32;
  predict_min_peak : float32;
  crouch_rt_factor : float32;
  ws_adaptive : Z;
  stats_enabled : Z;
  weapon : WeaponCategory -> WeaponProfile;
  gsi_enabled : Z;
  gsi_port : Z;
  vel_enabled : Z;
  jiggle_enabled : Z;
  vel_scale_enabled : Z;
  phase_decay : Z;
  poll_rate_hz : float32
}.

(** The initialiser of [g_cfg]: the defaults a configuration file may
    override. Every function below takes the configuration in force. *)
Definition g_cfg : Config := {|
  ap_normal := lit32 12 10;
  ap_aggro := lit32 4 10;
  rt_normal := f32_of_Z 1;
  rt_aggro := lit32 1 10;
  write_interval_ms := f32_of_Z 50;
  predict_threshold := lit32 70 100;
  predict_min_peak := lit32 30 100;
  crouch_rt_factor := lit32 5 10;
  ws_adaptive := 0;
  stats_enabled := 1;
  weapon := fun c =>
    match c with
    | WCAT_RIFLE => {| ap := lit32 4 10; rt := lit32 1 10 |}
    | WCAT_AWP => {| ap := lit32 8 10; rt := lit32 4 10 |}
    | WCAT_PISTOL => {| ap := lit32 3 10; rt := lit32 1 10 |}
    | WCAT_SMG => {| ap := lit32 5 10; rt := lit32 2 10 |}
    | WCAT_KNIFE => {| ap := lit32 15 10; rt := f32_of_Z 1 |}
    | WCAT_OTHER => {| ap := f32_of_Z 1; rt := lit32 5 10 |}
    end;
  gsi_enabled := 1;
  gsi_port := 58732;
  vel_enabled := 1;
  jiggle_enabled := 1;
  vel_scale_enabled := 1;
  phase_decay := 1;
  poll_rate_hz := f32_of_Z 8000
|}.

(** A C [int] used as a condition. *)
Definition truthy (z : Z) : bool := negb (z =? 0).

(** [GSIState], the record the ingest thread fills. *)
Record GSIState : Type := {
  gsi_weapon_name : string;
  gsi_weapon_type : string;
  gsi_weapon_cat : WeaponCategory;
  gsi_weapon_speed : float32;
  gsi_round_phase : string;
  health : Z;
  connected : bool;
  gsi_last_update : Z
}.

(** The performance counter: the readings it will give, and how many
    were taken. *)
Record Clock : Type := { ticks : nat -> Z; reads : nat }.

Definition QueryPerformanceCounter (c : Clock) : Z * Clock :=
  (ticks c (reads c), {| ticks := ticks c; reads := S (reads c) |}).

(** The counter that gives the readings [l], in order, and 0 after them. *)
Definition Clock_of_list (l : list Z) : Clock :=
  {| ticks := fun n => nth n l 0; reads := 0 |}.

(** [(double)(now - since) * 1000.0 / freq]. *)
Definition elapsed_ms (now since : Z) (freq : float64) : float64 :=
  (double_of_ticks now since * f64_of_Z 1000 / freq)%f64.

(* ================================================================== *)
(** * main.c: velocity estimation                                       *)
(* ================================================================== *)

Record VelEstimator : Type := {
  vel : float32;
  max_speed : float32;
  last_update : Z
}.

(** [vel_step] of [test_math.c]: the arithmetic of [vel_update] with the
    keys and [dt] given. *)
Definition vel_step (vel : float32) (pos_key neg_key : bool)
  (max_speed dt : float32) : float32 :=
  let speed := fabsf vel in
  let vel :=
    if (speed >? lit32 1 1000)%f32 then
      let control :=
        if (speed <? SV_STOPSPEED)%f32 then SV_STOPSPEED else speed in
      let drop := (control * SV_FRICTION * dt)%f32 in
      let new_speed := (speed - drop)%f32 in
      let new_speed :=
        if (new_speed <? f32_of_Z 0)%f32 then f32_of_Z 0 else new_speed in
      (vel * (new_speed / speed))%f32
    else vel in
  let wish :=
    if pos_key && negb neg_key then f32_of_Z 1
    else if neg_key && negb pos_key then f32_of_Z (-1)
    else f32_of_Z 0 in
  let vel :=
    if (wish !=? f32_of_Z 0)%f32 then
      let current_in_wish := (vel * wish)%f32 in
      let add_speed := (max_speed - current_in_wish)%f32 in
      if (add_speed >? f32_of_Z 0)%f32 then
        let accel_speed := (SV_ACCELERATE * dt * max_speed)%f32 in
        let accel_speed :=
          if (accel_speed >? add_speed)%f32 then add_speed else accel_speed in
        (vel + accel_speed * wish)%f32
      else vel
    else vel in
  let vel :=
    if (fabsf vel >? max_speed)%f32
    then (if (vel >? f32_of_Z 0)%f32 then max_speed else (- max_speed)%f32)
    else vel in
  if (fabsf vel <? lit32 5 10)%f32 then f32_of_Z 0 else vel.

Definition vel_update (ve : VelEstimator) (pos_analog neg_analog : float32)
  (max_speed : float32) (now : Z) (freq : float64) : VelEstimator :=
  let elapsed := (double_of_ticks now (last_update ve) / freq)%f64 in
  if (elapsed <=? f64_of_Z 0)%f64 || (elapsed >? lit64 1 10)%f64 then
    {| vel := vel ve; max_speed := max_speed; last_update := now |}
  else
    let dt := f32_of_double elapsed in
    let pos_key := (pos_analog >? DEAD_ZONE)%f32 in
    let neg_key := (neg_analog >? DEAD_ZONE)%f32 in
    let v := vel ve in
    let speed := fabsf v in
    let v :=
      if (speed >? lit32 1 1000)%f32 then
        let control :=
          if (speed <? SV_STOPSPEED)%f32 then SV_STOPSPEED else speed in
        let drop := (control * SV_FRICTION * dt)%f32 in
        let new_speed := (speed - drop)%f32 in
        let new_speed :=
          if (new_speed <? f32_of_Z 0)%f32 then f32_of_Z 0 else new_speed in
        (v * (new_speed / speed))%f32
      else v in
    let wish :=
      if pos_key && negb neg_key then f32_of_Z 1
      else if neg_key && negb pos_key then f32_of_Z (-1)
      else f32_of_Z 0 in
    let v :=
      if (wish !=? f32_of_Z 0)%f32 then
        let current_in_wish := (v * wish)%f32 in
        let add_speed := (max_speed - current_in_wish)%f32 in
        if (add_speed >? f32_of_Z 0)%f32 then
          let accel_speed := (SV_ACCELERATE * dt * max_speed)%f32 in
          let accel_speed :=
            if (accel_speed >? add_speed)%f32 then add_speed
            else accel_speed in
          (v + accel_speed * wish)%f32
        else v
      else v in
    let v :=
      if (fabsf v >? max_speed)%f32
      then (if (v >? f32_of_Z 0)%f32 then max_speed else (- max_speed)%f32)
      else v in
    let v := if (fabsf v <? lit32 5 10)%f32 then f32_of_Z 0 else v in
    {| vel := v; max_speed := max_speed; last_update := now |}.

(** One sample handed to [vel_update] by the main loop. *)
Record VelInput : Type := {
  vi_pos : float32;
  vi_neg : float32;
  vi_max_speed : float32;
  vi_now : Z
}.

Definition vel_run (freq : float64) (ve : VelEstimator) (l : list VelInput)
  : VelEstimator :=
  fold_left
    (fun ve i => vel_update ve (vi_pos i) (vi_neg i) (vi_max_speed i)
                   (vi_now i) freq)
    l ve.

(* ================================================================== *)
(** * main.c: the axis state machine                                    *)
(* ================================================================== *)

Inductive AxisState : Type :=
| S_IDLE | S_STRAFE_POS | S_STRAFE_NEG | S_COUNTER_POS | S_COUNTER_NEG.

Definition AxisState_eqb (a b : AxisState) : bool :=
  match a, b with
  | S_IDLE, S_IDLE | S_STRAFE_POS, S_STRAFE_POS | S_STRAFE_NEG, S_STRAFE_NEG
  | S_COUNTER_POS, S_COUNTER_POS | S_COUNTER_NEG, S_COUNTER_NEG => true
  | _, _ => false
  end.

Definition is_counter (s : AxisState) : bool :=
  match s with S_COUNTER_POS | S_COUNTER_NEG => true | _ => false end.

Record Axis : Type := {
  state : AxisState;
  prev : AxisState;
  pos_peak : float32;
  neg_peak : float32;
  predictive : bool;
  counter_start : Z;
  counter_ms : float64;
  counter_count : Z;
  counter_total_ms : float64;
  jiggle_times : list Z;
  jiggle_idx : Z;
  is_jiggle : bool;
  jiggle_last : Z
}.

(** [Axis ax = {0}]. *)
Definition Axis_zero : Axis := {|
  state := S_IDLE;
  prev := S_IDLE;
  pos_peak := f32_of_Z 0;
  neg_peak := f32_of_Z 0;
  predictive := false;
  counter_start := 0;
  counter_ms := f64_of_Z 0;
  counter_count := 0;
  counter_total_ms := f64_of_Z 0;
  jiggle_times := [0; 0; 0; 0];
  jiggle_idx := 0;
  is_jiggle := false;
  jiggle_last := 0
|}.

(** [ax->field = v], one per field. *)
Definition set_state (ax : Axis) (v : AxisState) : Axis :=
  {| state := v;
     prev := prev ax;
     pos_peak := pos_peak ax;
     neg_peak := neg_peak ax;
     predictive := predictive ax;
     counter_start := counter_start ax;
     counter_ms := counter_ms ax;
     counter_count := counter_count ax;
     counter_total_ms := counter_total_ms ax;
     jiggle_times := jiggle_times ax;
     jiggle_idx := jiggle_idx ax;
     is_jiggle := is_jiggle ax;
     jiggle_last := jiggle_last ax |}.

Definition set_prev (ax : Axis) (v : AxisState) : Axis :=
  {| state := state ax;
     prev := v;
     pos_peak := pos_peak ax;
     neg_peak := neg_peak ax;
     predictive := predictive ax;
     counter_start := counter_start ax;
     counter_ms := counter_ms ax;
     counter_count := counter_count ax;
     counter_total_ms := counter_total_ms ax;
     jiggle_times := jiggle_times ax;
     jiggle_idx := jiggle_idx ax;
     is_jiggle := is_jiggle ax;
     jiggle_last := jiggle_last ax |}.

Definition set_pos_peak (ax : Axis) (v : float32) : Axis :=
  {| state := state ax;
     prev := prev ax;
     pos_peak := v;
     neg_peak := neg_peak ax;
     predictive := predictive ax;
     counter_start := counter_start ax;
     counter_ms := counter_ms ax;
     counter_count := counter_count ax;
     counter_total_ms := counter_total_ms ax;
     jiggle_times := jiggle_times ax;
     jiggle_idx := jiggle_idx ax;
     is_jiggle := is_jiggle ax;
     jiggle_last := jiggle_last ax |}.

Definition set_neg_peak (ax : Axis) (v : float32) : Axis :=
  {| state := state ax;
     prev := prev ax;
     pos_peak := pos_peak ax;
     neg_peak := v;
     predictive := predictive ax;
     counter_start := counter_start ax;
     counter_ms := counter_ms ax;
     counter_count := counter_count ax;
     counter_total_ms := counter_total_ms ax;
     jiggle_times := jiggle_times ax;
     jiggle_idx := jiggle_idx ax;
     is_jiggle := is_jiggle ax;
     jiggle_last := jiggle_last ax |}.

Definition set_predictive (ax : Axis) (v : bool) : Axis :=
  {| state := state ax;
     prev := prev ax;
     pos_peak := pos_peak ax;
     neg_peak := neg_peak ax;
     predictive := v;
     counter_start := counter_start ax;
     counter_ms := counter_ms ax;
     counter_count := counter_count ax;
     counter_total_ms := counter_total_ms ax;
     jiggle_times := jiggle_times ax;
     jiggle_idx := jiggle_idx ax;
     is_jiggle := is_jiggle ax;
     jiggle_last := jiggle_last ax |}.

Definition set_counter_start (ax : Axis) (v : Z) : Axis :=
  {| state := state ax;
     prev := prev ax;
     pos_peak := pos_peak ax;
     neg_peak := neg_peak ax;
     predictive := predictive ax;
     counter_start := v;
     counter_ms := counter_ms ax;
     counter_count := counter_count ax;
     counter_total_ms := counter_total_ms ax;
     jiggle_times := jiggle_times ax;
     jiggle_idx := jiggle_idx ax;
     is_jiggle := is_jiggle ax;
     jiggle_last := jiggle_last ax |}.

Definition set_counter_ms (ax : Axis) (v : float64) : Axis :=
  {| state := state ax;
     prev := prev ax;
     pos_peak := pos_peak ax;
     neg_peak := neg_peak ax;
     predictive := predictive ax;
     counter_start := counter_start ax;
     counter_ms := v;
     counter_count := counter_count ax;
     counter_total_ms := counter_total_ms ax;
     jiggle_times := jiggle_times ax;
     jiggle_idx := jiggle_idx ax;
     is_jiggle := is_jiggle ax;
     jiggle_last := jiggle_last ax |}.

Definition set_counter_count (ax : Axis) (v : Z) : Axis :=
  {| state := state ax;
     prev := prev ax;
     pos_peak := pos_peak ax;
     neg_peak := neg_peak ax;
     predictive := predictive ax;
     counter_start := counter_start ax;
     counter_ms := counter_ms ax;
     counter_count := v;
     counter_total_ms := counter_total_ms ax;
     jiggle_times := jiggle_times ax;
     jiggle_idx := jiggle_idx ax;
     is_jiggle := is_jiggle ax;
     jiggle_last := jiggle_last ax |}.

Definition set_counter_total_ms (ax : Axis) (v : float64) : Axis :=
  {| state := state ax;
     prev := prev ax;
     pos_peak := pos_peak ax;
     neg_peak := neg_peak ax;
     predictive := predictive ax;
     counter_start := counter_start ax;
     counter_ms := counter_ms ax;
     counter_count := counter_count ax;
     counter_total_ms := v;
     jiggle_times := jiggle_times ax;
     jiggle_idx := jiggle_idx ax;
     is_jiggle := is_jiggle ax;
     jiggle_last := jiggle_last ax |}.

Definition set_jiggle_times (ax : Axis) (v : list Z) : Axis :=
  {| state := state ax;
     prev := prev ax;
     pos_peak := pos_peak ax;
     neg_peak := neg_peak ax;
     predictive := predictive ax;
     counter_start := counter_start ax;
     counter_ms := counter_ms ax;
     counter_count := counter_count ax;
     counter_total_ms := counter_total_ms ax;
     jiggle_times := v;
     jiggle_idx := jiggle_idx ax;
     is_jiggle := is_jiggle ax;
     jiggle_last := jiggle_last ax |}.

Definition set_jiggle_idx (ax : Axis) (v : Z) : Axis :=
  {| state := state ax;
     prev := prev ax;
     pos_peak := pos_peak ax;
     neg_peak := neg_peak ax;
     predictive := predictive ax;
     counter_start := counter_start ax;
     counter_ms := counter_ms ax;
     counter_count := counter_count ax;
     counter_total_ms := counter_total_ms ax;
     jiggle_times := jiggle_times ax;
     jiggle_idx := v;
     is_jiggle := is_jiggle ax;
     jiggle_last := jiggle_last ax |}.

Definition set_is_jiggle (ax : Axis) (v : bool) : Axis :=
  {| state := state ax;
     prev := prev ax;
     pos_peak := pos_peak ax;
     neg_peak := neg_peak ax;
     predictive := predictive ax;
     counter_start := counter_start ax;
     counter_ms := counter_ms ax;
     counter_count := counter_count ax;
     counter_total_ms := counter_total_ms ax;
     jiggle_times := jiggle_times ax;
     jiggle_idx := jiggle_idx ax;
     is_jiggle := v;
     jiggle_last := jiggle_last ax |}.

Definition set_jiggle_last (ax : Axis) (v : Z) : Axis :=
  {| state := state ax;
     prev := prev ax;
     pos_peak := pos_peak ax;
     neg_peak := neg_peak ax;
     predictive := predictive ax;
     counter_start := counter_start ax;
     counter_ms := counter_ms ax;
     counter_count := counter_count ax;
     counter_total_ms := counter_total_ms ax;
     jiggle_times := jiggle_times ax;
     jiggle_idx := jiggle_idx ax;
     is_jiggle := is_jiggle ax;
     jiggle_last := v |}.

(** The loop counting the ring's entries younger than the window. *)
Definition jiggle_recent (times : list Z) (now : Z) (freq : float64) : Z :=
  fold_left
    (fun recent t =>
       if t =? 0 then recent
       else if (elapsed_ms now t freq <? JIGGLE_WINDOW_MS)%f64
            then recent + 1 else recent)
    times 0.

(** The [switch (ax->state)] of [axis_update], entered with [prev] and
    [predictive] already written. *)
Definition axis_switch (cfg : Config) (ax : Axis)
  (pos neg prev_pos prev_neg : float32) (freq : float64) (clk : Clock)
  : Axis * Clock :=
  let pp := (pos >? DEAD_ZONE)%f32 in
  let np := (neg >? DEAD_ZONE)%f32 in
  let pr := (pos >? DEAD_ZONE)%f32 && (prev_pos <=? DEAD_ZONE)%f32 in
  let nr := (neg >? DEAD_ZONE)%f32 && (prev_neg <=? DEAD_ZONE)%f32 in
  match state ax with
  | S_IDLE =>
      let ax :=
        if pp && negb np
        then set_neg_peak (set_pos_peak (set_state ax S_STRAFE_POS) pos)
               (f32_of_Z 0)
        else ax in
      let ax :=
        if np && negb pp
        then set_pos_peak (set_neg_peak (set_state ax S_STRAFE_NEG) neg)
               (f32_of_Z 0)
        else ax in
      (ax, clk)
  | S_STRAFE_POS =>
      if negb pp && negb np then (set_state ax S_IDLE, clk)
      else
        let ax :=
          if (pos >? pos_peak ax)%f32 then set_pos_peak ax pos else ax in
        let ax :=
          if (pos_peak ax >? predict_min_peak cfg)%f32
             && (pos <? pos_peak ax * predict_threshold cfg)%f32
          then set_predictive ax true else ax in
        if nr then
          let (now, clk) := QueryPerformanceCounter clk in
          (set_counter_start (set_state ax S_COUNTER_NEG) now, clk)
        else (ax, clk)
  | S_STRAFE_NEG =>
      if negb pp && negb np then (set_state ax S_IDLE, clk)
      else
        let ax :=
          if (neg >? neg_peak ax)%f32 then set_neg_peak ax neg else ax in
        let ax :=
          if (neg_peak ax >? predict_min_peak cfg)%f32
             && (neg <? neg_peak ax * predict_threshold cfg)%f32
          then set_predictive ax true else ax in
        if pr then
          let (now, clk) := QueryPerformanceCounter clk in
          (set_counter_start (set_state ax S_COUNTER_POS) now, clk)
        else (ax, clk)
  | S_COUNTER_POS | S_COUNTER_NEG =>
      let (now, clk) := QueryPerformanceCounter clk in
      let ax :=
        set_counter_ms ax (elapsed_ms now (counter_start ax) freq) in
      if negb pp && negb np then (set_state ax S_IDLE, clk)
      else if pp && negb np
      then (set_pos_peak (set_state ax S_STRAFE_POS) pos, clk)
      else if np && negb pp
      then (set_neg_peak (set_state ax S_STRAFE_NEG) neg, clk)
      else (ax, clk)
  end.

Definition axis_update (cfg : Config) (ax : Axis)
  (pos neg prev_pos prev_neg : float32) (freq : float64) (clk : Clock)
  : Axis * Clock :=
  let ax := set_prev ax (state ax) in
  let ax := set_predictive ax false in
  let (ax, clk) := axis_switch cfg ax pos neg prev_pos prev_neg freq clk in
  let ax :=
    if negb (AxisState_eqb (state ax) (prev ax)) && is_counter (prev ax)
    then
      let ax := set_counter_count ax (uwrap 64 (counter_count ax + 1)) in
      set_counter_total_ms ax (counter_total_ms ax + counter_ms ax)%f64
    else ax in
  (* Jiggle peek: record counter-strafe entry timestamps *)
  let (ax, clk) :=
    if negb (AxisState_eqb (state ax) (prev ax)) && is_counter (state ax)
    then
      let (now, clk) := QueryPerformanceCounter clk in
      let ax :=
        set_jiggle_times ax
          (upd (jiggle_times ax) (Z.to_nat (Z.land (jiggle_idx ax) 3)) now) in
      let ax := set_jiggle_idx ax (Z.land (jiggle_idx ax + 1) 0x7FFFFFFF) in
      if jiggle_recent (jiggle_times ax) now freq >=? JIGGLE_MIN_COUNT
      then (set_jiggle_last (set_is_jiggle ax true) now, clk)
      else (ax, clk)
    else (ax, clk) in
  (* Expire jiggle mode *)
  if is_jiggle ax then
    let (now, clk) := QueryPerformanceCounter clk in
    if (elapsed_ms now (jiggle_last ax) freq >? JIGGLE_PREARM_MS)%f64
    then (set_is_jiggle ax false, clk)
    else (ax, clk)
  else (ax, clk).

(** The main loop on one axis: each sample is the pair of depths read,
    and the previous pair is what the loop saved before reading. *)
Fixpoint axis_run (cfg : Config) (freq : float64) (ax : Axis)
  (prev_pos prev_neg : float32) (clk : Clock)
  (samples : list (float32 * float32)) : Axis * Clock :=
  match samples with
  | [] => (ax, clk)
  | (pos, neg) :: rest =>
      let (ax', clk') :=
        axis_update cfg ax pos neg prev_pos prev_neg freq clk in
      axis_run cfg freq ax' pos neg clk' rest
  end.

(* ================================================================== *)
(** * main.c: the adaptive policy                                       *)
(* ================================================================== *)

(** [AimContext]; a [float[4]] is a list of four, indexed by [K_W] ...
    [K_D]. The [Stats] file handle is left out. *)
Record AimContext : Type := {
  w : float32; a : float32; s : float32; d : float32; ctrl : float32;
  prev_w : float32; prev_a : float32; prev_s : float32; prev_d : float32;
  h : Axis;
  v : Axis;
  crouching : bool;
  target_ap : list float32;
  target_rt : list float32;
  current_ap : list float32;
  current_rt : list float32;
  needs_write : bool;
  last_write_time : Z;
  write_count : Z;
  frame : Z;
  weapon_cat : WeaponCategory;
  weapon_name : string;
  round_phase : string;
  weapon_speed : float32;
  gsi_active : bool;
  vel_h : VelEstimator;
  vel_v : VelEstimator
}.

(** [strncpy(dst, src, n)] into a zeroed [char dst[n + 1]]. *)
Definition strncpy (src : string) (n : nat) : string := substring 0 n src.

(** Get the base AP/RT for aggressive mode, considering GSI weapon. Every
    [WeaponCategory] is below [WCAT_COUNT]. *)
Definition get_base_aggro (cfg : Config) (gsi_active : bool)
  (cat : WeaponCategory) : float32 * float32 :=
  if gsi_active then (ap (weapon cfg cat), rt (weapon cfg cat))
  else (ap_aggro cfg, rt_aggro cfg).

Definition vel_scale_ap (base_ap vel_ratio : float32) : float32 :=
  if (vel_ratio <? VEL_AGGRO_ZONE)%f32 then base_ap
  else
    let t :=
      ((vel_ratio - VEL_AGGRO_ZONE) / (f32_of_Z 1 - VEL_AGGRO_ZONE))%f32 in
    let factor := (f32_of_Z 1 - t * (f32_of_Z 1 - VEL_MIN_AP_FACTOR))%f32 in
    let result := (base_ap * factor)%f32 in
    if (result <? lit32 15 100)%f32 then lit32 15 100 else result.

Definition phase_decay_ap (base_ap : float32) (counter_ms : float64)
  : float32 :=
  let min_ap := lit32 15 100 in
  if (counter_ms <? PHASE_ULTRA_MS)%f64 then min_ap
  else if (counter_ms >? PHASE_DECAY_MS)%f64 then base_ap
  else
    let t :=
      (f32_of_double (counter_ms - PHASE_ULTRA_MS)%f64
       / f32_of_double (PHASE_DECAY_MS - PHASE_ULTRA_MS)%f64)%f32 in
    (min_ap + t * (base_ap - min_ap))%f32.

(** One of the two [switch] statements of [update_targets]: the
    horizontal one with [kneg = K_A], [kpos = K_D], the vertical one with
    [kneg = K_S], [kpos = K_W]; they differ in nothing else. *)
Definition axis_targets (cfg : Config) (ax : Axis) (vel_ap base_rt : float32)
  (kneg kpos : nat) (apv rtv : list float32)
  : list float32 * list float32 :=
  match state ax with
  | S_IDLE =>
      if truthy (jiggle_enabled cfg) && is_jiggle ax then
        let apv := upd apv kneg vel_ap in
        let rtv := upd rtv kneg base_rt in
        let apv := upd apv kpos vel_ap in
        let rtv := upd rtv kpos base_rt in
        (apv, rtv)
      else (apv, rtv)
  | S_STRAFE_POS =>
      let rtv := upd rtv kpos base_rt in
      let apv := upd apv kneg vel_ap in
      if predictive ax || (truthy (jiggle_enabled cfg) && is_jiggle ax)
      then (apv, upd rtv kneg base_rt)
      else (apv, rtv)
  | S_STRAFE_NEG =>
      let rtv := upd rtv kneg base_rt in
      let apv := upd apv kpos vel_ap in
      if predictive ax || (truthy (jiggle_enabled cfg) && is_jiggle ax)
      then (apv, upd rtv kpos base_rt)
      else (apv, rtv)
  | S_COUNTER_POS =>
      let c_ap :=
        if truthy (phase_decay cfg)
        then phase_decay_ap vel_ap (counter_ms ax) else vel_ap in
      let apv := upd apv kpos c_ap in
      let rtv := upd rtv kpos base_rt in
      (apv, upd rtv kneg base_rt)
  | S_COUNTER_NEG =>
      let c_ap :=
        if truthy (phase_decay cfg)
        then phase_decay_ap vel_ap (counter_ms ax) else vel_ap in
      let apv := upd apv kneg c_ap in
      let rtv := upd rtv kneg base_rt in
      (apv, upd rtv kpos base_rt)
  end.

(** The crouch loop body for one key. *)
Definition crouch_key (cfg : Config) (base_rt : float32)
  (ar : float32 * float32) : float32 * float32 :=
  let (a_i, r_i) := ar in
  let crt := (r_i * crouch_rt_factor cfg)%f32 in
  let crt := if (crt <? base_rt)%f32 then base_rt else crt in
  let a_i :=
    if (a_i <? ap_normal cfg)%f32
    then (a_i + (ap_normal cfg - a_i) * lit32 3 10)%f32 else a_i in
  (a_i, crt).

(** The per-key depths [update_targets] arrives at under the label
    [check_changed], from the snapshot already copied into [ctx]. *)
Definition compute_targets (cfg : Config) (ctx : AimContext)
  : list float32 * list float32 :=
  let freezetime :=
    gsi_active ctx
    && (String.eqb (round_phase ctx) "freezetime"
        || String.eqb (round_phase ctx) "over") in
  let non_combat :=
    gsi_active ctx && WeaponCategory_eqb (weapon_cat ctx) WCAT_OTHER in
  let apv := repeat (ap_normal cfg) 4 in
  let rtv := repeat (rt_normal cfg) 4 in
  if freezetime || non_combat then (apv, rtv)
  else
    let (base_ap, base_rt) :=
      get_base_aggro cfg (gsi_active ctx) (weapon_cat ctx) in
    let vel_ap :=
      if truthy (vel_scale_enabled cfg) && truthy (vel_enabled cfg) then
        let total_vel :=
          sqrtf (vel (vel_h ctx) * vel (vel_h ctx)
                 + vel (vel_v ctx) * vel (vel_v ctx))%f32 in
        let max_spd :=
          if (weapon_speed ctx >? f32_of_Z 0)%f32 then weapon_speed ctx
          else f32_of_Z 225 in
        let threshold := (max_spd * lit32 34 100)%f32 in
        let vel_ratio :=
          if (threshold >? f32_of_Z 0)%f32 then (total_vel / threshold)%f32
          else f32_of_Z 0 in
        let vel_ratio :=
          if (vel_ratio >? f32_of_Z 1)%f32 then f32_of_Z 1 else vel_ratio in
        vel_scale_ap base_ap vel_ratio
      else base_ap in
    let (apv, rtv) :=
      axis_targets cfg (h ctx) vel_ap base_rt K_A K_D apv rtv in
    let (apv, rtv) :=
      if truthy (ws_adaptive cfg)
      then axis_targets cfg (v ctx) vel_ap base_rt K_S K_W apv rtv
      else (apv, rtv) in
    if crouching ctx
    then split (map (crouch_key cfg base_rt) (combine apv rtv))
    else (apv, rtv).

(** [ap[i] != ctx->target_ap[i] || rt[i] != ctx->target_rt[i]] for some
    [i < 4]. *)
Definition targets_changed (apv rtv tap trt : list float32) : bool :=
  existsb
    (fun i =>
       (nth i apv S754_nan !=? nth i tap S754_nan)%f32
       || (nth i rtv S754_nan !=? nth i trt S754_nan)%f32)
    (seq 0 4).

(** [update_targets], reading the game-state record [gsi] under its
    lock. *)
Definition update_targets (cfg : Config) (gsi : GSIState) (ctx : AimContext)
  : AimContext :=
  let ctx :=
    {| w := w ctx; a := a ctx; s := s ctx; d := d ctx; ctrl := ctrl ctx;
       prev_w := prev_w ctx; prev_a := prev_a ctx;
       prev_s := prev_s ctx; prev_d := prev_d ctx;
       h := h ctx; v := v ctx; crouching := crouching ctx;
       target_ap := target_ap ctx; target_rt := target_rt ctx;
       current_ap := current_ap ctx; current_rt := current_rt ctx;
       needs_write := needs_write ctx;
       last_write_time := last_write_time ctx;
       write_count := write_count ctx; frame := frame ctx;
       weapon_cat := gsi_weapon_cat gsi;
       weapon_name := strncpy (gsi_weapon_name gsi) 63;
       round_phase := strncpy (gsi_round_phase gsi) 15;
       weapon_speed := gsi_weapon_speed gsi;
       gsi_active := connected gsi;
       vel_h := vel_h ctx; vel_v := vel_v ctx |} in
  let (apv, rtv) := compute_targets cfg ctx in
  if targets_changed apv rtv (target_ap ctx) (target_rt ctx) then
    {| w := w ctx; a := a ctx; s := s ctx; d := d ctx; ctrl := ctrl ctx;
       prev_w := prev_w ctx; prev_a := prev_a ctx;
       prev_s := prev_s ctx; prev_d := prev_d ctx;
       h := h ctx; v := v ctx; crouching := crouching ctx;
       target_ap := apv; target_rt := rtv;
       current_ap := current_ap ctx; current_rt := current_rt ctx;
       needs_write := true;
       last_write_time := last_write_time ctx;
       write_count := write_count ctx; frame := frame ctx;
       weapon_cat := weapon_cat ctx; weapon_name := weapon_name ctx;
       round_phase := round_phase ctx; weapon_speed := weapon_speed ctx;
       gsi_active := gsi_active ctx;
       vel_h := vel_h ctx; vel_v := vel_v ctx |}
  else ctx.

(* ================================================================== *)
(** * main.c: the rate-limited writer                                   *)
(* ================================================================== *)

(** The four [KeySetting]s built from a [float[4]], in the order W, A,
    S, D. *)
Definition wasd_settings (depth : list float32) : list KeySetting :=
  [ {| row := KEY_W_ROW; col := KEY_W_COL; mm := nth K_W depth S754_nan |};
    {| row := KEY_A_ROW; col := KEY_A_COL; mm := nth K_A depth S754_nan |};
    {| row := KEY_S_ROW; col := KEY_S_COL; mm := nth K_S depth S754_nan |};
    {| row := KEY_D_ROW; col := KEY_D_COL; mm := nth K_D depth S754_nan |} ].

(** What one call of [do_write] did. *)
Inductive write_outcome : Type :=
| Skipped          (* returned before reading the counter *)
| TooEarly         (* read the counter and returned *)
| Dispatched.      (* sent the AP and the RT write *)

(** [do_write]; [None] is undefined behaviour inside the writes. *)
Definition do_write (cfg : Config) (ctx : AimContext)
  (hid : option WootingHID) (freq : float64) (clk : Clock)
  : option (write_outcome * AimContext * option WootingHID * Clock) :=
  if negb (needs_write ctx) || match hid with None => true | _ => false end
  then Some (Skipped, ctx, hid, clk)
  else
    let (now, clk) := QueryPerformanceCounter clk in
    let elapsed := elapsed_ms now (last_write_time ctx) freq in
    if (elapsed <? f64_of_float (write_interval_ms cfg))%f64
    then Some (TooEarly, ctx, hid, clk)
    else
      match wooting_hid_write_actuation hid PROFILE_IDX
              (Some (wasd_settings (target_ap ctx))) 4 false with
      | None => None
      | Some (_, hid) =>
          match wooting_hid_write_rt hid PROFILE_IDX
                  (Some (wasd_settings (target_rt ctx))) 4 false with
          | None => None
          | Some (_, hid) =>
              Some (Dispatched,
                    {| w := w ctx; a := a ctx; s := s ctx; d := d ctx;
                       ctrl := ctrl ctx;
                       prev_w := prev_w ctx; prev_a := prev_a ctx;
                       prev_s := prev_s ctx; prev_d := prev_d ctx;
                       h := h ctx; v := v ctx; crouching := crouching ctx;
                       target_ap := target_ap ctx;
                       target_rt := target_rt ctx;
                       current_ap := target_ap ctx;
                       current_rt := target_rt ctx;
                       needs_write := false;
                       last_write_time := now;
                       write_count := uwrap 64 (write_count ctx + 1);
                       frame := frame ctx;
                       weapon_cat := weapon_cat ctx;
                       weapon_name := weapon_name ctx;
                       round_phase := round_phase ctx;
                       weapon_speed := weapon_speed ctx;
                       gsi_active := gsi_active ctx;
                       vel_h := vel_h ctx; vel_v := vel_v ctx |},
                    hid, clk)
          end
      end.

Definition VelEstimator_init (t0 : Z) : VelEstimator :=
  {| vel := f32_of_Z 0; max_speed := f32_of_Z 225; last_update := t0 |}.

(** [AimContext ctx = {0}] as [main] sets it up before the loop, with
    the counter readings [t_write] and [t_vel] it stamps. *)
Definition AimContext_init (cfg : Config) (t_write t_vel : Z) : AimContext :=
  {| w := f32_of_Z 0; a := f32_of_Z 0; s := f32_of_Z 0; d := f32_of_Z 0;
     ctrl := f32_of_Z 0;
     prev_w := f32_of_Z 0; prev_a := f32_of_Z 0;
     prev_s := f32_of_Z 0; prev_d := f32_of_Z 0;
     h := Axis_zero; v := Axis_zero; crouching := false;
     target_ap := repeat (ap_normal cfg) 4;
     target_rt := repeat (rt_normal cfg) 4;
     current_ap := repeat (ap_normal cfg) 4;
     current_rt := repeat (rt_normal cfg) 4;
     needs_write := false;
     last_write_time := t_write;
     write_count := 0; frame := 0;
     weapon_cat := WCAT_RIFLE; weapon_name := ""; round_phase := "";
     weapon_speed := f32_of_Z 0; gsi_active := false;
     vel_h := VelEstimator_init t_vel; vel_v := VelEstimator_init t_vel |}.

(** What the sampling half of a loop iteration leaves in [ctx] for the
    adaptive half, with the game-state record as it stands then. *)
Record TickInput : Type := {
  ti_h : Axis;
  ti_v : Axis;
  ti_crouching : bool;
  ti_vel_h : VelEstimator;
  ti_vel_v : VelEstimator;
  ti_gsi : GSIState
}.

Definition sampled (ctx : AimContext) (i : TickInput) : AimContext :=
  {| w := w ctx; a := a ctx; s := s ctx; d := d ctx; ctrl := ctrl ctx;
     prev_w := prev_w ctx; prev_a := prev_a ctx;
     prev_s := prev_s ctx; prev_d := prev_d ctx;
     h := ti_h i; v := ti_v i; crouching := ti_crouching i;
     target_ap := target_ap ctx; target_rt := target_rt ctx;
     current_ap := current_ap ctx; current_rt := current_rt ctx;
     needs_write := needs_write ctx;
     last_write_time := last_write_time ctx;
     write_count := write_count ctx; frame := frame ctx;
     weapon_cat := weapon_cat ctx; weapon_name := weapon_name ctx;
     round_phase := round_phase ctx; weapon_speed := weapon_speed ctx;
     gsi_active := gsi_active ctx;
     vel_h := ti_vel_h i; vel_v := ti_vel_v i |}.

(** [if (adaptive_mode && hid) { update_targets(&ctx); do_write(&ctx,
    hid, freq); }] with [adaptive_mode] set. *)
Definition adaptive_tick (cfg : Config) (freq : float64) (ctx : AimContext)
  (hid : option WootingHID) (clk : Clock) (i : TickInput)
  : option (write_outcome * AimContext * option WootingHID * Clock) :=
  match hid with
  | None => Some (Skipped, sampled ctx i, hid, clk)
  | Some _ =>
      do_write cfg (update_targets cfg (ti_gsi i) (sampled ctx i)) hid freq clk
  end.

(** The adaptive half over successive iterations: the outcome of each,
    oldest first, with [last_write_time] as that iteration left it. *)
Fixpoint writer_run (cfg : Config) (freq : float64) (ctx : AimContext)
  (hid : option WootingHID) (clk : Clock) (inputs : list TickInput)
  : option (list (write_outcome * Z) * AimContext * option WootingHID * Clock) :=
  match inputs with
  | [] => Some ([], ctx, hid, clk)
  | i :: rest =>
      match adaptive_tick cfg freq ctx hid clk i with
      | None => None
      | Some (o, ctx', hid', clk') =>
          match writer_run cfg freq ctx' hid' clk' rest with
          | None => None
          | Some (os, ctx'', hid'', clk'') =>
              Some ((o, last_write_time ctx') :: os, ctx'', hid'', clk'')
          end
      end
  end.


(* ================================================================== *)
(** * The meaning of a stored value, and of rounding                    *)
(* ================================================================== *)

Definition pow2 (e : Z) : Q := Qpower 2 e.

(** The rational a finite value stands for (0 for the others). *)
Definition F2Q (x : spec_float) : Q :=
  match x with
  | S754_finite s m e =>
      if s then (- (inject_Z (Zpos m) * pow2 e))%Q
      else (inject_Z (Zpos m) * pow2 e)%Q
  | _ => 0%Q
  end.

(** [y] lies where the location [l] says, relative to the integer [m]. *)
Definition inbr (y : Q) (m : Z) (l : location) : Prop :=
  match l with
  | loc_Exact => (y == inject_Z m)%Q
  | loc_Inexact Lt => (inject_Z m < y /\ y < inject_Z m + (1 # 2))%Q
  | loc_Inexact Eq => (y == inject_Z m + (1 # 2))%Q
  | loc_Inexact Gt => (inject_Z m + (1 # 2) < y /\ y < inject_Z m + 1)%Q
  end.

(** [q] is the integer nearest to [y], the even one on a tie. *)
Definition rne (y : Q) (q : Z) : Prop :=
  (inject_Z q - (1 # 2) <= y)%Q /\ (y <= inject_Z q + (1 # 2))%Q /\
  ((y == inject_Z q - (1 # 2))%Q \/ (y == inject_Z q + (1 # 2))%Q ->
   Z.even q = true).

(** [x] has magnitude [g]: [2^(g-1) <= x < 2^g]. *)
Definition mag (x : Q) (g : Z) : Prop :=
  (pow2 (g - 1) <= x)%Q /\ (x < pow2 g)%Q.

(** The value with sign [s] and integer mantissa [q] at exponent [E],
    after the carry into the next binade and the overflow test. *)
Definition mkf (prec emax : Z) (s : bool) (q E : Z) : spec_float :=
  if q =? 2 ^ prec then
    if E + 1 <=? emax - prec
    then S754_finite s (Z.to_pos (2 ^ (prec - 1))) (E + 1)
    else S754_infinity s
  else
    match q with
    | Z0 => S754_zero s
    | Zpos m => if E <=? emax - prec then S754_finite s m E
                else S754_infinity s
    | Zneg _ => S754_nan
    end.

(** [f] is the rational [x] rounded to nearest, ties to even, in the
    format [(prec, emax)]. *)
Definition Rnd (prec emax : Z) (x : Q) (f : spec_float) : Prop :=
  ((x == 0)%Q /\ is_zero f = true) \/
  ((0 < x)%Q /\
   exists g q, mag x g /\ rne (x * pow2 (- fexp prec emax g))%Q q /\
               f = mkf prec emax false q (fexp prec emax g)) \/
  ((x < 0)%Q /\
   exists g q, mag (- x)%Q g /\ rne (- x * pow2 (- fexp prec emax g))%Q q /\
               f = mkf prec emax true q (fexp prec emax g)).

(** A value of the format: canonical mantissa, exponent in range. *)
Definition valid32 (x : spec_float) : bool := valid_binary 24 128 x.
Definition valid64 (x : spec_float) : bool := valid_binary 53 1024 x.

(** A finite value of a format. *)
Definition finF (prec emax : Z) (x : spec_float) : bool :=
  valid_binary prec emax x && is_finite x.

Definition fin32 : float32 -> bool := finF 24 128.
Definition fin64 : float64 -> bool := finF 53 1024.

(** The integer part of a rational, towards zero. *)
Definition Qtrunc (q : Q) : Z :=
  if Qle_bool 0 q then Qfloor q else Qceiling q.

(* ================================================================== *)
(** * A mesh check for the depth round trip                             *)
(* ================================================================== *)

(** The integers [a], [a + 1], ..., [a + n - 1]. *)
Definition Zseq (a : Z) (n : nat) : list Z :=
  map (fun i => a + Z.of_nat i) (seq 0 n).

(** Between the depths [lo <= hi], [mm_to_firmware] is defined at both
    ends, and every firmware value from the one end's to the other's maps
    back to a depth within [tol] of every depth between [lo] and [hi]. *)
Definition roundtrip_cell (tol : Q) (lo hi : float32) : bool :=
  match mm_to_firmware lo, mm_to_firmware hi with
  | Some a, Some b =>
      fin32 lo && fin32 hi && SFleb lo hi
      && forallb
           (fun v =>
              fin32 (firmware_to_mm v)
              && Qle_bool (F2Q (firmware_to_mm v) - tol) (F2Q lo)
              && Qle_bool (F2Q hi) (F2Q (firmware_to_mm v) + tol))
           (Zseq a (Z.to_nat (b - a + 1)))
  | _, _ => false
  end.

Fixpoint roundtrip_mesh (tol : Q) (g : list float32) : bool :=
  match g with
  | lo :: rest =>
      match rest with
      | hi :: _ => roundtrip_cell tol lo hi && roundtrip_mesh tol rest
      | [] => true
      end
  | [] => true
  end.

(** The depths 0.19, 0.20, ..., 3.81. *)
Definition depth_mesh : list float32 :=
  map (fun i => lit32 i 100) (Zseq 19 363).

(* ================================================================== *)
(** * test_math.c: reading a varint back                                *)
(* ================================================================== *)

(** The decode [test_varint_encoding] applies to the bytes written,
    [(buf[0] & 0x7F) | ((buf[1] & 0x7F) << 7) | ((buf[2] & 0x7F) << 14)],
    for any number of bytes. *)
Fixpoint varint_decode (buf : list Z) : Z :=
  match buf with
  | [] => 0
  | b :: rest => Z.lor (Z.land b 0x7F) (Z.shiftl (varint_decode rest) 7)
  end.

(* ================================================================== *)
(** * hid_writer.c: what the writers are handed                         *)
(* ================================================================== *)

(** Every key of the array has a finite depth of magnitude at most
    [2^24], so that the [int] conversion of [mm_to_firmware] is defined
    on it. *)
Definition convertible (keys : list KeySetting) : Prop :=
  Forall (fun k => fin32 (mm k) = true /\
                   (- (16777216) <= F2Q (mm k))%Q /\
                   (F2Q (mm k) <= 16777216)%Q) keys.

(* ================================================================== *)
(** * main.c: the ranges the policy works in                            *)
(* ================================================================== *)

(** The depths a configuration holds: the normal actuation point and
    every aggressive one are finite and lie between the 0.15 mm floor
    of [vel_scale_ap] and [phase_decay_ap] and [ap_hi]; the
    rapid-trigger depths are finite and lie between [rt_lo] and [rt_hi];
    and crouching scales a rapid-trigger depth by a factor in [0, 1]. *)
Definition depths_within (cfg : Config) (ap_hi rt_lo rt_hi : float32) : Prop :=
  fin32 ap_hi = true /\ fin32 rt_lo = true /\ fin32 rt_hi = true /\
  (0 <= F2Q rt_lo)%Q /\
  fin32 (crouch_rt_factor cfg) = true /\
  (0 <= F2Q (crouch_rt_factor cfg))%Q /\
  (F2Q (crouch_rt_factor cfg) <= 1)%Q /\
  (forall x,
      x = ap_normal cfg \/ x = ap_aggro cfg \/
      (exists c, x = ap (weapon cfg c)) ->
      fin32 x = true /\ (F2Q (lit32 15 100) <= F2Q x)%Q /\
      (F2Q x <= F2Q ap_hi)%Q) /\
  (forall x,
      x = rt_normal cfg \/ x = rt_aggro cfg \/
      (exists c, x = rt (weapon cfg c)) ->
      fin32 x = true /\ (F2Q rt_lo <= F2Q x)%Q /\ (F2Q x <= F2Q rt_hi)%Q).

(** What the sampling half of the loop leaves for the policy: finite
    velocity estimates and weapon speed, and counter-strafe times that
    are numbers (finite or infinite). *)
Definition estimates_sound (ctx : AimContext) : Prop :=
  fin32 (vel (vel_h ctx)) = true /\ fin32 (vel (vel_v ctx)) = true /\
  fin32 (weapon_speed ctx) = true /\
  valid64 (counter_ms (h ctx)) = true /\
  is_nan (counter_ms (h ctx)) = false /\
  valid64 (counter_ms (v ctx)) = true /\
  is_nan (counter_ms (v ctx)) = false.

(** A depth in a range. *)
Definition depth_in (lo hi : Q) (x : float32) : Prop :=
  fin32 x = true /\ (lo <= F2Q x)%Q /\ (F2Q x <= hi)%Q.

(** One loop iteration's sample, as [estimates_sound] asks of the
    context it is copied into. *)
Definition input_sound (i : TickInput) : Prop :=
  fin32 (vel (ti_vel_h i)) = true /\ fin32 (vel (ti_vel_v i)) = true /\
  fin32 (gsi_weapon_speed (ti_gsi i)) = true /\
  valid64 (counter_ms (ti_h i)) = true /\
  is_nan (counter_ms (ti_h i)) = false /\
  valid64 (counter_ms (ti_v i)) = true /\
  is_nan (counter_ms (ti_v i)) = false.

(** The target depths of a context are four actuation points between
    0.15 mm and [ap_hi] and four rapid-trigger depths between [rt_lo] and
    [rt_hi]. *)
Definition targets_within (ap_hi rt_lo rt_hi : float32) (ctx : AimContext)
  : Prop :=
  Forall (depth_in (F2Q (lit32 15 100)) (F2Q ap_hi)) (target_ap ctx) /\
  Forall (depth_in (F2Q rt_lo) (F2Q rt_hi)) (target_rt ctx) /\
  List.length (target_ap ctx) = 4%nat /\ List.length (target_rt ctx) = 4%nat.

(** With no write pending, the depths last written are the targets. *)
Definition written_when_idle (ctx : AimContext) : Prop :=
  needs_write ctx = false ->
  current_ap ctx = target_ap ctx /\ current_rt ctx = target_rt ctx.

(** A sample for the examples below: countering to the right for 100 ms
    at 200 units/s, crouched, with an AK-47 in a live round. *)
Definition sample_tick : TickInput :=
  {| ti_h := set_counter_ms (set_state Axis_zero S_COUNTER_POS) (f64_of_Z 100);
     ti_v := Axis_zero;
     ti_crouching := true;
     ti_vel_h := {| vel := f32_of_Z 200; max_speed := f32_of_Z 215;
                    last_update := 0 |};
     ti_vel_v := {| vel := f32_of_Z 0; max_speed := f32_of_Z 215;
                    last_update := 0 |};
     ti_gsi := {| gsi_weapon_name := "weapon_ak47";
                  gsi_weapon_type := "Rifle";
                  gsi_weapon_cat := WCAT_RIFLE;
                  gsi_weapon_speed := f32_of_Z 215;
                  gsi_round_phase := "live";
                  health := 100;
                  connected := true;
                  gsi_last_update := 0 |} |}.

(** A device that accepts every write. *)
Definition sample_device : WootingHID :=
  {| hid_log := []; hid_write_ret := fun _ => 33; active_profile := 0 |}.

(* ================================================================== *)
(** * main.c: weapons                                                   *)
(* ================================================================== *)

(** A C string is the [string] of its characters before the
    terminator. [strstr(hay, needle)] is the offset of the first
    occurrence of [needle] in [hay], and [None] stands for [NULL]. *)
Definition strstr (hay needle : string) : option nat := index 0 needle hay.

(** A pointer used as a condition. *)
Definition non_null {A : Type} (p : option A) : bool :=
  match p with Some _ => true | None => false end.

(** Equality of C strings: [strcmp(a, b) == 0], and [!a[0]] against the
    empty string. *)
Definition streq (a b : string) : bool := String.eqb a b.

Open Scope string_scope.

(** Weapon max speed lookup for velocity estimation (units/second). *)
Definition weapon_max_speed (name : string) : float32 :=
  let has s := non_null (strstr name s) in
  if streq name "" then f32_of_Z 225
  else if has "knife" || has "bayonet" then f32_of_Z 250
  else if has "awp" then f32_of_Z 200
  else if has "ak47" then f32_of_Z 215
  else if has "m4a1" then f32_of_Z 225
  else if has "deagle" || has "revolver" then f32_of_Z 230
  else if has "ssg08" then f32_of_Z 230
  else if has "g3sg1" || has "scar20" then f32_of_Z 215
  else if has "galil" then f32_of_Z 215
  else if has "famas" then f32_of_Z 220
  else if has "aug" then f32_of_Z 220
  else if has "sg556" then f32_of_Z 210
  else if has "glock" || has "hkp2000" || has "usp" || has "p250"
          || has "fiveseven" || has "tec9" || has "cz75" || has "elite"
       then f32_of_Z 240
  else if has "mp9" || has "mac10" || has "bizon" then f32_of_Z 240
  else if has "ump45" || has "p90" then f32_of_Z 230
  else if has "mp7" || has "mp5" then f32_of_Z 220
  else if has "negev" then f32_of_Z 150
  else if has "m249" then f32_of_Z 195
  else if has "nova" || has "mag7" || has "sawedoff" then f32_of_Z 220
  else if has "xm1014" then f32_of_Z 215
  else if has "c4" || has "flashbang" || has "hegrenade"
          || has "smokegrenade" || has "molotov" || has "incgrenade"
          || has "decoy"
       then f32_of_Z 245
  else f32_of_Z 225.

Close Scope string_scope.

(** [ctx.weapon_speed > 0 ? ctx.weapon_speed : 225.0f], the cap the main
    loop hands to [vel_update]. *)
Definition loop_max_spd (weapon_speed : float32) : float32 :=
  if (weapon_speed >? f32_of_Z 0)%f32 then weapon_speed else f32_of_Z 225.

(* ================================================================== *)
(** * main.c: reading the game-state JSON                               *)
(* ================================================================== *)

(** A pointer into a C string is its offset; [string_from k text] is the
    string it points at. *)
Fixpoint string_from (k : nat) (text : string) : string :=
  match k, text with
  | O, _ => text
  | S k', String _ text' => string_from k' text'
  | S _, EmptyString => EmptyString
  end.

Definition is_separator (c : ascii) : bool :=
  Ascii.eqb c " " || Ascii.eqb c "009" || Ascii.eqb c ":".

(** The double quote, character 34. *)
Definition is_quote (c : ascii) : bool := Ascii.eqb c "034".

(** The loop that moves [k] on while [k < end] and the character at [k]
    is a space, a tab or a colon, from the pointer at [rest] with
    [room = end - k]: how far [k] moves. The terminator is no separator. *)
Fixpoint skip_separators (rest : string) (room : nat) : nat :=
  match rest, room with
  | String c rest', S room' =>
      if is_separator c then S (skip_separators rest' room') else O
  | _, _ => O
  end.

(** The loop that copies the value, [buf[i++] = *k++] while [k < end],
    the character at [k] is no double quote and [i < buf_size - 1], in
    this order,
    from the pointer at [rest] with [room = end - k] and
    [space = buf_size - 1 - i]: the characters copied. At the terminator
    the loop copies it, which ends the string in [buf], and reads on
    while [k < end]; [None] is that read past the terminator. *)
Fixpoint copy_value (rest : string) (room space : nat) {struct room}
  : option string :=
  match room with
  | O => Some EmptyString
  | S room' =>
      match rest with
      | String c rest' =>
          if is_quote c then Some EmptyString
          else
            match space with
            | O => Some EmptyString
            | S space' =>
                match copy_value rest' room' space' with
                | Some v => Some (String c v)
                | None => None
                end
            end
      | EmptyString =>
          match space, room' with
          | O, _ | _, O => Some EmptyString
          | S _, S _ => None
          end
      end
  end.

(** [json_extract_str] on the C string [text], with [start] and [end]
    by their offsets in it: the result and the string left in [buf].
    The [while] around the body runs it at most once, for the first
    occurrence of the key from [start] on, which [strstr] looks for up
    to the terminator. *)
Definition json_extract_str (text : string) (start end_ : nat) (key : string)
  (buf_size : Z) : option (bool * string) :=
  match index start key text with
  | Some p =>
      if (p <? end_)%nat then
        let k := (p + String.length key)%nat in
        let k := (k + skip_separators (string_from k text) (end_ - k))%nat in
        if (k <? end_)%nat
           && match get k text with Some c => is_quote c | None => false end
        then
          match copy_value (string_from (S k) text) (end_ - S k)
                  (Z.to_nat (buf_size - 1)) with
          | Some v => Some (true, v)
          | None => None
          end
        else Some (false, EmptyString)
      else Some (false, EmptyString)
  | None => Some (false, EmptyString)
  end.

(** A small game-state text and the key of its round phase. *)
Definition dquote : string := String "034" EmptyString.

Definition phase_key : string :=
  String.append dquote (String.append "phase" dquote).

Definition sample_json : string :=
  String.append "{"
    (String.append phase_key
       (String.append ": "
          (String.append dquote
             (String.append "freezetime" (String.append dquote "}"))))).

(** The same text cut short inside the value. *)
Definition cut_json : string :=
  String.append "{"
    (String.append phase_key
       (String.append ": " (String.append dquote "freeze"))).

(* ================================================================== *)
(** * Bounds for runs of the velocity model                             *)
(* ================================================================== *)

(** How far under the cap the estimate can still be one step later,
    under a single held key, when it was [g] under it: 6.3 nearer, or
    0.919 of the way and 0.7 nearer, whichever is less progress. *)
Definition gap_step (g : Q) : Q :=
  if Qle_bool ((919 # 1000) * g - (7 # 10))%Q (g - (63 # 10))%Q
  then (g - (63 # 10))%Q else ((919 # 1000) * g - (7 # 10))%Q.

(** The same after [n] steps, from 250 under the cap. *)
Definition gap_bound (n : nat) : Q := Nat.iter n gap_step 250%Q.

(* ================================================================== *)
(** * main.c: a weapon swap while the loop is away                      *)
(* ================================================================== *)

(** The inputs of [n] calls of [vel_update], one every 1/64 s (156250
    counts of a 10 MHz counter) after the reading [t], with the positive
    key fully pressed, the negative one released and the cap [mx]. *)
Fixpoint held_calls (n : nat) (t : Z) (mx : float32) : list VelInput :=
  match n with
  | O => []
  | S n =>
      {| vi_pos := f32_of_Z 1; vi_neg := f32_of_Z 0; vi_max_speed := mx;
         vi_now := t + 156250 |} :: held_calls n (t + 156250) mx
  end.

(** Sixty such calls with the knife out, from the reading 0. *)
Definition knife_calls : list VelInput :=
  held_calls 60 0 (loop_max_spd (weapon_max_speed "weapon_knife")).

(** The same, and then one more call 0.2 s after the last one, by which
    time the player has taken out the AWP. *)
Definition swap_calls : list VelInput :=
  knife_calls ++
  [ {| vi_pos := f32_of_Z 1; vi_neg := f32_of_Z 0;
       vi_max_speed := loop_max_spd (weapon_max_speed "weapon_awp");
       vi_now := 60 * 156250 + 2000000 |} ].

(* ================================================================== *)
(** * Powers of two                                                     *)
(* ================================================================== *)

Lemma two_neq_0 : ~ (2 == 0)%Q.
Proof. intro H; discriminate H. Qed.

Lemma pow2_pos e : (0 < pow2 e)%Q.
Proof. apply Qpower_0_lt; reflexivity. Qed.

Lemma pow2_add a b : (pow2 (a + b) == pow2 a * pow2 b)%Q.
Proof. apply Qpower_plus, two_neq_0. Qed.

Lemma pow2_0 : pow2 0 = 1%Q.
Proof. reflexivity. Qed.

Lemma pow2_1 : (pow2 1 == 2)%Q.
Proof. reflexivity. Qed.

Lemma pow2_succ a : (pow2 (a + 1) == 2 * pow2 a)%Q.
Proof. rewrite pow2_add, pow2_1. ring. Qed.

Lemma pow2_pred a : (pow2 (a - 1) == pow2 a * (1 # 2))%Q.
Proof.
  replace (a - 1) with (a + (-1)) by lia.
  rewrite pow2_add. reflexivity.
Qed.

Lemma pow2_opp_mul a : (pow2 a * pow2 (- a) == 1)%Q.
Proof. rewrite <- pow2_add, Z.add_opp_diag_r. reflexivity. Qed.

Lemma pow2_le a b : a <= b -> (pow2 a <= pow2 b)%Q.
Proof. intro H. apply Qpower_le_compat_l; [exact H | discriminate]. Qed.

Lemma pow2_lt a b : a < b -> (pow2 a < pow2 b)%Q.
Proof. intro H. apply Qpower_lt_compat_l; [exact H | reflexivity]. Qed.

Lemma pow2_lt_inv a b : (pow2 a < pow2 b)%Q -> a < b.
Proof.
  intro H. destruct (Z_lt_le_dec a b) as [L | L]; [exact L |].
  apply pow2_le in L. lra.
Qed.

Lemma pow2_Z a : 0 <= a -> (pow2 a == inject_Z (2 ^ a))%Q.
Proof. intro H. unfold pow2. rewrite Zpower_Qpower by exact H. reflexivity. Qed.

Lemma inject_Z_le a b : a <= b -> (inject_Z a <= inject_Z b)%Q.
Proof. intro H. rewrite <- Zle_Qle. exact H. Qed.

Lemma inject_Z_lt a b : a < b -> (inject_Z a < inject_Z b)%Q.
Proof. intro H. rewrite <- Zlt_Qlt. exact H. Qed.

Lemma inject_Z_le_inv a b : (inject_Z a <= inject_Z b)%Q -> a <= b.
Proof. intro H. rewrite Zle_Qle. exact H. Qed.

Lemma inject_Z_lt_inv a b : (inject_Z a < inject_Z b)%Q -> a < b.
Proof. intro H. rewrite Zlt_Qlt. exact H. Qed.

(** An integer strictly between two consecutive half-integers. *)
Lemma inject_Z_lt_succ a b : (inject_Z a < inject_Z b + 1)%Q -> a <= b.
Proof.
  intro H. assert (a < b + 1); [| lia].
  apply inject_Z_lt_inv. rewrite inject_Z_plus. exact H.
Qed.

(* ================================================================== *)
(** * Magnitudes                                                        *)
(* ================================================================== *)

Lemma mag_unique x g g' : mag x g -> mag x g' -> g = g'.
Proof.
  intros [L U] [L' U'].
  assert (g - 1 < g') by (apply pow2_lt_inv; lra).
  assert (g' - 1 < g) by (apply pow2_lt_inv; lra).
  lia.
Qed.

Lemma mag_le x y g g' : mag x g -> mag y g' -> (x <= y)%Q -> g <= g'.
Proof.
  intros [L U] [L' U'] H.
  assert (g - 1 < g') by (apply pow2_lt_inv; lra).
  lia.
Qed.

Lemma digits2_pos_bounds m :
  2 ^ (Zpos (digits2_pos m) - 1) <= Zpos m < 2 ^ Zpos (digits2_pos m).
Proof.
  induction m as [m IH | m IH |]; cbn [digits2_pos].
  - rewrite Pos2Z.inj_succ.
    replace (Z.succ (Zpos (digits2_pos m)) - 1) with
      (Z.succ (Zpos (digits2_pos m) - 1)) by lia.
    rewrite !Z.pow_succ_r by lia. lia.
  - rewrite Pos2Z.inj_succ.
    replace (Z.succ (Zpos (digits2_pos m)) - 1) with
      (Z.succ (Zpos (digits2_pos m) - 1)) by lia.
    rewrite !Z.pow_succ_r by lia. lia.
  - simpl. lia.
Qed.

Lemma Zdigits2_bounds m :
  0 < m -> 2 ^ (Zdigits2 m - 1) <= m < 2 ^ Zdigits2 m.
Proof.
  destruct m as [| p | p]; try lia. intros _. apply digits2_pos_bounds.
Qed.

Lemma Zdigits2_pos m : 0 < m -> 0 < Zdigits2 m.
Proof. destruct m; simpl; lia. Qed.

(** The magnitude of a number whose integer part is [m >= 1]. *)
Lemma mag_of_floor y m :
  0 < m -> (inject_Z m <= y)%Q -> (y < inject_Z m + 1)%Q ->
  mag y (Zdigits2 m).
Proof.
  intros Hm L U. destruct (Zdigits2_bounds m Hm) as [A B].
  pose proof (Zdigits2_pos m Hm) as D.
  split.
  - rewrite pow2_Z by lia. apply inject_Z_le in A. lra.
  - rewrite pow2_Z by lia.
    assert (m + 1 <= 2 ^ Zdigits2 m) as C by lia.
    apply inject_Z_le in C. rewrite inject_Z_plus in C.
    change (inject_Z 1) with 1%Q in C. lra.
Qed.

Lemma mag_scale x g e : mag x g -> mag (x * pow2 e) (g + e).
Proof.
  intros [L U]. pose proof (pow2_pos e) as P. split.
  - replace (g + e - 1) with ((g - 1) + e) by lia. rewrite pow2_add.
    apply Qmult_le_compat_r; lra.
  - rewrite pow2_add. apply Qmult_lt_compat_r; lra.
Qed.

Lemma mag_pos x g : mag x g -> (0 < x)%Q.
Proof. intros [L _]. pose proof (pow2_pos (g - 1)). lra. Qed.

(* ================================================================== *)
(** * Nearest-even rounding of a located number                         *)
(* ================================================================== *)

Lemma inject_Z_xO p : (inject_Z (Zpos p~0) == 2 * inject_Z (Zpos p))%Q.
Proof. rewrite Pos2Z.inj_xO, inject_Z_mult. reflexivity. Qed.

Lemma inject_Z_xI p : (inject_Z (Zpos p~1) == 2 * inject_Z (Zpos p) + 1)%Q.
Proof. rewrite Pos2Z.inj_xI, inject_Z_plus, inject_Z_mult. reflexivity. Qed.

Lemma inject_Z_succ m : (inject_Z (m + 1) == inject_Z m + 1)%Q.
Proof. rewrite inject_Z_plus. reflexivity. Qed.

Lemma rne_mono y1 y2 q1 q2 :
  rne y1 q1 -> rne y2 q2 -> (y1 <= y2)%Q -> q1 <= q2.
Proof.
  intros (L1 & U1 & T1) (L2 & U2 & T2) H.
  destruct (Z_le_gt_dec q1 q2) as [| G]; [assumption | exfalso].
  assert (q2 + 1 <= q1) as G' by lia.
  apply inject_Z_le in G'. rewrite inject_Z_succ in G'.
  assert (inject_Z q1 <= inject_Z q2 + 1)%Q as G'' by lra.
  rewrite <- inject_Z_succ in G''. apply inject_Z_le_inv in G''.
  assert (y1 == inject_Z q1 - (1 # 2))%Q as E1 by lra.
  assert (y2 == inject_Z q2 + (1 # 2))%Q as E2 by lra.
  specialize (T1 (or_introl E1)). specialize (T2 (or_intror E2)).
  apply Z.even_spec in T1, T2. destruct T1 as [k1 K1], T2 as [k2 K2]. lia.
Qed.

Lemma rne_exact q : rne (inject_Z q) q.
Proof.
  split; [lra | split; [lra |]]. intros [H | H]; exfalso; lra.
Qed.

Lemma rne_unique y q1 q2 : rne y q1 -> rne y q2 -> q1 = q2.
Proof.
  intros H1 H2.
  pose proof (rne_mono y y q1 q2 H1 H2 (Qle_refl y)).
  pose proof (rne_mono y y q2 q1 H2 H1 (Qle_refl y)). lia.
Qed.

Lemma rne_nonneg y q : (0 <= y)%Q -> rne y q -> 0 <= q.
Proof.
  intros Hy (L & U & _).
  assert (inject_Z (-1) < inject_Z q)%Q as H.
  { change (inject_Z (-1)) with (-1)%Q. lra. }
  apply inject_Z_lt_inv in H. lia.
Qed.

Lemma rne_le_bound y q b : (y <= inject_Z b)%Q -> rne y q -> q <= b.
Proof.
  intros Hy Hq. exact (rne_mono _ _ _ _ Hq (rne_exact b) Hy).
Qed.

Lemma rne_ge_bound y q b : (inject_Z b <= y)%Q -> rne y q -> b <= q.
Proof.
  intros Hy Hq. exact (rne_mono _ _ _ _ (rne_exact b) Hq Hy).
Qed.

Lemma inbr_rne y m l : inbr y m l -> rne y (round_nearest_even m l).
Proof.
  destruct l as [| [ | | ]]; cbn [inbr round_nearest_even].
  - intro H. split; [lra | split; [lra |]].
    intros [T | T]; exfalso; lra.
  - intro H. destruct (Z.even m) eqn:Ev.
    + split; [lra | split; [lra |]]. intros _. exact Ev.
    + unfold rne. rewrite inject_Z_succ. split; [lra | split; [lra |]].
      intros _. rewrite Z.even_add, Ev. reflexivity.
  - intros [L U]. split; [lra | split; [lra |]].
    intros [T | T]; exfalso; lra.
  - intros [L U]. unfold rne. rewrite inject_Z_succ.
    split; [lra | split; [lra |]]. intros [T | T]; exfalso; lra.
Qed.

Lemma loc_of_record_of_loc m l :
  loc_of_shr_record (shr_record_of_loc m l) = l /\
  shr_m (shr_record_of_loc m l) = m.
Proof. destruct l as [| [ | | ]]; split; reflexivity. Qed.

(** One right shift halves the located number. *)
Lemma shr_1_inbr mrs y :
  0 <= shr_m mrs -> inbr y (shr_m mrs) (loc_of_shr_record mrs) ->
  inbr (y * (1 # 2)) (shr_m (shr_1 mrs)) (loc_of_shr_record (shr_1 mrs)) /\
  0 <= shr_m (shr_1 mrs).
Proof.
  destruct mrs as [m r s]. cbn [shr_m]. intros Hm H.
  destruct m as [| p | p]; [| | lia].
  - destruct r, s; cbn [shr_1 orb loc_of_shr_record shr_m inbr] in *;
      change (inject_Z 0) with 0%Q in *; split; try lia; lra.
  - destruct p as [p | p |]; destruct r, s;
      cbn [shr_1 orb loc_of_shr_record shr_m inbr] in *;
      try rewrite inject_Z_xI in H; try rewrite inject_Z_xO in H;
      change (inject_Z 1) with 1%Q in *; change (inject_Z 0) with 0%Q in *;
      split; try lia; lra.
Qed.

Lemma iter_pos_shr_1_inbr p : forall mrs y,
  0 <= shr_m mrs -> inbr y (shr_m mrs) (loc_of_shr_record mrs) ->
  inbr (y * pow2 (- Zpos p)) (shr_m (iter_pos shr_1 p mrs))
       (loc_of_shr_record (iter_pos shr_1 p mrs)) /\
  0 <= shr_m (iter_pos shr_1 p mrs).
Proof.
  assert (forall m l a b, (a == b)%Q -> inbr a m l -> inbr b m l) as Ext.
  { intros m l a b E. destruct l as [| [ | | ]]; cbn [inbr];
      rewrite E; auto. }
  induction p as [p IH | p IH |]; intros mrs y Hm H; cbn [iter_pos].
  - destruct (shr_1_inbr mrs y Hm H) as [H1 M1].
    destruct (IH _ _ M1 H1) as [H2 M2].
    destruct (IH _ _ M2 H2) as [H3 M3].
    split; [| exact M3]. eapply Ext; [| exact H3].
    replace (- Zpos p~1) with (-1 + (- Zpos p + - Zpos p)) by lia.
    rewrite !pow2_add. change (pow2 (-1)) with (1 # 2)%Q. ring.
  - destruct (IH _ _ Hm H) as [H2 M2].
    destruct (IH _ _ M2 H2) as [H3 M3].
    split; [| exact M3]. eapply Ext; [| exact H3].
    replace (- Zpos p~0) with (- Zpos p + - Zpos p) by lia.
    rewrite !pow2_add. ring.
  - destruct (shr_1_inbr mrs y Hm H) as [H1 M1]. split; [| exact M1].
    exact H1.
Qed.

Lemma inbr_bounds y m l :
  inbr y m l -> (inject_Z m <= y)%Q /\ (y < inject_Z m + 1)%Q.
Proof. destruct l as [| [ | | ]]; cbn [inbr]; intro H; split; lra. Qed.

Lemma inbr_ext m l a b : (a == b)%Q -> inbr a m l -> inbr b m l.
Proof.
  intro E. destruct l as [| [ | | ]]; cbn [inbr]; rewrite E; auto.
Qed.

Lemma mag_ext x y g : (x == y)%Q -> mag x g -> mag y g.
Proof. intros E [L U]. split; rewrite <- E; assumption. Qed.

Lemma rne_ext x y q : (x == y)%Q -> rne x q -> rne y q.
Proof.
  intros E (L & U & T). split; [| split].
  - rewrite <- E. exact L.
  - rewrite <- E. exact U.
  - intros [H | H]; apply T; [left | right]; rewrite E; exact H.
Qed.

(* ================================================================== *)
(** * [binary_round_aux] rounds to nearest, ties to even                *)
(* ================================================================== *)

Section Rounding.

Variables prec emax : Z.
Hypothesis Hprec : 0 < prec.
Hypothesis Hemax : prec < emax.

Lemma fexp_ge_emin g : emin prec emax <= fexp prec emax g.
Proof. unfold fexp. lia. Qed.

Lemma fexp_mono g g' : g <= g' -> fexp prec emax g <= fexp prec emax g'.
Proof. unfold fexp. lia. Qed.

Lemma shr_fexp_spec m e l x :
  0 <= m -> inbr (x * pow2 (- e)) m l ->
  snd (shr_fexp prec emax m e l)
  = Z.max e (fexp prec emax (Zdigits2 m + e)) /\
  inbr (x * pow2 (- snd (shr_fexp prec emax m e l)))
       (shr_m (fst (shr_fexp prec emax m e l)))
       (loc_of_shr_record (fst (shr_fexp prec emax m e l))) /\
  0 <= shr_m (fst (shr_fexp prec emax m e l)).
Proof.
  intros Hm H. unfold shr_fexp, shr.
  destruct (loc_of_record_of_loc m l) as [El Em].
  destruct (fexp prec emax (Zdigits2 m + e) - e) as [| p | p] eqn:En;
    cbn [fst snd].
  - rewrite El, Em. split; [lia | split; assumption].
  - assert (0 <= shr_m (shr_record_of_loc m l)) as Hm' by (rewrite Em; lia).
    assert (inbr (x * pow2 (- e)) (shr_m (shr_record_of_loc m l))
              (loc_of_shr_record (shr_record_of_loc m l))) as H'
      by (rewrite El, Em; exact H).
    destruct (iter_pos_shr_1_inbr p _ _ Hm' H') as [H1 M1].
    split; [lia | split; [| exact M1]].
    eapply inbr_ext; [| exact H1].
    replace (- (e + Zpos p)) with (- e + - Zpos p) by lia.
    rewrite pow2_add. ring.
  - rewrite El, Em. split; [lia | split; assumption].
Qed.

Lemma Zdigits2_le_prec q :
  0 < q -> q < 2 ^ prec -> Zdigits2 q <= prec.
Proof.
  intros Hq Hlt. destruct (Zdigits2_bounds q Hq) as [A _].
  assert (2 ^ (Zdigits2 q - 1) < 2 ^ prec) as B by lia.
  apply Z.pow_lt_mono_r_iff in B; lia.
Qed.

Lemma Zdigits2_pow2 k : 0 <= k -> Zdigits2 (2 ^ k) = k + 1.
Proof.
  intro Hk. assert (0 < 2 ^ k) as P by (apply Z.pow_pos_nonneg; lia).
  destruct (Zdigits2_bounds _ P) as [A B].
  pose proof (Zdigits2_pos _ P) as D.
  apply Z.pow_le_mono_r_iff in A; try lia.
  apply Z.pow_lt_mono_r_iff in B; lia.
Qed.

(** The second normalisation of [binary_round_aux], on the rounded
    mantissa [q <= 2^prec] at an exponent [E >= emin]. *)
Lemma round_carry s q E :
  0 <= q <= 2 ^ prec -> emin prec emax <= E ->
  (let '(mrs, e) := shr_fexp prec emax q E loc_Exact in
   match shr_m mrs with
   | Z0 => S754_zero s
   | Zpos m => if e <=? emax - prec then S754_finite s m e
               else S754_infinity s
   | Zneg _ => S754_nan
   end) = mkf prec emax s q E.
Proof.
  intros [Hq0 Hq] HE. unfold mkf.
  destruct (Z.eqb_spec q (2 ^ prec)) as [-> | Hne].
  - unfold shr_fexp, shr. rewrite Zdigits2_pow2 by lia.
    unfold fexp.
    replace (Z.max (prec + 1 + E - prec) (emin prec emax) - E) with 1 by lia.
    cbn [iter_pos shr_record_of_loc].
    replace (2 ^ prec) with (2 * 2 ^ (prec - 1)).
    2:{ rewrite <- Z.pow_succ_r by lia. f_equal. lia. }
    assert (0 < 2 ^ (prec - 1)) as P by (apply Z.pow_pos_nonneg; lia).
    destruct (2 ^ (prec - 1)) as [| p | p] eqn:Ep; try lia.
    change (2 * Zpos p) with (Zpos p~0). cbn [shr_1 orb shr_m].
    reflexivity.
  - destruct q as [| p | p]; [| | lia].
    + unfold shr_fexp, shr. cbn [Zdigits2 shr_record_of_loc].
      destruct (fexp prec emax (0 + E) - E) as [| n | n] eqn:En.
      * reflexivity.
      * unfold fexp in En. lia.
      * reflexivity.
    + assert (Zdigits2 (Zpos p) <= prec) as D
        by (apply Zdigits2_le_prec; lia).
      unfold shr_fexp, shr. cbn [shr_record_of_loc].
      destruct (fexp prec emax (Zdigits2 (Zpos p) + E) - E)
        as [| n | n] eqn:En.
      * reflexivity.
      * unfold fexp in En. lia.
      * reflexivity.
Qed.

Theorem binary_round_aux_correct s m e l x g :
  0 <= m -> inbr (x * pow2 (- e)) m l -> mag x g ->
  e <= fexp prec emax g ->
  exists q,
    rne (x * pow2 (- fexp prec emax g)) q /\ 0 <= q <= 2 ^ prec /\
    binary_round_aux prec emax s m e l
    = mkf prec emax s q (fexp prec emax g).
Proof.
  intros Hm H Hg He.
  destruct (shr_fexp_spec m e l x Hm H) as (E1 & H1 & M1).
  assert (snd (shr_fexp prec emax m e l) = fexp prec emax g) as E1'.
  { rewrite E1. destruct (inbr_bounds _ _ _ H) as [L U].
    destruct (Z.eq_dec m 0) as [-> | Hm0].
    - change (inject_Z 0) with 0%Q in *. cbn [Zdigits2].
      assert (x < pow2 e)%Q as Hx.
      { pose proof (pow2_pos e) as P. pose proof (pow2_opp_mul e) as I.
        assert (x == x * pow2 (- e) * pow2 e)%Q as Ex
          by (rewrite <- Qmult_assoc, (Qmult_comm (pow2 (- e))), I; ring).
        rewrite Ex.
        setoid_replace (pow2 e) with (1 * pow2 e)%Q at 2 by ring.
        apply Qmult_lt_compat_r; lra. }
      destruct Hg as [Lg Ug].
      assert (g - 1 < e) by (apply pow2_lt_inv; lra).
      unfold fexp in *. lia.
    - assert (0 < m) as Hm1 by lia.
      pose proof (mag_of_floor _ _ Hm1 L U) as Hy.
      apply (mag_scale _ _ e) in Hy.
      assert (mag x (Zdigits2 m + e)) as Hx.
      { eapply mag_ext; [| exact Hy].
        rewrite <- Qmult_assoc, (Qmult_comm (pow2 (- e))), pow2_opp_mul.
        ring. }
      rewrite (mag_unique _ _ _ Hx Hg). lia. }
  clear E1. unfold binary_round_aux.
  destruct (shr_fexp prec emax m e l) as [mrs' e'] eqn:S1.
  cbn [fst snd] in *. subst e'.
  set (q := round_nearest_even (shr_m mrs') (loc_of_shr_record mrs')).
  assert (rne (x * pow2 (- fexp prec emax g)) q) as Hq
    by (apply inbr_rne; exact H1).
  assert (0 <= q <= 2 ^ prec) as Bq.
  { pose proof (mag_pos _ _ Hg) as Px.
    pose proof (pow2_pos (- fexp prec emax g)) as Pp.
    split.
    - eapply rne_nonneg; [| exact Hq]. apply Qmult_le_0_compat; lra.
    - eapply rne_le_bound; [| exact Hq].
      rewrite <- pow2_Z by lia. destruct Hg as [_ Ug].
      apply Qle_trans with (pow2 g * pow2 (- fexp prec emax g))%Q.
      + apply Qmult_le_compat_r; lra.
      + rewrite <- pow2_add. apply pow2_le. unfold fexp. lia. }
  exists q. split; [exact Hq |]. split; [exact Bq |].
  apply round_carry; [exact Bq | apply fexp_ge_emin].
Qed.

End Rounding.

(* ================================================================== *)
(** * The order of [SFcompare]                                          *)
(* ================================================================== *)

Lemma SFcompare_swap x y :
  SFcompare y x = option_map CompOpp (SFcompare x y).
Proof.
  destruct x as [sx | sx | | sx mx ex], y as [sy | sy | | sy my ey];
    try destruct sx; try destruct sy; try reflexivity;
    cbn [SFcompare option_map];
    change (PosDef.Pos.compare_cont Eq) with Pos.compare;
    rewrite (Z.compare_antisym ey ex), (Pos.compare_antisym my mx);
    destruct (ey ?= ex); cbn [CompOpp]; try reflexivity;
    rewrite ?CompOpp_involutive; reflexivity.
Qed.

Lemma SFltb_SFleb x y :
  is_nan x = false -> is_nan y = false -> SFltb x y = negb (SFleb y x).
Proof.
  intros Hx Hy. unfold SFltb, SFleb. rewrite (SFcompare_swap x y).
  destruct (SFcompare x y) as [[ | | ] |] eqn:E; try reflexivity.
  destruct x, y; try discriminate; cbn in E; try discriminate;
    repeat match type of E with context [if ?b then _ else _] =>
      destruct b end; discriminate.
Qed.

Lemma SFleb_not_nan x y :
  SFleb x y = true -> is_nan x = false /\ is_nan y = false.
Proof. destruct x, y; cbn; try discriminate; auto. Qed.

Lemma SFltb_not_nan x y :
  SFltb x y = true -> is_nan x = false /\ is_nan y = false.
Proof. destruct x, y; cbn; try discriminate; auto. Qed.

Lemma SFltb_le x y : SFltb x y = true -> SFleb x y = true.
Proof.
  unfold SFltb, SFleb. destruct (SFcompare x y) as [[ | | ] |];
    auto; discriminate.
Qed.

Lemma SFleb_refl x : is_nan x = false -> SFleb x x = true.
Proof.
  destruct x as [sx | sx | | sx mx ex]; try destruct sx; cbn;
    try discriminate; try reflexivity; intros _;
    change (PosDef.Pos.compare_cont Eq) with Pos.compare;
    rewrite Z.compare_refl, Pos.compare_refl; reflexivity.
Qed.

Lemma SFleb_total x y :
  is_nan x = false -> is_nan y = false ->
  SFleb x y = true \/ SFltb y x = true.
Proof.
  intros Hx Hy. rewrite (SFltb_SFleb y x Hy Hx).
  destruct (SFleb x y); auto.
Qed.

Lemma SFleb_trans x y z :
  SFleb x y = true -> SFleb y z = true -> SFleb x z = true.
Proof.
  unfold SFleb.
  destruct x as [sx | sx | | sx mx ex], y as [sy | sy | | sy my ey],
    z as [sz | sz | | sz mz ez];
    try destruct sx; try destruct sy; try destruct sz;
    cbn [SFcompare]; try discriminate; try reflexivity;
    change (PosDef.Pos.compare_cont Eq) with Pos.compare;
    repeat match goal with
      | |- context [Z.compare ?a ?b] => destruct (Z.compare_spec a b)
      | |- context [Pos.compare ?a ?b] => destruct (Pos.compare_spec a b)
      end; cbn; intros; try discriminate; try reflexivity;
    exfalso; subst; lia.
Qed.

Lemma SFleb_opp x y : SFleb (SFopp x) (SFopp y) = SFleb y x.
Proof.
  unfold SFleb. rewrite (SFcompare_swap x y).
  destruct x as [sx | sx | | sx mx ex], y as [sy | sy | | sy my ey];
    try destruct sx; try destruct sy; try reflexivity;
    cbn [SFopp SFcompare negb option_map];
    destruct (ex ?= ey); cbn [CompOpp]; try reflexivity;
    destruct (PosDef.Pos.compare_cont Eq mx my); reflexivity.
Qed.

Lemma SFcompare_Eq_F2Q x y : SFcompare x y = Some Eq -> (F2Q x == F2Q y)%Q.
Proof.
  destruct x as [sx | sx | | sx mx ex], y as [sy | sy | | sy my ey];
    try destruct sx; try destruct sy; cbn [SFcompare F2Q];
    try discriminate; try reflexivity;
    change (PosDef.Pos.compare_cont Eq) with Pos.compare;
    destruct (Z.compare_spec ex ey); try discriminate;
    destruct (Pos.compare_spec mx my); try discriminate;
    intros _; subst; reflexivity.
Qed.

Lemma SFleb_antisym x y :
  SFleb x y = true -> SFleb y x = true -> SFcompare x y = Some Eq.
Proof.
  unfold SFleb. rewrite (SFcompare_swap x y).
  destruct (SFcompare x y) as [[ | | ] |]; cbn; intros; try discriminate.
  reflexivity.
Qed.

(* ================================================================== *)
(** * Rounding is monotone and lands in the format                      *)
(* ================================================================== *)

Section Format.

Variables prec emax : Z.
Hypothesis Hprec : 0 < prec.
Hypothesis Hemax : prec < emax.

(** What a rounded mantissa [q] at exponent [E] satisfies. *)
Lemma rounded_bounds x g q :
  mag x g -> rne (x * pow2 (- fexp prec emax g)) q ->
  0 <= q <= 2 ^ prec /\
  (emin prec emax < fexp prec emax g -> 2 ^ (prec - 1) <= q).
Proof.
  intros Hg Hq. pose proof (mag_pos _ _ Hg) as Px.
  pose proof (pow2_pos (- fexp prec emax g)) as Pp.
  destruct Hg as [Lg Ug]. split; [split |].
  - eapply rne_nonneg; [| exact Hq]. apply Qmult_le_0_compat; lra.
  - eapply rne_le_bound; [| exact Hq].
    rewrite <- pow2_Z by lia.
    apply Qle_trans with (pow2 g * pow2 (- fexp prec emax g))%Q.
    + apply Qmult_le_compat_r; lra.
    + rewrite <- pow2_add. apply pow2_le. unfold fexp. lia.
  - intro HE. eapply rne_ge_bound; [| exact Hq].
    rewrite <- pow2_Z by lia.
    apply Qle_trans with (pow2 (g - 1) * pow2 (- fexp prec emax g))%Q.
    + rewrite <- pow2_add. apply pow2_le. unfold fexp in *. lia.
    + apply Qmult_le_compat_r; lra.
Qed.

Lemma Zdigits2_ge_prec q : 2 ^ (prec - 1) <= q -> prec <= Zdigits2 q.
Proof.
  intro Hq. assert (0 < 2 ^ (prec - 1)) by (apply Z.pow_pos_nonneg; lia).
  destruct (Zdigits2_bounds q ltac:(lia)) as [_ B].
  assert (2 ^ (prec - 1) < 2 ^ Zdigits2 q) as C by lia.
  apply Z.pow_lt_mono_r_iff in C; try lia.
  pose proof (Zdigits2_pos q ltac:(lia)). lia.
Qed.

Lemma half_pow : 2 ^ prec = 2 * 2 ^ (prec - 1) /\ 0 < 2 ^ (prec - 1).
Proof.
  split.
  - rewrite <- Z.pow_succ_r by lia. f_equal. lia.
  - apply Z.pow_pos_nonneg; lia.
Qed.

Lemma mkf_valid s q E :
  0 <= q <= 2 ^ prec -> emin prec emax <= E ->
  (emin prec emax < E -> 2 ^ (prec - 1) <= q) ->
  valid_binary prec emax (mkf prec emax s q E) = true.
Proof.
  intros Hq HE Hn. destruct half_pow as [HP PP]. unfold mkf.
  destruct (Z.eqb_spec q (2 ^ prec)) as [-> | Hne].
  - destruct (Z.leb_spec (E + 1) (emax - prec)); [| reflexivity].
    cbn [valid_binary]. unfold bounded, canonical_mantissa.
    apply andb_true_intro. split; [| apply Z.leb_le; assumption].
    apply Z.eqb_eq.
    change (Zpos (digits2_pos (Z.to_pos (2 ^ (prec - 1)))))
      with (Zdigits2 (Zpos (Z.to_pos (2 ^ (prec - 1))))).
    rewrite Z2Pos.id by lia. rewrite Zdigits2_pow2 by lia.
    unfold fexp. lia.
  - destruct q as [| p | p]; [reflexivity | | lia].
    destruct (Z.leb_spec E (emax - prec)); [| reflexivity].
    cbn [valid_binary]. unfold bounded, canonical_mantissa.
    apply andb_true_intro. split; [| apply Z.leb_le; assumption].
    apply Z.eqb_eq.
    change (Zpos (digits2_pos p)) with (Zdigits2 (Zpos p)).
    assert (Zdigits2 (Zpos p) <= prec) as D
      by (apply Zdigits2_le_prec; lia).
    destruct (Z.eq_dec E (emin prec emax)) as [-> | HE'].
    + unfold fexp. lia.
    + pose proof (Zdigits2_ge_prec (Zpos p) ltac:(apply Hn; lia)).
      unfold fexp. lia.
Qed.

Lemma mkf_opp s q E :
  0 <= q -> mkf prec emax (negb s) q E = SFopp (mkf prec emax s q E).
Proof.
  intro Hq. unfold mkf. destruct (q =? 2 ^ prec).
  - destruct (E + 1 <=? emax - prec); reflexivity.
  - destruct q; try lia; try reflexivity.
    destruct (E <=? emax - prec); reflexivity.
Qed.

Lemma mkf_not_nan s q E : 0 <= q -> is_nan (mkf prec emax s q E) = false.
Proof.
  intro Hq. unfold mkf. destruct (q =? 2 ^ prec).
  - destruct (E + 1 <=? emax - prec); reflexivity.
  - destruct q; try lia; try reflexivity.
    destruct (E <=? emax - prec); reflexivity.
Qed.

(** Positive results are ordered as their (exponent, mantissa) pairs. *)
Lemma mkf_mono q1 E1 q2 E2 :
  0 <= q1 <= 2 ^ prec -> 0 <= q2 <= 2 ^ prec ->
  (E1 < E2 -> 2 ^ (prec - 1) <= q2) ->
  E1 < E2 \/ (E1 = E2 /\ q1 <= q2) ->
  SFleb (mkf prec emax false q1 E1) (mkf prec emax false q2 E2) = true.
Proof.
  intros H1 H2 Hn Hle. destruct half_pow as [HP PP].
  assert (Zpos (Z.to_pos (2 ^ (prec - 1))) = 2 ^ (prec - 1)) as HZ
    by (apply Z2Pos.id; lia).
  unfold mkf.
  destruct (Z.eqb_spec q1 (2 ^ prec)), (Z.eqb_spec q2 (2 ^ prec));
    repeat match goal with
      | |- context [Z.leb ?a ?b] => destruct (Z.leb_spec a b)
      end;
    destruct q1 as [| p1 | p1]; destruct q2 as [| p2 | p2]; try lia;
    unfold SFleb; cbn [SFcompare]; try reflexivity;
    change (PosDef.Pos.compare_cont Eq) with Pos.compare;
    repeat match goal with
      | |- context [Z.compare ?a ?b] => destruct (Z.compare_spec a b)
      | |- context [Pos.compare ?a ?b] => destruct (Pos.compare_spec a b)
      end; try reflexivity; exfalso; lia.
Qed.

End Format.

Section RndFacts.

Variables prec emax : Z.
Hypothesis Hprec : 0 < prec.
Hypothesis Hemax : prec < emax.

Lemma Rnd_pos_mono x y g g' q q' :
  mag x g -> rne (x * pow2 (- fexp prec emax g)) q ->
  mag y g' -> rne (y * pow2 (- fexp prec emax g')) q' ->
  (x <= y)%Q ->
  SFleb (mkf prec emax false q (fexp prec emax g))
        (mkf prec emax false q' (fexp prec emax g')) = true.
Proof.
  intros Hg Hq Hg' Hq' Hxy.
  destruct (rounded_bounds prec emax Hprec x g q Hg Hq) as [B1 N1].
  destruct (rounded_bounds prec emax Hprec y g' q' Hg' Hq') as [B2 N2].
  pose proof (mag_le _ _ _ _ Hg Hg' Hxy) as Gle.
  pose proof (fexp_mono prec emax _ _ Gle) as Ele.
  pose proof (fexp_ge_emin prec emax g) as Emin.
  apply mkf_mono; try assumption.
  - intro. apply N2. lia.
  - destruct (Z.eq_dec (fexp prec emax g) (fexp prec emax g')) as [Eq | Ne].
    + right. split; [exact Eq |].
      eapply rne_mono; [exact Hq | exact Hq' |].
      rewrite Eq. apply Qmult_le_compat_r; [exact Hxy |].
      pose proof (pow2_pos (- fexp prec emax g')). lra.
    + left. lia.
Qed.

Lemma Rnd_not_nan x f : Rnd prec emax x f -> is_nan f = false.
Proof.
  intros [[_ Z] | [[Px (g & q & Hg & Hq & ->)] | [Px (g & q & Hg & Hq & ->)]]].
  - destruct f; try discriminate; reflexivity.
  - apply mkf_not_nan.
    apply (rounded_bounds prec emax Hprec x g q Hg Hq).
  - apply mkf_not_nan.
    apply (rounded_bounds prec emax Hprec (- x) g q Hg Hq).
Qed.

Lemma Rnd_valid x f : Rnd prec emax x f -> valid_binary prec emax f = true.
Proof.
  intros [[_ Z] | [[Px (g & q & Hg & Hq & ->)] | [Px (g & q & Hg & Hq & ->)]]].
  - destruct f; try discriminate; reflexivity.
  - destruct (rounded_bounds prec emax Hprec x g q Hg Hq) as [B N].
    apply mkf_valid; try assumption. apply fexp_ge_emin.
  - destruct (rounded_bounds prec emax Hprec (- x) g q Hg Hq) as [B N].
    apply mkf_valid; try assumption. apply fexp_ge_emin.
Qed.

(** Signs of a rounded value. *)
Lemma mkf_true_le_zero q E s :
  0 <= q -> SFleb (mkf prec emax true q E) (S754_zero s) = true.
Proof.
  intro Hq. unfold mkf. destruct (q =? 2 ^ prec).
  - destruct (E + 1 <=? emax - prec); reflexivity.
  - destruct q; try lia; try reflexivity.
    destruct (E <=? emax - prec); reflexivity.
Qed.

Lemma zero_le_mkf_false q E s :
  0 <= q -> SFleb (S754_zero s) (mkf prec emax false q E) = true.
Proof.
  intro Hq. unfold mkf. destruct (q =? 2 ^ prec).
  - destruct (E + 1 <=? emax - prec); reflexivity.
  - destruct q; try lia; try reflexivity.
    destruct (E <=? emax - prec); reflexivity.
Qed.

Lemma is_zero_le_le a b :
  is_zero a = true -> is_zero b = true -> SFleb a b = true.
Proof. destruct a, b; try discriminate; reflexivity. Qed.

Theorem Rnd_mono x y f f' :
  Rnd prec emax x f -> Rnd prec emax y f' -> (x <= y)%Q ->
  SFleb f f' = true.
Proof.
  intros Hx Hy Hxy.
  destruct Hx as [[Zx Fx] | [[Px (g & q & Hg & Hq & ->)]
                            | [Px (g & q & Hg & Hq & ->)]]];
  destruct Hy as [[Zy Fy] | [[Py (g' & q' & Hg' & Hq' & ->)]
                            | [Py (g' & q' & Hg' & Hq' & ->)]]];
    try (exfalso; lra).
  - apply is_zero_le_le; assumption.
  - destruct f; try discriminate. apply zero_le_mkf_false.
    apply (rounded_bounds prec emax Hprec y g' q' Hg' Hq').
  - apply (Rnd_pos_mono x y); assumption.
  - destruct f'; try discriminate. apply mkf_true_le_zero.
    apply (rounded_bounds prec emax Hprec (- x) g q Hg Hq).
  - eapply SFleb_trans with (y := S754_zero false).
    + apply mkf_true_le_zero.
      apply (rounded_bounds prec emax Hprec (- x) g q Hg Hq).
    + apply zero_le_mkf_false.
      apply (rounded_bounds prec emax Hprec y g' q' Hg' Hq').
  - change true with (negb false).
    rewrite !mkf_opp
      by first [ apply (rounded_bounds prec emax Hprec (- x) g q Hg Hq)
               | apply (rounded_bounds prec emax Hprec (- y) g' q' Hg' Hq') ].
    rewrite SFleb_opp. apply (Rnd_pos_mono (- y) (- x)); try assumption. lra.
Qed.

(** Every value of the format is its own rounding. *)
Lemma valid_Rnd f :
  valid_binary prec emax f = true -> is_finite f = true ->
  Rnd prec emax (F2Q f) f.
Proof.
  destruct f as [s | s | | s m e]; try discriminate; intros V _.
  - left. split; reflexivity.
  - cbn [valid_binary] in V. unfold bounded, canonical_mantissa in V.
    apply andb_prop in V. destruct V as [C B].
    apply Z.eqb_eq in C. apply Z.leb_le in B.
    change (Zpos (digits2_pos m)) with (Zdigits2 (Zpos m)) in C.
    assert (mag (inject_Z (Zpos m) * pow2 e) (Zdigits2 (Zpos m) + e)) as Hg.
    { apply mag_scale. apply mag_of_floor; try lia; lra. }
    pose proof (pow2_pos e) as Pe.
    assert (0 < inject_Z (Zpos m))%Q as Pm by (apply (inject_Z_lt 0); lia).
    assert (0 < inject_Z (Zpos m) * pow2 e)%Q as Px
      by (apply Qmult_lt_0_compat; assumption).
    assert (rne (inject_Z (Zpos m) * pow2 e
                 * pow2 (- fexp prec emax (Zdigits2 (Zpos m) + e)))
              (Zpos m)) as Hq.
    { rewrite C. eapply rne_ext; [| apply rne_exact].
      rewrite <- Qmult_assoc, pow2_opp_mul. ring. }
    assert (mkf prec emax s (Zpos m) e = S754_finite s m e) as Hm.
    { unfold mkf.
      assert (Zdigits2 (Zpos m) <= prec) as D by (unfold fexp in C; lia).
      destruct (Zdigits2_bounds (Zpos m) ltac:(lia)) as [_ U].
      assert (2 ^ Zdigits2 (Zpos m) <= 2 ^ prec) as PW
        by (apply Z.pow_le_mono_r; lia).
      destruct (Z.eqb_spec (Zpos m) (2 ^ prec)); [lia |].
      destruct (Z.leb_spec e (emax - prec)); [reflexivity | lia]. }
    destruct s; cbn [F2Q].
    + right. right. split; [lra |].
      exists (Zdigits2 (Zpos m) + e), (Zpos m). split; [| split].
      * eapply mag_ext; [| exact Hg]. ring.
      * eapply rne_ext; [| exact Hq]. ring.
      * rewrite C. symmetry. exact Hm.
    + right. left. split; [lra |].
      exists (Zdigits2 (Zpos m) + e), (Zpos m). split; [| split].
      * exact Hg.
      * exact Hq.
      * rewrite C. symmetry. exact Hm.
Qed.

(** On values of the format, the order of [SFcompare] is the order of
    the rationals. *)
Lemma SFleb_F2Q x y :
  valid_binary prec emax x = true -> valid_binary prec emax y = true ->
  is_finite x = true -> is_finite y = true ->
  SFleb x y = true -> (F2Q x <= F2Q y)%Q.
Proof.
  intros Vx Vy Fx Fy H.
  destruct (Qlt_le_dec (F2Q y) (F2Q x)) as [L | L]; [| exact L].
  pose proof (Rnd_mono _ _ _ _ (valid_Rnd y Vy Fy) (valid_Rnd x Vx Fx)
                (Qlt_le_weak _ _ L)) as H'.
  pose proof (SFcompare_Eq_F2Q _ _ (SFleb_antisym _ _ H H')). lra.
Qed.

Lemma F2Q_SFleb x y :
  valid_binary prec emax x = true -> valid_binary prec emax y = true ->
  is_finite x = true -> is_finite y = true ->
  (F2Q x <= F2Q y)%Q -> SFleb x y = true.
Proof.
  intros Vx Vy Fx Fy H.
  exact (Rnd_mono _ _ _ _ (valid_Rnd x Vx Fx) (valid_Rnd y Vy Fy) H).
Qed.

Lemma SFltb_F2Q x y :
  valid_binary prec emax x = true -> valid_binary prec emax y = true ->
  is_finite x = true -> is_finite y = true ->
  SFltb x y = true -> (F2Q x < F2Q y)%Q.
Proof.
  intros Vx Vy Fx Fy H.
  destruct (Qlt_le_dec (F2Q x) (F2Q y)) as [L | L]; [exact L |].
  pose proof (F2Q_SFleb y x Vy Vx Fy Fx L) as H'.
  rewrite SFltb_SFleb in H.
  - rewrite H' in H. discriminate.
  - destruct x; try discriminate; reflexivity.
  - destruct y; try discriminate; reflexivity.
Qed.

End RndFacts.

(* ================================================================== *)
(** * The operations round the exact result                             *)
(* ================================================================== *)

Lemma iter_xO_pow m d : Zpos (Pos.iter xO m d) = Zpos m * 2 ^ Zpos d.
Proof.
  induction d as [| d IH] using Pos.peano_ind.
  - cbn [Pos.iter]. lia.
  - rewrite Pos.iter_succ, Pos2Z.inj_xO, IH, Pos2Z.inj_succ,
      Z.pow_succ_r by lia. lia.
Qed.

Lemma F2Q_pos m e : (0 < inject_Z (Zpos m) * pow2 e)%Q.
Proof.
  apply Qmult_lt_0_compat; [apply (inject_Z_lt 0); lia | apply pow2_pos].
Qed.

Lemma mag_finite m e :
  mag (inject_Z (Zpos m) * pow2 e) (Zdigits2 (Zpos m) + e).
Proof. apply mag_scale. apply mag_of_floor; try lia; lra. Qed.

Lemma shl_align_spec m e e' :
  snd (shl_align m e e') = Z.min e e' /\
  (inject_Z (Zpos (fst (shl_align m e e'))) * pow2 (snd (shl_align m e e'))
   == inject_Z (Zpos m) * pow2 e)%Q.
Proof.
  unfold shl_align. destruct (e' - e) as [| d | d] eqn:Ed; cbn [fst snd].
  - split; [lia | reflexivity].
  - split; [lia | reflexivity].
  - split; [lia |]. rewrite iter_xO_pow, inject_Z_mult.
    rewrite <- pow2_Z by lia. rewrite <- Qmult_assoc, <- pow2_add.
    replace (Zpos d + e') with e by lia. reflexivity.
Qed.

Lemma new_location_inbr m2 q r :
  0 < m2 -> 0 <= r < m2 ->
  inbr (inject_Z q + inject_Z r / inject_Z m2) q (new_location m2 r).
Proof.
  intros Hm [Hr0 Hr].
  assert (0 < inject_Z m2)%Q as Pm by (apply (inject_Z_lt 0); lia).
  assert (inject_Z r / inject_Z m2 * inject_Z m2 == inject_Z r)%Q as Er
    by (field; lra).
  assert (forall c, (inject_Z r < c * inject_Z m2)%Q ->
                    (inject_Z r / inject_Z m2 < c)%Q) as Up
    by (intros; apply Qlt_shift_div_r; assumption).
  assert (forall c, (c * inject_Z m2 < inject_Z r)%Q ->
                    (c < inject_Z r / inject_Z m2)%Q) as Lo
    by (intros; apply Qlt_shift_div_l; assumption).
  assert (inject_Z (2 * r) == 2 * inject_Z r)%Q as E2
    by (rewrite inject_Z_mult; reflexivity).
  unfold new_location, new_location_even, new_location_odd.
  destruct (Z.eqb_spec r 0) as [-> | Hr1].
  - destruct (Z.even m2); cbn [Z.eqb inbr]; unfold Qdiv;
      change (inject_Z 0) with 0%Q; ring.
  - apply Z.eqb_neq in Hr1.
    assert (0 < inject_Z r)%Q as Pr by (apply (inject_Z_lt 0); lia).
    assert (0 < inject_Z r / inject_Z m2)%Q as Pt
      by (apply Lo; lra).
    assert (inject_Z r / inject_Z m2 < 1)%Q as Ut.
    { apply Up. apply inject_Z_lt in Hr. lra. }
    destruct (Z.even m2) eqn:Ev; rewrite Hr1.
    + destruct (Z.compare_spec (2 * r) m2) as [E | L | G]; cbn [inbr].
      * assert (inject_Z r / inject_Z m2 == 1 # 2)%Q as Et.
        { rewrite <- E, E2. field. lra. }
        rewrite Et. reflexivity.
      * apply inject_Z_lt in L. rewrite E2 in L.
        assert (inject_Z r / inject_Z m2 < 1 # 2)%Q by (apply Up; lra).
        split; lra.
      * apply inject_Z_lt in G. rewrite E2 in G.
        assert (1 # 2 < inject_Z r / inject_Z m2)%Q by (apply Lo; lra).
        split; lra.
    + assert (2 * r <> m2) as Ne.
      { intro E. rewrite <- E, Z.even_mul in Ev. discriminate. }
      destruct (Z.compare_spec (2 * r + 1) m2) as [E | L | G]; cbn [inbr].
      * assert (2 * r < m2) as L by lia.
        apply inject_Z_lt in L. rewrite E2 in L.
        assert (inject_Z r / inject_Z m2 < 1 # 2)%Q by (apply Up; lra).
        split; lra.
      * assert (2 * r < m2) as L' by lia.
        apply inject_Z_lt in L'. rewrite E2 in L'.
        assert (inject_Z r / inject_Z m2 < 1 # 2)%Q by (apply Up; lra).
        split; lra.
      * assert (m2 < 2 * r) as G' by lia.
        apply inject_Z_lt in G'. rewrite E2 in G'.
        assert (1 # 2 < inject_Z r / inject_Z m2)%Q by (apply Lo; lra).
        split; lra.
Qed.

Lemma mag_div n m gn gm :
  mag n gn -> mag m gm ->
  mag (n / m) (gn - gm) \/ mag (n / m) (gn - gm + 1).
Proof.
  intros Hn Hm. pose proof (mag_pos _ _ Hn) as Pn.
  pose proof (mag_pos _ _ Hm) as Pm.
  destruct Hn as [Ln Un], Hm as [Lm Um].
  assert (pow2 (gn - gm - 1) <= n / m)%Q as Lo.
  { apply Qle_shift_div_l; [exact Pm |].
    apply Qle_trans with (pow2 (gn - gm - 1) * pow2 gm)%Q.
    - apply Qmult_le_l; [apply pow2_pos | lra].
    - rewrite <- pow2_add. replace (gn - gm - 1 + gm) with (gn - 1) by lia.
      exact Ln. }
  assert (n / m < pow2 (gn - gm + 1))%Q as Up.
  { apply Qlt_shift_div_r; [exact Pm |].
    apply Qlt_le_trans with (pow2 gn); [exact Un |].
    apply Qle_trans with (pow2 (gn - gm + 1) * pow2 (gm - 1))%Q.
    - rewrite <- pow2_add. replace (gn - gm + 1 + (gm - 1)) with gn by lia.
      apply Qle_refl.
    - apply Qmult_le_l; [apply pow2_pos | exact Lm]. }
  destruct (Qlt_le_dec (n / m) (pow2 (gn - gm))) as [C | C].
  - left. split; [| exact C]. exact Lo.
  - right. split; [| exact Up].
    replace (gn - gm + 1 - 1) with (gn - gm) by lia. exact C.
Qed.

Section Ops.

Variables prec emax : Z.
Hypothesis Hprec : 0 < prec.
Hypothesis Hemax : prec < emax.

(** A positive rational with an exact dyadic form rounds through
    [binary_round_aux] whenever its exponent is small enough. *)
Lemma round_exact_dyadic s m e :
  e <= fexp prec emax (Zdigits2 (Zpos m) + e) ->
  exists q,
    rne (inject_Z (Zpos m) * pow2 e
         * pow2 (- fexp prec emax (Zdigits2 (Zpos m) + e))) q /\
    binary_round_aux prec emax s (Zpos m) e loc_Exact
    = mkf prec emax s q (fexp prec emax (Zdigits2 (Zpos m) + e)).
Proof.
  intro He.
  destruct (binary_round_aux_correct prec emax Hprec s (Zpos m) e loc_Exact
              (inject_Z (Zpos m) * pow2 e)
              (Zdigits2 (Zpos m) + e)) as (q & Hq & _ & Hr).
  - lia.
  - cbn [inbr]. rewrite <- Qmult_assoc, pow2_opp_mul. ring.
  - apply mag_finite.
  - exact He.
  - exists q. split; assumption.
Qed.

Lemma Rnd_of_signed s x f g q :
  (0 < x)%Q -> mag x g -> rne (x * pow2 (- fexp prec emax g)) q ->
  f = mkf prec emax s q (fexp prec emax g) ->
  Rnd prec emax (if s then - x else x)%Q f.
Proof.
  intros Px Hg Hq Hf. destruct s.
  - right. right. split; [lra |]. exists g, q. split; [| split].
    + eapply mag_ext; [| exact Hg]. ring.
    + eapply rne_ext; [| exact Hq]. ring.
    + exact Hf.
  - right. left. split; [exact Px |]. exists g, q. auto.
Qed.

Lemma Rnd_ext x y f : (x == y)%Q -> Rnd prec emax x f -> Rnd prec emax y f.
Proof.
  intros E [[Z F] | [[P (g & q & Hg & Hq & Hf)] | [P (g & q & Hg & Hq & Hf)]]].
  - left. split; [rewrite <- E; exact Z | exact F].
  - right. left. split; [rewrite <- E; exact P |]. exists g, q.
    split; [| split]; try assumption.
    + eapply mag_ext; [exact E | exact Hg].
    + eapply rne_ext; [| exact Hq]. rewrite E. reflexivity.
  - right. right. split; [rewrite <- E; exact P |]. exists g, q.
    split; [| split]; try assumption.
    + eapply mag_ext; [| exact Hg]. rewrite E. reflexivity.
    + eapply rne_ext; [| exact Hq]. rewrite E. reflexivity.
Qed.

Theorem binary_round_Rnd s m e :
  Rnd prec emax (F2Q (S754_finite s m e)) (binary_round prec emax s m e).
Proof.
  unfold binary_round.
  destruct (shl_align_spec m e (fexp prec emax (Zpos (digits2_pos m) + e)))
    as [Ee Ev].
  destruct (shl_align m e (fexp prec emax (Zpos (digits2_pos m) + e)))
    as [mz ez]. cbn [fst snd] in *.
  change (Zpos (digits2_pos m)) with (Zdigits2 (Zpos m)) in *.
  assert (Zdigits2 (Zpos mz) + ez = Zdigits2 (Zpos m) + e) as Eg.
  { eapply mag_unique; [apply mag_finite |].
    eapply mag_ext; [| apply mag_finite]. symmetry. exact Ev. }
  destruct (round_exact_dyadic s mz ez) as (q & Hq & Hr).
  { rewrite Eg. lia. }
  rewrite Hr. cbn [F2Q].
  apply (Rnd_of_signed s (inject_Z (Zpos m) * pow2 e)
           _ (Zdigits2 (Zpos mz) + ez) q).
  - apply F2Q_pos.
  - rewrite Eg. apply mag_finite.
  - eapply rne_ext; [| exact Hq]. rewrite Ev. reflexivity.
  - reflexivity.
Qed.

Theorem binary_normalize_Rnd m e sz :
  Rnd prec emax (inject_Z m * pow2 e) (binary_normalize prec emax m e sz).
Proof.
  destruct m as [| p | p]; cbn [binary_normalize].
  - left. split; [ring | reflexivity].
  - apply (binary_round_Rnd false p e).
  - eapply Rnd_ext; [| apply (binary_round_Rnd true p e)].
    cbn [F2Q]. change (Zneg p) with (- Zpos p). rewrite inject_Z_opp. ring.
Qed.

Theorem convert_Rnd x :
  is_finite x = true ->
  Rnd prec emax (F2Q x) (convert (Format prec emax) x).
Proof.
  destruct x as [s | s | | s m e]; try discriminate; intros _.
  - left. split; reflexivity.
  - apply binary_round_Rnd.
Qed.

Theorem round_to_Rnd m e :
  Rnd prec emax (inject_Z m * pow2 e) (round_to (Format prec emax) m e).
Proof. apply binary_normalize_Rnd. Qed.

Lemma Zdigits2_lower n k : 0 <= k -> 2 ^ k <= n -> k + 1 <= Zdigits2 n.
Proof.
  intros Hk H. assert (0 < 2 ^ k) by (apply Z.pow_pos_nonneg; lia).
  destruct (Zdigits2_bounds n ltac:(lia)) as [_ B].
  assert (2 ^ k < 2 ^ Zdigits2 n) as C by lia.
  pose proof (Zdigits2_pos n ltac:(lia)).
  apply Z.pow_lt_mono_r_iff in C; lia.
Qed.

(** What validity says about a finite value. *)
Lemma valid_finite_inv s m e :
  valid_binary prec emax (S754_finite s m e) = true ->
  fexp prec emax (Zdigits2 (Zpos m) + e) = e /\ e <= emax - prec.
Proof.
  cbn [valid_binary]. unfold bounded, canonical_mantissa. intro V.
  apply andb_prop in V. destruct V as [C B].
  apply Z.eqb_eq in C. apply Z.leb_le in B. split; assumption.
Qed.

Theorem SFmul_Rnd x y :
  valid_binary prec emax x = true -> valid_binary prec emax y = true ->
  is_finite x = true -> is_finite y = true ->
  Rnd prec emax (F2Q x * F2Q y) (SFmul prec emax x y).
Proof.
  intros Vx Vy Fx Fy.
  destruct x as [sx | sx | | sx mx ex]; try discriminate;
    destruct y as [sy | sy | | sy my ey]; try discriminate;
    cbn [SFmul F2Q]; try (left; split; [ring | reflexivity]).
  destruct (valid_finite_inv _ _ _ Vx) as [Cx _].
  destruct (valid_finite_inv _ _ _ Vy) as [Cy _].
  destruct (Zdigits2_bounds (Zpos mx) ltac:(lia)) as [Lx _].
  destruct (Zdigits2_bounds (Zpos my) ltac:(lia)) as [Ly _].
  pose proof (Zdigits2_pos (Zpos mx) ltac:(lia)) as Dx.
  pose proof (Zdigits2_pos (Zpos my) ltac:(lia)) as Dy.
  assert (Zdigits2 (Zpos mx) + Zdigits2 (Zpos my) - 1
          <= Zdigits2 (Zpos (mx * my))) as D.
  { replace (Zdigits2 (Zpos mx) + Zdigits2 (Zpos my) - 1)
      with ((Zdigits2 (Zpos mx) - 1 + (Zdigits2 (Zpos my) - 1)) + 1) by lia.
    apply Zdigits2_lower; [lia |].
    rewrite Z.pow_add_r by lia. rewrite Pos2Z.inj_mul.
    apply Z.mul_le_mono_nonneg; try lia;
      apply Z.pow_nonneg; lia. }
  destruct (round_exact_dyadic (xorb sx sy) (mx * my) (ex + ey))
    as (q & Hq & Hr).
  { unfold fexp, emin in *. lia. }
  rewrite Hr.
  eapply Rnd_ext;
    [| apply (Rnd_of_signed (xorb sx sy)
                (inject_Z (Zpos (mx * my)) * pow2 (ex + ey))
                _ (Zdigits2 (Zpos (mx * my)) + (ex + ey)) q);
       [apply F2Q_pos | | exact Hq | reflexivity]].
  - destruct sx, sy; cbn [xorb];
      rewrite Pos2Z.inj_mul, inject_Z_mult, pow2_add; ring.
  - replace (Zdigits2 (Zpos (mx * my)) + (ex + ey))
      with (Zdigits2 (Zpos (mx * my)) + (ex + ey)) by lia.
    apply mag_finite.
Qed.

Lemma cond_Zopp_Q s z :
  (inject_Z (cond_Zopp s z) == if s then - inject_Z z else inject_Z z)%Q.
Proof.
  destruct s; cbn [cond_Zopp]; [rewrite inject_Z_opp |]; reflexivity.
Qed.

Lemma shl_align_min_value m e e' :
  e' <= e ->
  (inject_Z (Zpos (fst (shl_align m e e'))) * pow2 e'
   == inject_Z (Zpos m) * pow2 e)%Q.
Proof.
  intro H. destruct (shl_align_spec m e e') as [E V].
  rewrite <- V, E. replace (Z.min e e') with e' by lia. reflexivity.
Qed.

Theorem SFadd_Rnd x y :
  valid_binary prec emax x = true -> valid_binary prec emax y = true ->
  is_finite x = true -> is_finite y = true ->
  Rnd prec emax (F2Q x + F2Q y) (SFadd prec emax x y).
Proof.
  intros Vx Vy Fx Fy.
  destruct x as [sx | sx | | sx mx ex]; try discriminate;
    destruct y as [sy | sy | | sy my ey]; try discriminate.
  - left. split; [reflexivity | destruct sx, sy; reflexivity].
  - eapply Rnd_ext; [| apply (valid_Rnd prec emax Hprec _ Vy Fy)].
    cbn [F2Q]. ring.
  - eapply Rnd_ext; [| apply (valid_Rnd prec emax Hprec _ Vx Fx)].
    cbn [F2Q]. ring.
  - cbn [SFadd].
    eapply Rnd_ext; [| apply binary_normalize_Rnd].
    rewrite inject_Z_plus, !cond_Zopp_Q.
    pose proof (shl_align_min_value mx ex (Z.min ex ey) ltac:(lia)) as Ax.
    pose proof (shl_align_min_value my ey (Z.min ex ey) ltac:(lia)) as Ay.
    cbn [F2Q]. destruct sx, sy; rewrite <- Ax, <- Ay; ring.
Qed.

Theorem SFsub_Rnd x y :
  valid_binary prec emax x = true -> valid_binary prec emax y = true ->
  is_finite x = true -> is_finite y = true ->
  Rnd prec emax (F2Q x - F2Q y) (SFsub prec emax x y).
Proof.
  intros Vx Vy Fx Fy.
  destruct x as [sx | sx | | sx mx ex]; try discriminate;
    destruct y as [sy | sy | | sy my ey]; try discriminate.
  - left. split; [reflexivity | destruct sx, sy; reflexivity].
  - cbn [SFsub].
    eapply Rnd_ext;
      [| apply (valid_Rnd prec emax Hprec (S754_finite (negb sy) my ey));
         [exact Vy | reflexivity]].
    cbn [F2Q]. destruct sy; cbn [negb]; ring.
  - eapply Rnd_ext; [| apply (valid_Rnd prec emax Hprec _ Vx Fx)].
    cbn [F2Q]. ring.
  - cbn [SFsub].
    eapply Rnd_ext; [| apply binary_normalize_Rnd].
    unfold Z.sub at 1. rewrite inject_Z_plus, inject_Z_opp, !cond_Zopp_Q.
    pose proof (shl_align_min_value mx ex (Z.min ex ey) ltac:(lia)) as Ax.
    pose proof (shl_align_min_value my ey (Z.min ex ey) ltac:(lia)) as Ay.
    cbn [F2Q]. destruct sx, sy; rewrite <- Ax, <- Ay; ring.
Qed.

Theorem SFdiv_Rnd x y :
  is_finite x = true -> is_finite y = true -> is_zero y = false ->
  Rnd prec emax (F2Q x / F2Q y) (SFdiv prec emax x y).
Proof.
  intros Fx Fy Zy.
  destruct x as [sx | sx | | sx mx ex]; try discriminate;
    destruct y as [sy | sy | | sy my ey]; try discriminate.
  - left. split; [cbn [F2Q]; unfold Qdiv; ring | reflexivity].
  - cbn [SFdiv]. unfold SFdiv_core_binary.
    set (D := Zdigits2 (Zpos mx) + ex - (Zdigits2 (Zpos my) + ey)).
    set (e' := Z.min (fexp prec emax D) (ex - ey)).
    assert (0 <= ex - ey - e') as Hs by (unfold e'; lia).
    set (m' := match ex - ey - e' with
               | Z0 => Zpos mx
               | Zpos _ => Z.shiftl (Zpos mx) (ex - ey - e')
               | Zneg _ => 0
               end).
    assert (m' = Zpos mx * 2 ^ (ex - ey - e')) as Em.
    { unfold m'. destruct (ex - ey - e') as [| p | p] eqn:Es; try lia.
      apply Z.shiftl_mul_pow2. lia. }
    pose proof (Z_div_mod m' (Zpos my) ltac:(lia)) as DM.
    destruct (Z.div_eucl m' (Zpos my)) as [q r]. destruct DM as [Eq Hr].
    set (N := (inject_Z (Zpos mx) * pow2 ex)%Q).
    set (M := (inject_Z (Zpos my) * pow2 ey)%Q).
    assert (0 < N)%Q as PN by apply F2Q_pos.
    assert (0 < M)%Q as PM by apply F2Q_pos.
    assert (0 < inject_Z (Zpos my))%Q as Pmy by (apply (inject_Z_lt 0); lia).
    pose proof (pow2_pos ey) as Pey.
    assert (0 <= q) as Hq0.
    { assert (0 <= m') by (rewrite Em; apply Z.mul_nonneg_nonneg;
                           [lia | apply Z.pow_nonneg; lia]).
      destruct (Z_lt_le_dec q 0); [| assumption]. exfalso. nia. }
    assert (exists G, mag (N / M) G /\ D <= G) as (G & HG & DG).
    { destruct (mag_div N M _ _ (mag_finite mx ex) (mag_finite my ey))
        as [H | H]; eexists; (split; [exact H | unfold D; lia]). }
    assert (0 < N / M)%Q as PX
      by (apply Qlt_shift_div_l; [exact PM | lra]).
    destruct (binary_round_aux_correct prec emax Hprec (xorb sx sy) q e'
                (new_location (Zpos my) r) (N / M) G)
      as (q' & Hq' & _ & Hr').
    + exact Hq0.
    + eapply inbr_ext; [| apply new_location_inbr; [lia | exact Hr]].
      assert (inject_Z m' == inject_Z (Zpos my) * inject_Z q + inject_Z r)%Q
        as Eq' by (rewrite Eq, inject_Z_plus, inject_Z_mult; reflexivity).
      assert (inject_Z m' == inject_Z (Zpos mx) * pow2 (ex - ey - e'))%Q
        as Em'.
      { rewrite Em, inject_Z_mult, <- pow2_Z by lia. reflexivity. }
      assert (pow2 (ex - ey - e') == pow2 ex * pow2 (- ey) * pow2 (- e'))%Q
        as Ep.
      { replace (ex - ey - e') with (ex + - ey + - e') by lia.
        rewrite !pow2_add. reflexivity. }
      pose proof (pow2_opp_mul ey) as Iey.
      unfold N, M.
      setoid_replace (inject_Z q + inject_Z r / inject_Z (Zpos my))%Q
        with (inject_Z m' / inject_Z (Zpos my))%Q
        by (rewrite Eq'; field; lra).
      rewrite Em', Ep.
      setoid_replace (pow2 (- ey)) with (/ pow2 ey)%Q
        by (apply Qmult_inj_l with (z := pow2 ey); [lra |];
            rewrite Iey; field; lra).
      field. split; lra.
    + exact HG.
    + apply Z.le_trans with (fexp prec emax D).
      * unfold e'. lia.
      * apply fexp_mono. exact DG.
    + rewrite Hr'.
      eapply Rnd_ext;
        [| apply (Rnd_of_signed (xorb sx sy) (N / M) _ G q');
           [exact PX | exact HG | exact Hq' | reflexivity]].
      cbn [F2Q]. fold N M. destruct sx, sy; cbn [xorb]; field; lra.
Qed.

End Ops.

(* ================================================================== *)
(** * Working with finite values                                        *)
(* ================================================================== *)

Lemma SFcompare_Eq_inv x y :
  SFcompare x y = Some Eq ->
  x = y \/ (is_zero x = true /\ is_zero y = true).
Proof.
  destruct x as [sx | sx | | sx mx ex], y as [sy | sy | | sy my ey];
    try destruct sx; try destruct sy; cbn [SFcompare is_zero];
    try discriminate; auto;
    change (PosDef.Pos.compare_cont Eq) with Pos.compare;
    destruct (Z.compare_spec ex ey); try discriminate;
    destruct (Pos.compare_spec mx my); try discriminate;
    intros _; subst; auto.
Qed.

Lemma is_finite_between a x b :
  is_finite a = true -> is_finite b = true ->
  SFleb a x = true -> SFleb x b = true -> is_finite x = true.
Proof.
  destruct a as [sa | sa | | sa ma ea], b as [sb | sb | | sb mb eb],
    x as [sx | sx | | sx mx ex];
    try destruct sa; try destruct sb; try destruct sx;
    cbn; try discriminate; auto.
Qed.

Lemma is_finite_not_nan x : is_finite x = true -> is_nan x = false.
Proof. destruct x; try discriminate; reflexivity. Qed.

Lemma F2Q_opp x : (F2Q (SFopp x) == - F2Q x)%Q.
Proof.
  destruct x as [s | s | | [ | ] m e]; cbn [SFopp F2Q negb]; ring.
Qed.

Lemma F2Q_abs x : (F2Q (SFabs x) == Qabs (F2Q x))%Q.
Proof.
  destruct x as [s | s | | [ | ] m e]; cbn [SFabs F2Q]; try reflexivity.
  - rewrite Qabs_opp. symmetry. apply Qabs_pos.
    apply Qlt_le_weak, F2Q_pos.
  - symmetry. apply Qabs_pos. apply Qlt_le_weak, F2Q_pos.
Qed.

Lemma is_finite_opp x : is_finite (SFopp x) = is_finite x.
Proof. destruct x; reflexivity. Qed.

Lemma is_finite_abs x : is_finite (SFabs x) = is_finite x.
Proof. destruct x; reflexivity. Qed.

Lemma is_nan_abs x : is_nan (SFabs x) = is_nan x.
Proof. destruct x; reflexivity. Qed.

Lemma is_nan_opp x : is_nan (SFopp x) = is_nan x.
Proof. destruct x; reflexivity. Qed.

Section Finite.

Variables prec emax : Z.
Hypothesis Hprec : 0 < prec.
Hypothesis Hemax : prec < emax.

Lemma fin_inv x :
  finF prec emax x = true -> valid_binary prec emax x = true /\ is_finite x = true.
Proof. unfold finF. intro H. apply andb_prop in H. exact H. Qed.

Lemma fin_intro x :
  valid_binary prec emax x = true -> is_finite x = true -> finF prec emax x = true.
Proof. unfold finF. intros -> ->. reflexivity. Qed.

Lemma fin_opp x : finF prec emax (SFopp x) = finF prec emax x.
Proof. destruct x; reflexivity. Qed.

Lemma fin_abs x : finF prec emax (SFabs x) = finF prec emax x.
Proof. destruct x; reflexivity. Qed.

Lemma fin_Rnd x : finF prec emax x = true -> Rnd prec emax (F2Q x) x.
Proof.
  intro H. destruct (fin_inv x H). apply valid_Rnd; assumption.
Qed.

Lemma Rnd_fin x f : Rnd prec emax x f -> is_finite f = true -> finF prec emax f = true.
Proof.
  intros H F. apply fin_intro; [| exact F].
  exact (Rnd_valid prec emax Hprec x f H).
Qed.

Lemma fin_le_Q x y :
  finF prec emax x = true -> finF prec emax y = true -> SFleb x y = true -> (F2Q x <= F2Q y)%Q.
Proof.
  intros Hx Hy. destruct (fin_inv x Hx), (fin_inv y Hy).
  apply SFleb_F2Q with (prec := prec) (emax := emax); assumption.
Qed.

Lemma fin_lt_Q x y :
  finF prec emax x = true -> finF prec emax y = true -> SFltb x y = true -> (F2Q x < F2Q y)%Q.
Proof.
  intros Hx Hy. destruct (fin_inv x Hx), (fin_inv y Hy).
  apply SFltb_F2Q with (prec := prec) (emax := emax); assumption.
Qed.

Lemma Q_le_fin x y :
  finF prec emax x = true -> finF prec emax y = true -> (F2Q x <= F2Q y)%Q -> SFleb x y = true.
Proof.
  intros Hx Hy. destruct (fin_inv x Hx), (fin_inv y Hy).
  apply F2Q_SFleb with (prec := prec) (emax := emax); assumption.
Qed.

Lemma Q_lt_fin x y :
  finF prec emax x = true -> finF prec emax y = true -> (F2Q x < F2Q y)%Q -> SFltb x y = true.
Proof.
  intros Hx Hy L. destruct (fin_inv x Hx) as [_ Fx].
  destruct (fin_inv y Hy) as [_ Fy].
  rewrite SFltb_SFleb by (apply is_finite_not_nan; assumption).
  destruct (SFleb y x) eqn:E; [| reflexivity].
  pose proof (fin_le_Q y x Hy Hx E). lra.
Qed.

Lemma fin_nlt_Q x y :
  finF prec emax x = true -> finF prec emax y = true -> SFltb x y = false -> (F2Q y <= F2Q x)%Q.
Proof.
  intros Hx Hy L. destruct (Qlt_le_dec (F2Q x) (F2Q y)) as [C | C]; [| exact C].
  rewrite (Q_lt_fin x y Hx Hy C) in L. discriminate.
Qed.

Lemma fin_nle_Q x y :
  finF prec emax x = true -> finF prec emax y = true -> SFleb x y = false -> (F2Q y < F2Q x)%Q.
Proof.
  intros Hx Hy L. destruct (Qlt_le_dec (F2Q y) (F2Q x)) as [C | C]; [exact C |].
  rewrite (Q_le_fin x y Hx Hy C) in L. discriminate.
Qed.

(** A rounded value caught between two values of the format is finite
    and lies between them. *)
Lemma Rnd_between lo hi x f :
  Rnd prec emax x f -> finF prec emax lo = true -> finF prec emax hi = true ->
  (F2Q lo <= x)%Q -> (x <= F2Q hi)%Q ->
  finF prec emax f = true /\ (F2Q lo <= F2Q f)%Q /\ (F2Q f <= F2Q hi)%Q.
Proof.
  intros H Hlo Hhi L U.
  pose proof (Rnd_mono prec emax Hprec _ _ _ _ (fin_Rnd lo Hlo) H L) as A.
  pose proof (Rnd_mono prec emax Hprec _ _ _ _ H (fin_Rnd hi Hhi) U) as B.
  destruct (fin_inv lo Hlo) as [_ Flo]. destruct (fin_inv hi Hhi) as [_ Fhi].
  pose proof (is_finite_between lo f hi Flo Fhi A B) as Ff.
  pose proof (Rnd_fin x f H Ff) as Hf.
  split; [exact Hf |]. split; apply fin_le_Q; assumption.
Qed.

(** Rounding a value of the format gives it back, up to the sign of
    zero. *)
Lemma Rnd_exact h x f :
  Rnd prec emax x f -> finF prec emax h = true -> (x == F2Q h)%Q ->
  f = h \/ (is_zero f = true /\ is_zero h = true).
Proof.
  intros H Hh E. apply SFcompare_Eq_inv. apply SFleb_antisym.
  - apply (Rnd_mono prec emax Hprec _ _ _ _ H (fin_Rnd h Hh)). lra.
  - apply (Rnd_mono prec emax Hprec _ _ _ _ (fin_Rnd h Hh) H). lra.
Qed.

Lemma Rnd_exact_F2Q h x f :
  Rnd prec emax x f -> finF prec emax h = true -> (x == F2Q h)%Q ->
  finF prec emax f = true /\ (F2Q f == x)%Q.
Proof.
  intros H Hh E. destruct (Rnd_exact h x f H Hh E) as [-> | [Zf Zh]].
  - split; [exact Hh | lra].
  - destruct f; try discriminate. destruct h; try discriminate.
    split; [reflexivity |]. cbn [F2Q] in *. lra.
Qed.

(** The operations on finite values. *)
Lemma mul_Rnd x y :
  finF prec emax x = true -> finF prec emax y = true ->
  Rnd prec emax (F2Q x * F2Q y) (SFmul prec emax x y).
Proof.
  intros Hx Hy. destruct (fin_inv x Hx), (fin_inv y Hy).
  apply SFmul_Rnd; assumption.
Qed.

Lemma add_Rnd x y :
  finF prec emax x = true -> finF prec emax y = true ->
  Rnd prec emax (F2Q x + F2Q y) (SFadd prec emax x y).
Proof.
  intros Hx Hy. destruct (fin_inv x Hx), (fin_inv y Hy).
  apply SFadd_Rnd; assumption.
Qed.

Lemma sub_Rnd x y :
  finF prec emax x = true -> finF prec emax y = true ->
  Rnd prec emax (F2Q x - F2Q y) (SFsub prec emax x y).
Proof.
  intros Hx Hy. destruct (fin_inv x Hx), (fin_inv y Hy).
  apply SFsub_Rnd; assumption.
Qed.

Lemma div_Rnd x y :
  finF prec emax x = true -> finF prec emax y = true -> is_zero y = false ->
  Rnd prec emax (F2Q x / F2Q y) (SFdiv prec emax x y).
Proof.
  intros Hx Hy Zy. destruct (fin_inv x Hx), (fin_inv y Hy).
  apply SFdiv_Rnd; assumption.
Qed.

End Finite.

(** A finite result had finite operands. *)
Lemma SFadd_finite_l prec emax x y :
  is_finite (SFadd prec emax x y) = true -> is_finite x = true.
Proof.
  destruct x as [sx | sx | | sx mx ex], y as [sy | sy | | sy my ey];
    try destruct sx; try destruct sy; cbn; auto; discriminate.
Qed.

Lemma SFmul_finite_l prec emax x y :
  is_finite (SFmul prec emax x y) = true -> is_finite x = true.
Proof.
  destruct x as [sx | sx | | sx mx ex], y as [sy | sy | | sy my ey];
    try destruct sx; try destruct sy; cbn; auto; discriminate.
Qed.

Lemma SFdiv_finite_l prec emax x y :
  is_finite (SFdiv prec emax x y) = true -> is_finite y = true ->
  is_finite x = true.
Proof.
  destruct x as [sx | sx | | sx mx ex], y as [sy | sy | | sy my ey];
    try destruct sx; try destruct sy; cbn; auto; discriminate.
Qed.

(* ================================================================== *)
(** * Truncation to an integer                                          *)
(* ================================================================== *)

Lemma Qfloor_unique q z :
  (inject_Z z <= q)%Q -> (q < inject_Z (z + 1))%Q -> Qfloor q = z.
Proof.
  intros L U. pose proof (Qfloor_le q) as A. pose proof (Qlt_floor q) as B.
  assert (inject_Z z < inject_Z (Qfloor q + 1))%Q as C by lra.
  assert (inject_Z (Qfloor q) < inject_Z (z + 1))%Q as D by lra.
  apply inject_Z_lt_inv in C, D. lia.
Qed.

Lemma Qfloor_dyadic m e :
  Qfloor (inject_Z (Zpos m) * pow2 e)
  = match e with
    | Z0 => Zpos m
    | Zpos p => Zpos m * 2 ^ Zpos p
    | Zneg p => Zpos m / 2 ^ Zpos p
    end.
Proof.
  destruct e as [| p | p].
  - apply Qfloor_unique; rewrite pow2_0, ?inject_Z_plus.
    + ring_simplify. apply Qle_refl.
    + change (inject_Z 1) with 1%Q. lra.
  - apply Qfloor_unique; rewrite pow2_Z by lia;
      rewrite ?inject_Z_plus, inject_Z_mult.
    + apply Qle_refl.
    + change (inject_Z 1) with 1%Q. lra.
  - assert (0 < 2 ^ Zpos p) as P by (apply Z.pow_pos_nonneg; lia).
    pose proof (Z_div_mod (Zpos m) (2 ^ Zpos p) ltac:(lia)) as DM.
    unfold Z.div. destruct (Z.div_eucl (Zpos m) (2 ^ Zpos p)) as [q r].
    destruct DM as [Eq Hr].
    pose proof (pow2_pos (Zneg p)) as Pn.
    assert (inject_Z (2 ^ Zpos p) * pow2 (Zneg p) == 1)%Q as I.
    { rewrite <- pow2_Z by lia. apply pow2_opp_mul. }
    assert (inject_Z (Zpos m)
            == inject_Z (2 ^ Zpos p) * inject_Z q + inject_Z r)%Q as Em
      by (rewrite Eq, inject_Z_plus, inject_Z_mult; reflexivity).
    assert (0 <= inject_Z r)%Q as R0 by (apply (inject_Z_le 0); lia).
    assert (inject_Z r < inject_Z (2 ^ Zpos p))%Q as R1
      by (apply inject_Z_lt; lia).
    assert (inject_Z (Zpos m) * pow2 (Zneg p)
            == inject_Z q + inject_Z r * pow2 (Zneg p))%Q as Ev.
    { rewrite Em.
      setoid_replace ((inject_Z (2 ^ Zpos p) * inject_Z q + inject_Z r)
                      * pow2 (Zneg p))%Q
        with (inject_Z q * (inject_Z (2 ^ Zpos p) * pow2 (Zneg p))
              + inject_Z r * pow2 (Zneg p))%Q by ring.
      rewrite I. ring. }
    assert (0 <= inject_Z r * pow2 (Zneg p))%Q as F0
      by (apply Qmult_le_0_compat; lra).
    assert (inject_Z r * pow2 (Zneg p) < 1)%Q as F1.
    { rewrite <- I. apply Qmult_lt_compat_r; assumption. }
    apply Qfloor_unique; rewrite Ev, ?inject_Z_plus.
    + lra.
    + change (inject_Z 1) with 1%Q. lra.
Qed.

Lemma Ztrunc_float_Qtrunc x : Ztrunc_float x = Qtrunc (F2Q x).
Proof.
  destruct x as [s | s | | s m e]; try reflexivity.
  cbn [Ztrunc_float F2Q]. pose proof (F2Q_pos m e) as P.
  unfold Qtrunc. destruct s.
  - destruct (Qle_bool 0 (- (inject_Z (Zpos m) * pow2 e))) eqn:E.
    + apply Qle_bool_iff in E. exfalso. lra.
    + unfold Qceiling. rewrite Qopp_involutive, Qfloor_dyadic. reflexivity.
  - destruct (Qle_bool 0 (inject_Z (Zpos m) * pow2 e)) eqn:E.
    + rewrite Qfloor_dyadic. reflexivity.
    + assert (Qle_bool 0 (inject_Z (Zpos m) * pow2 e) = true) as E'
        by (apply Qle_bool_iff; lra).
      rewrite E' in E. discriminate.
Qed.

Lemma Qtrunc_mono p q : (p <= q)%Q -> Qtrunc p <= Qtrunc q.
Proof.
  intro H. unfold Qtrunc.
  destruct (Qle_bool 0 p) eqn:Ep, (Qle_bool 0 q) eqn:Eq.
  - apply Qfloor_resp_le. exact H.
  - apply Qle_bool_iff in Ep.
    assert (Qle_bool 0 q = true) as C by (apply Qle_bool_iff; lra).
    rewrite C in Eq. discriminate.
  - apply Qle_bool_iff in Eq.
    assert (~ (0 <= p)%Q) as Np.
    { intro C. apply Qle_bool_iff in C. rewrite C in Ep. discriminate. }
    assert (0 <= Qfloor q).
    { change 0 with (Qfloor (inject_Z 0)). apply Qfloor_resp_le. exact Eq. }
    assert (Qceiling p <= 0).
    { change 0 with (Qceiling (inject_Z 0)). apply Qceiling_resp_le.
      change (inject_Z 0) with 0%Q. lra. }
    lia.
  - apply Qceiling_resp_le. exact H.
Qed.

Lemma Ztrunc_float_mono x y :
  (F2Q x <= F2Q y)%Q -> Ztrunc_float x <= Ztrunc_float y.
Proof. rewrite !Ztrunc_float_Qtrunc. apply Qtrunc_mono. Qed.

(* ================================================================== *)
(** * binary32 and binary64                                             *)
(* ================================================================== *)

Lemma prec32_pos : 0 < 24.
Proof. reflexivity. Qed.

Lemma emax32_gt : 24 < 128.
Proof. reflexivity. Qed.

Lemma f32_Rnd_mono x y f f' :
  Rnd 24 128 x f -> Rnd 24 128 y f' -> (x <= y)%Q -> SFleb f f' = true.
Proof. apply Rnd_mono. exact prec32_pos. Qed.

Lemma f32_Rnd_not_nan x f : Rnd 24 128 x f -> is_nan f = false.
Proof. apply Rnd_not_nan. exact prec32_pos. Qed.

Lemma f32_fin_Rnd x : fin32 x = true -> Rnd 24 128 (F2Q x) x.
Proof. apply fin_Rnd. exact prec32_pos. Qed.

Lemma f32_Rnd_fin x f : Rnd 24 128 x f -> is_finite f = true -> fin32 f = true.
Proof. apply Rnd_fin. exact prec32_pos. Qed.

Lemma f32_le_Q x y :
  fin32 x = true -> fin32 y = true -> SFleb x y = true -> (F2Q x <= F2Q y)%Q.
Proof. apply fin_le_Q. exact prec32_pos. Qed.

Lemma f32_lt_Q x y :
  fin32 x = true -> fin32 y = true -> SFltb x y = true -> (F2Q x < F2Q y)%Q.
Proof. apply fin_lt_Q. exact prec32_pos. Qed.

Lemma f32_Q_le x y :
  fin32 x = true -> fin32 y = true -> (F2Q x <= F2Q y)%Q -> SFleb x y = true.
Proof. apply Q_le_fin. exact prec32_pos. Qed.

Lemma f32_Q_lt x y :
  fin32 x = true -> fin32 y = true -> (F2Q x < F2Q y)%Q -> SFltb x y = true.
Proof. apply Q_lt_fin. exact prec32_pos. Qed.

Lemma f32_nlt_Q x y :
  fin32 x = true -> fin32 y = true -> SFltb x y = false -> (F2Q y <= F2Q x)%Q.
Proof. apply fin_nlt_Q. exact prec32_pos. Qed.

Lemma f32_nle_Q x y :
  fin32 x = true -> fin32 y = true -> SFleb x y = false -> (F2Q y < F2Q x)%Q.
Proof. apply fin_nle_Q. exact prec32_pos. Qed.

Lemma f32_Rnd_between lo hi x f :
  Rnd 24 128 x f -> fin32 lo = true -> fin32 hi = true ->
  (F2Q lo <= x)%Q -> (x <= F2Q hi)%Q ->
  fin32 f = true /\ (F2Q lo <= F2Q f)%Q /\ (F2Q f <= F2Q hi)%Q.
Proof. apply Rnd_between. exact prec32_pos. Qed.

Lemma f32_Rnd_exact h x f :
  Rnd 24 128 x f -> fin32 h = true -> (x == F2Q h)%Q ->
  f = h \/ (is_zero f = true /\ is_zero h = true).
Proof. apply Rnd_exact. exact prec32_pos. Qed.

Lemma f32_Rnd_exact_F2Q h x f :
  Rnd 24 128 x f -> fin32 h = true -> (x == F2Q h)%Q ->
  fin32 f = true /\ (F2Q f == x)%Q.
Proof. apply Rnd_exact_F2Q. exact prec32_pos. Qed.

Lemma f32_mul_Rnd x y :
  fin32 x = true -> fin32 y = true ->
  Rnd 24 128 (F2Q x * F2Q y) (f32_mul x y).
Proof. apply mul_Rnd; reflexivity. Qed.

Lemma f32_add_Rnd x y :
  fin32 x = true -> fin32 y = true ->
  Rnd 24 128 (F2Q x + F2Q y) (f32_add x y).
Proof. apply add_Rnd; reflexivity. Qed.

Lemma f32_sub_Rnd x y :
  fin32 x = true -> fin32 y = true ->
  Rnd 24 128 (F2Q x - F2Q y) (f32_sub x y).
Proof. apply sub_Rnd; reflexivity. Qed.

Lemma f32_div_Rnd x y :
  fin32 x = true -> fin32 y = true -> is_zero y = false ->
  Rnd 24 128 (F2Q x / F2Q y) (f32_div x y).
Proof. apply div_Rnd; reflexivity. Qed.

Lemma f32_of_Z_Rnd z : Rnd 24 128 (inject_Z z) (f32_of_Z z).
Proof.
  eapply Rnd_ext; [| apply (round_to_Rnd 24 128 prec32_pos z 0)].
  rewrite pow2_0. ring.
Qed.

Lemma fin32_finite x : fin32 x = true -> is_finite x = true.
Proof. intro H. apply (fin_inv 24 128 x H). Qed.

Lemma fin32_not_nan x : fin32 x = true -> is_nan x = false.
Proof. intro H. apply is_finite_not_nan, fin32_finite, H. Qed.

Lemma fin32_intro x : valid32 x = true -> is_finite x = true -> fin32 x = true.
Proof. apply fin_intro. Qed.

Lemma prec64_pos : 0 < 53.
Proof. reflexivity. Qed.

Lemma emax64_gt : 53 < 1024.
Proof. reflexivity. Qed.

Lemma f64_Rnd_mono x y f f' :
  Rnd 53 1024 x f -> Rnd 53 1024 y f' -> (x <= y)%Q -> SFleb f f' = true.
Proof. apply Rnd_mono. exact prec64_pos. Qed.

Lemma f64_Rnd_not_nan x f : Rnd 53 1024 x f -> is_nan f = false.
Proof. apply Rnd_not_nan. exact prec64_pos. Qed.

Lemma f64_fin_Rnd x : fin64 x = true -> Rnd 53 1024 (F2Q x) x.
Proof. apply fin_Rnd. exact prec64_pos. Qed.

Lemma f64_Rnd_fin x f : Rnd 53 1024 x f -> is_finite f = true -> fin64 f = true.
Proof. apply Rnd_fin. exact prec64_pos. Qed.

Lemma f64_le_Q x y :
  fin64 x = true -> fin64 y = true -> SFleb x y = true -> (F2Q x <= F2Q y)%Q.
Proof. apply fin_le_Q. exact prec64_pos. Qed.

Lemma f64_lt_Q x y :
  fin64 x = true -> fin64 y = true -> SFltb x y = true -> (F2Q x < F2Q y)%Q.
Proof. apply fin_lt_Q. exact prec64_pos. Qed.

Lemma f64_Q_le x y :
  fin64 x = true -> fin64 y = true -> (F2Q x <= F2Q y)%Q -> SFleb x y = true.
Proof. apply Q_le_fin. exact prec64_pos. Qed.

Lemma f64_Q_lt x y :
  fin64 x = true -> fin64 y = true -> (F2Q x < F2Q y)%Q -> SFltb x y = true.
Proof. apply Q_lt_fin. exact prec64_pos. Qed.

Lemma f64_nlt_Q x y :
  fin64 x = true -> fin64 y = true -> SFltb x y = false -> (F2Q y <= F2Q x)%Q.
Proof. apply fin_nlt_Q. exact prec64_pos. Qed.

Lemma f64_nle_Q x y :
  fin64 x = true -> fin64 y = true -> SFleb x y = false -> (F2Q y < F2Q x)%Q.
Proof. apply fin_nle_Q. exact prec64_pos. Qed.

Lemma f64_Rnd_between lo hi x f :
  Rnd 53 1024 x f -> fin64 lo = true -> fin64 hi = true ->
  (F2Q lo <= x)%Q -> (x <= F2Q hi)%Q ->
  fin64 f = true /\ (F2Q lo <= F2Q f)%Q /\ (F2Q f <= F2Q hi)%Q.
Proof. apply Rnd_between. exact prec64_pos. Qed.

Lemma f64_Rnd_exact h x f :
  Rnd 53 1024 x f -> fin64 h = true -> (x == F2Q h)%Q ->
  f = h \/ (is_zero f = true /\ is_zero h = true).
Proof. apply Rnd_exact. exact prec64_pos. Qed.

Lemma f64_Rnd_exact_F2Q h x f :
  Rnd 53 1024 x f -> fin64 h = true -> (x == F2Q h)%Q ->
  fin64 f = true /\ (F2Q f == x)%Q.
Proof. apply Rnd_exact_F2Q. exact prec64_pos. Qed.

Lemma f64_mul_Rnd x y :
  fin64 x = true -> fin64 y = true ->
  Rnd 53 1024 (F2Q x * F2Q y) (f64_mul x y).
Proof. apply mul_Rnd; reflexivity. Qed.

Lemma f64_add_Rnd x y :
  fin64 x = true -> fin64 y = true ->
  Rnd 53 1024 (F2Q x + F2Q y) (f64_add x y).
Proof. apply add_Rnd; reflexivity. Qed.

Lemma f64_sub_Rnd x y :
  fin64 x = true -> fin64 y = true ->
  Rnd 53 1024 (F2Q x - F2Q y) (f64_sub x y).
Proof. apply sub_Rnd; reflexivity. Qed.

Lemma f64_div_Rnd x y :
  fin64 x = true -> fin64 y = true -> is_zero y = false ->
  Rnd 53 1024 (F2Q x / F2Q y) (f64_div x y).
Proof. apply div_Rnd; reflexivity. Qed.

Lemma f64_of_Z_Rnd z : Rnd 53 1024 (inject_Z z) (f64_of_Z z).
Proof.
  eapply Rnd_ext; [| apply (round_to_Rnd 53 1024 prec64_pos z 0)].
  rewrite pow2_0. ring.
Qed.

Lemma fin64_finite x : fin64 x = true -> is_finite x = true.
Proof. intro H. apply (fin_inv 53 1024 x H). Qed.

Lemma fin64_not_nan x : fin64 x = true -> is_nan x = false.
Proof. intro H. apply is_finite_not_nan, fin64_finite, H. Qed.

Lemma fin64_intro x : valid64 x = true -> is_finite x = true -> fin64 x = true.
Proof. apply fin_intro. Qed.

Lemma f32_of_double_Rnd d :
  is_finite d = true -> Rnd 24 128 (F2Q d) (f32_of_double d).
Proof. apply (convert_Rnd 24 128 prec32_pos). Qed.

Lemma f64_of_float_Rnd x :
  is_finite x = true -> Rnd 53 1024 (F2Q x) (f64_of_float x).
Proof. apply (convert_Rnd 53 1024 prec64_pos). Qed.

(* ================================================================== *)
(** * Bounding the results of binary32 operations                       *)
(* ================================================================== *)

Lemma f32_mul_between a b lo hi :
  fin32 a = true -> fin32 b = true -> fin32 lo = true -> fin32 hi = true ->
  (F2Q lo <= F2Q a * F2Q b)%Q -> (F2Q a * F2Q b <= F2Q hi)%Q ->
  fin32 (a * b)%f32 = true /\
  (F2Q lo <= F2Q (a * b)%f32)%Q /\ (F2Q (a * b)%f32 <= F2Q hi)%Q.
Proof.
  intros Ha Hb Hlo Hhi L U.
  exact (f32_Rnd_between lo hi _ _ (f32_mul_Rnd a b Ha Hb) Hlo Hhi L U).
Qed.

Lemma f32_add_between a b lo hi :
  fin32 a = true -> fin32 b = true -> fin32 lo = true -> fin32 hi = true ->
  (F2Q lo <= F2Q a + F2Q b)%Q -> (F2Q a + F2Q b <= F2Q hi)%Q ->
  fin32 (a + b)%f32 = true /\
  (F2Q lo <= F2Q (a + b)%f32)%Q /\ (F2Q (a + b)%f32 <= F2Q hi)%Q.
Proof.
  intros Ha Hb Hlo Hhi L U.
  exact (f32_Rnd_between lo hi _ _ (f32_add_Rnd a b Ha Hb) Hlo Hhi L U).
Qed.

Lemma f32_sub_between a b lo hi :
  fin32 a = true -> fin32 b = true -> fin32 lo = true -> fin32 hi = true ->
  (F2Q lo <= F2Q a - F2Q b)%Q -> (F2Q a - F2Q b <= F2Q hi)%Q ->
  fin32 (a - b)%f32 = true /\
  (F2Q lo <= F2Q (a - b)%f32)%Q /\ (F2Q (a - b)%f32 <= F2Q hi)%Q.
Proof.
  intros Ha Hb Hlo Hhi L U.
  exact (f32_Rnd_between lo hi _ _ (f32_sub_Rnd a b Ha Hb) Hlo Hhi L U).
Qed.

Lemma f32_div_between a b lo hi :
  fin32 a = true -> fin32 b = true -> is_zero b = false ->
  fin32 lo = true -> fin32 hi = true ->
  (F2Q lo <= F2Q a / F2Q b)%Q -> (F2Q a / F2Q b <= F2Q hi)%Q ->
  fin32 (a / b)%f32 = true /\
  (F2Q lo <= F2Q (a / b)%f32)%Q /\ (F2Q (a / b)%f32 <= F2Q hi)%Q.
Proof.
  intros Ha Hb Zb Hlo Hhi L U.
  exact (f32_Rnd_between lo hi _ _ (f32_div_Rnd a b Ha Hb Zb) Hlo Hhi L U).
Qed.

Lemma fin32_fabsf x : fin32 (fabsf x) = fin32 x.
Proof. apply (fin_abs 24 128). Qed.

Lemma fin32_neg x : fin32 (- x)%f32 = fin32 x.
Proof. apply (fin_opp 24 128). Qed.

Lemma F2Q_fabsf x : (F2Q (fabsf x) == Qabs (F2Q x))%Q.
Proof. apply F2Q_abs. Qed.

Lemma F2Q_neg x : (F2Q (- x)%f32 == - F2Q x)%Q.
Proof. apply F2Q_opp. Qed.

(** The C comparisons of finite values, read on their values. *)
Lemma fgt_Q a b :
  fin32 a = true -> fin32 b = true -> (a >? b)%f32 = true ->
  (F2Q b < F2Q a)%Q.
Proof. intros Ha Hb. apply f32_lt_Q; assumption. Qed.

Lemma fgt_nQ a b :
  fin32 a = true -> fin32 b = true -> (a >? b)%f32 = false ->
  (F2Q a <= F2Q b)%Q.
Proof. intros Ha Hb. apply f32_nlt_Q; assumption. Qed.

Lemma flt_Q a b :
  fin32 a = true -> fin32 b = true -> (a <? b)%f32 = true ->
  (F2Q a < F2Q b)%Q.
Proof. intros Ha Hb. apply f32_lt_Q; assumption. Qed.

Lemma flt_nQ a b :
  fin32 a = true -> fin32 b = true -> (a <? b)%f32 = false ->
  (F2Q b <= F2Q a)%Q.
Proof. intros Ha Hb. apply f32_nlt_Q; assumption. Qed.

Lemma Qabs_bounds x b : (Qabs x <= b)%Q <-> (- b <= x /\ x <= b)%Q.
Proof. apply Qabs_Qle_condition. Qed.

Lemma F2Q_nonzero x : ~ (F2Q x == 0)%Q -> is_zero x = false.
Proof.
  destruct x; cbn [F2Q is_zero]; intro H; try reflexivity.
  exfalso. apply H. reflexivity.
Qed.

(** The values of some constants. *)
Lemma F2Q_f32_0 : (F2Q (f32_of_Z 0) == 0)%Q.
Proof. vm_compute. reflexivity. Qed.

Lemma F2Q_f32_1 : (F2Q (f32_of_Z 1) == 1)%Q.
Proof. vm_compute. reflexivity. Qed.

Lemma F2Q_f32_m1 : (F2Q (f32_of_Z (-1)) == - (1))%Q.
Proof. vm_compute. reflexivity. Qed.

Lemma F2Q_f32_4 : (F2Q (f32_of_Z 4) == 4)%Q.
Proof. vm_compute. reflexivity. Qed.

Lemma F2Q_f32_255 : (F2Q (f32_of_Z 255) == 255)%Q.
Proof. vm_compute. reflexivity. Qed.

Lemma F2Q_f32_half : (F2Q (lit32 5 10) == 1 # 2)%Q.
Proof. vm_compute. reflexivity. Qed.


(** A rounding caught between two finite roundings is finite and lies
    between them. *)
Lemma f32_Rnd_sandwich xl x xh fl f fh :
  Rnd 24 128 xl fl -> Rnd 24 128 x f -> Rnd 24 128 xh fh ->
  (xl <= x)%Q -> (x <= xh)%Q -> fin32 fl = true -> fin32 fh = true ->
  fin32 f = true /\ (F2Q fl <= F2Q f)%Q /\ (F2Q f <= F2Q fh)%Q.
Proof.
  intros Rl R Rh L U Hl Hh.
  pose proof (f32_Rnd_mono _ _ _ _ Rl R L) as A.
  pose proof (f32_Rnd_mono _ _ _ _ R Rh U) as B.
  pose proof (is_finite_between fl f fh (fin32_finite _ Hl)
                (fin32_finite _ Hh) A B) as Ff.
  pose proof (f32_Rnd_fin _ _ R Ff) as Hf.
  split; [exact Hf |]. split; apply f32_le_Q; assumption.
Qed.

(* ================================================================== *)
(** * The error of a rounding and the half-way point                    *)
(* ================================================================== *)

Section HalfWay.

Variables prec emax : Z.
Hypothesis Hprec : 0 < prec.
Hypothesis Hemax : prec < emax.

Lemma Rnd_pos_inv x f :
  Rnd prec emax x f -> (0 < x)%Q ->
  exists g q, mag x g /\ rne (x * pow2 (- fexp prec emax g)) q /\
              f = mkf prec emax false q (fexp prec emax g).
Proof.
  intros [[Z _] | [[_ H] | [N _]]] P; [lra | exact H | lra].
Qed.

Lemma mkf_of_valid s m e :
  valid_binary prec emax (S754_finite s m e) = true ->
  mkf prec emax s (Zpos m) e = S754_finite s m e.
Proof.
  intro V. destruct (valid_finite_inv prec emax _ _ _ V) as [C B].
  unfold mkf.
  assert (Zdigits2 (Zpos m) <= prec) as D by (unfold fexp in C; lia).
  destruct (Zdigits2_bounds (Zpos m) ltac:(lia)) as [_ U].
  assert (2 ^ Zdigits2 (Zpos m) <= 2 ^ prec) as PW
    by (apply Z.pow_le_mono_r; lia).
  destruct (Z.eqb_spec (Zpos m) (2 ^ prec)); [lia |].
  destruct (Z.leb_spec e (emax - prec)); [reflexivity | lia].
Qed.

(** The value of a finite [mkf]. *)
Lemma F2Q_mkf q E :
  0 <= q -> is_finite (mkf prec emax false q E) = true ->
  (F2Q (mkf prec emax false q E) == inject_Z q * pow2 E)%Q.
Proof.
  intros Hq. unfold mkf. destruct (Z.eqb_spec q (2 ^ prec)) as [-> | Hne].
  - destruct (Z.leb_spec (E + 1) (emax - prec)); [| discriminate].
    intros _. cbn [F2Q]. rewrite Z2Pos.id by (apply Z.pow_pos_nonneg; lia).
    rewrite pow2_succ. rewrite <- !pow2_Z by lia.
    replace prec with ((prec - 1) + 1) at 2 by lia. rewrite pow2_succ. ring.
  - destruct q as [| p | p]; [| | lia].
    + intros _. cbn [F2Q]. ring.
    + destruct (Z.leb_spec E (emax - prec)); [| discriminate].
      intros _. reflexivity.
Qed.

(** A rounding errs by at most half a unit of its exponent, and by
    exactly that much upwards only to an even mantissa. *)
Lemma Rnd_pos_error x f :
  Rnd prec emax x f -> (0 < x)%Q -> is_finite f = true ->
  exists g q,
    mag x g /\ (F2Q f == inject_Z q * pow2 (fexp prec emax g))%Q /\
    (F2Q f - x <= pow2 (fexp prec emax g - 1))%Q /\
    ((F2Q f - x == pow2 (fexp prec emax g - 1))%Q -> Z.even q = true).
Proof.
  intros R P F. destruct (Rnd_pos_inv x f R P) as (g & q & Hg & Hq & ->).
  destruct (rounded_bounds prec emax Hprec x g q Hg Hq) as [[Q0 _] _].
  pose proof (F2Q_mkf q (fexp prec emax g) Q0 F) as V.
  exists g, q. split; [exact Hg |]. split; [exact V |].
  set (e := fexp prec emax g) in *.
  destruct Hq as (L & U & T).
  pose proof (pow2_pos e) as Pe. pose proof (pow2_opp_mul e) as Po.
  pose proof (pow2_pred e) as Pp.
  assert (x == x * pow2 (- e) * pow2 e)%Q as Ex.
  { rewrite <- Qmult_assoc, (Qmult_comm (pow2 (- e))), Po. ring. }
  set (y := (x * pow2 (- e))%Q) in *.
  split.
  - rewrite V, Pp. rewrite Ex. nra.
  - intro H. apply T. left.
    rewrite V, Pp in H. rewrite Ex in H.
    assert ((inject_Z q - y - (1 # 2)) * pow2 e == 0)%Q as H0
      by (ring_simplify; ring_simplify in H; lra).
    apply Qmult_integral in H0. destruct H0 as [H0 | H0]; lra.
Qed.

(** Up to the half-way point above a value of the format, and at it
    when the mantissa is even, a rounding does not exceed the value. *)
Lemma Rnd_le_half x f m E :
  valid_binary prec emax (S754_finite false m E) = true ->
  Rnd prec emax x f ->
  (x <= inject_Z (Zpos m) * pow2 E + pow2 (E - 1))%Q ->
  ((x < inject_Z (Zpos m) * pow2 E + pow2 (E - 1))%Q \/
   Z.even (Zpos m) = true) ->
  SFleb f (S754_finite false m E) = true.
Proof.
  intros V R U T.
  pose proof (valid_Rnd prec emax Hprec _ V eq_refl) as Rb. cbn [F2Q] in Rb.
  destruct (Qlt_le_dec (inject_Z (Zpos m) * pow2 E) x) as [C | C];
    [| exact (Rnd_mono prec emax Hprec _ _ _ _ R Rb C)].
  destruct (valid_finite_inv prec emax _ _ _ V) as [Cn B].
  pose proof (mag_finite m E) as [ML MU].
  pose proof (pow2_pos E) as Pe. pose proof (pow2_pred E) as Pp.
  pose proof (pow2_opp_mul E) as Po.
  destruct (Zdigits2_bounds (Zpos m) ltac:(lia)) as [_ DU].
  assert (inject_Z (Zpos m) + 1 <= pow2 (Zdigits2 (Zpos m)))%Q as Mx.
  { rewrite pow2_Z by (pose proof (Zdigits2_pos (Zpos m)); lia).
    rewrite <- inject_Z_succ. apply inject_Z_le. lia. }
  rewrite pow2_add in MU.
  assert (mag x (Zdigits2 (Zpos m) + E)) as Hg.
  { split; [lra |]. rewrite pow2_add. nra. }
  assert (inject_Z (Zpos m) < x * pow2 (- E))%Q as YL.
  { assert (inject_Z (Zpos m) == inject_Z (Zpos m) * pow2 E * pow2 (- E))%Q
      as -> by (rewrite <- Qmult_assoc, Po; ring).
    apply Qmult_lt_compat_r; [apply pow2_pos | exact C]. }
  assert (x * pow2 (- E) <= inject_Z (Zpos m) + (1 # 2))%Q as YU.
  { assert (inject_Z (Zpos m) + (1 # 2)
            == (inject_Z (Zpos m) * pow2 E + pow2 (E - 1)) * pow2 (- E))%Q
      as -> by (rewrite Pp; ring_simplify;
                rewrite <- !Qmult_assoc, Po; ring).
    apply Qmult_le_compat_r; [exact U |]. pose proof (pow2_pos (- E)). lra. }
  assert (Rnd prec emax x (S754_finite false m E)) as Rx.
  { right. left. split; [pose proof (F2Q_pos m E); lra |].
    exists (Zdigits2 (Zpos m) + E), (Zpos m). rewrite Cn.
    split; [exact Hg |]. split; [| symmetry; apply mkf_of_valid; exact V].
    split; [lra |]. split; [exact YU |].
    intros [H | H]; [lra |].
    destruct T as [T | T]; [| exact T]. exfalso.
    assert (x == x * pow2 (- E) * pow2 E)%Q as Ex
      by (rewrite <- Qmult_assoc, (Qmult_comm (pow2 (- E))), Po; ring).
    rewrite Ex, H, Pp in T. ring_simplify in T. lra. }
  apply (Rnd_mono prec emax Hprec _ _ _ _ R Rx). lra.
Qed.

(** Rounding commutes with the change of sign. *)
Lemma Rnd_opp x f : Rnd prec emax x f -> Rnd prec emax (- x) (SFopp f).
Proof.
  intros [[Z F] | [[P (g & q & Hg & Hq & ->)] | [P (g & q & Hg & Hq & ->)]]].
  - left. split; [lra | destruct f; try discriminate; reflexivity].
  - destruct (rounded_bounds prec emax Hprec x g q Hg Hq) as [[Q0 _] _].
    right. right. split; [lra |]. exists g, q. split; [| split].
    + eapply mag_ext; [| exact Hg]. ring.
    + eapply rne_ext; [| exact Hq]. ring.
    + symmetry. apply (mkf_opp prec emax false q _ Q0).
  - destruct (rounded_bounds prec emax Hprec (- x) g q Hg Hq) as [[Q0 _] _].
    right. left. split; [lra |]. exists g, q. split; [| split].
    + exact Hg.
    + exact Hq.
    + symmetry. apply (mkf_opp prec emax true q _ Q0).
Qed.

End HalfWay.

Lemma positive_shape b :
  is_finite b = true -> (0 < F2Q b)%Q ->
  exists m E, b = S754_finite false m E.
Proof.
  destruct b as [sb | sb | | sb m E]; try discriminate; intros _ P.
  destruct sb; [| eauto]. pose proof (F2Q_pos m E) as P'.
  exfalso. unfold F2Q in P. lra.
Qed.

(** In binary32, the rounding of a number within 1 of a finite value is
    finite. *)
Lemma f32_Rnd_near_fin_pos x f b :
  Rnd 24 128 x f -> fin32 b = true ->
  (0 <= F2Q b)%Q -> (0 <= x)%Q -> (x <= F2Q b + 1)%Q ->
  fin32 f = true.
Proof.
  intros R Hb B0 X0 XU.
  assert (fin32 (f32_of_Z (2 ^ 127 + 2 ^ 104)) = true) as Hh
    by (vm_compute; reflexivity).
  assert (F2Q (f32_of_Z (2 ^ 127 + 2 ^ 104))
          == inject_Z (2 ^ 127 + 2 ^ 104))%Q as Qh
    by (vm_compute; reflexivity).
  assert (inject_Z (2 ^ 127 + 2 ^ 104) == pow2 127 + pow2 104)%Q as Qs
    by (vm_compute; reflexivity).
  pose proof (pow2_le 0 104 ltac:(lia)) as P1. rewrite pow2_0 in P1.
  pose proof (f32_Rnd_mono _ _ _ _ (f32_fin_Rnd (f32_of_Z 0) eq_refl) R) as L.
  rewrite F2Q_f32_0 in L. specialize (L X0).
  destruct (Qlt_le_dec (pow2 127) (F2Q b)) as [C | C].
  - destruct (fin_inv 24 128 b Hb) as [V F].
    destruct (positive_shape b F) as (m & E & ->).
    { pose proof (pow2_pos 127). lra. }
    change (F2Q (S754_finite false m E))
      with (inject_Z (Zpos m) * pow2 E)%Q in *.
    destruct (valid_finite_inv 24 128 false m E V) as [Cn _].
    assert (Zdigits2 (Zpos m) <= 24) as D by (unfold fexp in Cn; lia).
    pose proof (mag_finite m E) as [_ MU].
    assert (103 <= E - 1) as EL.
    { assert (127 < Zdigits2 (Zpos m) + E) as G
        by (apply pow2_lt_inv; lra). lia. }
    pose proof (pow2_le 103 (E - 1) EL) as P2.
    pose proof (pow2_lt 0 103 ltac:(lia)) as P3. rewrite pow2_0 in P3.
    assert (SFleb f (S754_finite false m E) = true) as U.
    { apply (Rnd_le_half 24 128 prec32_pos x f m E V R); [lra | left; lra]. }
    pose proof (is_finite_between (f32_of_Z 0) f _ eq_refl F L U) as Ff.
    exact (f32_Rnd_fin _ _ R Ff).
  - destruct (f32_Rnd_between (f32_of_Z 0) (f32_of_Z (2 ^ 127 + 2 ^ 104))
                _ _ R eq_refl Hh) as (Hf & _ & _).
    + rewrite F2Q_f32_0. exact X0.
    + rewrite Qh, Qs. lra.
    + exact Hf.
Qed.

Lemma f32_Rnd_near_fin x f b :
  Rnd 24 128 x f -> fin32 b = true ->
  (F2Q b - 1 <= x)%Q -> (x <= F2Q b + 1)%Q ->
  fin32 f = true.
Proof.
  intros R Hb XL XU.
  assert (fin32 (f32_of_Z 1) = true) as H1 by reflexivity.
  assert (fin32 (f32_of_Z (-1)) = true) as Hm1 by reflexivity.
  destruct (Qlt_le_dec x 0) as [N | P].
  - destruct (Qlt_le_dec (F2Q b) 0) as [NB | PB].
    + pose proof (Rnd_opp 24 128 prec32_pos x f R) as R'.
      assert (fin32 (SFopp f) = true) as H.
      { apply (f32_Rnd_near_fin_pos (- x) (SFopp f) (SFopp b) R').
        - rewrite (fin_opp 24 128). exact Hb.
        - rewrite F2Q_opp. lra.
        - lra.
        - rewrite F2Q_opp. lra. }
      rewrite (fin_opp 24 128) in H. exact H.
    + destruct (f32_Rnd_between (f32_of_Z (-1)) (f32_of_Z 0) _ _ R Hm1
                  eq_refl) as (Hf & _ & _).
      * rewrite F2Q_f32_m1. lra.
      * rewrite F2Q_f32_0. lra.
      * exact Hf.
  - destruct (Qlt_le_dec (F2Q b) 0) as [NB | PB].
    + destruct (f32_Rnd_between (f32_of_Z 0) (f32_of_Z 1) _ _ R eq_refl H1)
        as (Hf & _ & _).
      * rewrite F2Q_f32_0. lra.
      * rewrite F2Q_f32_1. lra.
      * exact Hf.
    + exact (f32_Rnd_near_fin_pos x f b R Hb PB P XU).
Qed.

(* ================================================================== *)
(** * The axis state machine                                            *)
(* ================================================================== *)

(** What follows the [switch] in [axis_update] touches neither the state
    nor the peaks. *)
Lemma axis_update_core cfg ax pos neg prev_pos prev_neg freq clk :
  let sw :=
    fst (axis_switch cfg (set_predictive (set_prev ax (state ax)) false)
           pos neg prev_pos prev_neg freq clk) in
  let ax' := fst (axis_update cfg ax pos neg prev_pos prev_neg freq clk) in
  state ax' = state sw /\ pos_peak ax' = pos_peak sw /\
  neg_peak ax' = neg_peak sw.
Proof.
  cbv zeta. unfold axis_update.
  destruct (axis_switch cfg (set_predictive (set_prev ax (state ax)) false)
              pos neg prev_pos prev_neg freq clk) as [ax1 clk1].
  cbn [fst]. unfold QueryPerformanceCounter.
  repeat match goal with
         | |- context [if ?c then _ else _] => destruct c
         end; cbn; auto.
Qed.

(** The state the [switch] leaves, entered in [S_IDLE]. *)
Lemma axis_switch_idle cfg ax pos neg prev_pos prev_neg freq clk :
  state ax = S_IDLE ->
  state (fst (axis_switch cfg ax pos neg prev_pos prev_neg freq clk)) =
  if (pos >? DEAD_ZONE)%f32 && negb (neg >? DEAD_ZONE)%f32 then S_STRAFE_POS
  else if (neg >? DEAD_ZONE)%f32 && negb (pos >? DEAD_ZONE)%f32
       then S_STRAFE_NEG else S_IDLE.
Proof.
  intro H. unfold axis_switch. rewrite H. cbv zeta.
  destruct (pos >? DEAD_ZONE)%f32, (neg >? DEAD_ZONE)%f32; cbn; auto.
Qed.

(** Leaving a counter state for [S_STRAFE_NEG], the [switch] sets
    [neg_peak] and leaves [pos_peak] as it was. *)
Lemma axis_switch_counter_to_strafe_neg cfg ax pos neg prev_pos prev_neg
  freq clk :
  is_counter (state ax) = true ->
  (neg >? DEAD_ZONE)%f32 = true -> (pos >? DEAD_ZONE)%f32 = false ->
  let ax' := fst (axis_switch cfg ax pos neg prev_pos prev_neg freq clk) in
  state ax' = S_STRAFE_NEG /\ neg_peak ax' = neg /\
  pos_peak ax' = pos_peak ax.
Proof.
  intros Hc Hn Hp. cbv zeta. unfold axis_switch. cbv zeta.
  rewrite Hn, Hp. unfold QueryPerformanceCounter.
  destruct (state ax); try discriminate; cbn; auto.
Qed.

(** C1 (the code does otherwise): leaving [S_COUNTER_POS] or
    [S_COUNTER_NEG] for [S_STRAFE_NEG], [axis_update] sets [neg_peak] to
    the depth read and keeps [pos_peak]; so after the depths
    (pos, neg) = (1, 0), (1, 1), (0, 1) from the zeroed axis the state is
    [S_STRAFE_NEG] with both peaks equal to 1. *)
Theorem C1_strafe_after_counter_has_both_peaks :
  (forall cfg ax pos neg prev_pos prev_neg freq clk,
      is_counter (state ax) = true ->
      (neg >? DEAD_ZONE)%f32 = true -> (pos >? DEAD_ZONE)%f32 = false ->
      state (fst (axis_update cfg ax pos neg prev_pos prev_neg freq clk))
      = S_STRAFE_NEG /\
      neg_peak (fst (axis_update cfg ax pos neg prev_pos prev_neg freq clk))
      = neg /\
      pos_peak (fst (axis_update cfg ax pos neg prev_pos prev_neg freq clk))
      = pos_peak ax) /\
  (let ax :=
     fst (axis_run g_cfg (f64_of_Z 10000000) Axis_zero
            (f32_of_Z 0) (f32_of_Z 0) (Clock_of_list [1000; 2000; 3000; 4000])
            [(f32_of_Z 1, f32_of_Z 0); (f32_of_Z 1, f32_of_Z 1);
             (f32_of_Z 0, f32_of_Z 1)]) in
   state ax = S_STRAFE_NEG /\
   pos_peak ax = f32_of_Z 1 /\ neg_peak ax = f32_of_Z 1 /\
   is_zero (pos_peak ax) = false /\ is_zero (neg_peak ax) = false).
Proof.
  split.
  - intros cfg ax pos neg prev_pos prev_neg freq clk Hc Hn Hp.
    destruct (axis_update_core cfg ax pos neg prev_pos prev_neg freq clk)
      as (-> & -> & ->).
    exact (axis_switch_counter_to_strafe_neg cfg
             (set_predictive (set_prev ax (state ax)) false)
             pos neg prev_pos prev_neg freq clk Hc Hn Hp).
  - vm_compute. repeat split; reflexivity.
Qed.

(** The states on the way: IDLE, STRAFE_POS, COUNTER_NEG, STRAFE_NEG. *)
Lemma C1_trace :
  let run l :=
    fst (axis_run g_cfg (f64_of_Z 10000000) Axis_zero
           (f32_of_Z 0) (f32_of_Z 0) (Clock_of_list [1000; 2000; 3000; 4000])
           l) in
  let s1 := (f32_of_Z 1, f32_of_Z 0) in
  let s2 := (f32_of_Z 1, f32_of_Z 1) in
  let s3 := (f32_of_Z 0, f32_of_Z 1) in
  (state (run [s1]), pos_peak (run [s1]), neg_peak (run [s1]))
  = (S_STRAFE_POS, f32_of_Z 1, f32_of_Z 0) /\
  (state (run [s1; s2]), pos_peak (run [s1; s2]), neg_peak (run [s1; s2]))
  = (S_COUNTER_NEG, f32_of_Z 1, f32_of_Z 0) /\
  (state (run [s1; s2; s3]), pos_peak (run [s1; s2; s3]),
   neg_peak (run [s1; s2; s3]))
  = (S_STRAFE_NEG, f32_of_Z 1, f32_of_Z 1).
Proof. vm_compute. repeat split; reflexivity. Qed.

(** From [S_IDLE] with both directions held and then the negative one
    released, the state becomes [S_STRAFE_POS] although the positive
    depth was above the dead zone on the tick before. *)
Lemma C2_counterexample :
  let run l :=
    fst (axis_run g_cfg (f64_of_Z 10000000) Axis_zero
           (f32_of_Z 0) (f32_of_Z 0) (Clock_of_list [1000; 2000]) l) in
  let one := f32_of_Z 1 in
  let zero := f32_of_Z 0 in
  state (run [(one, one)]) = S_IDLE /\
  (one >? DEAD_ZONE)%f32 = true /\
  (one <=? DEAD_ZONE)%f32 = false /\
  state (run [(one, one); (one, zero)]) = S_STRAFE_POS.
Proof. vm_compute. repeat split; reflexivity. Qed.

(** C2 (amended): from [S_IDLE], [axis_update] moves to [S_STRAFE_POS]
    exactly when the positive depth is above the dead zone and the
    negative one is not, whatever the depths of the tick before. *)
Theorem C2_idle_to_strafe_pos_on_level cfg ax pos neg prev_pos prev_neg
  freq clk :
  state ax = S_IDLE ->
  (state (fst (axis_update cfg ax pos neg prev_pos prev_neg freq clk))
   = S_STRAFE_POS
   <-> (pos >? DEAD_ZONE)%f32 = true /\ (neg >? DEAD_ZONE)%f32 = false).
Proof.
  intro H.
  destruct (axis_update_core cfg ax pos neg prev_pos prev_neg freq clk)
    as (-> & _ & _).
  rewrite axis_switch_idle by exact H.
  destruct (pos >? DEAD_ZONE)%f32, (neg >? DEAD_ZONE)%f32; cbn;
    split; try discriminate; try tauto; intros [? ?]; discriminate.
Qed.

Lemma C2_witness :
  state (fst (axis_update g_cfg Axis_zero (f32_of_Z 1) (f32_of_Z 0)
                (f32_of_Z 1) (f32_of_Z 0) (f64_of_Z 10000000)
                (Clock_of_list [1000])))
  = S_STRAFE_POS.
Proof.
  apply (C2_idle_to_strafe_pos_on_level g_cfg Axis_zero).
  - reflexivity.
  - split; vm_compute; reflexivity.
Defined.

(* ================================================================== *)
(** * The velocity estimator                                            *)
(* ================================================================== *)

Lemma F2Q_f32_80 : (F2Q SV_STOPSPEED == 80)%Q.
Proof. vm_compute. reflexivity. Qed.

Lemma SV_FRICTION_bounds : (0 <= F2Q SV_FRICTION)%Q /\ (F2Q SV_FRICTION <= 8)%Q.
Proof. vm_compute. split; discriminate. Qed.

Lemma SV_ACCELERATE_bounds :
  (0 <= F2Q SV_ACCELERATE)%Q /\ (F2Q SV_ACCELERATE <= 8)%Q.
Proof. vm_compute. split; discriminate. Qed.

Lemma F2Q_f32_8 : (F2Q (f32_of_Z 8) == 8)%Q.
Proof. vm_compute. reflexivity. Qed.

Lemma milli_pos : (0 < F2Q (lit32 1 1000))%Q.
Proof. vm_compute. reflexivity. Qed.

(** The clamp and the snap to zero that end [vel_step]. *)
Lemma vel_clamp_snap v mx :
  fin32 v = true -> fin32 mx = true -> (0 <= F2Q mx)%Q ->
  let v3 :=
    if (fabsf v >? mx)%f32
    then (if (v >? f32_of_Z 0)%f32 then mx else (- mx)%f32)
    else v in
  let r := if (fabsf v3 <? lit32 5 10)%f32 then f32_of_Z 0 else v3 in
  fin32 r = true /\ (Qabs (F2Q r) <= F2Q mx)%Q /\
  (r = f32_of_Z 0 \/ (1 # 2 <= Qabs (F2Q r))%Q).
Proof.
  intros Hv Hm M0 v3 r.
  assert (fin32 v3 = true /\ (Qabs (F2Q v3) <= F2Q mx)%Q) as [H3 B3].
  { unfold v3. destruct (fabsf v >? mx)%f32 eqn:E.
    - destruct (v >? f32_of_Z 0)%f32.
      + split; [exact Hm |]. rewrite Qabs_pos by exact M0. lra.
      + split; [rewrite fin32_neg; exact Hm |].
        rewrite F2Q_neg, Qabs_opp, Qabs_pos by exact M0. lra.
    - split; [exact Hv |].
      apply fgt_nQ in E; [| rewrite fin32_fabsf |]; try assumption.
      rewrite F2Q_fabsf in E. exact E. }
  unfold r. destruct (fabsf v3 <? lit32 5 10)%f32 eqn:E.
  - split; [reflexivity |]. split; [| left; reflexivity].
    rewrite F2Q_f32_0. cbn. exact M0.
  - split; [exact H3 |]. split; [exact B3 |]. right.
    apply flt_nQ in E; [| rewrite fin32_fabsf; exact H3 | reflexivity].
    rewrite F2Q_fabsf, F2Q_f32_half in E. exact E.
Qed.

(** The floats 2^120, 2^121, 2^123 and 2^124 and their opposites, which
    bound the intermediate values. *)
Lemma big_facts :
  (80 <= inject_Z (2 ^ 120))%Q /\
  (fin32 (f32_of_Z (2 ^ (120 + 0))) = true /\
   fin32 (f32_of_Z (- 2 ^ (120 + 0))) = true /\
   (F2Q (f32_of_Z (2 ^ (120 + 0))) == 1 * inject_Z (2 ^ 120))%Q /\
   (F2Q (f32_of_Z (- 2 ^ (120 + 0))) == - (1 * inject_Z (2 ^ 120)))%Q) /\
  (fin32 (f32_of_Z (2 ^ (120 + 1))) = true /\
   fin32 (f32_of_Z (- 2 ^ (120 + 1))) = true /\
   (F2Q (f32_of_Z (2 ^ (120 + 1))) == 2 * inject_Z (2 ^ 120))%Q /\
   (F2Q (f32_of_Z (- 2 ^ (120 + 1))) == - (2 * inject_Z (2 ^ 120)))%Q) /\
  (fin32 (f32_of_Z (2 ^ (120 + 3))) = true /\
   fin32 (f32_of_Z (- 2 ^ (120 + 3))) = true /\
   (F2Q (f32_of_Z (2 ^ (120 + 3))) == 8 * inject_Z (2 ^ 120))%Q /\
   (F2Q (f32_of_Z (- 2 ^ (120 + 3))) == - (8 * inject_Z (2 ^ 120)))%Q) /\
  (fin32 (f32_of_Z (2 ^ (120 + 4))) = true /\
   fin32 (f32_of_Z (- 2 ^ (120 + 4))) = true /\
   (F2Q (f32_of_Z (2 ^ (120 + 4))) == 16 * inject_Z (2 ^ 120))%Q /\
   (F2Q (f32_of_Z (- 2 ^ (120 + 4))) == - (16 * inject_Z (2 ^ 120)))%Q).
Proof.
  split; [vm_compute; discriminate |].
  repeat split; vm_compute; reflexivity.
Qed.

(** The friction stage of [vel_step] keeps a bounded velocity bounded. *)
Lemma vel_friction v dt :
  fin32 v = true -> fin32 dt = true ->
  (0 <= F2Q dt)%Q -> (F2Q dt <= 1)%Q ->
  (Qabs (F2Q v) <= inject_Z (2 ^ 120))%Q ->
  let speed := fabsf v in
  let v1 :=
    if (speed >? lit32 1 1000)%f32 then
      let control :=
        if (speed <? SV_STOPSPEED)%f32 then SV_STOPSPEED else speed in
      let drop := (control * SV_FRICTION * dt)%f32 in
      let new_speed := (speed - drop)%f32 in
      let new_speed :=
        if (new_speed <? f32_of_Z 0)%f32 then f32_of_Z 0 else new_speed in
      (v * (new_speed / speed))%f32
    else v in
  fin32 v1 = true /\ (Qabs (F2Q v1) <= inject_Z (2 ^ 120))%Q.
Proof.
  intros Hv Hdt D0 D1 Bv speed.
  assert (fin32 speed = true) as Hs by (unfold speed; rewrite fin32_fabsf; exact Hv).
  assert (F2Q speed == Qabs (F2Q v))%Q as Qs by apply F2Q_fabsf.
  cbv zeta. destruct (speed >? lit32 1 1000)%f32 eqn:E; [| split; assumption].
  apply fgt_Q in E; [| exact Hs | reflexivity].
  pose proof milli_pos as MP.
  destruct big_facts as (K & (P0 & N0 & QP0 & QN0) & (P1 & N1 & QP1 & QN1)
                        & (P3 & N3 & QP3 & QN3) & (P4 & N4 & QP4 & QN4)).
  revert K Bv QP0 QN0 QP1 QN1 QP3 QN3 QP4 QN4.
  generalize (inject_Z (2 ^ 120)). intros B K Bv QP0 QN0 QP1 QN1 QP3 QN3 QP4 QN4.
  apply Qabs_bounds in Bv. destruct Bv as [Bl Bu].
  assert (F2Q speed <= B)%Q as SB by (rewrite Qs; apply Qabs_bounds; split; lra).
  set (control := if (speed <? SV_STOPSPEED)%f32 then SV_STOPSPEED else speed).
  assert (fin32 control = true /\ (0 <= F2Q control)%Q /\ (F2Q control <= B)%Q)
    as (Hc & C0 & C1).
  { unfold control. destruct (speed <? SV_STOPSPEED)%f32.
    - split; [reflexivity |]. rewrite F2Q_f32_80. split; lra.
    - split; [exact Hs |]. split; lra. }
  destruct SV_FRICTION_bounds as [F0 F1].
  destruct (f32_mul_between control SV_FRICTION (f32_of_Z 0)
              (f32_of_Z (2 ^ (120 + 3)))) as (Hc1 & L1 & U1);
    try assumption; try reflexivity.
  { rewrite F2Q_f32_0. nra. }
  { rewrite QP3. nra. }
  rewrite F2Q_f32_0 in L1. rewrite QP3 in U1.
  set (c1 := (control * SV_FRICTION)%f32) in *.
  destruct (f32_mul_between c1 dt (f32_of_Z 0)
              (f32_of_Z (2 ^ (120 + 3)))) as (Hd & L2 & U2);
    try assumption; try reflexivity.
  { rewrite F2Q_f32_0. nra. }
  { rewrite QP3. nra. }
  rewrite F2Q_f32_0 in L2. rewrite QP3 in U2.
  set (drop := (c1 * dt)%f32) in *.
  destruct (f32_sub_between speed drop (f32_of_Z (- 2 ^ (120 + 3))) speed)
    as (Hn & L3 & U3); try assumption.
  { rewrite QN3. lra. }
  { lra. }
  rewrite QN3 in L3.
  set (ns0 := (speed - drop)%f32) in *.
  set (ns := if (ns0 <? f32_of_Z 0)%f32 then f32_of_Z 0 else ns0).
  assert (fin32 ns = true /\ (0 <= F2Q ns)%Q /\ (F2Q ns <= F2Q speed)%Q)
    as (Hns & N0' & N1').
  { unfold ns. destruct (ns0 <? f32_of_Z 0)%f32 eqn:E0.
    - split; [reflexivity |]. rewrite F2Q_f32_0. split; lra.
    - apply flt_nQ in E0; [| exact Hn | reflexivity].
      rewrite F2Q_f32_0 in E0. split; [exact Hn |]. split; lra. }
  assert (is_zero speed = false) as Zs by (apply F2Q_nonzero; lra).
  destruct (f32_div_between ns speed (f32_of_Z 0) (f32_of_Z 1))
    as (Hr & L4 & U4); try assumption; try reflexivity.
  { rewrite F2Q_f32_0. apply Qle_shift_div_l; lra. }
  { rewrite F2Q_f32_1. apply Qle_shift_div_r; lra. }
  rewrite F2Q_f32_0 in L4. rewrite F2Q_f32_1 in U4.
  set (ratio := (ns / speed)%f32) in *.
  destruct (f32_mul_between v ratio (f32_of_Z (- 2 ^ (120 + 0)))
              (f32_of_Z (2 ^ (120 + 0)))) as (H1 & L5 & U5);
    try assumption.
  { rewrite QN0. nra. }
  { rewrite QP0. nra. }
  rewrite QN0 in L5. rewrite QP0 in U5.
  split; [exact H1 |]. apply Qabs_bounds. split; lra.
Qed.

(** The acceleration stage of [vel_step] gives a finite velocity. *)
Lemma vel_accelerate v mx dt wish :
  fin32 v = true -> fin32 mx = true -> fin32 dt = true ->
  (0 <= F2Q dt)%Q -> (F2Q dt <= 1)%Q ->
  (Qabs (F2Q v) <= inject_Z (2 ^ 120))%Q ->
  (0 <= F2Q mx)%Q -> (F2Q mx <= inject_Z (2 ^ 120))%Q ->
  wish = f32_of_Z 1 \/ wish = f32_of_Z (-1) \/ wish = f32_of_Z 0 ->
  let v2 :=
    if (wish !=? f32_of_Z 0)%f32 then
      let current_in_wish := (v * wish)%f32 in
      let add_speed := (mx - current_in_wish)%f32 in
      if (add_speed >? f32_of_Z 0)%f32 then
        let accel_speed := (SV_ACCELERATE * dt * mx)%f32 in
        let accel_speed :=
          if (accel_speed >? add_speed)%f32 then add_speed else accel_speed in
        (v + accel_speed * wish)%f32
      else v
    else v in
  fin32 v2 = true.
Proof.
  intros Hv Hm Hdt D0 D1 Bv M0 M1 Hw. cbv zeta.
  assert (fin32 wish = true /\ (- (1) <= F2Q wish)%Q /\ (F2Q wish <= 1)%Q)
    as (Hwf & W0 & W1).
  { destruct Hw as [-> | [-> | ->]]; (split; [reflexivity |]);
      rewrite ?F2Q_f32_1, ?F2Q_f32_m1, ?F2Q_f32_0; split; lra. }
  destruct (wish !=? f32_of_Z 0)%f32; [| exact Hv].
  destruct big_facts as (K & (P0 & N0 & QP0 & QN0) & (P1 & N1 & QP1 & QN1)
                        & (P3 & N3 & QP3 & QN3) & (P4 & N4 & QP4 & QN4)).
  revert K Bv M1 QP0 QN0 QP1 QN1 QP3 QN3 QP4 QN4.
  generalize (inject_Z (2 ^ 120)).
  intros B K Bv M1 QP0 QN0 QP1 QN1 QP3 QN3 QP4 QN4.
  apply Qabs_bounds in Bv. destruct Bv as [Bl Bu].
  destruct (f32_mul_between v wish (f32_of_Z (- 2 ^ (120 + 0)))
              (f32_of_Z (2 ^ (120 + 0)))) as (Hc & L1 & U1); try assumption.
  { rewrite QN0. nra. }
  { rewrite QP0. nra. }
  rewrite QN0 in L1. rewrite QP0 in U1.
  set (ciw := (v * wish)%f32) in *.
  destruct (f32_sub_between mx ciw (f32_of_Z (- 2 ^ (120 + 1)))
              (f32_of_Z (2 ^ (120 + 1)))) as (Ha & L2 & U2); try assumption.
  { rewrite QN1. lra. }
  { rewrite QP1. lra. }
  rewrite QN1 in L2. rewrite QP1 in U2.
  set (add_speed := (mx - ciw)%f32) in *.
  destruct (add_speed >? f32_of_Z 0)%f32; [| exact Hv].
  destruct SV_ACCELERATE_bounds as [A0 A1].
  destruct (f32_mul_between SV_ACCELERATE dt (f32_of_Z 0) (f32_of_Z 8))
    as (Hb & L3 & U3); try assumption; try reflexivity.
  { rewrite F2Q_f32_0. nra. }
  { rewrite F2Q_f32_8. nra. }
  rewrite F2Q_f32_0 in L3. rewrite F2Q_f32_8 in U3.
  set (a0 := (SV_ACCELERATE * dt)%f32) in *.
  destruct (f32_mul_between a0 mx (f32_of_Z (- 2 ^ (120 + 3)))
              (f32_of_Z (2 ^ (120 + 3)))) as (He & L4 & U4); try assumption.
  { rewrite QN3. nra. }
  { rewrite QP3. nra. }
  rewrite QN3 in L4. rewrite QP3 in U4.
  set (a1 := (a0 * mx)%f32) in *.
  set (acc := if (a1 >? add_speed)%f32 then add_speed else a1).
  assert (fin32 acc = true /\ (- (8 * B) <= F2Q acc)%Q /\ (F2Q acc <= 8 * B)%Q)
    as (Hacc & L5 & U5).
  { unfold acc. destruct (a1 >? add_speed)%f32.
    - split; [exact Ha |]. split; lra.
    - split; [exact He |]. split; lra. }
  destruct (f32_mul_between acc wish (f32_of_Z (- 2 ^ (120 + 3)))
              (f32_of_Z (2 ^ (120 + 3)))) as (Hg & L6 & U6); try assumption.
  { rewrite QN3. nra. }
  { rewrite QP3. nra. }
  rewrite QN3 in L6. rewrite QP3 in U6.
  set (aw := (acc * wish)%f32) in *.
  destruct (f32_add_between v aw (f32_of_Z (- 2 ^ (120 + 4)))
              (f32_of_Z (2 ^ (120 + 4)))) as (Hr & _ & _); try assumption.
  { rewrite QN4. lra. }
  { rewrite QP4. lra. }
Qed.

(** One step of the estimator: from a finite velocity of magnitude at
    most 2^120, with a finite speed cap in [0, 2^120] and a time step in
    [0, 1], the new velocity is finite, within the cap, and either
    exactly zero or of magnitude at least 0.5. *)
Lemma vel_step_inv v pos_key neg_key mx dt :
  fin32 v = true -> fin32 mx = true -> fin32 dt = true ->
  (0 <= F2Q dt)%Q -> (F2Q dt <= 1)%Q ->
  (Qabs (F2Q v) <= inject_Z (2 ^ 120))%Q ->
  (0 <= F2Q mx)%Q -> (F2Q mx <= inject_Z (2 ^ 120))%Q ->
  fin32 (vel_step v pos_key neg_key mx dt) = true /\
  (Qabs (F2Q (vel_step v pos_key neg_key mx dt)) <= F2Q mx)%Q /\
  (vel_step v pos_key neg_key mx dt = f32_of_Z 0 \/
   (1 # 2 <= Qabs (F2Q (vel_step v pos_key neg_key mx dt)))%Q).
Proof.
  intros Hv Hm Hdt D0 D1 Bv M0 M1.
  pose proof (vel_friction v dt Hv Hdt D0 D1 Bv) as HF. cbv zeta in HF.
  destruct HF as [H1 B1].
  unfold vel_step. cbv zeta.
  match type of H1 with fin32 ?e = true => set (v1 := e) in * end.
  set (wish := if pos_key && negb neg_key then f32_of_Z 1
               else if neg_key && negb pos_key then f32_of_Z (-1)
               else f32_of_Z 0).
  assert (wish = f32_of_Z 1 \/ wish = f32_of_Z (-1) \/ wish = f32_of_Z 0)
    as Hw by (unfold wish; destruct pos_key, neg_key; cbn; auto).
  pose proof (vel_accelerate v1 mx dt wish H1 Hm Hdt D0 D1 B1 M0 M1 Hw) as H2.
  cbv zeta in H2.
  match type of H2 with fin32 ?e = true => set (v2 := e) in * end.
  exact (vel_clamp_snap v2 mx H2 Hm M0).
Qed.

(** [vel_update] is the early return for a time step outside (0, 0.1]
    and otherwise [vel_step] on the elapsed time. *)
Lemma vel_update_eq ve p n mx now freq :
  vel_update ve p n mx now freq =
  let elapsed := (double_of_ticks now (last_update ve) / freq)%f64 in
  if (elapsed <=? f64_of_Z 0)%f64 || (elapsed >? lit64 1 10)%f64 then
    {| vel := vel ve; max_speed := mx; last_update := now |}
  else
    {| vel := vel_step (vel ve) (p >? DEAD_ZONE)%f32 (n >? DEAD_ZONE)%f32 mx
                (f32_of_double elapsed);
       max_speed := mx; last_update := now |}.
Proof. reflexivity. Qed.

Lemma swrap64_range z : - 2 ^ 63 <= swrap64 z < 2 ^ 63.
Proof.
  unfold swrap64.
  pose proof (Z.mod_pos_bound (z + 2 ^ 63) (2 ^ 64) ltac:(lia)). lia.
Qed.

Lemma double_of_ticks_fin a b : fin64 (double_of_ticks a b) = true.
Proof.
  unfold double_of_ticks. pose proof (swrap64_range (a - b)) as R.
  assert (fin64 (f64_of_Z (- 2 ^ 63)) = true) as Hlo
    by (vm_compute; reflexivity).
  assert (fin64 (f64_of_Z (2 ^ 63)) = true) as Hhi
    by (vm_compute; reflexivity).
  assert (F2Q (f64_of_Z (- 2 ^ 63)) == inject_Z (- 2 ^ 63))%Q as Qlo
    by (vm_compute; reflexivity).
  assert (F2Q (f64_of_Z (2 ^ 63)) == inject_Z (2 ^ 63))%Q as Qhi
    by (vm_compute; reflexivity).
  destruct (f64_Rnd_between _ _ _ _
              (f64_of_Z_Rnd (swrap64 (a - b))) Hlo Hhi) as (H & _ & _).
  - rewrite Qlo, <- Zle_Qle. lia.
  - rewrite Qhi, <- Zle_Qle. lia.
  - exact H.
Qed.

(** When [vel_update] does not return early, the time step it hands on
    is a finite binary32 value in [0, 1]. *)
Lemma elapsed_dt now last freq :
  fin64 freq = true -> is_zero freq = false ->
  ((double_of_ticks now last / freq <=? f64_of_Z 0)%f64
   || (double_of_ticks now last / freq >? lit64 1 10)%f64) = false ->
  fin32 (f32_of_double (double_of_ticks now last / freq)%f64) = true /\
  (0 <= F2Q (f32_of_double (double_of_ticks now last / freq)%f64))%Q /\
  (F2Q (f32_of_double (double_of_ticks now last / freq)%f64) <= 1)%Q.
Proof.
  intros Hf Zf E.
  pose proof (f64_div_Rnd _ _ (double_of_ticks_fin now last) Hf Zf) as R.
  set (el := (double_of_ticks now last / freq)%f64) in *.
  apply orb_false_elim in E. destruct E as [E1 E2].
  pose proof (Rnd_valid 53 1024 prec64_pos _ _ R) as V.
  pose proof (f64_Rnd_not_nan _ _ R) as NN.
  assert (is_finite el = true) as F.
  { clearbody el. destruct el as [s | s | | s m e]; try reflexivity.
    - destruct s; [vm_compute in E1 | vm_compute in E2]; discriminate.
    - discriminate. }
  pose proof (fin64_intro el V F) as He.
  apply f64_nle_Q in E1; [| exact He | reflexivity].
  apply f64_nlt_Q in E2; [| reflexivity | exact He].
  assert (F2Q (f64_of_Z 0) == 0)%Q as Q0 by (vm_compute; reflexivity).
  assert (F2Q (lit64 1 10) <= 1)%Q as Q1 by (vm_compute; discriminate).
  destruct (f32_Rnd_between (f32_of_Z 0) (f32_of_Z 1) _ _
              (f32_of_double_Rnd el F)) as (H & L & U);
    try reflexivity.
  - rewrite F2Q_f32_0. lra.
  - rewrite F2Q_f32_1. lra.
  - rewrite F2Q_f32_0 in L. rewrite F2Q_f32_1 in U. auto.
Qed.

(** The invariant of the estimator for the speed cap [mx]. *)
Lemma vel_update_inv ve p n mx now freq :
  fin64 freq = true -> is_zero freq = false ->
  fin32 mx = true -> (0 <= F2Q mx)%Q -> (F2Q mx <= inject_Z (2 ^ 120))%Q ->
  fin32 (vel ve) = true -> (Qabs (F2Q (vel ve)) <= F2Q mx)%Q ->
  (vel ve = f32_of_Z 0 \/ (1 # 2 <= Qabs (F2Q (vel ve)))%Q) ->
  fin32 (vel (vel_update ve p n mx now freq)) = true /\
  (Qabs (F2Q (vel (vel_update ve p n mx now freq))) <= F2Q mx)%Q /\
  (vel (vel_update ve p n mx now freq) = f32_of_Z 0 \/
   (1 # 2 <= Qabs (F2Q (vel (vel_update ve p n mx now freq))))%Q).
Proof.
  intros Hf Zf Hm M0 M1 Hv Bv Sv. rewrite vel_update_eq. cbv zeta.
  destruct ((double_of_ticks now (last_update ve) / freq <=? f64_of_Z 0)%f64
            || (double_of_ticks now (last_update ve) / freq >? lit64 1 10)%f64)
    eqn:E; cbn [vel].
  - auto.
  - destruct (elapsed_dt now (last_update ve) freq Hf Zf E) as (Hd & D0 & D1).
    apply vel_step_inv; try assumption.
    eapply Qle_trans; [exact Bv | exact M1].
Qed.

(** With one speed cap [mx] for every call of a run (any analog key
    values, any counter readings, hence any time step, the ones that
    make the call return early included), from a state within the cap:
    the estimated velocity is a finite number within [-mx, +mx] after
    the calls, and it is either exactly zero or of magnitude at least
    0.5.  The cap is a finite binary32 value in [0, 2^120] and the
    counter frequency a finite nonzero double. *)
Lemma vel_run_within_fixed_cap freq mx l ve :
  fin64 freq = true -> is_zero freq = false ->
  fin32 mx = true -> (0 <= F2Q mx)%Q -> (F2Q mx <= inject_Z (2 ^ 120))%Q ->
  Forall (fun i => vi_max_speed i = mx) l ->
  fin32 (vel ve) = true -> (Qabs (F2Q (vel ve)) <= F2Q mx)%Q ->
  (vel ve = f32_of_Z 0 \/ (1 # 2 <= Qabs (F2Q (vel ve)))%Q) ->
  fin32 (vel (vel_run freq ve l)) = true /\
  (Qabs (F2Q (vel (vel_run freq ve l))) <= F2Q mx)%Q /\
  (vel (vel_run freq ve l) = f32_of_Z 0 \/
   (1 # 2 <= Qabs (F2Q (vel (vel_run freq ve l))))%Q).
Proof.
  intros Hf Zf Hm M0 M1 Hl. revert ve.
  induction Hl as [| i l Hi Hl IH]; intros ve Hv Bv Sv.
  - cbn. auto.
  - unfold vel_run in *. cbn [fold_left]. rewrite Hi.
    destruct (vel_update_inv ve (vi_pos i) (vi_neg i) mx (vi_now i) freq
                Hf Zf Hm M0 M1 Hv Bv Sv) as (Hv' & Bv' & Sv').
    apply IH; assumption.
Qed.

(** A call of [vel_update] that returns early stores the cap it is
    given and the counter reading, and hands the velocity back as it
    was: the clamp at the end of the function is not reached. *)
Lemma vel_update_early ve p n mx now freq :
  (double_of_ticks now (last_update ve) / freq <=? f64_of_Z 0)%f64
  || (double_of_ticks now (last_update ve) / freq >? lit64 1 10)%f64 = true ->
  vel_update ve p n mx now freq =
  {| vel := vel ve; max_speed := mx; last_update := now |}.
Proof. intros E. rewrite vel_update_eq. cbv zeta. rewrite E. reflexivity. Qed.

(** The run of [swap_calls] from the estimator as [main] sets it up, at
    a 10 MHz counter: sixty calls at the knife's cap take the velocity
    to 250, and the late call with the AWP's cap leaves it there. *)
Lemma swap_calls_run :
  let freq := f64_of_Z 10000000 in
  let before := vel_run freq (VelEstimator_init 0) knife_calls in
  let after := vel_run freq (VelEstimator_init 0) swap_calls in
  (vel before = f32_of_Z 250 /\ max_speed before = f32_of_Z 250 /\
   last_update before = 9375000) /\
  ((double_of_ticks 11375000 (last_update before) / freq >? lit64 1 10)%f64
   = true) /\
  (vel after = f32_of_Z 250 /\ max_speed after = f32_of_Z 200 /\
   last_update after = 11375000).
Proof. vm_compute. repeat split; reflexivity. Qed.

(** C3: the velocity can be left outside [-max_speed, +max_speed].  A
    call of [vel_update] whose elapsed time is not in (0, 0.1] returns
    early: it stores the cap it is given and leaves the velocity as it
    was, without the clamp that ends the other path.  From the
    estimator as [main] sets it up, with the positive key held and the
    knife out (cap 250), sixty calls 1/64 s apart take the velocity to
    250; a call 0.2 s later with the AWP out (cap 200) returns early,
    and after it the velocity is 250 and the stored [max_speed] is 200:
    [fabsf(vel) > max_speed] holds. *)
Theorem C3_early_return_leaves_vel_above_cap :
  (forall ve p n mx now freq,
      (double_of_ticks now (last_update ve) / freq <=? f64_of_Z 0)%f64
      || (double_of_ticks now (last_update ve) / freq >? lit64 1 10)%f64
      = true ->
      vel_update ve p n mx now freq =
      {| vel := vel ve; max_speed := mx; last_update := now |}) /\
  (let ve := vel_run (f64_of_Z 10000000) (VelEstimator_init 0) knife_calls in
   vel ve = f32_of_Z 250 /\ max_speed ve = f32_of_Z 250) /\
  (let ve := vel_run (f64_of_Z 10000000) (VelEstimator_init 0) swap_calls in
   vel ve = f32_of_Z 250 /\ max_speed ve = f32_of_Z 200 /\
   (fabsf (vel ve) >? max_speed ve)%f32 = true /\
   ~ (Qabs (F2Q (vel ve)) <= F2Q (max_speed ve))%Q).
Proof.
  split; [exact vel_update_early |].
  destruct swap_calls_run as ((A1 & A2 & _) & _ & (B1 & B2 & _)).
  cbv zeta in *. split; [split; assumption |].
  split; [exact B1 |]. split; [exact B2 |].
  rewrite B1, B2. split; [vm_compute; reflexivity |].
  vm_compute. intros H. apply H. reflexivity.
Qed.

(* ================================================================== *)
(** * Counter-strafe phase decay                                        *)
(* ================================================================== *)

Lemma F2Q_min_ap : (F2Q (lit32 15 100) == inject_Z 5033165 * pow2 (-25))%Q.
Proof. vm_compute. reflexivity. Qed.

Lemma min_ap_fin : fin32 (lit32 15 100) = true.
Proof. vm_compute. reflexivity. Qed.

Lemma min_ap_positive : (0 < F2Q (lit32 15 100))%Q.
Proof. vm_compute. reflexivity. Qed.

(** An odd multiple of a power of two equal to 0.15f fixes the power. *)
Lemma min_ap_odd_multiple j E :
  -26 <= E ->
  (inject_Z (2 * j + 1) * pow2 (E - 1) == inject_Z 5033165 * pow2 (-25))%Q ->
  E = -24 /\ j = 2516582.
Proof.
  intros HE H.
  assert (inject_Z ((2 * j + 1) * 2 ^ (E + 26)) == inject_Z 20132660)%Q as HZ.
  { rewrite inject_Z_mult, <- pow2_Z by lia.
    replace (E + 26) with ((E - 1) + 27) by lia. rewrite pow2_add.
    rewrite Qmult_assoc, H.
    assert (pow2 (-25) * pow2 27 == 4)%Q as P by (vm_compute; reflexivity).
    rewrite <- Qmult_assoc, P. vm_compute. reflexivity. }
  apply (proj1 (inject_Z_injective _ _)) in HZ.
  assert (E + 26 = 0 \/ E + 26 = 1 \/ E + 26 = 2 \/ 3 <= E + 26) as C by lia.
  destruct C as [C | [C | [C | C]]].
  - rewrite C in HZ. change (2 ^ 0) with 1 in HZ. lia.
  - rewrite C in HZ. change (2 ^ 1) with 2 in HZ. lia.
  - rewrite C in HZ. change (2 ^ 2) with 4 in HZ. lia.
  - replace (E + 26) with (3 + (E + 23)) in HZ by lia.
    rewrite Z.pow_add_r in HZ by lia. change (2 ^ 3) with 8 in HZ.
    remember ((2 * j + 1) * 2 ^ (E + 23)) as X.
    assert ((2 * j + 1) * (8 * 2 ^ (E + 23)) = 8 * X) as EX
      by (subst X; ring).
    lia.
Qed.

(** A binary32 value of at least 0.15f has an exponent of at least -26. *)
Lemma above_min_ap_exponent m E :
  valid32 (S754_finite false m E) = true ->
  (F2Q (lit32 15 100) <= inject_Z (Zpos m) * pow2 E)%Q -> -26 <= E.
Proof.
  intros V L. destruct (valid_finite_inv 24 128 false m E V) as [C _].
  assert (Zdigits2 (Zpos m) <= 24) as D by (unfold fexp in C; lia).
  destruct (Z.le_gt_cases (-26) E) as [H | H]; [exact H | exfalso].
  pose proof (mag_finite m E) as [_ MU].
  assert (pow2 (Zdigits2 (Zpos m) + E) <= pow2 (-3))%Q as P
    by (apply pow2_le; lia).
  assert (pow2 (-3) < F2Q (lit32 15 100))%Q as A by (vm_compute; reflexivity).
  lra.
Qed.

(** Adding 0.15f back to the rounded difference [b - 0.15f] does not
    exceed [b]. *)
Lemma min_ap_junction b :
  fin32 b = true -> (F2Q (lit32 15 100) <= F2Q b)%Q ->
  fin32 (b - lit32 15 100)%f32 = true /\
  (0 <= F2Q (b - lit32 15 100)%f32)%Q /\
  fin32 (lit32 15 100 + (b - lit32 15 100))%f32 = true /\
  (F2Q (lit32 15 100)
   <= F2Q (lit32 15 100 + (b - lit32 15 100))%f32)%Q /\
  (F2Q (lit32 15 100 + (b - lit32 15 100))%f32 <= F2Q b)%Q.
Proof.
  intros Hb L. pose proof min_ap_fin as Ha.
  assert (0 < F2Q (lit32 15 100))%Q as Pa by (vm_compute; reflexivity).
  pose proof (f32_sub_Rnd b (lit32 15 100) Hb Ha) as Rd.
  destruct (f32_Rnd_between (f32_of_Z 0) b _ _ Rd eq_refl Hb)
    as (Hd & D0 & D1).
  { rewrite F2Q_f32_0. lra. }
  { lra. }
  rewrite F2Q_f32_0 in D0.
  set (d := (b - lit32 15 100)%f32) in *.
  pose proof (f32_add_Rnd (lit32 15 100) d Ha Hd) as Rs.
  set (s := (lit32 15 100 + d)%f32) in *.
  pose proof (f32_Rnd_mono _ _ _ _ (f32_fin_Rnd _ Ha) Rs ltac:(lra)) as SL.
  assert (SFleb s b = true) as SU.
  { destruct (fin_inv 24 128 b Hb) as [V F].
    destruct (positive_shape b F ltac:(lra)) as (m & E & ->).
    change (F2Q (S754_finite false m E))
      with (inject_Z (Zpos m) * pow2 E)%Q in *.
    apply (Rnd_le_half 24 128 prec32_pos _ s m E V Rs).
    - destruct (Qlt_le_dec 0 (inject_Z (Zpos m) * pow2 E
                              - F2Q (lit32 15 100))) as [P | P].
      + destruct (Rnd_pos_error 24 128 prec32_pos _ d Rd P
                    (fin32_finite _ Hd)) as (g & q & Hg & _ & Er & _).
        pose proof (mag_le _ _ _ _ Hg (mag_finite m E) ltac:(lra)) as G.
        pose proof (fexp_mono 24 128 _ _ G) as Ee.
        destruct (valid_finite_inv 24 128 false m E V) as [C _].
        rewrite C in Ee.
        pose proof (pow2_le (fexp 24 128 g - 1) (E - 1) ltac:(lia)). lra.
      + destruct (f32_Rnd_exact_F2Q (f32_of_Z 0) _ _ Rd eq_refl) as (_ & Q0).
        { rewrite F2Q_f32_0. lra. }
        pose proof (pow2_pos (E - 1)). lra.
    - destruct (Qlt_le_dec 0 (inject_Z (Zpos m) * pow2 E
                              - F2Q (lit32 15 100))) as [P | P].
      + destruct (Rnd_pos_error 24 128 prec32_pos _ d Rd P
                    (fin32_finite _ Hd)) as (g & q & Hg & Vq & Er & Tie).
        pose proof (mag_le _ _ _ _ Hg (mag_finite m E) ltac:(lra)) as G.
        pose proof (fexp_mono 24 128 _ _ G) as Ee.
        destruct (valid_finite_inv 24 128 false m E V) as [C _].
        rewrite C in Ee.
        destruct (Z.eq_dec (fexp 24 128 g) E) as [EE | NE].
        * rewrite EE in *.
          destruct (Qlt_le_dec
                      (F2Q d - (inject_Z (Zpos m) * pow2 E
                                - F2Q (lit32 15 100)))
                      (pow2 (E - 1))) as [S | S]; [left; lra | right].
          assert (F2Q d - (inject_Z (Zpos m) * pow2 E - F2Q (lit32 15 100))
                  == pow2 (E - 1))%Q as T by lra.
          pose proof (Tie T) as Ev.
          pose proof (above_min_ap_exponent m E V L) as EL.
          destruct (min_ap_odd_multiple (Zpos m - q) E EL) as [_ J].
          { rewrite <- F2Q_min_ap. rewrite Vq in T.
            pose proof (pow2_pred E) as Pp. rewrite Pp in T |- *.
            replace (2 * (Zpos m - q) + 1) with (2 * Zpos m - 2 * q + 1)
              by ring.
            unfold Z.sub. rewrite !inject_Z_plus, inject_Z_opp, !inject_Z_mult.
            change (inject_Z 2) with 2%Q. change (inject_Z 1) with 1%Q.
            lra. }
          replace (Zpos m) with (q + 2516582) by lia.
          rewrite Z.even_add, Ev. reflexivity.
        * left. pose proof (pow2_lt (fexp 24 128 g - 1) (E - 1) ltac:(lia)).
          lra.
      + left.
        destruct (f32_Rnd_exact_F2Q (f32_of_Z 0) _ _ Rd eq_refl) as (_ & Q0).
        { rewrite F2Q_f32_0. lra. }
        pose proof (pow2_pos (E - 1)). lra. }
  pose proof (is_finite_between _ s b (fin32_finite _ Ha)
                (fin32_finite _ Hb) SL SU) as Fs.
  pose proof (f32_Rnd_fin _ _ Rs Fs) as Hs.
  split; [exact Hd |]. split; [exact D0 |]. split; [exact Hs |].
  split; apply f32_le_Q; assumption.
Qed.

Lemma F2Q_ultra : (F2Q PHASE_ULTRA_MS == 80)%Q.
Proof. vm_compute. reflexivity. Qed.

Lemma F2Q_decay : (F2Q PHASE_DECAY_MS == 200)%Q.
Proof. vm_compute. reflexivity. Qed.

Lemma F2Q_window :
  (F2Q (f32_of_double (PHASE_DECAY_MS - PHASE_ULTRA_MS)%f64) == 120)%Q.
Proof. vm_compute. reflexivity. Qed.

Lemma F2Q_f64_120 : (F2Q (f64_of_Z 120) == 120)%Q.
Proof. vm_compute. reflexivity. Qed.

Lemma F2Q_f32_120 : (F2Q (f32_of_Z 120) == 120)%Q.
Proof. vm_compute. reflexivity. Qed.

Lemma F2Q_f64_0 : (F2Q (f64_of_Z 0) == 0)%Q.
Proof. vm_compute. reflexivity. Qed.

(** The interpolation parameter of [phase_decay_ap] on [80, 200]. *)
Lemma phase_t_chain ms :
  fin64 ms = true -> (80 <= F2Q ms)%Q -> (F2Q ms <= 200)%Q ->
  let e := (ms - PHASE_ULTRA_MS)%f64 in
  let ef := f32_of_double e in
  let t := (ef / f32_of_double (PHASE_DECAY_MS - PHASE_ULTRA_MS)%f64)%f32 in
  (fin64 e = true /\ fin32 ef = true /\ fin32 t = true) /\
  (Rnd 53 1024 (F2Q ms - 80) e /\ Rnd 24 128 (F2Q e) ef /\
   Rnd 24 128 (F2Q ef * (1 # 120)) t) /\
  (0 <= F2Q t)%Q /\ (F2Q t <= 1)%Q.
Proof.
  intros Hm M0 M1 e ef t.
  assert (Rnd 53 1024 (F2Q ms - 80) e) as Re.
  { eapply Rnd_ext; [| apply f64_sub_Rnd; [exact Hm | reflexivity]].
    rewrite F2Q_ultra. reflexivity. }
  destruct (f64_Rnd_between (f64_of_Z 0) (f64_of_Z 120) _ _ Re)
    as (He & E0 & E1); try reflexivity.
  { rewrite F2Q_f64_0. lra. }
  { rewrite F2Q_f64_120. lra. }
  rewrite F2Q_f64_0 in E0. rewrite F2Q_f64_120 in E1.
  pose proof (f32_of_double_Rnd e (fin64_finite _ He)) as Rf. fold ef in Rf.
  destruct (f32_Rnd_between (f32_of_Z 0) (f32_of_Z 120) _ _ Rf)
    as (Hf & F0 & F1); try reflexivity.
  { rewrite F2Q_f32_0. lra. }
  { rewrite F2Q_f32_120. lra. }
  rewrite F2Q_f32_0 in F0. rewrite F2Q_f32_120 in F1.
  assert (Rnd 24 128 (F2Q ef * (1 # 120)) t) as Rt.
  { eapply Rnd_ext; [| apply f32_div_Rnd; [exact Hf | reflexivity..]].
    rewrite F2Q_window. unfold Qdiv.
    assert (/ 120 == 1 # 120)%Q as -> by reflexivity. reflexivity. }
  destruct (f32_Rnd_between (f32_of_Z 0) (f32_of_Z 1) _ _ Rt)
    as (Ht & T0 & T1); try reflexivity.
  { rewrite F2Q_f32_0. lra. }
  { rewrite F2Q_f32_1. lra. }
  rewrite F2Q_f32_0 in T0. rewrite F2Q_f32_1 in T1.
  repeat split; assumption.
Qed.

(** The interpolated depth for a base depth of at least 0.15f. *)
Lemma phase_ramp base ms :
  fin32 base = true -> (F2Q (lit32 15 100) <= F2Q base)%Q ->
  fin64 ms = true -> (80 <= F2Q ms)%Q -> (F2Q ms <= 200)%Q ->
  let t :=
    (f32_of_double (ms - PHASE_ULTRA_MS)%f64
     / f32_of_double (PHASE_DECAY_MS - PHASE_ULTRA_MS)%f64)%f32 in
  let p := (t * (base - lit32 15 100))%f32 in
  let r := (lit32 15 100 + p)%f32 in
  (fin32 p = true /\ fin32 r = true) /\
  (Rnd 24 128 (F2Q t * F2Q (base - lit32 15 100)%f32) p /\
   Rnd 24 128 (F2Q (lit32 15 100) + F2Q p) r) /\
  (F2Q (lit32 15 100) <= F2Q r)%Q /\ (F2Q r <= F2Q base)%Q.
Proof.
  intros Hb B0 Hm M0 M1.
  destruct (phase_t_chain ms Hm M0 M1) as ((_ & _ & Ht) & _ & T0 & T1).
  destruct (min_ap_junction base Hb B0) as (Hd & D0 & Hs & S0 & S1).
  cbv zeta in *.
  match type of Ht with fin32 ?e = true => set (t := e) in * end.
  pose proof min_ap_fin as Ha.
  pose proof (f32_mul_Rnd t _ Ht Hd) as Rp.
  set (p := (t * (base - lit32 15 100))%f32) in *.
  destruct (f32_Rnd_between (f32_of_Z 0) (base - lit32 15 100)%f32 _ _ Rp)
    as (Hp & P0 & P1); try assumption; try reflexivity.
  { rewrite F2Q_f32_0. nra. }
  { nra. }
  rewrite F2Q_f32_0 in P0.
  pose proof (f32_add_Rnd _ p Ha Hp) as Rr.
  set (r := (lit32 15 100 + p)%f32) in *.
  destruct (f32_Rnd_sandwich _ _ _ _ _ _ (f32_fin_Rnd _ Ha) Rr
              (f32_add_Rnd _ _ Ha Hd)) as (Hr & R0 & R1);
    try assumption.
  { lra. }
  { lra. }
  repeat split; try assumption. lra.
Qed.

Lemma f64_flt_true a b :
  fin64 a = true -> fin64 b = true -> (F2Q a < F2Q b)%Q ->
  (a <? b)%f64 = true.
Proof. intros Ha Hb. apply f64_Q_lt; assumption. Qed.

Lemma f64_flt_false a b :
  fin64 a = true -> fin64 b = true -> (F2Q b <= F2Q a)%Q ->
  (a <? b)%f64 = false.
Proof.
  intros Ha Hb L. destruct (a <? b)%f64 eqn:E; [| reflexivity].
  apply f64_lt_Q in E; try assumption. lra.
Qed.

Lemma phase_decay_ap_early base ms :
  fin64 ms = true -> (F2Q ms < 80)%Q ->
  phase_decay_ap base ms = lit32 15 100.
Proof.
  intros Hm L. unfold phase_decay_ap. cbv zeta.
  rewrite (f64_flt_true ms PHASE_ULTRA_MS Hm eq_refl); [reflexivity |].
  rewrite F2Q_ultra. exact L.
Qed.

Lemma phase_decay_ap_late base ms :
  fin64 ms = true -> (200 < F2Q ms)%Q ->
  phase_decay_ap base ms = base.
Proof.
  intros Hm L. unfold phase_decay_ap. cbv zeta.
  rewrite (f64_flt_false ms PHASE_ULTRA_MS Hm eq_refl)
    by (rewrite F2Q_ultra; lra).
  change (ms >? PHASE_DECAY_MS)%f64 with (PHASE_DECAY_MS <? ms)%f64.
  rewrite (f64_flt_true PHASE_DECAY_MS ms eq_refl Hm); [reflexivity |].
  rewrite F2Q_decay. exact L.
Qed.

Lemma phase_decay_ap_ramp base ms :
  fin64 ms = true -> (80 <= F2Q ms)%Q -> (F2Q ms <= 200)%Q ->
  phase_decay_ap base ms =
  (lit32 15 100
   + f32_of_double (ms - PHASE_ULTRA_MS)%f64
     / f32_of_double (PHASE_DECAY_MS - PHASE_ULTRA_MS)%f64
     * (base - lit32 15 100))%f32.
Proof.
  intros Hm L U. unfold phase_decay_ap. cbv zeta.
  rewrite (f64_flt_false ms PHASE_ULTRA_MS Hm eq_refl)
    by (rewrite F2Q_ultra; lra).
  change (ms >? PHASE_DECAY_MS)%f64 with (PHASE_DECAY_MS <? ms)%f64.
  rewrite (f64_flt_false PHASE_DECAY_MS ms eq_refl Hm)
    by (rewrite F2Q_decay; lra).
  reflexivity.
Qed.

(** For a base depth of at least 0.15f the result is a finite depth
    between 0.15f and the base depth. *)
Lemma phase_decay_ap_bounds base ms :
  fin32 base = true -> (F2Q (lit32 15 100) <= F2Q base)%Q ->
  fin64 ms = true ->
  fin32 (phase_decay_ap base ms) = true /\
  (F2Q (lit32 15 100) <= F2Q (phase_decay_ap base ms))%Q /\
  (F2Q (phase_decay_ap base ms) <= F2Q base)%Q.
Proof.
  intros Hb B0 Hm.
  destruct (Qlt_le_dec (F2Q ms) 80) as [C1 | C1].
  - rewrite (phase_decay_ap_early base ms Hm C1).
    split; [reflexivity |]. split; lra.
  - destruct (Qlt_le_dec 200 (F2Q ms)) as [C2 | C2].
    + rewrite (phase_decay_ap_late base ms Hm C2).
      split; [exact Hb |]. split; lra.
    + rewrite (phase_decay_ap_ramp base ms Hm C1 C2).
      destruct (phase_ramp base ms Hb B0 Hm C1 C2) as ((_ & Hr) & _ & R0 & R1).
      cbv zeta in *. auto.
Qed.

Lemma phase_ramp_mono base ms1 ms2 :
  fin32 base = true -> (F2Q (lit32 15 100) <= F2Q base)%Q ->
  fin64 ms1 = true -> fin64 ms2 = true ->
  (80 <= F2Q ms1)%Q -> (F2Q ms1 <= F2Q ms2)%Q -> (F2Q ms2 <= 200)%Q ->
  (F2Q (phase_decay_ap base ms1) <= F2Q (phase_decay_ap base ms2))%Q.
Proof.
  intros Hb B0 H1 H2 L M U.
  rewrite (phase_decay_ap_ramp base ms1 H1 L ltac:(lra)).
  rewrite (phase_decay_ap_ramp base ms2 H2 ltac:(lra) U).
  destruct (phase_t_chain ms1 H1 L ltac:(lra))
    as ((He & Hf & Ht) & (Re & Rf & Rt) & T0 & _).
  destruct (phase_t_chain ms2 H2 ltac:(lra) U)
    as ((He' & Hf' & Ht') & (Re' & Rf' & Rt') & T0' & _).
  destruct (phase_ramp base ms1 Hb B0 H1 L ltac:(lra))
    as ((Hp & Hr) & (Rp & Rr) & _).
  destruct (phase_ramp base ms2 Hb B0 H2 ltac:(lra) U)
    as ((Hp' & Hr') & (Rp' & Rr') & _).
  destruct (min_ap_junction base Hb B0) as (_ & D0 & _).
  cbv zeta in *.
  pose proof (f64_le_Q _ _ He He'
                (f64_Rnd_mono _ _ _ _ Re Re' ltac:(lra))) as Q1.
  pose proof (f32_le_Q _ _ Hf Hf' (f32_Rnd_mono _ _ _ _ Rf Rf' Q1)) as Q2.
  pose proof (f32_le_Q _ _ Ht Ht'
                (f32_Rnd_mono _ _ _ _ Rt Rt' ltac:(lra))) as Q3.
  match type of Q3 with (F2Q ?t1 <= F2Q ?t2)%Q =>
    assert (F2Q t1 * F2Q (base - lit32 15 100)%f32
            <= F2Q t2 * F2Q (base - lit32 15 100)%f32)%Q as Q4' by nra
  end.
  pose proof (f32_le_Q _ _ Hp Hp' (f32_Rnd_mono _ _ _ _ Rp Rp' Q4')) as Q4.
  apply f32_le_Q; try assumption.
  apply (f32_Rnd_mono _ _ _ _ Rr Rr'). lra.
Qed.

Lemma phase_decay_ap_mono base ms1 ms2 :
  fin32 base = true -> (F2Q (lit32 15 100) <= F2Q base)%Q ->
  fin64 ms1 = true -> fin64 ms2 = true -> (F2Q ms1 <= F2Q ms2)%Q ->
  (F2Q (phase_decay_ap base ms1) <= F2Q (phase_decay_ap base ms2))%Q.
Proof.
  intros Hb B0 H1 H2 M.
  destruct (phase_decay_ap_bounds base ms1 Hb B0 H1) as (_ & L1 & U1).
  destruct (phase_decay_ap_bounds base ms2 Hb B0 H2) as (_ & L2 & U2).
  destruct (Qlt_le_dec (F2Q ms1) 80) as [C1 | C1].
  - rewrite (phase_decay_ap_early base ms1 H1 C1). exact L2.
  - destruct (Qlt_le_dec 200 (F2Q ms2)) as [C2 | C2].
    + rewrite (phase_decay_ap_late base ms2 H2 C2). exact U1.
    + apply phase_ramp_mono; assumption.
Qed.

(** At exactly 80 ms the interpolation starts from 0.15f, whatever the
    finite base depth. *)
Lemma phase_decay_ap_at_80 base ms :
  fin32 base = true -> fin64 ms = true -> (F2Q ms == 80)%Q ->
  phase_decay_ap base ms = lit32 15 100.
Proof.
  intros Hb Hm E. pose proof min_ap_fin as Ha.
  rewrite (phase_decay_ap_ramp base ms Hm ltac:(lra) ltac:(lra)).
  destruct (phase_t_chain ms Hm ltac:(lra) ltac:(lra))
    as ((_ & _ & Ht) & (Re & Rf & Rt) & _).
  cbv zeta in *.
  destruct (f64_Rnd_exact_F2Q (f64_of_Z 0) _ _ Re eq_refl) as (_ & Qe).
  { rewrite F2Q_f64_0. lra. }
  destruct (f32_Rnd_exact_F2Q (f32_of_Z 0) _ _ Rf eq_refl) as (_ & Qf).
  { rewrite F2Q_f32_0. lra. }
  destruct (f32_Rnd_exact_F2Q (f32_of_Z 0) _ _ Rt eq_refl) as (_ & Qt).
  { rewrite F2Q_f32_0. lra. }
  match type of Ht with fin32 ?e = true => set (t := e) in * end.
  assert (fin32 (base - lit32 15 100)%f32 = true) as Hd.
  { apply (f32_Rnd_near_fin _ _ base (f32_sub_Rnd base _ Hb Ha) Hb).
    - assert (F2Q (lit32 15 100) <= 1)%Q by (vm_compute; discriminate). lra.
    - pose proof min_ap_positive. lra. }
  pose proof (f32_mul_Rnd t _ Ht Hd) as Rp.
  destruct (f32_Rnd_exact_F2Q (f32_of_Z 0) _ _ Rp eq_refl) as (Hp & Qp).
  { rewrite F2Q_f32_0, Qt, Qf, Qe, E. ring. }
  pose proof (f32_add_Rnd _ _ Ha Hp) as Rr.
  destruct (f32_Rnd_exact (lit32 15 100) _ _ Rr Ha) as [-> | [_ Z]].
  { rewrite Qp, Qt, Qf, Qe, E. ring. }
  - reflexivity.
  - vm_compute in Z. discriminate.
Qed.

(** With the base depth 0.1 mm the result falls from 0.15 mm at 0 ms to
    0.1 mm at 300 ms; with the base depth 0.8 mm the result at exactly
    200 ms is not the base depth but the binary32 value just below it. *)
Lemma C4_counterexample :
  phase_decay_ap (lit32 1 10) (f64_of_Z 0) = lit32 15 100 /\
  phase_decay_ap (lit32 1 10) (f64_of_Z 300) = lit32 1 10 /\
  (phase_decay_ap (lit32 1 10) (f64_of_Z 300)
   <? phase_decay_ap (lit32 1 10) (f64_of_Z 0))%f32 = true /\
  phase_decay_ap (lit32 8 10) (f64_of_Z 200)
  = S754_finite false 13421772 (-24) /\
  lit32 8 10 = S754_finite false 13421773 (-24) /\
  (phase_decay_ap (lit32 8 10) (f64_of_Z 200) !=? lit32 8 10)%f32 = true.
Proof. vm_compute. repeat split; reflexivity. Qed.

(** C4 (amended): for every finite base depth and all finite elapsed
    times, [phase_decay_ap] is 0.15 for every elapsed time up to 80 and
    the base depth for every elapsed time above 200; for every finite
    base depth of at least 0.15 it is moreover monotonic non-decreasing
    in the elapsed time and always a finite depth between 0.15 and the
    base depth (at exactly 200 included). *)
Theorem C4_phase_decay_ap_ends_and_monotone :
  (forall base ms,
      fin32 base = true -> fin64 ms = true -> (F2Q ms <= 80)%Q ->
      phase_decay_ap base ms = lit32 15 100) /\
  (forall base ms,
      fin64 ms = true -> (200 < F2Q ms)%Q -> phase_decay_ap base ms = base) /\
  (forall base,
      fin32 base = true -> (F2Q (lit32 15 100) <= F2Q base)%Q ->
      (forall ms1 ms2,
          fin64 ms1 = true -> fin64 ms2 = true -> (F2Q ms1 <= F2Q ms2)%Q ->
          (F2Q (phase_decay_ap base ms1)
           <= F2Q (phase_decay_ap base ms2))%Q) /\
      (forall ms, fin64 ms = true ->
                  fin32 (phase_decay_ap base ms) = true /\
                  (F2Q (lit32 15 100) <= F2Q (phase_decay_ap base ms))%Q /\
                  (F2Q (phase_decay_ap base ms) <= F2Q base)%Q)).
Proof.
  split; [| split].
  - intros base ms Hb Hm U. destruct (Qlt_le_dec (F2Q ms) 80) as [C | C].
    + exact (phase_decay_ap_early base ms Hm C).
    + apply phase_decay_ap_at_80; try assumption. lra.
  - intros base ms Hm L. exact (phase_decay_ap_late base ms Hm L).
  - intros base Hb B0. split.
    + intros ms1 ms2 H1 H2 M.
      exact (phase_decay_ap_mono base ms1 ms2 Hb B0 H1 H2 M).
    + intros ms Hm. exact (phase_decay_ap_bounds base ms Hb B0 Hm).
Qed.

Lemma C4_witness :
  (F2Q (phase_decay_ap (lit32 8 10) (f64_of_Z 100))
   <= F2Q (phase_decay_ap (lit32 8 10) (f64_of_Z 200)))%Q /\
  phase_decay_ap (lit32 1 10) (f64_of_Z 80) = lit32 15 100 /\
  phase_decay_ap (lit32 8 10) (f64_of_Z 201) = lit32 8 10 /\
  (F2Q (phase_decay_ap (lit32 8 10) (f64_of_Z 200)) <= F2Q (lit32 8 10))%Q.
Proof.
  destruct C4_phase_decay_ap_ends_and_monotone as (A & B & C).
  destruct (C (lit32 8 10)) as (C1 & C2).
  - vm_compute. reflexivity.
  - vm_compute. discriminate.
  - split; [| split; [| split]].
    + apply C1; vm_compute; try reflexivity; discriminate.
    + apply A; vm_compute; try reflexivity; discriminate.
    + apply B; vm_compute; reflexivity.
    + apply (C2 (f64_of_Z 200)). vm_compute. reflexivity.
Defined.

(* ================================================================== *)
(** * Velocity-aware scaling of the actuation point                     *)
(* ================================================================== *)

Lemma F2Q_zone : (F2Q VEL_AGGRO_ZONE == 1 # 2)%Q.
Proof. vm_compute. reflexivity. Qed.

Lemma F2Q_zone_width : (F2Q (f32_of_Z 1 - VEL_AGGRO_ZONE)%f32 == 1 # 2)%Q.
Proof. vm_compute. reflexivity. Qed.

Lemma F2Q_factor_span :
  (F2Q (f32_of_Z 1 - VEL_MIN_AP_FACTOR)%f32 == 1 # 2)%Q.
Proof. vm_compute. reflexivity. Qed.

Lemma min_ap_pos : (0 < F2Q (lit32 15 100))%Q.
Proof. vm_compute. reflexivity. Qed.

(** The interpolation factor of [vel_scale_ap] for a ratio in
    [0.5, 1]: each intermediate value is finite, is the rounding of the
    exact operation, and the factor lies in [0.5, 1]. *)
Lemma vel_factor_chain r :
  fin32 r = true -> (1 # 2 <= F2Q r)%Q -> (F2Q r <= 1)%Q ->
  let s := (r - VEL_AGGRO_ZONE)%f32 in
  let t := (s / (f32_of_Z 1 - VEL_AGGRO_ZONE))%f32 in
  let u := (t * (f32_of_Z 1 - VEL_MIN_AP_FACTOR))%f32 in
  let f := (f32_of_Z 1 - u)%f32 in
  (fin32 s = true /\ fin32 t = true /\ fin32 u = true /\ fin32 f = true) /\
  (Rnd 24 128 (F2Q r - (1 # 2)) s /\ Rnd 24 128 (F2Q s * 2) t /\
   Rnd 24 128 (F2Q t * (1 # 2)) u /\ Rnd 24 128 (1 - F2Q u) f) /\
  (1 # 2 <= F2Q f)%Q /\ (F2Q f <= 1)%Q.
Proof.
  intros Hr R0 R1 s t u f.
  assert (Rnd 24 128 (F2Q r - (1 # 2)) s) as Rs.
  { eapply Rnd_ext; [| apply f32_sub_Rnd; [exact Hr | reflexivity]].
    rewrite F2Q_zone. reflexivity. }
  destruct (f32_Rnd_between (f32_of_Z 0) (lit32 5 10) _ _ Rs)
    as (Hs & S0 & S1); try reflexivity.
  { rewrite F2Q_f32_0. lra. }
  { rewrite F2Q_f32_half. lra. }
  rewrite F2Q_f32_0 in S0. rewrite F2Q_f32_half in S1.
  assert (Rnd 24 128 (F2Q s * 2) t) as Rt.
  { eapply Rnd_ext; [| apply f32_div_Rnd; [exact Hs | reflexivity..]].
    rewrite F2Q_zone_width. unfold Qdiv.
    assert (/ (1 # 2) == 2)%Q as -> by reflexivity. reflexivity. }
  destruct (f32_Rnd_between (f32_of_Z 0) (f32_of_Z 1) _ _ Rt)
    as (Ht & T0 & T1); try reflexivity.
  { rewrite F2Q_f32_0. lra. }
  { rewrite F2Q_f32_1. lra. }
  rewrite F2Q_f32_0 in T0. rewrite F2Q_f32_1 in T1.
  assert (Rnd 24 128 (F2Q t * (1 # 2)) u) as Ru.
  { eapply Rnd_ext; [| apply f32_mul_Rnd; [exact Ht | reflexivity]].
    rewrite F2Q_factor_span. reflexivity. }
  destruct (f32_Rnd_between (f32_of_Z 0) (lit32 5 10) _ _ Ru)
    as (Hu & U0 & U1); try reflexivity.
  { rewrite F2Q_f32_0. lra. }
  { rewrite F2Q_f32_half. lra. }
  rewrite F2Q_f32_0 in U0. rewrite F2Q_f32_half in U1.
  assert (Rnd 24 128 (1 - F2Q u) f) as Rf.
  { eapply Rnd_ext; [| apply f32_sub_Rnd; [reflexivity | exact Hu]].
    rewrite F2Q_f32_1. reflexivity. }
  destruct (f32_Rnd_between (lit32 5 10) (f32_of_Z 1) _ _ Rf)
    as (Hf & F0 & F1); try reflexivity.
  { rewrite F2Q_f32_half. lra. }
  { rewrite F2Q_f32_1. lra. }
  rewrite F2Q_f32_half in F0. rewrite F2Q_f32_1 in F1.
  repeat split; assumption.
Qed.

Lemma flt_false_of_Q a b :
  fin32 a = true -> fin32 b = true -> (F2Q b <= F2Q a)%Q ->
  (a <? b)%f32 = false.
Proof.
  intros Ha Hb L. destruct (a <? b)%f32 eqn:E; [| reflexivity].
  apply flt_Q in E; try assumption. lra.
Qed.

Lemma flt_true_of_Q a b :
  fin32 a = true -> fin32 b = true -> (F2Q a < F2Q b)%Q ->
  (a <? b)%f32 = true.
Proof. intros Ha Hb. apply f32_Q_lt; assumption. Qed.

(** Past the aggro zone [vel_scale_ap] is the floored product. *)
Lemma vel_scale_ap_scaled base r :
  fin32 r = true -> (1 # 2 <= F2Q r)%Q ->
  vel_scale_ap base r =
  let f :=
    (f32_of_Z 1
     - (r - VEL_AGGRO_ZONE) / (f32_of_Z 1 - VEL_AGGRO_ZONE)
       * (f32_of_Z 1 - VEL_MIN_AP_FACTOR))%f32 in
  if (base * f <? lit32 15 100)%f32 then lit32 15 100 else (base * f)%f32.
Proof.
  intros Hr R0. unfold vel_scale_ap.
  rewrite (flt_false_of_Q r VEL_AGGRO_ZONE Hr eq_refl); [reflexivity |].
  rewrite F2Q_zone. exact R0.
Qed.

(** The product of a base depth of at least 0.15 with the factor. *)
Lemma vel_scaled_product base r :
  fin32 base = true -> (F2Q (lit32 15 100) <= F2Q base)%Q ->
  fin32 r = true -> (1 # 2 <= F2Q r)%Q -> (F2Q r <= 1)%Q ->
  let f :=
    (f32_of_Z 1
     - (r - VEL_AGGRO_ZONE) / (f32_of_Z 1 - VEL_AGGRO_ZONE)
       * (f32_of_Z 1 - VEL_MIN_AP_FACTOR))%f32 in
  fin32 f = true /\ Rnd 24 128 (F2Q base * F2Q f) (base * f)%f32 /\
  fin32 (base * f)%f32 = true /\ (F2Q (base * f)%f32 <= F2Q base)%Q.
Proof.
  intros Hb B0 Hr R0 R1.
  destruct (vel_factor_chain r Hr R0 R1) as ((_ & _ & _ & Hf) & _ & F0 & F1).
  cbv zeta in *.
  match type of Hf with fin32 ?e = true => set (f := e) in * end.
  pose proof min_ap_pos as MP.
  pose proof (f32_mul_Rnd base f Hb Hf) as Rm.
  destruct (f32_Rnd_between (f32_of_Z 0) base _ _ Rm) as (Hm & _ & M1);
    try assumption; try reflexivity.
  { rewrite F2Q_f32_0. nra. }
  { nra. }
  auto.
Qed.

Lemma vel_scale_ap_bounds base r :
  fin32 base = true -> (F2Q (lit32 15 100) <= F2Q base)%Q ->
  fin32 r = true -> (F2Q r <= 1)%Q ->
  fin32 (vel_scale_ap base r) = true /\
  (F2Q (lit32 15 100) <= F2Q (vel_scale_ap base r))%Q /\
  (F2Q (vel_scale_ap base r) <= F2Q base)%Q.
Proof.
  intros Hb B0 Hr R1.
  destruct (VEL_AGGRO_ZONE >? r)%f32 eqn:E.
  - unfold vel_scale_ap. change (r <? VEL_AGGRO_ZONE)%f32 with
      (VEL_AGGRO_ZONE >? r)%f32. rewrite E. split; [exact Hb |]. split; lra.
  - apply fgt_nQ in E; [| reflexivity | exact Hr]. rewrite F2Q_zone in E.
    rewrite (vel_scale_ap_scaled base r Hr E). cbv zeta.
    destruct (vel_scaled_product base r Hb B0 Hr E R1) as (_ & _ & Hm & M1).
    cbv zeta in Hm, M1.
    destruct (_ <? lit32 15 100)%f32 eqn:E2.
    + split; [reflexivity |]. split; lra.
    + apply flt_nQ in E2; [| exact Hm | reflexivity].
      split; [exact Hm |]. split; lra.
Qed.

Lemma vel_factor_mono r1 r2 :
  fin32 r1 = true -> fin32 r2 = true ->
  (1 # 2 <= F2Q r1)%Q -> (F2Q r1 <= F2Q r2)%Q -> (F2Q r2 <= 1)%Q ->
  (F2Q (f32_of_Z 1
        - (r2 - VEL_AGGRO_ZONE) / (f32_of_Z 1 - VEL_AGGRO_ZONE)
          * (f32_of_Z 1 - VEL_MIN_AP_FACTOR))%f32
   <= F2Q (f32_of_Z 1
           - (r1 - VEL_AGGRO_ZONE) / (f32_of_Z 1 - VEL_AGGRO_ZONE)
             * (f32_of_Z 1 - VEL_MIN_AP_FACTOR))%f32)%Q.
Proof.
  intros H1 H2 R0 R12 R1.
  destruct (vel_factor_chain r1 H1 R0 ltac:(lra))
    as ((Hs & Ht & Hu & Hf) & (Rs & Rt & Ru & Rf) & _).
  destruct (vel_factor_chain r2 H2 ltac:(lra) R1)
    as ((Hs' & Ht' & Hu' & Hf') & (Rs' & Rt' & Ru' & Rf') & _).
  cbv zeta in *.
  assert (F2Q (r1 - VEL_AGGRO_ZONE)%f32 <= F2Q (r2 - VEL_AGGRO_ZONE)%f32)%Q
    as Q1.
  { apply f32_le_Q; try assumption.
    apply (f32_Rnd_mono _ _ _ _ Rs Rs'). lra. }
  pose proof (f32_le_Q _ _ Ht Ht'
                (f32_Rnd_mono _ _ _ _ Rt Rt' ltac:(lra))) as Q2.
  pose proof (f32_le_Q _ _ Hu Hu'
                (f32_Rnd_mono _ _ _ _ Ru Ru' ltac:(lra))) as Q3.
  apply f32_le_Q; try assumption.
  apply (f32_Rnd_mono _ _ _ _ Rf' Rf). lra.
Qed.

Lemma vel_scale_ap_mono base r1 r2 :
  fin32 base = true -> (F2Q (lit32 15 100) <= F2Q base)%Q ->
  fin32 r1 = true -> fin32 r2 = true ->
  (F2Q r1 <= F2Q r2)%Q -> (F2Q r2 <= 1)%Q ->
  (F2Q (vel_scale_ap base r2) <= F2Q (vel_scale_ap base r1))%Q.
Proof.
  intros Hb B0 H1 H2 R12 R1.
  destruct (vel_scale_ap_bounds base r2 Hb B0 H2 R1) as (_ & _ & U2).
  destruct (VEL_AGGRO_ZONE >? r1)%f32 eqn:E.
  - replace (vel_scale_ap base r1) with base; [exact U2 |].
    unfold vel_scale_ap. change (r1 <? VEL_AGGRO_ZONE)%f32 with
      (VEL_AGGRO_ZONE >? r1)%f32. rewrite E. reflexivity.
  - apply fgt_nQ in E; [| reflexivity | exact H1]. rewrite F2Q_zone in E.
    rewrite (vel_scale_ap_scaled base r1 H1 E).
    rewrite (vel_scale_ap_scaled base r2 H2 ltac:(lra)). cbv zeta.
    destruct (vel_scaled_product base r1 Hb B0 H1 E ltac:(lra))
      as (Hf1 & Rm1 & Hm1 & _).
    destruct (vel_scaled_product base r2 Hb B0 H2 ltac:(lra) R1)
      as (Hf2 & Rm2 & Hm2 & _).
    cbv zeta in *.
    pose proof (vel_factor_mono r1 r2 H1 H2 E R12 R1) as FM.
    pose proof min_ap_pos as MP.
    match type of FM with (F2Q ?f2 <= F2Q ?f1)%Q =>
      assert (F2Q base * F2Q f2 <= F2Q base * F2Q f1)%Q as BM by nra
    end.
    pose proof (f32_le_Q _ _ Hm2 Hm1 (f32_Rnd_mono _ _ _ _ Rm2 Rm1 BM)) as PM.
    match type of Hm1 with fin32 ?e = true => set (p1 := e) in * end.
    match type of Hm2 with fin32 ?e = true => set (p2 := e) in * end.
    destruct (p2 <? lit32 15 100)%f32 eqn:E2;
      destruct (p1 <? lit32 15 100)%f32 eqn:E1.
    + lra.
    + apply flt_nQ in E1; [| exact Hm1 | reflexivity]. exact E1.
    + apply flt_nQ in E2; [| exact Hm2 | reflexivity].
      apply flt_Q in E1; [| exact Hm1 | reflexivity]. lra.
    + exact PM.
Qed.

Lemma is_zero_F2Q x : is_zero x = true -> (F2Q x == 0)%Q.
Proof. destruct x; try discriminate. reflexivity. Qed.

Lemma vel_scale_ap_low base r :
  fin32 base = true -> (F2Q (lit32 15 100) <= F2Q base)%Q ->
  fin32 r = true -> (F2Q r <= 1 # 2)%Q ->
  vel_scale_ap base r = base.
Proof.
  intros Hb B0 Hr R1.
  destruct (VEL_AGGRO_ZONE >? r)%f32 eqn:E.
  - unfold vel_scale_ap. change (r <? VEL_AGGRO_ZONE)%f32 with
      (VEL_AGGRO_ZONE >? r)%f32. rewrite E. reflexivity.
  - apply fgt_nQ in E; [| reflexivity | exact Hr]. rewrite F2Q_zone in E.
    rewrite (vel_scale_ap_scaled base r Hr E). cbv zeta.
    destruct (vel_factor_chain r Hr E ltac:(lra))
      as ((Hs & Ht & Hu & Hf) & (Rs & Rt & Ru & Rf) & _).
    destruct (vel_scaled_product base r Hb B0 Hr E ltac:(lra))
      as (_ & Rm & Hm & _).
    cbv zeta in *.
    destruct (f32_Rnd_exact_F2Q (f32_of_Z 0) _ _ Rs eq_refl) as (_ & Qs).
    { rewrite F2Q_f32_0. lra. }
    destruct (f32_Rnd_exact_F2Q (f32_of_Z 0) _ _ Rt eq_refl) as (_ & Qt).
    { rewrite F2Q_f32_0. lra. }
    destruct (f32_Rnd_exact_F2Q (f32_of_Z 0) _ _ Ru eq_refl) as (_ & Qu).
    { rewrite F2Q_f32_0. lra. }
    destruct (f32_Rnd_exact_F2Q (f32_of_Z 1) _ _ Rf eq_refl) as (_ & Qf).
    { rewrite F2Q_f32_1. lra. }
    pose proof min_ap_pos as MP.
    destruct (f32_Rnd_exact base _ _ Rm Hb) as [-> | [_ Zb]].
    { rewrite Qf, Qu, Qt, Qs.
      assert (F2Q r == 1 # 2)%Q as -> by lra. ring. }
    + rewrite (flt_false_of_Q base (lit32 15 100) Hb eq_refl B0).
      reflexivity.
    + apply is_zero_F2Q in Zb. lra.
Qed.

(** ** Any finite base depth, past the aggro zone *)

Lemma vel_scaled_product_any base r :
  fin32 base = true ->
  fin32 r = true -> (1 # 2 <= F2Q r)%Q -> (F2Q r <= 1)%Q ->
  let f :=
    (f32_of_Z 1
     - (r - VEL_AGGRO_ZONE) / (f32_of_Z 1 - VEL_AGGRO_ZONE)
       * (f32_of_Z 1 - VEL_MIN_AP_FACTOR))%f32 in
  Rnd 24 128 (F2Q base * F2Q f) (base * f)%f32 /\
  fin32 (base * f)%f32 = true /\
  ((F2Q base <= 0)%Q -> (F2Q (base * f)%f32 <= 0)%Q).
Proof.
  intros Hb Hr R0 R1.
  destruct (vel_factor_chain r Hr R0 R1) as ((_ & _ & _ & Hf) & _ & F0 & F1).
  cbv zeta in *.
  match type of Hf with fin32 ?e = true => set (f := e) in * end.
  pose proof (f32_mul_Rnd base f Hb Hf) as Rm.
  assert (fin32 (fabsf base) = true) as Ha by (rewrite fin32_fabsf; exact Hb).
  assert (fin32 (- fabsf base)%f32 = true) as Hn
    by (rewrite fin32_neg; exact Ha).
  pose proof (Qabs_nonneg (F2Q base)) as AN.
  pose proof (Qle_Qabs (F2Q base)) as AU.
  pose proof (Qle_Qabs (- F2Q base)) as AL. rewrite Qabs_opp in AL.
  destruct (f32_Rnd_between (- fabsf base)%f32 (fabsf base) _ _ Rm Hn Ha)
    as (Hm & _ & _).
  { rewrite F2Q_neg, F2Q_fabsf. nra. }
  { rewrite F2Q_fabsf. nra. }
  split; [exact Rm |]. split; [exact Hm |].
  intro N.
  pose proof (f32_Rnd_mono _ _ _ _ Rm (f32_fin_Rnd (f32_of_Z 0) eq_refl)) as M.
  rewrite F2Q_f32_0 in M.
  assert (F2Q base * F2Q f <= 0)%Q as NP by nra.
  pose proof (f32_le_Q (base * f)%f32 (f32_of_Z 0) Hm eq_refl (M NP)) as Q.
  rewrite F2Q_f32_0 in Q. exact Q.
Qed.

Lemma vel_scale_ap_high_bounds base r :
  fin32 base = true ->
  fin32 r = true -> (1 # 2 <= F2Q r)%Q -> (F2Q r <= 1)%Q ->
  fin32 (vel_scale_ap base r) = true /\
  (F2Q (lit32 15 100) <= F2Q (vel_scale_ap base r))%Q.
Proof.
  intros Hb Hr R0 R1.
  rewrite (vel_scale_ap_scaled base r Hr R0). cbv zeta.
  destruct (vel_scaled_product_any base r Hb Hr R0 R1) as (_ & Hm & _).
  cbv zeta in Hm.
  match type of Hm with fin32 ?e = true => set (p := e) in * end.
  destruct (p <? lit32 15 100)%f32 eqn:E.
  - split; [reflexivity | lra].
  - apply flt_nQ in E; [| exact Hm | reflexivity]. auto.
Qed.

Lemma vel_scale_ap_high_mono base r1 r2 :
  fin32 base = true -> fin32 r1 = true -> fin32 r2 = true ->
  (1 # 2 <= F2Q r1)%Q -> (F2Q r1 <= F2Q r2)%Q -> (F2Q r2 <= 1)%Q ->
  (F2Q (vel_scale_ap base r2) <= F2Q (vel_scale_ap base r1))%Q.
Proof.
  intros Hb H1 H2 R0 R12 R1.
  rewrite (vel_scale_ap_scaled base r1 H1 R0).
  rewrite (vel_scale_ap_scaled base r2 H2 ltac:(lra)). cbv zeta.
  destruct (vel_scaled_product_any base r1 Hb H1 R0 ltac:(lra))
    as (Rm1 & Hm1 & N1).
  destruct (vel_scaled_product_any base r2 Hb H2 ltac:(lra) R1)
    as (Rm2 & Hm2 & N2).
  cbv zeta in *.
  pose proof (vel_factor_mono r1 r2 H1 H2 R0 R12 R1) as FM.
  pose proof min_ap_pos as MP.
  match type of Hm1 with fin32 ?e = true => set (p1 := e) in * end.
  match type of Hm2 with fin32 ?e = true => set (p2 := e) in * end.
  destruct (Qlt_le_dec (F2Q base) 0) as [C | C].
  - specialize (N1 ltac:(lra)). specialize (N2 ltac:(lra)).
    rewrite (flt_true_of_Q p1 (lit32 15 100) Hm1 eq_refl) by lra.
    rewrite (flt_true_of_Q p2 (lit32 15 100) Hm2 eq_refl) by lra.
    lra.
  - match type of FM with (F2Q ?f2 <= F2Q ?f1)%Q =>
      assert (F2Q base * F2Q f2 <= F2Q base * F2Q f1)%Q as BM by nra
    end.
    pose proof (f32_le_Q _ _ Hm2 Hm1 (f32_Rnd_mono _ _ _ _ Rm2 Rm1 BM)) as PM.
    destruct (p2 <? lit32 15 100)%f32 eqn:E2;
      destruct (p1 <? lit32 15 100)%f32 eqn:E1.
    + lra.
    + apply flt_nQ in E1; [| exact Hm1 | reflexivity]. exact E1.
    + apply flt_nQ in E2; [| exact Hm2 | reflexivity].
      apply flt_Q in E1; [| exact Hm1 | reflexivity]. lra.
    + exact PM.
Qed.

(** With the base depth 0.1 mm the result is 0.1 mm, below 0.15 mm, at
    the ratio 0.2, and it is 0.15 mm, not the base depth, at the ratio
    0.5. *)
Lemma C5_counterexample :
  vel_scale_ap (lit32 1 10) (lit32 2 10) = lit32 1 10 /\
  (vel_scale_ap (lit32 1 10) (lit32 2 10) <? lit32 15 100)%f32 = true /\
  vel_scale_ap (lit32 1 10) (lit32 5 10) = lit32 15 100 /\
  (vel_scale_ap (lit32 1 10) (lit32 5 10) !=? lit32 1 10)%f32 = true.
Proof. vm_compute. repeat split; reflexivity. Qed.

(** Below the aggro zone [vel_scale_ap] hands the base depth back,
    whatever it is. *)
Lemma vel_scale_ap_in_zone base r :
  fin32 r = true -> (F2Q r < 1 # 2)%Q -> vel_scale_ap base r = base.
Proof.
  intros Hr R. unfold vel_scale_ap.
  rewrite (flt_true_of_Q r VEL_AGGRO_ZONE Hr eq_refl); [reflexivity |].
  rewrite F2Q_zone. exact R.
Qed.

(** C5 (amended): for every base depth the result of [vel_scale_ap] is
    the base depth for every ratio below 0.5; for every finite base
    depth, on the ratios in [0.5, 1] the result is a finite depth of at
    least 0.15 and is non-increasing in the ratio; for every finite base
    depth of at least 0.15 the result moreover is the base depth at the
    ratio 0.5 too, and is non-increasing and at least 0.15 on the whole
    of [0, 1]. *)
Theorem C5_vel_scale_ap_floor_and_monotone :
  (forall base r,
      fin32 r = true -> (F2Q r < 1 # 2)%Q -> vel_scale_ap base r = base) /\
  (forall base r,
      fin32 base = true -> fin32 r = true ->
      (1 # 2 <= F2Q r)%Q -> (F2Q r <= 1)%Q ->
      fin32 (vel_scale_ap base r) = true /\
      (F2Q (lit32 15 100) <= F2Q (vel_scale_ap base r))%Q) /\
  (forall base r1 r2,
      fin32 base = true -> fin32 r1 = true -> fin32 r2 = true ->
      (1 # 2 <= F2Q r1)%Q -> (F2Q r1 <= F2Q r2)%Q -> (F2Q r2 <= 1)%Q ->
      (F2Q (vel_scale_ap base r2) <= F2Q (vel_scale_ap base r1))%Q) /\
  (forall base,
      fin32 base = true -> (F2Q (lit32 15 100) <= F2Q base)%Q ->
      (forall r, fin32 r = true -> (0 <= F2Q r)%Q -> (F2Q r <= 1 # 2)%Q ->
                 vel_scale_ap base r = base) /\
      (forall r1 r2, fin32 r1 = true -> fin32 r2 = true ->
                     (0 <= F2Q r1)%Q -> (F2Q r1 <= F2Q r2)%Q ->
                     (F2Q r2 <= 1)%Q ->
                     (F2Q (vel_scale_ap base r2)
                      <= F2Q (vel_scale_ap base r1))%Q) /\
      (forall r, fin32 r = true -> (0 <= F2Q r)%Q -> (F2Q r <= 1)%Q ->
                 fin32 (vel_scale_ap base r) = true /\
                 (F2Q (lit32 15 100) <= F2Q (vel_scale_ap base r))%Q)).
Proof.
  split; [| split; [| split]].
  - intros base r Hr R. exact (vel_scale_ap_in_zone base r Hr R).
  - intros base r Hb Hr R0 R1.
    exact (vel_scale_ap_high_bounds base r Hb Hr R0 R1).
  - intros base r1 r2 Hb H1 H2 R0 R12 R1.
    exact (vel_scale_ap_high_mono base r1 r2 Hb H1 H2 R0 R12 R1).
  - intros base Hb B0. split; [| split].
    + intros r Hr _ R1. exact (vel_scale_ap_low base r Hb B0 Hr R1).
    + intros r1 r2 H1 H2 _ R12 R1.
      exact (vel_scale_ap_mono base r1 r2 Hb B0 H1 H2 R12 R1).
    + intros r Hr _ R1.
      destruct (vel_scale_ap_bounds base r Hb B0 Hr R1) as (H & L & _). auto.
Qed.

Lemma C5_witness :
  vel_scale_ap (lit32 1 10) (lit32 2 10) = lit32 1 10 /\
  vel_scale_ap (lit32 4 10) (lit32 5 10) = lit32 4 10 /\
  (F2Q (vel_scale_ap (lit32 4 10) (f32_of_Z 1))
   <= F2Q (vel_scale_ap (lit32 4 10) (lit32 2 10)))%Q /\
  (F2Q (lit32 15 100) <= F2Q (vel_scale_ap (lit32 1 10) (lit32 75 100)))%Q /\
  (F2Q (vel_scale_ap (lit32 1 10) (f32_of_Z 1))
   <= F2Q (vel_scale_ap (lit32 1 10) (lit32 75 100)))%Q.
Proof.
  destruct C5_vel_scale_ap_floor_and_monotone as (L & A & B & C).
  destruct (C (lit32 4 10)) as (C1 & C2 & _).
  - vm_compute. reflexivity.
  - vm_compute. discriminate.
  - split; [| split; [| split; [| split]]].
    + apply L; vm_compute; reflexivity.
    + apply C1; vm_compute; try reflexivity; discriminate.
    + apply C2; vm_compute; try reflexivity; discriminate.
    + apply A; vm_compute; try reflexivity; discriminate.
    + apply B; vm_compute; try reflexivity; discriminate.
Defined.

(* ================================================================== *)
(** * The policy's early exit                                           *)
(* ================================================================== *)

Lemma compute_targets_freezetime cfg ctx :
  gsi_active ctx = true ->
  round_phase ctx = "freezetime"%string \/ round_phase ctx = "over"%string ->
  compute_targets cfg ctx
  = (repeat (ap_normal cfg) 4, repeat (rt_normal cfg) 4).
Proof.
  intros Hg Hp. unfold compute_targets. rewrite Hg.
  destruct Hp as [-> | ->]; reflexivity.
Qed.

Lemma targets_changed_false apv rtv tap trt i :
  targets_changed apv rtv tap trt = false -> (i < 4)%nat ->
  (nth i apv S754_nan !=? nth i tap S754_nan)%f32 = false /\
  (nth i rtv S754_nan !=? nth i trt S754_nan)%f32 = false.
Proof.
  unfold targets_changed. intros H Hi.
  assert (In i (seq 0 4)) as Hin by (apply in_seq; lia).
  destruct ((nth i apv S754_nan !=? nth i tap S754_nan)%f32
            || (nth i rtv S754_nan !=? nth i trt S754_nan)%f32) eqn:E.
  - assert (existsb
              (fun i =>
                 (nth i apv S754_nan !=? nth i tap S754_nan)%f32
                 || (nth i rtv S754_nan !=? nth i trt S754_nan)%f32)
              (seq 0 4) = true) as C
      by (apply existsb_exists; exists i; auto).
    rewrite C in H. discriminate.
  - apply orb_false_elim in E. exact E.
Qed.

Lemma nth_repeat_4 (x : float32) i :
  (i < 4)%nat -> nth i (repeat x 4) S754_nan = x.
Proof.
  intro H. destruct i as [| [| [| [| i]]]]; try reflexivity. lia.
Qed.

(** C6: when the game-state record is connected and its round phase is
    "freezetime" or "over", the depths [update_targets] computes are the
    normal ones for all four keys, whatever the axes, the velocities, the
    jiggle flags, the crouch flag and the weapon; and each target depth
    it leaves is the normal one: the very value, or equal to it under the
    C comparison when the targets were left as they were. *)
Theorem C6_freezetime_targets_are_normal cfg gsi ctx :
  connected gsi = true ->
  gsi_round_phase gsi = "freezetime"%string \/
  gsi_round_phase gsi = "over"%string ->
  compute_targets cfg (update_targets cfg gsi ctx)
  = (repeat (ap_normal cfg) 4, repeat (rt_normal cfg) 4) /\
  (forall i, (i < 4)%nat ->
     (nth i (target_ap (update_targets cfg gsi ctx)) S754_nan = ap_normal cfg
      \/ (ap_normal cfg
          !=? nth i (target_ap (update_targets cfg gsi ctx)) S754_nan)%f32
         = false) /\
     (nth i (target_rt (update_targets cfg gsi ctx)) S754_nan = rt_normal cfg
      \/ (rt_normal cfg
          !=? nth i (target_rt (update_targets cfg gsi ctx)) S754_nan)%f32
         = false)).
Proof.
  intros Hc Hp.
  assert (strncpy (gsi_round_phase gsi) 15 = "freezetime"%string \/
          strncpy (gsi_round_phase gsi) 15 = "over"%string) as Hp'
    by (destruct Hp as [-> | ->]; [left | right]; reflexivity).
  unfold update_targets. cbv zeta.
  match goal with
  | |- context [let (apv, rtv) := compute_targets cfg ?c in _] =>
      rewrite (compute_targets_freezetime cfg c Hc Hp')
  end.
  cbn [target_ap target_rt].
  destruct (targets_changed _ _ _ _) eqn:E; cbn [target_ap target_rt].
  - split; [apply compute_targets_freezetime; cbn; assumption |].
    intros i Hi. rewrite !nth_repeat_4 by exact Hi. auto.
  - split; [apply compute_targets_freezetime; cbn; assumption |].
    intros i Hi. destruct (targets_changed_false _ _ _ _ i E Hi) as [A B].
    rewrite !nth_repeat_4 in A, B by exact Hi. auto.
Qed.

Lemma C6_witness :
  let gsi :=
    {| gsi_weapon_name := "weapon_ak47"; gsi_weapon_type := "Rifle";
       gsi_weapon_cat := WCAT_RIFLE; gsi_weapon_speed := f32_of_Z 215;
       gsi_round_phase := "freezetime"; health := 100; connected := true;
       gsi_last_update := 0 |} in
  let ctx := AimContext_init g_cfg 0 0 in
  compute_targets g_cfg (update_targets g_cfg gsi ctx)
  = (repeat (ap_normal g_cfg) 4, repeat (rt_normal g_cfg) 4).
Proof.
  intros gsi ctx.
  apply (C6_freezetime_targets_are_normal g_cfg gsi ctx).
  - reflexivity.
  - left. reflexivity.
Defined.

(* ================================================================== *)
(** * The rate-limited writer                                           *)
(* ================================================================== *)















(* ================================================================== *)
(** * The protocol encoder on one key                                   *)
(* ================================================================== *)

(** C8: for the single key (row 3, column 3, 0.4 mm) the firmware value
    is 26, the entry (26 << 8) | 99 = 6755, the tagged body
    [0x12, 0x03, 0x08, 0xE3, 0x34] of length 5, the framed payload 11
    bytes, for which report 1 is picked (its capacity 32 holds them, and
    no report has a smaller number), and the buffer handed to
    [hid_write] is [1, 0xD1, 0xDA, 21, options, 5, 0, 0x12, 0x03, 0x08,
    0xE3, 0x34] followed by zeros up to 33 bytes, whatever the options
    byte; the actuation writer sends the device exactly that buffer. *)
Theorem C8_single_key_frame :
  mm_to_firmware (lit32 4 10) = Some 26 /\
  encode_key_entry 26 3 3 = 6755 /\
  Z.lor (Z.shiftl 26 8) 99 = 6755 /\
  build_partial_proto 512 [{| row := 3; col := 3; mm := lit32 4 10 |}] 1
  = Some (5, [0x12; 0x03; 0x08; 0xE3; 0x34]) /\
  pick_report_id (6 + 5) = 1 /\
  6 + 5 <= nth 1 REPORT_SIZES 0 /\
  (forall options,
      send_data_buf CMD_ACTUATION options [0x12; 0x03; 0x08; 0xE3; 0x34] 5
      = [1; 0xD1; 0xDA; 21; options; 0x05; 0x00;
         0x12; 0x03; 0x08; 0xE3; 0x34] ++ repeat 0 21 /\
      List.length
        (send_data_buf CMD_ACTUATION options [0x12; 0x03; 0x08; 0xE3; 0x34] 5)
      = 33%nat) /\
  (forall dev profile_idx save,
      option_map (fun r => option_map hid_log (snd r))
        (wooting_hid_write_actuation (Some dev) profile_idx
           (Some [{| row := 3; col := 3; mm := lit32 4 10 |}]) 1 save)
      = Some (Some
          (hid_log dev
           ++ HidWrite
                ([1; 0xD1; 0xDA; 21; write_options profile_idx save;
                  0x05; 0x00; 0x12; 0x03; 0x08; 0xE3; 0x34] ++ repeat 0 21)
              :: (if hid_write_ret dev
                       (List.length (filter is_write (hid_log dev))) <? 0
                  then []
                  else [HidSleep (if save then 50 else 5);
                        HidReadTimeout (if save then 50 else 5)])))).
Proof.
  split; [vm_compute; reflexivity |].
  split; [vm_compute; reflexivity |].
  split; [vm_compute; reflexivity |].
  assert (build_partial_proto 512
            [{| row := 3; col := 3; mm := lit32 4 10 |}] 1
          = Some (5, [0x12; 0x03; 0x08; 0xE3; 0x34])) as B
    by (vm_compute; reflexivity).
  split; [exact B |].
  split; [vm_compute; reflexivity |].
  split; [vm_compute; discriminate |].
  split.
  - intro options. split; reflexivity.
  - intros dev profile_idx save.
    unfold wooting_hid_write_actuation, hid_write_keys.
    change (1 <=? 0) with false. cbv iota. rewrite B.
    change (5 <? 0) with false. cbv iota.
    unfold send_data, hid_write. cbv zeta.
    assert (Z.odd (write_options profile_idx save) = save) as O.
    { unfold write_options, uwrap.
      rewrite <- Z.bit0_odd, Z.mod_pow2_bits_low by lia.
      rewrite Z.lor_spec, Z.shiftl_spec_low by lia.
      destruct save; reflexivity. }
    destruct (_ <? 0); cbn [option_map snd hid_do hid_log];
      rewrite ?O, <- ?app_assoc; reflexivity.
Qed.

(* ================================================================== *)
(** * [mm_to_firmware] and [firmware_to_mm]                             *)
(* ================================================================== *)

(** The three roundings inside [mm_to_firmware], when the last is
    finite. *)
Lemma mm_scaled_chain x :
  fin32 x = true ->
  is_finite (x / f32_of_Z 4 * f32_of_Z 255 + lit32 5 10)%f32 = true ->
  fin32 (x / f32_of_Z 4)%f32 = true /\
  fin32 (x / f32_of_Z 4 * f32_of_Z 255)%f32 = true /\
  fin32 (x / f32_of_Z 4 * f32_of_Z 255 + lit32 5 10)%f32 = true /\
  Rnd 24 128 (F2Q x * (1 # 4)) (x / f32_of_Z 4)%f32 /\
  Rnd 24 128 (F2Q (x / f32_of_Z 4)%f32 * 255)
    (x / f32_of_Z 4 * f32_of_Z 255)%f32 /\
  Rnd 24 128 (F2Q (x / f32_of_Z 4 * f32_of_Z 255)%f32 + (1 # 2))
    (x / f32_of_Z 4 * f32_of_Z 255 + lit32 5 10)%f32.
Proof.
  intros Hx Fc.
  pose proof (SFadd_finite_l _ _ _ _ Fc) as Fb.
  pose proof (SFmul_finite_l _ _ _ _ Fb) as Fa.
  assert (Rnd 24 128 (F2Q x * (1 # 4)) (x / f32_of_Z 4)%f32) as Ra.
  { eapply Rnd_ext; [| apply f32_div_Rnd; [exact Hx | reflexivity..]].
    rewrite F2Q_f32_4. unfold Qdiv. reflexivity. }
  pose proof (f32_Rnd_fin _ _ Ra Fa) as Ha.
  assert (Rnd 24 128 (F2Q (x / f32_of_Z 4)%f32 * 255)
            (x / f32_of_Z 4 * f32_of_Z 255)%f32) as Rb.
  { eapply Rnd_ext; [| apply f32_mul_Rnd; [exact Ha | reflexivity]].
    rewrite F2Q_f32_255. reflexivity. }
  pose proof (f32_Rnd_fin _ _ Rb Fb) as Hb.
  assert (Rnd 24 128 (F2Q (x / f32_of_Z 4 * f32_of_Z 255)%f32 + (1 # 2))
            (x / f32_of_Z 4 * f32_of_Z 255 + lit32 5 10)%f32) as Rc.
  { eapply Rnd_ext; [| apply f32_add_Rnd; [exact Hb | reflexivity]].
    rewrite F2Q_f32_half. reflexivity. }
  pose proof (f32_Rnd_fin _ _ Rc Fc) as Hc.
  repeat split; assumption.
Qed.

Lemma mm_scaled_mono x y :
  fin32 x = true -> fin32 y = true -> SFleb x y = true ->
  is_finite (x / f32_of_Z 4 * f32_of_Z 255 + lit32 5 10)%f32 = true ->
  is_finite (y / f32_of_Z 4 * f32_of_Z 255 + lit32 5 10)%f32 = true ->
  (F2Q (x / f32_of_Z 4 * f32_of_Z 255 + lit32 5 10)%f32
   <= F2Q (y / f32_of_Z 4 * f32_of_Z 255 + lit32 5 10)%f32)%Q.
Proof.
  intros Hx Hy Hxy Fx Fy.
  destruct (mm_scaled_chain x Hx Fx) as (Ha & Hb & Hc & Ra & Rb & Rc).
  destruct (mm_scaled_chain y Hy Fy) as (Ha' & Hb' & Hc' & Ra' & Rb' & Rc').
  pose proof (f32_le_Q _ _ Hx Hy Hxy) as Q0.
  assert (F2Q (x / f32_of_Z 4)%f32 <= F2Q (y / f32_of_Z 4)%f32)%Q as Q1.
  { apply f32_le_Q; try assumption.
    apply (f32_Rnd_mono _ _ _ _ Ra Ra'). lra. }
  assert (F2Q (x / f32_of_Z 4 * f32_of_Z 255)%f32
          <= F2Q (y / f32_of_Z 4 * f32_of_Z 255)%f32)%Q as Q2.
  { apply f32_le_Q; try assumption.
    apply (f32_Rnd_mono _ _ _ _ Rb Rb'). lra. }
  apply f32_le_Q; try assumption.
  apply (f32_Rnd_mono _ _ _ _ Rc Rc'). lra.
Qed.

Lemma int_of_float_Some x z :
  int_of_float x = Some z ->
  is_finite x = true /\ z = Ztrunc_float x /\ INT_MIN <= z <= INT_MAX.
Proof.
  unfold int_of_float. destruct (is_finite x); [| discriminate].
  destruct (Z.leb_spec INT_MIN (Ztrunc_float x));
    destruct (Z.leb_spec (Ztrunc_float x) INT_MAX); cbn [andb];
    try discriminate.
  intro E. inversion E. subst. auto.
Qed.

Lemma mm_to_firmware_Some x v :
  mm_to_firmware x = Some v ->
  exists z,
    int_of_float (x / f32_of_Z 4 * f32_of_Z 255 + lit32 5 10)%f32 = Some z /\
    v = Z.min 255 (Z.max 7 z).
Proof.
  unfold mm_to_firmware.
  destruct (int_of_float _) as [z |]; [| discriminate].
  intro E. inversion E as [E']. clear E. exists z. split; [reflexivity |].
  unfold uwrap.
  destruct (Z.ltb_spec z 7); destruct (Z.gtb_spec 7 255); try lia;
    destruct (Z.gtb_spec z 255); try lia;
    rewrite Z.mod_small by lia; lia.
Qed.

Lemma mm_to_firmware_range x v :
  mm_to_firmware x = Some v -> 7 <= v <= 255.
Proof.
  intro H. destruct (mm_to_firmware_Some x v H) as (z & _ & ->). lia.
Qed.

Lemma mm_to_firmware_finite x v :
  mm_to_firmware x = Some v -> is_finite x = true.
Proof.
  intro H. destruct (mm_to_firmware_Some x v H) as (z & Hz & _).
  destruct (int_of_float_Some _ _ Hz) as (F & _ & _).
  pose proof (SFadd_finite_l _ _ _ _ F) as Fb.
  pose proof (SFmul_finite_l _ _ _ _ Fb) as Fa.
  exact (SFdiv_finite_l _ _ _ _ Fa eq_refl).
Qed.

Lemma mm_to_firmware_monotone x y vx vy :
  valid32 x = true -> valid32 y = true -> SFleb x y = true ->
  mm_to_firmware x = Some vx -> mm_to_firmware y = Some vy -> vx <= vy.
Proof.
  intros Vx Vy Hxy Ex Ey.
  pose proof (fin32_intro x Vx (mm_to_firmware_finite x vx Ex)) as Hx.
  pose proof (fin32_intro y Vy (mm_to_firmware_finite y vy Ey)) as Hy.
  destruct (mm_to_firmware_Some x vx Ex) as (zx & Hzx & ->).
  destruct (mm_to_firmware_Some y vy Ey) as (zy & Hzy & ->).
  destruct (int_of_float_Some _ _ Hzx) as (Fx & -> & _).
  destruct (int_of_float_Some _ _ Hzy) as (Fy & -> & _).
  pose proof (Ztrunc_float_mono _ _ (mm_scaled_mono x y Hx Hy Hxy Fx Fy)).
  lia.
Qed.

Lemma mm_scaled_between lo x hi :
  fin32 lo = true -> fin32 x = true -> fin32 hi = true ->
  (F2Q lo <= F2Q x)%Q -> (F2Q x <= F2Q hi)%Q ->
  is_finite (lo / f32_of_Z 4 * f32_of_Z 255 + lit32 5 10)%f32 = true ->
  is_finite (hi / f32_of_Z 4 * f32_of_Z 255 + lit32 5 10)%f32 = true ->
  is_finite (x / f32_of_Z 4 * f32_of_Z 255 + lit32 5 10)%f32 = true /\
  (F2Q (lo / f32_of_Z 4 * f32_of_Z 255 + lit32 5 10)%f32
   <= F2Q (x / f32_of_Z 4 * f32_of_Z 255 + lit32 5 10)%f32)%Q /\
  (F2Q (x / f32_of_Z 4 * f32_of_Z 255 + lit32 5 10)%f32
   <= F2Q (hi / f32_of_Z 4 * f32_of_Z 255 + lit32 5 10)%f32)%Q.
Proof.
  intros Hlo Hx Hhi L U Flo Fhi.
  destruct (mm_scaled_chain lo Hlo Flo) as (Ha & Hb & Hc & Ra & Rb & Rc).
  destruct (mm_scaled_chain hi Hhi Fhi) as (Ha' & Hb' & Hc' & Ra' & Rb' & Rc').
  assert (Rnd 24 128 (F2Q x * (1 # 4)) (x / f32_of_Z 4)%f32) as Sa.
  { eapply Rnd_ext; [| apply f32_div_Rnd; [exact Hx | reflexivity..]].
    rewrite F2Q_f32_4. unfold Qdiv. reflexivity. }
  destruct (f32_Rnd_sandwich _ _ _ _ _ _ Ra Sa Ra') as (Xa & La & Ua);
    [lra | lra | assumption | assumption |].
  assert (Rnd 24 128 (F2Q (x / f32_of_Z 4)%f32 * 255)
            (x / f32_of_Z 4 * f32_of_Z 255)%f32) as Sb.
  { eapply Rnd_ext; [| apply f32_mul_Rnd; [exact Xa | reflexivity]].
    rewrite F2Q_f32_255. reflexivity. }
  destruct (f32_Rnd_sandwich _ _ _ _ _ _ Rb Sb Rb') as (Xb & Lb & Ub);
    [lra | lra | assumption | assumption |].
  assert (Rnd 24 128 (F2Q (x / f32_of_Z 4 * f32_of_Z 255)%f32 + (1 # 2))
            (x / f32_of_Z 4 * f32_of_Z 255 + lit32 5 10)%f32) as Sc.
  { eapply Rnd_ext; [| apply f32_add_Rnd; [exact Xb | reflexivity]].
    rewrite F2Q_f32_half. reflexivity. }
  destruct (f32_Rnd_sandwich _ _ _ _ _ _ Rc Sc Rc') as (Xc & Lc & Uc);
    [lra | lra | assumption | assumption |].
  split; [exact (fin32_finite _ Xc) |]. split; assumption.
Qed.

Lemma int_of_float_intro x :
  is_finite x = true -> INT_MIN <= Ztrunc_float x <= INT_MAX ->
  int_of_float x = Some (Ztrunc_float x).
Proof.
  intros F [A B]. unfold int_of_float. rewrite F.
  destruct (Z.leb_spec INT_MIN (Ztrunc_float x)); [| lia].
  destruct (Z.leb_spec (Ztrunc_float x) INT_MAX); [| lia]. reflexivity.
Qed.

Lemma mm_to_firmware_intro x z :
  int_of_float (x / f32_of_Z 4 * f32_of_Z 255 + lit32 5 10)%f32 = Some z ->
  mm_to_firmware x = Some (Z.min 255 (Z.max 7 z)).
Proof.
  intro E. unfold mm_to_firmware. rewrite E. f_equal. unfold uwrap.
  destruct (Z.ltb_spec z 7); destruct (Z.gtb_spec 7 255); try lia;
    destruct (Z.gtb_spec z 255); try lia;
    rewrite Z.mod_small by lia; lia.
Qed.

(** Between two depths where [mm_to_firmware] is defined it is defined,
    with a value between theirs. *)
Lemma mm_to_firmware_between lo x hi a b :
  fin32 lo = true -> fin32 x = true -> fin32 hi = true ->
  (F2Q lo <= F2Q x)%Q -> (F2Q x <= F2Q hi)%Q ->
  mm_to_firmware lo = Some a -> mm_to_firmware hi = Some b ->
  exists v, mm_to_firmware x = Some v /\ a <= v <= b.
Proof.
  intros Hlo Hx Hhi L U Ea Eb.
  destruct (mm_to_firmware_Some lo a Ea) as (za & Hza & ->).
  destruct (mm_to_firmware_Some hi b Eb) as (zb & Hzb & ->).
  destruct (int_of_float_Some _ _ Hza) as (Fa & -> & Ba).
  destruct (int_of_float_Some _ _ Hzb) as (Fb & -> & Bb).
  destruct (mm_scaled_between lo x hi Hlo Hx Hhi L U Fa Fb) as (Fx & Lx & Ux).
  pose proof (Ztrunc_float_mono _ _ Lx) as M1.
  pose proof (Ztrunc_float_mono _ _ Ux) as M2.
  eexists. split.
  - apply mm_to_firmware_intro. apply int_of_float_intro; [exact Fx | lia].
  - lia.
Qed.

Lemma In_Zseq a n v : a <= v < a + Z.of_nat n -> In v (Zseq a n).
Proof.
  intro H. unfold Zseq. apply in_map_iff. exists (Z.to_nat (v - a)).
  split; [lia |]. apply in_seq. lia.
Qed.

Lemma roundtrip_cell_sound tol lo hi x :
  roundtrip_cell tol lo hi = true ->
  fin32 x = true -> (F2Q lo <= F2Q x)%Q -> (F2Q x <= F2Q hi)%Q ->
  exists v, mm_to_firmware x = Some v /\
            fin32 (firmware_to_mm v) = true /\
            (Qabs (F2Q (firmware_to_mm v) - F2Q x) <= tol)%Q.
Proof.
  unfold roundtrip_cell.
  destruct (mm_to_firmware lo) as [a |] eqn:Ea; [| discriminate].
  destruct (mm_to_firmware hi) as [b |] eqn:Eb; [| discriminate].
  intros H Hx L U.
  apply andb_prop in H. destruct H as [H Hall].
  apply andb_prop in H. destruct H as [H _].
  apply andb_prop in H. destruct H as [Hlo Hhi].
  destruct (mm_to_firmware_between lo x hi a b Hlo Hx Hhi L U Ea Eb)
    as (v & Ev & Rv).
  exists v. split; [exact Ev |].
  rewrite forallb_forall in Hall.
  assert (In v (Zseq a (Z.to_nat (b - a + 1)))) as Hin
    by (apply In_Zseq; lia).
  specialize (Hall v Hin).
  apply andb_prop in Hall. destruct Hall as [Hall H3].
  apply andb_prop in Hall. destruct Hall as [H1 H2].
  apply Qle_bool_iff in H2, H3.
  split; [exact H1 |]. apply Qabs_Qle_condition. lra.
Qed.

Lemma roundtrip_mesh_sound tol g x d :
  roundtrip_mesh tol g = true ->
  fin32 x = true -> (F2Q (hd d g) <= F2Q x)%Q -> (F2Q x <= F2Q (last g d))%Q ->
  (2 <= List.length g)%nat ->
  exists v, mm_to_firmware x = Some v /\
            fin32 (firmware_to_mm v) = true /\
            (Qabs (F2Q (firmware_to_mm v) - F2Q x) <= tol)%Q.
Proof.
  intros H Hx. revert H. induction g as [| lo rest IH]; intros H L U Len.
  - cbn in Len. lia.
  - destruct rest as [| hi rest']; [cbn in Len; lia |].
    cbn [roundtrip_mesh] in H. apply andb_prop in H. destruct H as [Hc Hm].
    cbn [hd] in L.
    destruct (Qlt_le_dec (F2Q hi) (F2Q x)) as [C | C].
    + destruct rest' as [| h2 r2].
      * cbn in U. lra.
      * apply IH; [exact Hm | cbn [hd]; lra | exact U | cbn; lia].
    + exact (roundtrip_cell_sound tol lo hi x Hc Hx L C).
Qed.

Lemma depth_mesh_ok : roundtrip_mesh (2 # 100) depth_mesh = true.
Proof. vm_compute. reflexivity. Qed.

Lemma depth_mesh_ends :
  (F2Q (hd S754_nan depth_mesh) <= 2 # 10)%Q /\
  (38 # 10 <= F2Q (last depth_mesh S754_nan))%Q.
Proof. vm_compute. split; discriminate. Qed.

Lemma mm_roundtrip x :
  fin32 x = true -> (2 # 10 <= F2Q x)%Q -> (F2Q x <= 38 # 10)%Q ->
  exists v, mm_to_firmware x = Some v /\
            fin32 (firmware_to_mm v) = true /\
            (Qabs (F2Q (firmware_to_mm v) - F2Q x) <= 2 # 100)%Q.
Proof.
  intros Hx L U. destruct depth_mesh_ends as [A B].
  apply (roundtrip_mesh_sound _ depth_mesh x S754_nan depth_mesh_ok Hx).
  - exact (Qle_trans _ _ _ A L).
  - exact (Qle_trans _ _ _ U B).
  - vm_compute. lia.
Qed.

Lemma mm_to_firmware_defined x :
  fin32 x = true ->
  (- (16777216) <= F2Q x)%Q -> (F2Q x <= 16777216)%Q ->
  exists v, mm_to_firmware x = Some v.
Proof.
  intros Hx L U.
  assert (fin32 (f32_of_Z (-16777216)) = true) as Hlo
    by (vm_compute; reflexivity).
  assert (fin32 (f32_of_Z 16777216) = true) as Hhi
    by (vm_compute; reflexivity).
  assert (F2Q (f32_of_Z (-16777216)) == - (16777216))%Q as Qlo
    by (vm_compute; reflexivity).
  assert (F2Q (f32_of_Z 16777216) == 16777216)%Q as Qhi
    by (vm_compute; reflexivity).
  assert (mm_to_firmware (f32_of_Z (-16777216)) = Some 7) as Elo
    by (vm_compute; reflexivity).
  assert (mm_to_firmware (f32_of_Z 16777216) = Some 255) as Ehi
    by (vm_compute; reflexivity).
  destruct (mm_to_firmware_between _ x _ 7 255 Hlo Hx Hhi) as (v & Ev & _).
  - rewrite Qlo. exact L.
  - rewrite Qhi. exact U.
  - exact Elo.
  - exact Ehi.
  - exists v. exact Ev.
Qed.

(** C9: [mm_to_firmware] is monotonic non-decreasing in the depth (for
    binary32 depths ordered by the C comparison [<=], wherever the
    conversion to [int] is defined), every result lies in [7, 255], a
    result exists for every finite depth of magnitude at most 2^24, and
    for every binary32 depth x with 0.2 <= x <= 3.8 the depth
    [firmware_to_mm (mm_to_firmware x)] is finite and differs from x by
    at most 0.02 (as exact rational values). *)
Theorem C9_mm_to_firmware_monotone_bounded_roundtrip :
  (forall x y vx vy,
      valid32 x = true -> valid32 y = true -> (x <=? y)%f32 = true ->
      mm_to_firmware x = Some vx -> mm_to_firmware y = Some vy ->
      vx <= vy) /\
  (forall x v, mm_to_firmware x = Some v -> 7 <= v <= 255) /\
  (forall x,
      fin32 x = true ->
      (- (16777216) <= F2Q x)%Q -> (F2Q x <= 16777216)%Q ->
      exists v, mm_to_firmware x = Some v) /\
  (forall x,
      fin32 x = true -> (2 # 10 <= F2Q x)%Q -> (F2Q x <= 38 # 10)%Q ->
      exists v, mm_to_firmware x = Some v /\
                fin32 (firmware_to_mm v) = true /\
                (Qabs (F2Q (firmware_to_mm v) - F2Q x) <= 2 # 100)%Q).
Proof.
  split; [| split; [| split]].
  - exact mm_to_firmware_monotone.
  - exact mm_to_firmware_range.
  - exact mm_to_firmware_defined.
  - exact mm_roundtrip.
Qed.

Lemma C9_witness :
  mm_to_firmware (lit32 4 10) = Some 26 /\
  mm_to_firmware (lit32 12 10) = Some 77 /\
  26 <= 77 /\ 7 <= 26 <= 255 /\
  exists v, mm_to_firmware (lit32 12 10) = Some v /\
            fin32 (firmware_to_mm v) = true /\
            (Qabs (F2Q (firmware_to_mm v) - F2Q (lit32 12 10)) <= 2 # 100)%Q.
Proof.
  destruct C9_mm_to_firmware_monotone_bounded_roundtrip as (M & R & _ & T).
  assert (mm_to_firmware (lit32 4 10) = Some 26) as E1
    by (vm_compute; reflexivity).
  assert (mm_to_firmware (lit32 12 10) = Some 77) as E2
    by (vm_compute; reflexivity).
  split; [exact E1 |]. split; [exact E2 |].
  split; [| split].
  - apply (M (lit32 4 10) (lit32 12 10) 26 77); try exact E1; try exact E2;
      vm_compute; reflexivity.
  - exact (R _ _ E1).
  - apply T; [vm_compute; reflexivity | vm_compute; discriminate
             | vm_compute; discriminate].
Defined.

(* ================================================================== *)
(** * The guards of the writers                                         *)
(* ================================================================== *)

(** C10: with a null device, a null key array or a count of zero or
    less, both writers return false, with the device as it was: nothing
    is sent to it. *)
Theorem C10_writers_reject_null_or_empty dev profile_idx keys count save :
  dev = None \/ keys = None \/ count <= 0 ->
  wooting_hid_write_actuation dev profile_idx keys count save
  = Some (false, dev) /\
  wooting_hid_write_rt dev profile_idx keys count save = Some (false, dev).
Proof.
  intro H. unfold wooting_hid_write_actuation, wooting_hid_write_rt,
    hid_write_keys.
  destruct dev as [d |], keys as [ks |]; try (split; reflexivity).
  destruct H as [H | [H | H]]; try discriminate.
  destruct (Z.leb_spec count 0); [split; reflexivity | lia].
Qed.

Lemma C10_witness :
  let dev :=
    Some {| hid_log := [HidSleep 5]; hid_write_ret := fun _ => 33;
            active_profile := 0 |} in
  let keys := Some [{| row := 3; col := 3; mm := lit32 4 10 |}] in
  wooting_hid_write_actuation dev 0 keys 0 false = Some (false, dev) /\
  wooting_hid_write_rt dev 0 keys 0 false = Some (false, dev).
Proof.
  intros dev keys.
  apply (C10_writers_reject_null_or_empty dev 0 keys 0 false).
  right. right. lia.
Defined.

(* ================================================================== *)
(** * The estimator of [main.c] and the one of [test_math.c]            *)
(* ================================================================== *)

(** X1: [vel_update] of [main.c] stores the speed cap and the counter
    reading, returns early when the elapsed time is not in (0, 0.1], and
    otherwise computes the new velocity as [vel_step] of [test_math.c]
    does, from the keys held past the dead zone and the elapsed time
    rounded to binary32. *)
Theorem X1_vel_update_is_vel_step ve p n mx now freq :
  vel_update ve p n mx now freq =
  let elapsed := (double_of_ticks now (last_update ve) / freq)%f64 in
  if (elapsed <=? f64_of_Z 0)%f64 || (elapsed >? lit64 1 10)%f64 then
    {| vel := vel ve; max_speed := mx; last_update := now |}
  else
    {| vel := vel_step (vel ve) (p >? DEAD_ZONE)%f32 (n >? DEAD_ZONE)%f32 mx
                (f32_of_double elapsed);
       max_speed := mx; last_update := now |}.
Proof. exact (vel_update_eq ve p n mx now freq). Qed.

(** X2: one [vel_step] with a time step in [0, 1] and a speed cap in
    [0, 2^120], from any finite velocity of magnitude at most 2^120
    (within an earlier, larger cap, say), gives a finite velocity within
    the cap of this step that is exactly zero or of magnitude at least
    0.5. *)
Theorem X2_vel_step_within_cap v pos_key neg_key mx dt :
  fin32 v = true -> fin32 mx = true -> fin32 dt = true ->
  (0 <= F2Q dt)%Q -> (F2Q dt <= 1)%Q ->
  (Qabs (F2Q v) <= inject_Z (2 ^ 120))%Q ->
  (0 <= F2Q mx)%Q -> (F2Q mx <= inject_Z (2 ^ 120))%Q ->
  fin32 (vel_step v pos_key neg_key mx dt) = true /\
  (Qabs (F2Q (vel_step v pos_key neg_key mx dt)) <= F2Q mx)%Q /\
  (vel_step v pos_key neg_key mx dt = f32_of_Z 0 \/
   (1 # 2 <= Qabs (F2Q (vel_step v pos_key neg_key mx dt)))%Q).
Proof. exact (vel_step_inv v pos_key neg_key mx dt). Qed.

Lemma X2_witness :
  fin32 (vel_step (f32_of_Z 250) false true (f32_of_Z 215) (lit32 1 64))
  = true /\
  (Qabs (F2Q (vel_step (f32_of_Z 250) false true (f32_of_Z 215)
                (lit32 1 64)))
   <= F2Q (f32_of_Z 215))%Q /\
  (vel_step (f32_of_Z 250) false true (f32_of_Z 215) (lit32 1 64)
   = f32_of_Z 0 \/
   (1 # 2 <= Qabs (F2Q (vel_step (f32_of_Z 250) false true (f32_of_Z 215)
                          (lit32 1 64))))%Q).
Proof.
  apply (X2_vel_step_within_cap (f32_of_Z 250) false true (f32_of_Z 215)
           (lit32 1 64)).
  - vm_compute. reflexivity.
  - vm_compute. reflexivity.
  - vm_compute. reflexivity.
  - vm_compute. discriminate.
  - vm_compute. discriminate.
  - vm_compute. discriminate.
  - vm_compute. discriminate.
  - vm_compute. discriminate.
Defined.

(** X3: one call of [vel_update] with any speed cap in [0, 2^120], from
    a finite velocity of magnitude at most 2^120: the cap and the
    counter reading are stored; when the elapsed time is in (0, 0.1] the
    new velocity is within the cap of this call and is zero or of
    magnitude at least 0.5; when the call returns early the velocity is
    left as it was, also when it is above the cap just stored. *)
Theorem X3_vel_update_one_call ve p n mx now freq :
  fin64 freq = true -> is_zero freq = false ->
  fin32 mx = true -> (0 <= F2Q mx)%Q -> (F2Q mx <= inject_Z (2 ^ 120))%Q ->
  fin32 (vel ve) = true -> (Qabs (F2Q (vel ve)) <= inject_Z (2 ^ 120))%Q ->
  max_speed (vel_update ve p n mx now freq) = mx /\
  last_update (vel_update ve p n mx now freq) = now /\
  (if ((double_of_ticks now (last_update ve) / freq <=? f64_of_Z 0)%f64
       || (double_of_ticks now (last_update ve) / freq >? lit64 1 10)%f64)
   then vel (vel_update ve p n mx now freq) = vel ve
   else
     fin32 (vel (vel_update ve p n mx now freq)) = true /\
     (Qabs (F2Q (vel (vel_update ve p n mx now freq))) <= F2Q mx)%Q /\
     (vel (vel_update ve p n mx now freq) = f32_of_Z 0 \/
      (1 # 2 <= Qabs (F2Q (vel (vel_update ve p n mx now freq))))%Q)).
Proof.
  intros Hf Zf Hm M0 M1 Hv Bv. rewrite vel_update_eq. cbv zeta.
  destruct ((double_of_ticks now (last_update ve) / freq <=? f64_of_Z 0)%f64
            || (double_of_ticks now (last_update ve) / freq >? lit64 1 10)%f64)
    eqn:E; cbn [vel max_speed last_update].
  - auto.
  - destruct (elapsed_dt now (last_update ve) freq Hf Zf E) as (Hd & D0 & D1).
    split; [reflexivity |]. split; [reflexivity |].
    apply vel_step_inv; assumption.
Qed.

Lemma X3_witness :
  let ve :=
    {| vel := f32_of_Z 250; max_speed := f32_of_Z 250; last_update := 0 |} in
  let ve' :=
    vel_update ve (f32_of_Z 1) (f32_of_Z 0) (f32_of_Z 200) 2000000
      (f64_of_Z 10000000) in
  max_speed ve' = f32_of_Z 200 /\ last_update ve' = 2000000 /\
  vel ve' = f32_of_Z 250.
Proof.
  intros ve ve'.
  destruct (X3_vel_update_one_call ve (f32_of_Z 1) (f32_of_Z 0)
              (f32_of_Z 200) 2000000 (f64_of_Z 10000000))
    as (A & B & C).
  - vm_compute. reflexivity.
  - vm_compute. reflexivity.
  - vm_compute. reflexivity.
  - vm_compute. discriminate.
  - vm_compute. discriminate.
  - vm_compute. reflexivity.
  - vm_compute. discriminate.
  - split; [exact A |]. split; [exact B |].
    assert (((double_of_ticks 2000000 (last_update ve) / f64_of_Z 10000000
              <=? f64_of_Z 0)%f64
             || (double_of_ticks 2000000 (last_update ve) / f64_of_Z 10000000
                 >? lit64 1 10)%f64) = true) as E
      by (vm_compute; reflexivity).
    rewrite E in C. exact C.
Defined.

(* ================================================================== *)
(** * The protocol encoder: key index, entry, varint, report size       *)
(* ================================================================== *)

Lemma land_7 x : Z.land x 7 = x mod 8.
Proof. exact (Z.land_ones x 3 ltac:(lia)). Qed.

Lemma land_31 x : Z.land x 31 = x mod 32.
Proof. exact (Z.land_ones x 5 ltac:(lia)). Qed.

Lemma land_127 x : Z.land x 127 = x mod 128.
Proof. exact (Z.land_ones x 7 ltac:(lia)). Qed.

Lemma land_255 x : Z.land x 255 = x mod 256.
Proof. exact (Z.land_ones x 8 ltac:(lia)). Qed.

(** [hi << k | lo] with [lo] below [2^k] is [hi * 2^k + lo]. *)
Lemma lor_shiftl_low hi lo k :
  0 <= k -> 0 <= lo < 2 ^ k ->
  Z.lor (Z.shiftl hi k) lo = hi * 2 ^ k + lo.
Proof.
  intros Hk Hlo.
  assert (Z.land (Z.shiftl hi k) lo = 0) as D.
  { apply Z.bits_inj'. intros n Hn. rewrite Z.land_spec, Z.bits_0.
    destruct (Z.ltb_spec n k).
    - rewrite Z.shiftl_spec_low by lia. reflexivity.
    - destruct (Z.eq_dec lo 0) as [-> | Hne].
      + rewrite Z.bits_0. apply andb_false_r.
      + rewrite (Z.bits_above_log2 lo n); [apply andb_false_r | lia |].
        apply Z.lt_le_trans with k; [| lia].
        apply Z.log2_lt_pow2; lia. }
  pose proof (Z.add_lor_land (Z.shiftl hi k) lo) as A.
  rewrite D in A. rewrite (Z.shiftl_mul_pow2 hi k Hk) in *. lia.
Qed.

Lemma linear_key_index_eq row col :
  linear_key_index row col = 32 * (row mod 8) + col mod 32.
Proof.
  unfold linear_key_index, uwrap. rewrite land_7, land_31.
  pose proof (Z.mod_pos_bound row 8 ltac:(lia)).
  pose proof (Z.mod_pos_bound col 32 ltac:(lia)).
  rewrite (lor_shiftl_low (row mod 8) (col mod 32) 5) by lia.
  change (2 ^ 5) with 32. change (2 ^ 8) with 256.
  rewrite Z.mod_small; lia.
Qed.

Lemma linear_key_index_range row col : 0 <= linear_key_index row col < 256.
Proof.
  rewrite linear_key_index_eq.
  pose proof (Z.mod_pos_bound row 8 ltac:(lia)).
  pose proof (Z.mod_pos_bound col 32 ltac:(lia)). lia.
Qed.

Lemma encode_key_entry_eq fw row col :
  0 <= fw < 256 ->
  encode_key_entry fw row col = 256 * fw + linear_key_index row col.
Proof.
  intro Hfw. unfold encode_key_entry, uwrap. cbv zeta.
  pose proof (linear_key_index_range row col) as R.
  rewrite (lor_shiftl_low fw (linear_key_index row col) 8)
    by (change (2 ^ 8) with 256; lia).
  change (2 ^ 8) with 256. change (2 ^ 16) with 65536.
  rewrite Z.mod_small; lia.
Qed.

(** ** Varints *)

Lemma continuation_byte v :
  uwrap 8 (Z.lor (Z.land v 127) 128) = 128 + v mod 128.
Proof.
  unfold uwrap. rewrite land_127, Z.lor_comm.
  pose proof (Z.mod_pos_bound v 128 ltac:(lia)).
  change 128 with (Z.shiftl 1 7) at 1.
  rewrite (lor_shiftl_low 1 (v mod 128) 7) by (change (2 ^ 7) with 128; lia).
  change (2 ^ 7) with 128. change (2 ^ 8) with 256.
  rewrite Z.mod_small; lia.
Qed.

Lemma final_byte v : uwrap 8 (Z.land v 127) = v mod 128.
Proof.
  unfold uwrap. rewrite land_127.
  pose proof (Z.mod_pos_bound v 128 ltac:(lia)).
  change (2 ^ 8) with 256. rewrite Z.mod_small; lia.
Qed.

Lemma varint_decode_cons b rest :
  0 <= varint_decode rest ->
  varint_decode (b :: rest) = b mod 128 + 128 * varint_decode rest.
Proof.
  intro H. cbn [varint_decode]. rewrite land_127, Z.lor_comm.
  pose proof (Z.mod_pos_bound b 128 ltac:(lia)).
  rewrite (lor_shiftl_low _ (b mod 128) 7) by (change (2 ^ 7) with 128; lia).
  change (2 ^ 7) with 128. lia.
Qed.

(** The loop on a value of at most [7 * (fuel + 1)] bits: the bytes
    decode to the value, all but the last carry the continuation bit, and
    there are no more of them than the value needs. *)
Lemma encode_varint_loop_spec fuel : forall v,
  0 <= v < 128 ^ (Z.of_nat fuel + 1) ->
  varint_decode (encode_varint_loop fuel v) = v /\
  (exists init last,
      encode_varint_loop fuel v = init ++ [last] /\
      Forall (fun b => 128 <= b < 256) init /\ 0 <= last < 128) /\
  v < 128 ^ Z.of_nat (List.length (encode_varint_loop fuel v)) /\
  (List.length (encode_varint_loop fuel v) = 1%nat \/
   128 ^ (Z.of_nat (List.length (encode_varint_loop fuel v)) - 1) <= v).
Proof.
  induction fuel as [| fuel IH]; intros v Hv.
  - cbn [encode_varint_loop]. change (128 ^ (Z.of_nat 0 + 1)) with 128 in Hv.
    rewrite final_byte, Z.mod_small by lia.
    repeat split.
    + cbn [varint_decode]. rewrite land_127, Z.mod_small by lia.
      cbn. apply Z.lor_0_r.
    + exists [], v. repeat split; [constructor | lia | lia].
    + cbn [List.length]. change (128 ^ Z.of_nat 1) with 128. lia.
    + left. reflexivity.
  - cbn [encode_varint_loop]. change 0x7F with 127. change 0x80 with 128.
    destruct (Z.gtb_spec v 127) as [Hgt | Hle].
    + rewrite continuation_byte.
      assert (Z.shiftr v 7 = v / 128) as Sh by (apply Z.shiftr_div_pow2; lia).
      rewrite Sh.
      assert (0 <= v / 128 < 128 ^ (Z.of_nat fuel + 1)) as Hq.
      { split; [apply Z.div_pos; lia |].
        apply Z.div_lt_upper_bound; [lia |].
        replace (Z.of_nat (S fuel) + 1) with (Z.succ (Z.of_nat fuel + 1)) in Hv
          by lia.
        rewrite Z.pow_succ_r in Hv by lia. lia. }
      destruct (IH _ Hq) as (D & (init & last & E & Fi & Fl) & U & Lw).
      pose proof (Z.mod_pos_bound v 128 ltac:(lia)) as Hm.
      pose proof (Z.div_mod v 128 ltac:(lia)) as Hdm.
      repeat split.
      * rewrite varint_decode_cons by (rewrite D; lia).
        rewrite D. replace ((128 + v mod 128) mod 128) with (v mod 128); [lia |].
        apply (Z.mod_unique _ 128 1); lia.
      * exists ((128 + v mod 128) :: init), last. rewrite E.
        repeat split; [constructor; [lia | exact Fi] | lia | lia].
      * cbn [List.length]. rewrite Nat2Z.inj_succ, Z.pow_succ_r by lia. lia.
      * right. cbn [List.length].
        replace (Z.of_nat (S (List.length (encode_varint_loop fuel (v / 128)))) - 1)
          with (Z.succ (Z.of_nat (List.length (encode_varint_loop fuel (v / 128))) - 1))
          by lia.
        assert (1 <= List.length (encode_varint_loop fuel (v / 128)))%nat as L1.
        { rewrite E, length_app. cbn. lia. }
        rewrite Z.pow_succ_r by lia.
        destruct Lw as [L | Lw].
        -- rewrite L. change (128 ^ (Z.of_nat 1 - 1)) with 1. lia.
        -- lia.
    + rewrite final_byte.
      assert (0 <= v) by lia. rewrite Z.mod_small by lia.
      repeat split.
      * cbn [varint_decode]. rewrite land_127, Z.mod_small by lia.
        cbn. apply Z.lor_0_r.
      * exists [], v. repeat split; [constructor | lia | lia].
      * cbn [List.length]. change (128 ^ Z.of_nat 1) with 128. lia.
      * left. reflexivity.
Qed.

Lemma encode_varint_spec v :
  0 <= v < 2 ^ 32 ->
  varint_decode (encode_varint v) = v /\
  (exists init last,
      encode_varint v = init ++ [last] /\
      Forall (fun b => 128 <= b < 256) init /\ 0 <= last < 128) /\
  (1 <= List.length (encode_varint v) <= 5)%nat /\
  v < 128 ^ Z.of_nat (List.length (encode_varint v)) /\
  (List.length (encode_varint v) = 1%nat \/
   128 ^ (Z.of_nat (List.length (encode_varint v)) - 1) <= v).
Proof.
  intro Hv. unfold encode_varint, uwrap.
  rewrite Z.mod_small by exact Hv.
  assert (2 ^ 32 = 4294967296) as P32 by reflexivity.
  destruct (encode_varint_loop_spec 5 v) as (D & S & U & Lw).
  { change (128 ^ (Z.of_nat 5 + 1)) with 4398046511104. lia. }
  repeat split; try assumption.
  - destruct S as (init & last & E & _). rewrite E, length_app. cbn. lia.
  - destruct Lw as [L | Lw]; [lia |].
    destruct (le_lt_dec (List.length (encode_varint_loop 5 v)) 5) as [| G];
      [assumption | exfalso].
    assert (128 ^ 5 <= 128 ^ (Z.of_nat (List.length (encode_varint_loop 5 v)) - 1)).
    { apply Z.pow_le_mono_r; lia. }
    change (128 ^ 5) with 34359738368 in *. lia.
Qed.

(** The number of bytes by the size of the value. *)
Lemma encode_varint_length_by_size v k :
  0 <= v < 2 ^ 32 -> (1 <= k)%nat -> v < 128 ^ Z.of_nat k ->
  (1 <= List.length (encode_varint v) <= k)%nat.
Proof.
  intros Hv Hk Hlt.
  destruct (encode_varint_spec v Hv) as (_ & _ & L & _ & Lw).
  split; [lia |]. destruct Lw as [-> | Lw]; [lia |].
  destruct (le_lt_dec (List.length (encode_varint v)) k) as [| G];
    [assumption | exfalso].
  assert (128 ^ Z.of_nat k
          <= 128 ^ (Z.of_nat (List.length (encode_varint v)) - 1))
    by (apply Z.pow_le_mono_r; lia).
  lia.
Qed.

Lemma pick_report_id_cases ds :
  pick_report_id ds =
  if ds <=? 32 then 1 else if ds <=? 62 then 2 else if ds <=? 254 then 3
  else if ds <=? 510 then 4 else if ds <=? 1022 then 5 else 6.
Proof.
  unfold pick_report_id. cbn.
  repeat (match goal with |- context [?a <=? ?b] => destruct (a <=? b) end;
          try reflexivity).
Qed.

(** X4. [linear_key_index] packs the row into bits 5-7 and the column
    into bits 0-4 of one byte: the index is a byte from which a row below
    8 and a column below 32 are read back unchanged, and a row or column
    past that wraps around ([row & 7], [col & 31]), as [test_key_encoding]
    expects. *)
Theorem X4_linear_key_index_packs row col :
  0 <= linear_key_index row col < 256 /\
  Z.shiftr (linear_key_index row col) 5 = row mod 8 /\
  Z.land (linear_key_index row col) 31 = col mod 32.
Proof.
  split; [apply linear_key_index_range |].
  rewrite linear_key_index_eq, land_31.
  pose proof (Z.mod_pos_bound row 8 ltac:(lia)).
  pose proof (Z.mod_pos_bound col 32 ltac:(lia)).
  split.
  - rewrite Z.shiftr_div_pow2 by lia. change (2 ^ 5) with 32.
    symmetry. apply (Z.div_unique _ 32 _ (col mod 32)); lia.
  - symmetry. apply (Z.mod_unique _ 32 (row mod 8)); lia.
Qed.

(** X5. [encode_key_entry] puts the firmware value in the high byte and
    the key index in the low byte of a 16-bit entry: for every firmware
    value that is a byte, neither is lost to the [uint16_t] cast, and both
    are read back from the entry. *)
Theorem X5_encode_key_entry_unpacks fw row col :
  0 <= fw < 256 ->
  0 <= encode_key_entry fw row col < 65536 /\
  Z.shiftr (encode_key_entry fw row col) 8 = fw /\
  Z.land (encode_key_entry fw row col) 255 = linear_key_index row col.
Proof.
  intro Hfw. rewrite encode_key_entry_eq by exact Hfw.
  pose proof (linear_key_index_range row col) as R.
  split; [lia |]. split.
  - rewrite Z.shiftr_div_pow2 by lia. change (2 ^ 8) with 256.
    symmetry. apply (Z.div_unique _ 256 _ (linear_key_index row col)); lia.
  - rewrite land_255. symmetry. apply (Z.mod_unique _ 256 fw); lia.
Qed.

Lemma X5_witness :
  0 <= encode_key_entry 64 3 3 < 65536 /\
  Z.shiftr (encode_key_entry 64 3 3) 8 = 64 /\
  Z.land (encode_key_entry 64 3 3) 255 = linear_key_index 3 3.
Proof. apply (X5_encode_key_entry_unpacks 64 3 3). lia. Defined.

(** X6. [encode_varint] writes the protobuf varint of a 32-bit value:
    the bytes decode back to the value (low seven bits of each, least
    significant group first, the decode of [test_varint_encoding]); every
    byte but the last has the continuation bit set and the last has it
    clear; and the encoding is the shortest one, between one and five
    bytes. *)
Theorem X6_encode_varint_roundtrip v :
  0 <= v < 2 ^ 32 ->
  varint_decode (encode_varint v) = v /\
  (exists init last,
      encode_varint v = init ++ [last] /\
      Forall (fun b => 128 <= b < 256) init /\ 0 <= last < 128) /\
  (1 <= List.length (encode_varint v) <= 5)%nat /\
  v < 128 ^ Z.of_nat (List.length (encode_varint v)) /\
  (List.length (encode_varint v) = 1%nat \/
   128 ^ (Z.of_nat (List.length (encode_varint v)) - 1) <= v).
Proof. exact (encode_varint_spec v). Qed.

Lemma X6_witness :
  varint_decode (encode_varint 16483) = 16483 /\
  (exists init last,
      encode_varint 16483 = init ++ [last] /\
      Forall (fun b => 128 <= b < 256) init /\ 0 <= last < 128) /\
  (1 <= List.length (encode_varint 16483) <= 5)%nat /\
  16483 < 128 ^ Z.of_nat (List.length (encode_varint 16483)) /\
  (List.length (encode_varint 16483) = 1%nat \/
   128 ^ (Z.of_nat (List.length (encode_varint 16483)) - 1) <= 16483).
Proof. apply (X6_encode_varint_roundtrip 16483). cbn. lia. Defined.

(** X7. [pick_report_id] chooses the smallest report that holds the
    data: for a size of at most 2046 bytes the report chosen, between 1
    and 6, has room for it and no report with a smaller ID has; a larger
    size gets report 6, which does not hold it. *)
Theorem X7_pick_report_id_smallest_fit ds :
  1 <= pick_report_id ds <= 6 /\
  (ds <= 2046 ->
   ds <= nth (Z.to_nat (pick_report_id ds)) REPORT_SIZES 0 /\
   forall j, 1 <= j < pick_report_id ds ->
             nth (Z.to_nat j) REPORT_SIZES 0 < ds) /\
  (2046 < ds ->
   pick_report_id ds = 6 /\
   nth (Z.to_nat (pick_report_id ds)) REPORT_SIZES 0 < ds).
Proof.
  rewrite pick_report_id_cases.
  destruct (Z.leb_spec ds 32); [| destruct (Z.leb_spec ds 62);
    [| destruct (Z.leb_spec ds 254); [| destruct (Z.leb_spec ds 510);
      [| destruct (Z.leb_spec ds 1022)]]]];
    (split; [lia |]);
    (split; [intro Hd; split; [| intros j Hj;
               assert (j = 1 \/ j = 2 \/ j = 3 \/ j = 4 \/ j = 5) as Hc by lia;
               destruct Hc as [-> | [-> | [-> | [-> | ->]]]]; try lia]
            | intro Hd; split; [lia || reflexivity |]]);
    match goal with
    | |- nth ?i REPORT_SIZES 0 < ?d =>
        let x := eval vm_compute in (nth i REPORT_SIZES 0) in
        change (x < d); lia
    | |- ?d <= nth ?i REPORT_SIZES 0 =>
        let x := eval vm_compute in (nth i REPORT_SIZES 0) in
        change (d <= x); lia
    end.
Qed.

Lemma X7_witness :
  1 <= pick_report_id 24 <= 6 /\
  (24 <= 2046 ->
   24 <= nth (Z.to_nat (pick_report_id 24)) REPORT_SIZES 0 /\
   forall j, 1 <= j < pick_report_id 24 ->
             nth (Z.to_nat j) REPORT_SIZES 0 < 24) /\
  (2046 < 24 ->
   pick_report_id 24 = 6 /\
   nth (Z.to_nat (pick_report_id 24)) REPORT_SIZES 0 < 24).
Proof. apply (X7_pick_report_id_smallest_fit 24). Defined.

(* ================================================================== *)
(** * The data report and the writers' capacity                         *)
(* ================================================================== *)

Lemma upd_app_here {A : Type} (pre : list A) x rest v :
  upd (pre ++ x :: rest) (List.length pre) v = pre ++ v :: rest.
Proof.
  induction pre as [| p pre IH]; cbn [upd app List.length];
    [reflexivity | rewrite IH; reflexivity].
Qed.

(** [memcpy] into a buffer with room for the source. *)
Lemma memcpy_app src : forall pre rest,
  (List.length src <= List.length rest)%nat ->
  memcpy (pre ++ rest) (List.length pre) src
  = pre ++ src ++ skipn (List.length src) rest.
Proof.
  induction src as [| b src IH]; intros pre rest L.
  - reflexivity.
  - destruct rest as [| r rest]; [cbn in L; lia |].
    cbn [memcpy]. rewrite upd_app_here.
    replace (pre ++ b :: rest) with ((pre ++ [b]) ++ rest)
      by (rewrite <- app_assoc; reflexivity).
    replace (S (List.length pre)) with (List.length (pre ++ [b]))
      by (rewrite length_app; cbn; lia).
    rewrite IH by (cbn in L; lia).
    rewrite <- app_assoc. reflexivity.
Qed.

Lemma skipn_repeat {A : Type} (x : A) n k :
  skipn n (repeat x k) = repeat x (k - n).
Proof.
  revert k. induction n as [| n IH]; intro k.
  - rewrite Nat.sub_0_r. reflexivity.
  - destruct k as [| k]; [reflexivity | cbn [repeat skipn]; apply IH].
Qed.

(** The report size chosen for a payload of at most 2040 bytes holds the
    six header bytes and the payload. *)
Lemma report_size_fits n :
  0 <= n <= 2040 ->
  1 <= pick_report_id (6 + n) <= 6 /\
  6 + n <= nth (Z.to_nat (pick_report_id (6 + n))) REPORT_SIZES 0 <= 2046.
Proof.
  intro Hn. rewrite pick_report_id_cases.
  destruct (Z.leb_spec (6 + n) 32); [| destruct (Z.leb_spec (6 + n) 62);
    [| destruct (Z.leb_spec (6 + n) 254); [| destruct (Z.leb_spec (6 + n) 510);
      [| destruct (Z.leb_spec (6 + n) 1022)]]]];
    (split; [lia |]);
    match goal with
    | |- _ <= nth ?i REPORT_SIZES 0 <= _ =>
        let x := eval vm_compute in (nth i REPORT_SIZES 0) in
        change (6 + n <= x <= 2046); lia
    end.
Qed.

Lemma send_data_buf_eq cmd options proto :
  Z.of_nat (List.length proto) <= 2040 ->
  send_data_buf cmd options proto (Z.of_nat (List.length proto))
  = [pick_report_id (6 + Z.of_nat (List.length proto));
     MAGIC_0; MAGIC_1; cmd; options;
     Z.of_nat (List.length proto) mod 256;
     Z.of_nat (List.length proto) / 256]
    ++ proto
    ++ repeat 0
         (Z.to_nat
            (nth (Z.to_nat (pick_report_id (6 + Z.of_nat (List.length proto))))
               REPORT_SIZES 0
             - 6 - Z.of_nat (List.length proto))).
Proof.
  intro Hn. unfold send_data_buf. cbv zeta.
  set (n := Z.of_nat (List.length proto)) in *.
  assert (0 <= n <= 2040) as Hn' by (unfold n; lia).
  destruct (report_size_fits n Hn') as (Hr & Hp).
  set (rid := pick_report_id (6 + n)) in *.
  set (pad := nth (Z.to_nat rid) REPORT_SIZES 0) in *.
  replace (Z.to_nat (1 + pad)) with (7 + Z.to_nat (pad - 6))%nat by lia.
  cbn [Nat.add repeat upd].
  replace (Z.to_nat n) with (List.length proto) by (unfold n; lia).
  rewrite firstn_all.
  assert (uwrap 8 rid = rid) as -> by (unfold uwrap; apply Z.mod_small; lia).
  assert (uwrap 8 (Z.land n 255) = n mod 256) as ->.
  { unfold uwrap. rewrite land_255. apply Z.mod_small.
    apply Z.mod_pos_bound. lia. }
  assert (uwrap 8 (Z.land (Z.shiftr n 8) 255) = n / 256) as ->.
  { unfold uwrap. rewrite land_255, Z.shiftr_div_pow2 by lia.
    change (2 ^ 8) with 256.
    assert (0 <= n / 256 < 8).
    { split; [apply Z.div_pos; lia | apply Z.div_lt_upper_bound; lia]. }
    rewrite (Z.mod_small (n / 256) 256) by lia. apply Z.mod_small. lia. }
  pose proof (memcpy_app proto
                [rid; MAGIC_0; MAGIC_1; cmd; options; n mod 256; n / 256]
                (repeat 0 (Z.to_nat (pad - 6)))) as M.
  cbn [List.length app] in M. cbn [app].
  assert (Z.of_nat (List.length proto) = n) as En by reflexivity.
  rewrite M by (rewrite repeat_length; lia).
  rewrite skipn_repeat.
  replace (Z.to_nat (pad - 6) - List.length proto)%nat
    with (Z.to_nat (pad - 6 - n)) by lia.
  reflexivity.
Qed.

(** ** How many keys one write holds *)

Lemma entry_varint_length fw row col :
  7 <= fw <= 255 ->
  (2 <= List.length (encode_varint (encode_key_entry fw row col)) <= 3)%nat.
Proof.
  intro Hfw.
  pose proof (linear_key_index_range row col) as R.
  pose proof (encode_key_entry_eq fw row col ltac:(lia)) as E.
  set (v := encode_key_entry fw row col) in *.
  assert (1792 <= v < 65536) as Hv by lia.
  unfold encode_varint, uwrap.
  change (2 ^ 32) with 4294967296. rewrite Z.mod_small by lia.
  destruct (encode_varint_loop_spec 5 v) as (_ & _ & U & Lw).
  { change (128 ^ (Z.of_nat 5 + 1)) with 4398046511104. lia. }
  set (len := List.length (encode_varint_loop 5 v)) in *.
  destruct Lw as [L | Lw].
  - rewrite L in U. change (128 ^ Z.of_nat 1) with 128 in U. lia.
  - split.
    + destruct len as [| [| len]]; [| | lia].
      * change (128 ^ Z.of_nat 0) with 1 in U. lia.
      * change (128 ^ Z.of_nat 1) with 128 in U. lia.
    + destruct (le_lt_dec len 3) as [| G]; [assumption | exfalso].
      assert (128 ^ 3 <= 128 ^ (Z.of_nat len - 1))
        by (apply Z.pow_le_mono_r; lia).
      change (128 ^ 3) with 2097152 in *. lia.
Qed.

(** The entries of [n] keys from index [i] on take three or four bytes
    each, and all are built while four more bytes fit. *)
Lemma build_inner_ok n : forall i keys inner,
  convertible keys -> (i + n <= List.length keys)%nat ->
  (List.length inner + 4 * n <= 512)%nat ->
  exists inner',
    build_inner n i keys inner = Some (Some inner') /\
    (List.length inner + 3 * n <= List.length inner'
     <= List.length inner + 4 * n)%nat.
Proof.
  induction n as [| n IH]; intros i keys inner Hc Hi L.
  - exists inner. split; [reflexivity | lia].
  - cbn [build_inner].
    destruct (nth_error keys i) as [k |] eqn:Ek.
    2:{ apply nth_error_None in Ek. lia. }
    pose proof (proj1 (Forall_forall _ _) Hc k (nth_error_In _ _ Ek))
      as (Hf & Hl & Hu).
    destruct (mm_to_firmware_defined (mm k) Hf Hl Hu) as (fw & Efw).
    rewrite Efw. cbv zeta.
    destruct (Z.gtb_spec (Z.of_nat (List.length inner) + 4) 512); [lia |].
    pose proof (entry_varint_length fw (row k) (col k)
                  (mm_to_firmware_range _ _ Efw)) as EL.
    destruct (IH (S i) keys
                (inner ++ 8 :: encode_varint (encode_key_entry fw (row k) (col k)))
                Hc ltac:(lia)) as (inner' & E & B).
    { rewrite length_app. cbn [List.length]. lia. }
    exists inner'. split; [exact E |].
    rewrite length_app in B. cbn [List.length] in B. lia.
Qed.

(** Whatever is built holds at least three bytes for each key. *)
Lemma build_inner_lower n : forall i keys inner,
  convertible keys -> (i + n <= List.length keys)%nat ->
  exists r,
    build_inner n i keys inner = Some r /\
    forall inner', r = Some inner' ->
                   (List.length inner + 3 * n <= List.length inner')%nat.
Proof.
  induction n as [| n IH]; intros i keys inner Hc Hi.
  - exists (Some inner). split; [reflexivity |].
    intros inner' E. inversion E. lia.
  - cbn [build_inner].
    destruct (nth_error keys i) as [k |] eqn:Ek.
    2:{ apply nth_error_None in Ek. lia. }
    pose proof (proj1 (Forall_forall _ _) Hc k (nth_error_In _ _ Ek))
      as (Hf & Hl & Hu).
    destruct (mm_to_firmware_defined (mm k) Hf Hl Hu) as (fw & Efw).
    rewrite Efw. cbv zeta.
    destruct (Z.gtb_spec (Z.of_nat (List.length inner) + 4) 512).
    + exists None. split; [reflexivity | discriminate].
    + pose proof (entry_varint_length fw (row k) (col k)
                    (mm_to_firmware_range _ _ Efw)) as EL.
      destruct (IH (S i) keys
                  (inner ++ 8 :: encode_varint (encode_key_entry fw (row k) (col k)))
                  Hc ltac:(lia)) as (r & E & B).
      exists r. split; [exact E |].
      intros inner' Er. specialize (B inner' Er).
      rewrite length_app in B. cbn [List.length] in B. lia.
Qed.

Lemma write_options_odd p save : Z.odd (write_options p save) = save.
Proof.
  unfold write_options, uwrap.
  assert (Z.lor (if save then 1 else 0) (Z.shiftl p 1)
          = 2 * p + (if save then 1 else 0)) as ->.
  { rewrite Z.lor_comm, (lor_shiftl_low p _ 1) by (destruct save; lia).
    change (2 ^ 1) with 2. lia. }
  change (2 ^ 8) with 256.
  rewrite <- Z.bit0_odd, Z.mod_pow2_bits_low with (n := 8) by lia.
  rewrite Z.bit0_odd, Z.add_comm, Z.odd_add_mul_2. destruct save; reflexivity.
Qed.

(** [send_data]: one write; on success, the pause and the flush. *)
Lemma send_data_eq dev cmd options proto len :
  send_data dev cmd options proto len
  = (negb (hid_write_ret dev (List.length (filter is_write (hid_log dev))) <? 0),
     {| hid_log :=
          hid_log dev
          ++ HidWrite (send_data_buf cmd options proto len)
             :: (if hid_write_ret dev (List.length (filter is_write (hid_log dev)))
                    <? 0
                 then []
                 else [HidSleep (if Z.odd options then 50 else 5);
                       HidReadTimeout (if Z.odd options then 50 else 5)]);
        hid_write_ret := hid_write_ret dev;
        active_profile := active_profile dev |}).
Proof.
  unfold send_data, hid_write, hid_do. cbv zeta. cbn [hid_log hid_write_ret active_profile].
  destruct (_ <? 0); cbn [negb]; [reflexivity |].
  rewrite <- !app_assoc. reflexivity.
Qed.

Lemma build_partial_proto_ok keys :
  convertible keys -> (1 <= List.length keys <= 126)%nat ->
  exists proto,
    build_partial_proto 512 keys (Z.of_nat (List.length keys))
    = Some (Z.of_nat (List.length proto), proto) /\
    (3 * List.length keys + 2 <= List.length proto
     <= 4 * List.length keys + 3)%nat.
Proof.
  intros Hc Hn. unfold build_partial_proto. rewrite Nat2Z.id.
  destruct (build_inner_ok (List.length keys) 0 keys [] Hc ltac:(lia))
    as (inner & E & B).
  { cbn [List.length]. lia. }
  rewrite E. cbv zeta. cbn [List.length] in B.
  destruct (Z.gtb_spec (0 + 1 + 5 + Z.of_nat (List.length inner)) 512); [lia |].
  exists (18 :: encode_varint (Z.of_nat (List.length inner)) ++ inner).
  split; [reflexivity |].
  cbn [List.length]. rewrite length_app.
  pose proof (encode_varint_length_by_size (Z.of_nat (List.length inner)) 2
                ltac:(change (2 ^ 32) with 4294967296; lia) ltac:(lia)
                ltac:(change (128 ^ Z.of_nat 2) with 16384; lia)).
  lia.
Qed.

Lemma build_partial_proto_too_many keys :
  convertible keys -> (169 <= List.length keys)%nat ->
  build_partial_proto 512 keys (Z.of_nat (List.length keys)) = Some (-1, []).
Proof.
  intros Hc Hn. unfold build_partial_proto. rewrite Nat2Z.id.
  destruct (build_inner_lower (List.length keys) 0 keys [] Hc ltac:(lia))
    as (r & E & B).
  rewrite E. destruct r as [inner |]; [| reflexivity].
  specialize (B inner eq_refl). cbn [List.length] in B. cbv zeta.
  destruct (Z.gtb_spec (0 + 1 + 5 + Z.of_nat (List.length inner)) 512);
    [reflexivity | lia].
Qed.

Lemma hid_write_keys_ok cmd dev p keys save :
  convertible keys -> (1 <= List.length keys <= 126)%nat ->
  exists proto,
    build_partial_proto 512 keys (Z.of_nat (List.length keys))
    = Some (Z.of_nat (List.length proto), proto) /\
    (3 * List.length keys + 2 <= List.length proto
     <= 4 * List.length keys + 3)%nat /\
    hid_write_keys cmd (Some dev) p (Some keys)
      (Z.of_nat (List.length keys)) save
    = Some
        (negb (hid_write_ret dev (List.length (filter is_write (hid_log dev)))
               <? 0),
         Some
           {| hid_log :=
                hid_log dev
                ++ HidWrite
                     (send_data_buf cmd (write_options p save) proto
                        (Z.of_nat (List.length proto)))
                   :: (if hid_write_ret dev
                            (List.length (filter is_write (hid_log dev))) <? 0
                       then []
                       else [HidSleep (if save then 50 else 5);
                             HidReadTimeout (if save then 50 else 5)]);
              hid_write_ret := hid_write_ret dev;
              active_profile := active_profile dev |}).
Proof.
  intros Hc Hn.
  destruct (build_partial_proto_ok keys Hc Hn) as (proto & E & B).
  exists proto. split; [exact E |]. split; [exact B |].
  unfold hid_write_keys.
  destruct (Z.leb_spec (Z.of_nat (List.length keys)) 0); [lia |].
  rewrite E.
  destruct (Z.ltb_spec (Z.of_nat (List.length proto)) 0); [lia |].
  rewrite send_data_eq, write_options_odd. reflexivity.
Qed.

Lemma hid_write_keys_too_many cmd dev p keys save :
  convertible keys -> (169 <= List.length keys)%nat ->
  hid_write_keys cmd (Some dev) p (Some keys)
    (Z.of_nat (List.length keys)) save
  = Some (false, Some dev).
Proof.
  intros Hc Hn. unfold hid_write_keys.
  destruct (Z.leb_spec (Z.of_nat (List.length keys)) 0); [lia |].
  rewrite (build_partial_proto_too_many keys Hc Hn). reflexivity.
Qed.

(** X8. The data report [send_data] writes for a payload of at most 2040
    bytes: the ID of the smallest report that holds header and payload,
    the two magic bytes, the command, the options, the payload length in
    two bytes, least significant first, the payload, and zeroes up to the
    report's size; with the ID byte the buffer is one byte longer than
    that size. *)
Theorem X8_send_data_frame cmd options proto :
  Z.of_nat (List.length proto) <= 2040 ->
  send_data_buf cmd options proto (Z.of_nat (List.length proto))
  = [pick_report_id (6 + Z.of_nat (List.length proto));
     MAGIC_0; MAGIC_1; cmd; options;
     Z.of_nat (List.length proto) mod 256;
     Z.of_nat (List.length proto) / 256]
    ++ proto
    ++ repeat 0
         (Z.to_nat
            (nth (Z.to_nat (pick_report_id (6 + Z.of_nat (List.length proto))))
               REPORT_SIZES 0
             - 6 - Z.of_nat (List.length proto))) /\
  Z.of_nat
    (List.length
       (send_data_buf cmd options proto (Z.of_nat (List.length proto))))
  = 1 + nth (Z.to_nat (pick_report_id (6 + Z.of_nat (List.length proto))))
          REPORT_SIZES 0.
Proof.
  intro Hn. rewrite (send_data_buf_eq cmd options proto Hn).
  split; [reflexivity |].
  destruct (report_size_fits (Z.of_nat (List.length proto)) ltac:(lia))
    as (_ & Hp).
  rewrite !length_app, repeat_length. cbn [List.length]. lia.
Qed.

Lemma X8_witness :
  send_data_buf 21 0 [18; 3; 8; 227; 52] (Z.of_nat (List.length [18; 3; 8; 227; 52]))
  = [pick_report_id (6 + Z.of_nat (List.length [18; 3; 8; 227; 52]));
     MAGIC_0; MAGIC_1; 21; 0;
     Z.of_nat (List.length [18; 3; 8; 227; 52]) mod 256;
     Z.of_nat (List.length [18; 3; 8; 227; 52]) / 256]
    ++ [18; 3; 8; 227; 52]
    ++ repeat 0
         (Z.to_nat
            (nth (Z.to_nat (pick_report_id (6 + Z.of_nat (List.length [18; 3; 8; 227; 52]))))
               REPORT_SIZES 0
             - 6 - Z.of_nat (List.length [18; 3; 8; 227; 52]))) /\
  Z.of_nat
    (List.length
       (send_data_buf 21 0 [18; 3; 8; 227; 52] (Z.of_nat (List.length [18; 3; 8; 227; 52]))))
  = 1 + nth (Z.to_nat (pick_report_id (6 + Z.of_nat (List.length [18; 3; 8; 227; 52]))))
          REPORT_SIZES 0.
Proof. apply (X8_send_data_frame 21 0 [18; 3; 8; 227; 52]). cbn. lia. Defined.

(** X9. Handed between 1 and 126 keys with convertible depths, each of
    [wooting_hid_write_actuation] and [wooting_hid_write_rt] builds the
    same payload, of three or four bytes a key behind a header of two or
    three, and writes it to the device in exactly one data report, with
    its own command and with the options byte made of the save flag and
    the profile; the call returns whether that write succeeded, and after
    a successful write it pauses and flushes for 50 ms when saving and
    5 ms when not; the active profile is left as it was. *)
Theorem X9_writers_send_one_report dev p keys save :
  convertible keys -> (1 <= List.length keys <= 126)%nat ->
  exists proto,
    build_partial_proto 512 keys (Z.of_nat (List.length keys))
    = Some (Z.of_nat (List.length proto), proto) /\
    (3 * List.length keys + 2 <= List.length proto
     <= 4 * List.length keys + 3)%nat /\
    wooting_hid_write_actuation (Some dev) p (Some keys)
      (Z.of_nat (List.length keys)) save
    = Some
        (negb (hid_write_ret dev
                 (List.length (filter is_write (hid_log dev))) <? 0),
         Some
           {| hid_log :=
                hid_log dev
                ++ HidWrite
                     (send_data_buf CMD_ACTUATION (write_options p save) proto
                        (Z.of_nat (List.length proto)))
                   :: (if hid_write_ret dev
                            (List.length (filter is_write (hid_log dev))) <? 0
                       then []
                       else [HidSleep (if save then 50 else 5);
                             HidReadTimeout (if save then 50 else 5)]);
              hid_write_ret := hid_write_ret dev;
              active_profile := active_profile dev |}) /\
    wooting_hid_write_rt (Some dev) p (Some keys)
      (Z.of_nat (List.length keys)) save
    = Some
        (negb (hid_write_ret dev
                 (List.length (filter is_write (hid_log dev))) <? 0),
         Some
           {| hid_log :=
                hid_log dev
                ++ HidWrite
                     (send_data_buf CMD_RAPID_TRIGGER (write_options p save)
                        proto (Z.of_nat (List.length proto)))
                   :: (if hid_write_ret dev
                            (List.length (filter is_write (hid_log dev))) <? 0
                       then []
                       else [HidSleep (if save then 50 else 5);
                             HidReadTimeout (if save then 50 else 5)]);
              hid_write_ret := hid_write_ret dev;
              active_profile := active_profile dev |}).
Proof.
  intros Hc Hn.
  destruct (hid_write_keys_ok CMD_ACTUATION dev p keys save Hc Hn)
    as (proto & E & B & Wa).
  destruct (hid_write_keys_ok CMD_RAPID_TRIGGER dev p keys save Hc Hn)
    as (proto' & E' & _ & Wr).
  assert (proto' = proto) as -> by congruence.
  exists proto. split; [exact E |]. split; [exact B |].
  split; assumption.
Qed.

Lemma convertible_repeat k n :
  fin32 (mm k) = true -> (- (16777216) <= F2Q (mm k))%Q ->
  (F2Q (mm k) <= 16777216)%Q -> convertible (repeat k n).
Proof.
  intros F L U. apply Forall_forall. intros x Hx.
  apply repeat_spec in Hx. subst x. auto.
Qed.

Lemma X9_witness :
  exists proto,
    build_partial_proto 512
      (repeat {| row := KEY_D_ROW; col := KEY_D_COL; mm := lit32 4 10 |} 4) 4
    = Some (Z.of_nat (List.length proto), proto) /\
    (14 <= List.length proto <= 19)%nat.
Proof.
  destruct (X9_writers_send_one_report
              {| hid_log := []; hid_write_ret := fun _ => 33;
                 active_profile := 0 |}
              PROFILE_IDX
              (repeat {| row := KEY_D_ROW; col := KEY_D_COL; mm := lit32 4 10 |} 4)
              false) as (proto & E & B & _).
  - apply convertible_repeat; vm_compute; first [reflexivity | discriminate].
  - cbn. lia.
  - exists proto. split; [exact E | exact B].
Defined.

(** X10. Handed 169 keys or more with convertible depths, neither
    [wooting_hid_write_actuation] nor [wooting_hid_write_rt] touches the
    device: the payload does not fit the 512-byte buffers, the build
    returns -1 and the call returns false with the device as it was. *)
Theorem X10_writers_reject_too_many_keys dev p keys save :
  convertible keys -> (169 <= List.length keys)%nat ->
  build_partial_proto 512 keys (Z.of_nat (List.length keys)) = Some (-1, []) /\
  wooting_hid_write_actuation (Some dev) p (Some keys)
    (Z.of_nat (List.length keys)) save = Some (false, Some dev) /\
  wooting_hid_write_rt (Some dev) p (Some keys)
    (Z.of_nat (List.length keys)) save = Some (false, Some dev).
Proof.
  intros Hc Hn. split; [exact (build_partial_proto_too_many keys Hc Hn) |].
  split; apply hid_write_keys_too_many; assumption.
Qed.

Lemma X10_witness :
  build_partial_proto 512
    (repeat {| row := KEY_D_ROW; col := KEY_D_COL; mm := lit32 4 10 |} 169)
    (Z.of_nat
       (List.length
          (repeat {| row := KEY_D_ROW; col := KEY_D_COL; mm := lit32 4 10 |}
             169)))
  = Some (-1, []).
Proof.
  refine (proj1 (X10_writers_reject_too_many_keys
                   {| hid_log := []; hid_write_ret := fun _ => 33;
                      active_profile := 0 |}
                   PROFILE_IDX
                   (repeat {| row := KEY_D_ROW; col := KEY_D_COL;
                              mm := lit32 4 10 |} 169)
                   false _ _)).
  - apply convertible_repeat; vm_compute; first [reflexivity | discriminate].
  - rewrite repeat_length. lia.
Defined.

(* ================================================================== *)
(** * The axis state machine: its transitions                           *)
(* ================================================================== *)

(** What follows the [switch] in [axis_update] leaves [prev] as the
    first statement set it. *)
Lemma axis_update_prev cfg ax pos neg prev_pos prev_neg freq clk :
  prev (fst (axis_update cfg ax pos neg prev_pos prev_neg freq clk))
  = state ax.
Proof.
  unfold axis_update, axis_switch, QueryPerformanceCounter. cbv zeta.
  cbn [state prev set_prev set_predictive].
  destruct (state ax);
    repeat match goal with
           | |- context [if ?c then _ else _] => destruct c
           end; reflexivity.
Qed.

(** The state the [switch] leaves. *)
Lemma axis_switch_state cfg ax pos neg prev_pos prev_neg freq clk :
  state (fst (axis_switch cfg ax pos neg prev_pos prev_neg freq clk)) =
  let pp := (pos >? DEAD_ZONE)%f32 in
  let np := (neg >? DEAD_ZONE)%f32 in
  match state ax with
  | S_IDLE =>
      if pp && negb np then S_STRAFE_POS
      else if np && negb pp then S_STRAFE_NEG else S_IDLE
  | S_STRAFE_POS =>
      if negb pp && negb np then S_IDLE
      else if np && (prev_neg <=? DEAD_ZONE)%f32 then S_COUNTER_NEG
           else S_STRAFE_POS
  | S_STRAFE_NEG =>
      if negb pp && negb np then S_IDLE
      else if pp && (prev_pos <=? DEAD_ZONE)%f32 then S_COUNTER_POS
           else S_STRAFE_NEG
  | S_COUNTER_POS =>
      if negb pp && negb np then S_IDLE
      else if pp && negb np then S_STRAFE_POS
           else if np && negb pp then S_STRAFE_NEG else S_COUNTER_POS
  | S_COUNTER_NEG =>
      if negb pp && negb np then S_IDLE
      else if pp && negb np then S_STRAFE_POS
           else if np && negb pp then S_STRAFE_NEG else S_COUNTER_NEG
  end.
Proof.
  unfold axis_switch, QueryPerformanceCounter. cbv zeta.
  destruct (state ax) eqn:Es;
    destruct (pos >? DEAD_ZONE)%f32, (neg >? DEAD_ZONE)%f32;
    cbn [andb negb fst state set_state set_pos_peak set_neg_peak
         set_counter_ms];
    try exact Es; try reflexivity;
    repeat match goal with
           | |- context [if ?c then _ else _] => destruct c
           end; cbn; auto.
Qed.

(** X11. The transitions of the axis state machine. [axis_update]
    records the state it found in [prev]. When the state changes: idle is
    entered only with both keys released; a strafe state only from idle
    or a counter state, with its own key held and the other released; a
    counter state only from the opposite strafe state, on a rising edge
    of its own key. When the state stays: in idle the keys are both
    released or both held; in a strafe state a key is held and the
    opposite key has no rising edge; in a counter state both keys are
    held. *)
Theorem X11_axis_transitions cfg ax pos neg prev_pos prev_neg freq clk :
  let ax' := fst (axis_update cfg ax pos neg prev_pos prev_neg freq clk) in
  let pp := (pos >? DEAD_ZONE)%f32 in
  let np := (neg >? DEAD_ZONE)%f32 in
  prev ax' = state ax /\
  (state ax' <> state ax ->
   match state ax' with
   | S_IDLE => pp = false /\ np = false
   | S_STRAFE_POS =>
       (state ax = S_IDLE \/ is_counter (state ax) = true) /\
       pp = true /\ np = false
   | S_STRAFE_NEG =>
       (state ax = S_IDLE \/ is_counter (state ax) = true) /\
       np = true /\ pp = false
   | S_COUNTER_POS =>
       state ax = S_STRAFE_NEG /\ pp = true /\
       (prev_pos <=? DEAD_ZONE)%f32 = true
   | S_COUNTER_NEG =>
       state ax = S_STRAFE_POS /\ np = true /\
       (prev_neg <=? DEAD_ZONE)%f32 = true
   end) /\
  (state ax' = state ax ->
   match state ax with
   | S_IDLE => pp = np
   | S_STRAFE_POS =>
       (pp = true \/ np = true) /\
       (np && (prev_neg <=? DEAD_ZONE)%f32 = false)
   | S_STRAFE_NEG =>
       (pp = true \/ np = true) /\
       (pp && (prev_pos <=? DEAD_ZONE)%f32 = false)
   | S_COUNTER_POS | S_COUNTER_NEG => pp = true /\ np = true
   end).
Proof.
  cbv zeta. split; [apply axis_update_prev |].
  destruct (axis_update_core cfg ax pos neg prev_pos prev_neg freq clk)
    as (-> & _ & _).
  rewrite axis_switch_state. cbv zeta.
  cbn [state set_predictive set_prev].
  destruct (state ax);
    destruct (pos >? DEAD_ZONE)%f32, (neg >? DEAD_ZONE)%f32,
             (prev_pos <=? DEAD_ZONE)%f32, (prev_neg <=? DEAD_ZONE)%f32;
    cbn; split; intro H; try congruence; auto.
Qed.

(* ================================================================== *)
(** * The square root rounds a positive number                          *)
(* ================================================================== *)

Section Sqrt.

Variables prec emax : Z.
Hypothesis Hprec : 0 < prec.
Hypothesis Hemax : prec < emax.

(** A rational at the place a location names. *)
Lemma inbr_inhabited q l :
  exists y, inbr y q l /\ (inject_Z q <= y)%Q /\ (y < inject_Z q + 1)%Q.
Proof.
  destruct l as [| [ | | ]].
  - exists (inject_Z q). cbn [inbr]. repeat split; lra.
  - exists (inject_Z q + (1 # 2))%Q. cbn [inbr]. repeat split; lra.
  - exists (inject_Z q + (1 # 4))%Q. cbn [inbr]. repeat split; lra.
  - exists (inject_Z q + (3 # 4))%Q. cbn [inbr]. repeat split; lra.
Qed.

(** The root of a positive finite value is some positive number
    rounded: never a NaN, never negative. *)
Lemma SFsqrt_Rnd m e :
  exists x, (0 < x)%Q /\
            Rnd prec emax x (SFsqrt prec emax (S754_finite false m e)).
Proof.
  cbn [SFsqrt]. unfold SFsqrt_core_binary.
  set (d := Zdigits2 (Zpos m)).
  set (G := Z.div2 (d + e + 1)).
  set (e' := Z.min (fexp prec emax G) (Z.div2 e)).
  assert (2 * G <= d + e + 1) as HG.
  { unfold G. rewrite Z.div2_div. apply Z.mul_div_le. lia. }
  assert (2 * e' <= e) as He'.
  { assert (2 * Z.div2 e <= e)
      by (rewrite Z.div2_div; apply Z.mul_div_le; lia).
    unfold e'. lia. }
  set (s := e - 2 * e').
  set (m' := match s with
             | Z0 => Zpos m
             | Zpos _ => Z.shiftl (Zpos m) s
             | Zneg _ => 0
             end).
  assert (m' = Zpos m * 2 ^ s) as Em.
  { unfold m'. destruct s as [| p | p] eqn:Es; try lia.
    apply Z.shiftl_mul_pow2. lia. }
  assert (0 < 2 ^ s) as Ps by (apply Z.pow_pos_nonneg; unfold s; lia).
  assert (0 < m') as Pm by (rewrite Em; lia).
  pose proof (Z.sqrtrem_spec m' ltac:(lia)) as SR.
  destruct (Z.sqrtrem m') as [q r]. destruct SR as [Eq Hr].
  assert (0 < q) as Pq by nia.
  set (l := if r =? 0 then loc_Exact
            else loc_Inexact (if r <=? q then Lt else Gt)).
  destruct (inbr_inhabited q l) as (y & Hy & Ly & Uy).
  pose proof (pow2_pos e') as Pe.
  assert (0 < inject_Z q)%Q as Pq' by (apply (inject_Z_lt 0); exact Pq).
  set (x := (y * pow2 e')%Q).
  assert (0 < x)%Q as Px by (unfold x; apply Qmult_lt_0_compat; lra).
  assert (mag x (Zdigits2 q + e')) as Hm
    by (unfold x; apply mag_scale, mag_of_floor; assumption).
  assert (G - e' <= Zdigits2 q) as Dq.
  { destruct (Z_lt_le_dec (G - 1 - e') 0) as [N | N].
    - pose proof (Zdigits2_pos q Pq). lia.
    - assert (2 ^ (G - 1 - e') <= q) as Lq.
      { destruct (Z_lt_le_dec q (2 ^ (G - 1 - e'))) as [C | C];
          [exfalso | exact C].
        destruct (Zdigits2_bounds (Zpos m) ltac:(lia)) as [Lm _].
        fold d in Lm.
        assert (0 < 2 ^ (G - 1 - e')) by (apply Z.pow_pos_nonneg; lia).
        assert (2 ^ (2 * (G - 1 - e')) <= m') as Big.
        { rewrite Em.
          apply Z.le_trans with (2 ^ (d - 1) * 2 ^ s).
          - rewrite <- Z.pow_add_r
              by (pose proof (Zdigits2_pos (Zpos m) ltac:(lia));
                  unfold d, s in *; lia).
            apply Z.pow_le_mono_r; unfold s; lia.
          - apply Z.mul_le_mono_nonneg_r; lia. }
        replace (2 * (G - 1 - e')) with ((G - 1 - e') + (G - 1 - e')) in Big
          by lia.
        rewrite Z.pow_add_r in Big by lia. nia. }
      pose proof (Zdigits2_lower q (G - 1 - e') N Lq). lia. }
  destruct (binary_round_aux_correct prec emax Hprec false q e' l x
              (Zdigits2 q + e')) as (q' & Hq' & _ & Hr').
  - lia.
  - eapply inbr_ext; [| exact Hy]. unfold x.
    rewrite <- Qmult_assoc, pow2_opp_mul. ring.
  - exact Hm.
  - apply Z.le_trans with (fexp prec emax G).
    + unfold e'. lia.
    + apply fexp_mono. lia.
  - exists x. split; [exact Px |].
    fold l. rewrite Hr'.
    exact (Rnd_of_signed prec emax false x _ _ q' Px Hm Hq' eq_refl).
Qed.

End Sqrt.

(* ================================================================== *)
(** * The targets of the adaptive policy stay in the configured range   *)
(* ================================================================== *)

(** ** Values that are zero, positive or plus infinity *)

Lemma Rnd_nonneg x f :
  Rnd 24 128 x f -> (0 <= x)%Q ->
  valid32 f = true /\ SFleb (f32_of_Z 0) f = true.
Proof.
  intros R P. split; [exact (Rnd_valid 24 128 prec32_pos x f R) |].
  apply (f32_Rnd_mono 0 x); [apply (f32_of_Z_Rnd 0) | exact R | exact P].
Qed.

Lemma nonneg_shape f :
  valid32 f = true -> SFleb (f32_of_Z 0) f = true ->
  f = S754_infinity false \/ (fin32 f = true /\ (0 <= F2Q f)%Q).
Proof.
  intros V L. destruct f as [s | s | | s m e].
  - right. split; [reflexivity | cbn; lra].
  - destruct s; [discriminate | left; reflexivity].
  - discriminate.
  - destruct s; [discriminate |]. right.
    split; [apply fin32_intro; [exact V | reflexivity] |].
    pose proof (F2Q_pos m e). cbn [F2Q]. lra.
Qed.

Lemma fin_nonneg f :
  fin32 f = true -> (0 <= F2Q f)%Q ->
  valid32 f = true /\ SFleb (f32_of_Z 0) f = true.
Proof.
  intros F P. apply Rnd_nonneg with (x := F2Q f); [| exact P].
  apply f32_fin_Rnd. exact F.
Qed.

Lemma square_nonneg v :
  fin32 v = true ->
  valid32 (v * v)%f32 = true /\ SFleb (f32_of_Z 0) (v * v)%f32 = true.
Proof.
  intro F. apply Rnd_nonneg with (x := (F2Q v * F2Q v)%Q).
  - apply f32_mul_Rnd; exact F.
  - nra.
Qed.

Lemma add_nonneg a b :
  valid32 a = true -> SFleb (f32_of_Z 0) a = true ->
  valid32 b = true -> SFleb (f32_of_Z 0) b = true ->
  valid32 (a + b)%f32 = true /\ SFleb (f32_of_Z 0) (a + b)%f32 = true.
Proof.
  intros Va La Vb Lb.
  destruct (nonneg_shape a Va La) as [-> | [Fa Pa]];
    destruct (nonneg_shape b Vb Lb) as [-> | [Fb Pb]].
  - split; reflexivity.
  - destruct b as [s | s | | s m e]; try discriminate; split; reflexivity.
  - destruct a as [s | s | | s m e]; try discriminate; split; reflexivity.
  - apply Rnd_nonneg with (x := (F2Q a + F2Q b)%Q).
    + apply f32_add_Rnd; assumption.
    + lra.
Qed.

Lemma sqrtf_nonneg a :
  valid32 a = true -> SFleb (f32_of_Z 0) a = true ->
  valid32 (sqrtf a) = true /\ SFleb (f32_of_Z 0) (sqrtf a) = true.
Proof.
  intros Va La. destruct a as [s | s | | s m e].
  - split; [reflexivity | destruct s; reflexivity].
  - destruct s; [discriminate | split; reflexivity].
  - discriminate.
  - destruct s; [discriminate |].
    destruct (SFsqrt_Rnd 24 128 prec32_pos m e) as (x & Px & R).
    apply Rnd_nonneg with (x := x); [exact R | lra].
Qed.

Lemma div_nonneg a t :
  valid32 a = true -> SFleb (f32_of_Z 0) a = true ->
  fin32 t = true -> (0 < F2Q t)%Q ->
  valid32 (a / t)%f32 = true /\ SFleb (f32_of_Z 0) (a / t)%f32 = true.
Proof.
  intros Va La Ft Pt.
  destruct (positive_shape t (fin32_finite t Ft) Pt) as (m & E & ->).
  destruct (nonneg_shape a Va La) as [-> | [Fa Pa]].
  - split; reflexivity.
  - apply Rnd_nonneg
      with (x := (F2Q a / F2Q (S754_finite false m E))%Q).
    + apply f32_div_Rnd; [exact Fa | exact Ft | reflexivity].
    + apply Qle_shift_div_l; [exact Pt | lra].
Qed.

(** [if (vel_ratio > 1.0f) vel_ratio = 1.0f]. *)
Lemma clamp_ratio r :
  valid32 r = true -> SFleb (f32_of_Z 0) r = true ->
  fin32 (if (r >? f32_of_Z 1)%f32 then f32_of_Z 1 else r) = true /\
  (F2Q (if (r >? f32_of_Z 1)%f32 then f32_of_Z 1 else r) <= 1)%Q.
Proof.
  intros V L. destruct (nonneg_shape r V L) as [-> | [F P]].
  - split; [reflexivity | rewrite F2Q_f32_1; lra].
  - destruct (r >? f32_of_Z 1)%f32 eqn:E.
    + split; [reflexivity | rewrite F2Q_f32_1; lra].
    + split; [exact F |].
      pose proof (fgt_nQ r (f32_of_Z 1) F eq_refl E) as H.
      rewrite F2Q_f32_1 in H. exact H.
Qed.

(** ** The velocity-scaled actuation point *)

Lemma F2Q_f32_225 : (F2Q (f32_of_Z 225) == 225)%Q.
Proof. vm_compute. reflexivity. Qed.

Lemma F2Q_034 : (0 < F2Q (lit32 34 100))%Q /\ (F2Q (lit32 34 100) <= 1)%Q.
Proof. vm_compute. split; [reflexivity | discriminate]. Qed.

Lemma vel_ap_bounds base vh vv ws :
  fin32 base = true -> (F2Q (lit32 15 100) <= F2Q base)%Q ->
  fin32 vh = true -> fin32 vv = true -> fin32 ws = true ->
  let total_vel := sqrtf (vh * vh + vv * vv)%f32 in
  let max_spd := if (ws >? f32_of_Z 0)%f32 then ws else f32_of_Z 225 in
  let threshold := (max_spd * lit32 34 100)%f32 in
  let vel_ratio :=
    if (threshold >? f32_of_Z 0)%f32 then (total_vel / threshold)%f32
    else f32_of_Z 0 in
  let vel_ratio :=
    if (vel_ratio >? f32_of_Z 1)%f32 then f32_of_Z 1 else vel_ratio in
  depth_in (F2Q (lit32 15 100)) (F2Q base) (vel_scale_ap base vel_ratio).
Proof.
  intros Hb B0 Hh Hv Hw. cbv zeta.
  set (max_spd := if (ws >? f32_of_Z 0)%f32 then ws else f32_of_Z 225).
  assert (fin32 max_spd = true /\ (0 < F2Q max_spd)%Q) as [Hm Pm].
  { unfold max_spd. destruct (ws >? f32_of_Z 0)%f32 eqn:E.
    - split; [exact Hw |].
      pose proof (fgt_Q ws (f32_of_Z 0) Hw eq_refl E) as H.
      rewrite F2Q_f32_0 in H. exact H.
    - split; [reflexivity | rewrite F2Q_f32_225; lra]. }
  destruct F2Q_034 as [C0 C1].
  destruct (f32_mul_between max_spd (lit32 34 100) (f32_of_Z 0) max_spd
              Hm eq_refl eq_refl Hm) as (Ht & Lt & Ut).
  { rewrite F2Q_f32_0. apply Qmult_le_0_compat; lra. }
  { rewrite <- (Qmult_1_r (F2Q max_spd)) at 2.
    apply Qmult_le_l; [exact Pm | exact C1]. }
  set (threshold := (max_spd * lit32 34 100)%f32) in *.
  change (fin32 threshold = true) in Ht.
  destruct (square_nonneg vh Hh) as [V1 L1].
  destruct (square_nonneg vv Hv) as [V2 L2].
  destruct (add_nonneg _ _ V1 L1 V2 L2) as [V3 L3].
  destruct (sqrtf_nonneg _ V3 L3) as [V4 L4].
  set (total_vel := sqrtf (vh * vh + vv * vv)%f32) in *.
  assert (valid32 (if (threshold >? f32_of_Z 0)%f32
                   then (total_vel / threshold)%f32 else f32_of_Z 0) = true /\
          SFleb (f32_of_Z 0)
            (if (threshold >? f32_of_Z 0)%f32
             then (total_vel / threshold)%f32 else f32_of_Z 0) = true)
    as [V5 L5].
  { destruct (threshold >? f32_of_Z 0)%f32 eqn:E.
    - apply div_nonneg; try assumption.
      pose proof (fgt_Q threshold (f32_of_Z 0) Ht eq_refl E) as H.
      rewrite F2Q_f32_0 in H. exact H.
    - split; reflexivity. }
  destruct (clamp_ratio _ V5 L5) as [Fr Ur].
  exact (vel_scale_ap_bounds base _ Hb B0 Fr Ur).
Qed.

(** ** The phase decay on any time that is a number *)

Lemma phase_decay_ap_bounds_any base ms :
  fin32 base = true -> (F2Q (lit32 15 100) <= F2Q base)%Q ->
  valid64 ms = true -> is_nan ms = false ->
  depth_in (F2Q (lit32 15 100)) (F2Q base) (phase_decay_ap base ms).
Proof.
  intros Hb B0 V N. destruct ms as [s | s | | s m e]; try discriminate.
  - apply phase_decay_ap_bounds; [exact Hb | exact B0 | reflexivity].
  - destruct s.
    + change (phase_decay_ap base (S754_infinity true)) with (lit32 15 100).
      split; [exact min_ap_fin | split; [lra | exact B0]].
    + change (phase_decay_ap base (S754_infinity false)) with base.
      split; [exact Hb | split; [exact B0 | lra]].
  - apply phase_decay_ap_bounds; [exact Hb | exact B0 |].
    apply fin64_intro; [exact V | reflexivity].
Qed.

(** ** Crouching *)

(** A binary32 value is a multiple of [2^-149]. *)
Lemma fin32_grid x :
  fin32 x = true -> exists k, (F2Q x == inject_Z k * pow2 (-149))%Q.
Proof.
  intro F. destruct x as [s | s | | s m e]; try discriminate.
  - exists 0. cbn [F2Q]. ring.
  - unfold fin32, finF in F. apply andb_prop in F. destruct F as [V _].
    destruct (valid_finite_inv 24 128 s m e V) as [C _].
    assert (-149 <= e) as He by (unfold fexp, emin in C; lia).
    assert (pow2 e == inject_Z (2 ^ (e + 149)) * pow2 (-149))%Q as Ep.
    { rewrite <- pow2_Z by lia. rewrite <- pow2_add.
      replace (e + 149 + -149) with e by lia. reflexivity. }
    destruct s; cbn [F2Q].
    + exists (- (Zpos m * 2 ^ (e + 149))).
      rewrite Ep, inject_Z_opp, inject_Z_mult. ring.
    + exists (Zpos m * 2 ^ (e + 149)). rewrite Ep, inject_Z_mult. ring.
Qed.

(** Two binary32 values that differ, differ by [2^-149] at least. *)
Lemma fin32_gap a b :
  fin32 a = true -> fin32 b = true -> (F2Q a < F2Q b)%Q ->
  (pow2 (-149) <= F2Q b - F2Q a)%Q.
Proof.
  intros Fa Fb L.
  destruct (fin32_grid a Fa) as (ka & Ea).
  destruct (fin32_grid b Fb) as (kb & Eb).
  pose proof (pow2_pos (-149)) as P.
  rewrite Ea, Eb in L |- *.
  assert (ka < kb) as K.
  { destruct (Z_lt_le_dec ka kb) as [| G]; [assumption | exfalso].
    apply inject_Z_le in G. nra. }
  assert (inject_Z ka + 1 <= inject_Z kb)%Q as K'.
  { rewrite <- inject_Z_succ. apply inject_Z_le. lia. }
  nra.
Qed.

(** Rounding up moves a positive number by at most its [2^-24]-th part
    and [2^-150]. *)
Lemma Rnd_up_bound x f :
  Rnd 24 128 x f -> (0 < x)%Q -> is_finite f = true ->
  (F2Q f <= x + x * pow2 (-24) + pow2 (-150))%Q.
Proof.
  intros R P F.
  destruct (Rnd_pos_error 24 128 prec32_pos x f R P F)
    as (g & q & [Lg Ug] & _ & E & _).
  pose proof (pow2_pos (-150)) as P1.
  pose proof (pow2_pos (-24)) as P2.
  assert (pow2 (fexp 24 128 g - 1) <= x * pow2 (-24) + pow2 (-150))%Q as B.
  { unfold fexp, emin.
    destruct (Z.max_spec (g - 24) (3 - 128 - 24)) as [[_ ->] | [_ ->]].
    - change (3 - 128 - 24 - 1) with (-150). nra.
    - replace (g - 24 - 1) with ((g - 1) + (-24)) by lia.
      rewrite pow2_add. nra. }
  lra.
Qed.

Lemma F2Q_03 : (0 < F2Q (lit32 3 10))%Q /\ (F2Q (lit32 3 10) <= 31 # 100)%Q.
Proof. vm_compute. split; [reflexivity | discriminate]. Qed.

Lemma pow2_m24 : (pow2 (-24) <= 1 # 100)%Q.
Proof. vm_compute. discriminate. Qed.

Lemma pow2_m149 : (pow2 (-149) == 2 * pow2 (-150))%Q.
Proof. change (-149) with (-150 + 1). rewrite pow2_succ. reflexivity. Qed.

(** [ap[i] + (ap_normal - ap[i]) * 0.3f] for a depth below the normal
    one lies between the two. *)
Lemma crouch_ap_bounds a n :
  fin32 a = true -> fin32 n = true -> (0 <= F2Q a)%Q -> (F2Q a < F2Q n)%Q ->
  fin32 (a + (n - a) * lit32 3 10)%f32 = true /\
  (F2Q a <= F2Q (a + (n - a) * lit32 3 10)%f32)%Q /\
  (F2Q (a + (n - a) * lit32 3 10)%f32 <= F2Q n)%Q.
Proof.
  intros Fa Fn A0 L.
  pose proof (fin32_gap a n Fa Fn L) as Gap. rewrite pow2_m149 in Gap.
  pose proof (pow2_pos (-150)) as Pd. pose proof (pow2_pos (-24)) as Pe.
  pose proof pow2_m24 as Ee. destruct F2Q_03 as [C0 C1].
  pose proof (f32_sub_Rnd n a Fn Fa) as Rd.
  destruct (f32_sub_between n a (f32_of_Z 0) n Fn Fa eq_refl Fn)
    as (Fd & Ld & Ud).
  { rewrite F2Q_f32_0. lra. }
  { lra. }
  rewrite F2Q_f32_0 in Ld.
  pose proof (Rnd_up_bound _ _ Rd ltac:(lra) (fin32_finite _ Fd)) as Bd.
  set (d := (n - a)%f32) in *.
  pose proof (f32_mul_Rnd d (lit32 3 10) Fd eq_refl) as Rt.
  destruct (f32_mul_between d (lit32 3 10) (f32_of_Z 0) d Fd eq_refl
              eq_refl Fd) as (Ft & Lt & Ut).
  { rewrite F2Q_f32_0. apply Qmult_le_0_compat; lra. }
  { nra. }
  rewrite F2Q_f32_0 in Lt.
  set (t := (d * lit32 3 10)%f32) in *.
  assert (F2Q t <= F2Q n - F2Q a)%Q as Bt.
  { destruct (Qlt_le_dec 0 (F2Q d * F2Q (lit32 3 10))) as [Pu | Zu].
    - pose proof (Rnd_up_bound _ _ Rt Pu (fin32_finite _ Ft)) as Bu.
      set (D := (F2Q n - F2Q a)%Q) in *.
      set (c := F2Q (lit32 3 10)) in *.
      assert (F2Q d <= (151 # 100) * D)%Q as B1 by nra.
      assert (F2Q d * c <= (31 # 100) * F2Q d)%Q as B2 by nra.
      assert (F2Q d * c * pow2 (-24) <= (1 # 100) * (F2Q d * c))%Q as B3
        by nra.
      lra.
    - assert (F2Q d * F2Q (lit32 3 10) == 0)%Q as Eu.
      { apply Qle_antisym; [exact Zu | apply Qmult_le_0_compat; lra]. }
      destruct (f32_Rnd_between (f32_of_Z 0) (f32_of_Z 0) _ _ Rt eq_refl
                  eq_refl) as (_ & _ & U0); rewrite ?F2Q_f32_0; try lra.
      rewrite F2Q_f32_0 in U0. fold t in U0. lra. }
  destruct (f32_add_between a t a n Fa Ft Fa Fn) as (Fr & Lr & Ur); try lra.
  auto.
Qed.

(** [rt[i] * crouch_rt_factor], raised to [base_rt]. *)
Lemma crouch_rt_bounds r f base lo hi :
  fin32 r = true -> fin32 f = true -> fin32 base = true ->
  (0 <= lo)%Q -> (lo <= F2Q r)%Q -> (F2Q r <= hi)%Q ->
  (0 <= F2Q f)%Q -> (F2Q f <= 1)%Q ->
  (lo <= F2Q base)%Q -> (F2Q base <= hi)%Q ->
  depth_in lo hi (if (r * f <? base)%f32 then base else (r * f)%f32).
Proof.
  intros Fr Ff Fb L0 Lr Ur F0 F1 Lb Ub.
  destruct (f32_mul_between r f (f32_of_Z 0) r Fr Ff eq_refl Fr)
    as (Fc & Lc & Uc).
  { rewrite F2Q_f32_0. apply Qmult_le_0_compat; lra. }
  { nra. }
  destruct (r * f <? base)%f32 eqn:E.
  - split; [exact Fb | split; assumption].
  - pose proof (flt_nQ _ _ Fc Fb E) as H.
    split; [exact Fc | split; lra].
Qed.

(** ** The per-key arrays *)

Lemma Forall_upd {A : Type} (P : A -> Prop) l i v :
  Forall P l -> P v -> Forall P (upd l i v).
Proof.
  intros H Hv. revert i. induction H as [| x l Hx Hl IH]; intro i.
  - constructor.
  - destruct i; cbn [upd]; constructor; auto.
Qed.

Lemma length_upd {A : Type} (l : list A) i v :
  List.length (upd l i v) = List.length l.
Proof.
  revert i. induction l as [| x l IH]; intro i; [reflexivity |].
  destruct i; cbn [upd List.length]; [reflexivity | rewrite IH; reflexivity].
Qed.

Lemma Forall_repeat {A : Type} (P : A -> Prop) x n :
  P x -> Forall P (repeat x n).
Proof. intro H. induction n; cbn [repeat]; constructor; auto. Qed.

Lemma depth_in_weaken lo hi lo' hi' x :
  (lo' <= lo)%Q -> (hi <= hi')%Q -> depth_in lo hi x -> depth_in lo' hi' x.
Proof. intros L U (F & A & B). split; [exact F | split; lra]. Qed.

Lemma axis_targets_bounds cfg ax vel_ap base_rt kneg kpos apv rtv
  (PA PR : float32 -> Prop) :
  Forall PA apv -> Forall PR rtv ->
  PA vel_ap -> PA (phase_decay_ap vel_ap (counter_ms ax)) -> PR base_rt ->
  Forall PA (fst (axis_targets cfg ax vel_ap base_rt kneg kpos apv rtv)) /\
  Forall PR (snd (axis_targets cfg ax vel_ap base_rt kneg kpos apv rtv)) /\
  List.length (fst (axis_targets cfg ax vel_ap base_rt kneg kpos apv rtv))
  = List.length apv /\
  List.length (snd (axis_targets cfg ax vel_ap base_rt kneg kpos apv rtv))
  = List.length rtv.
Proof.
  intros Ha Hr Hv Hc Hb. unfold axis_targets.
  destruct (state ax);
    repeat match goal with
           | |- context [if ?c then _ else _] => destruct c
           end;
    cbn [fst snd]; rewrite ?length_upd;
    repeat split; try reflexivity;
    repeat (apply Forall_upd; try assumption); assumption.
Qed.

Lemma crouch_bounds cfg base_rt ap_hi rt_lo rt_hi :
  depths_within cfg ap_hi rt_lo rt_hi ->
  depth_in (F2Q rt_lo) (F2Q rt_hi) base_rt ->
  forall apv rtv,
    Forall (depth_in (F2Q (lit32 15 100)) (F2Q ap_hi)) apv ->
    Forall (depth_in (F2Q rt_lo) (F2Q rt_hi)) rtv ->
    List.length apv = List.length rtv ->
    Forall (depth_in (F2Q (lit32 15 100)) (F2Q ap_hi))
      (fst (split (map (crouch_key cfg base_rt) (combine apv rtv)))) /\
    Forall (depth_in (F2Q rt_lo) (F2Q rt_hi))
      (snd (split (map (crouch_key cfg base_rt) (combine apv rtv)))) /\
    List.length (fst (split (map (crouch_key cfg base_rt) (combine apv rtv))))
    = List.length apv /\
    List.length (snd (split (map (crouch_key cfg base_rt) (combine apv rtv))))
    = List.length rtv.
Proof.
  intros (Fah & Frl & Frh & R0 & Ff & F0 & F1 & HA & HR) (Fb & Lb & Ub).
  destruct (HA (ap_normal cfg) (or_introl eq_refl)) as (Fn & Ln & Un).
  pose proof min_ap_positive as P15.
  induction apv as [| a apv IH]; intros rtv Ha Hr Hl.
  - destruct rtv; [| discriminate]. cbn. auto.
  - destruct rtv as [| r rtv]; [discriminate |].
    inversion Ha as [| ? ? (Fa & La & Ua) Ha']. subst.
    inversion Hr as [| ? ? (Fr & Lr & Ur) Hr']. subst.
    cbn [combine map split].
    destruct (IH rtv Ha' Hr' ltac:(cbn in Hl; lia)) as (IA & IR & LA & LR).
    destruct (split (map (crouch_key cfg base_rt) (combine apv rtv)))
      as [apv' rtv'].
    destruct (crouch_key cfg base_rt (a, r)) as [a' r'] eqn:Ek.
    unfold crouch_key in Ek. cbv zeta in Ek. inversion Ek as [[Ea Er]].
    cbn [fst snd List.length] in *. rewrite LA, LR.
    repeat split; try reflexivity; constructor; try assumption.
    + destruct (a <? ap_normal cfg)%f32 eqn:E.
      * pose proof (flt_Q _ _ Fa Fn E) as Lt.
        destruct (crouch_ap_bounds a (ap_normal cfg) Fa Fn ltac:(lra) Lt)
          as (F' & L' & U').
        split; [exact F' | split; lra].
      * split; [exact Fa | split; assumption].
    + apply crouch_rt_bounds; try assumption; lra.
Qed.

Lemma get_base_aggro_bounds cfg ap_hi rt_lo rt_hi active cat :
  depths_within cfg ap_hi rt_lo rt_hi ->
  depth_in (F2Q (lit32 15 100)) (F2Q ap_hi)
    (fst (get_base_aggro cfg active cat)) /\
  depth_in (F2Q rt_lo) (F2Q rt_hi) (snd (get_base_aggro cfg active cat)).
Proof.
  intros (_ & _ & _ & _ & _ & _ & _ & HA & HR). unfold get_base_aggro.
  destruct active; cbn [fst snd]; split;
    first [apply HA | apply HR]; eauto.
Qed.

Lemma compute_targets_bounds cfg ap_hi rt_lo rt_hi ctx :
  depths_within cfg ap_hi rt_lo rt_hi -> estimates_sound ctx ->
  Forall (depth_in (F2Q (lit32 15 100)) (F2Q ap_hi))
    (fst (compute_targets cfg ctx)) /\
  Forall (depth_in (F2Q rt_lo) (F2Q rt_hi)) (snd (compute_targets cfg ctx)) /\
  List.length (fst (compute_targets cfg ctx)) = 4%nat /\
  List.length (snd (compute_targets cfg ctx)) = 4%nat.
Proof.
  intros Hc (Fh & Fv & Fw & Vh & Nh & Vv & Nv).
  pose proof Hc as (Fah & Frl & Frh & R0 & Ff & F0 & F1 & HA & HR).
  assert (Forall (depth_in (F2Q (lit32 15 100)) (F2Q ap_hi))
            (repeat (ap_normal cfg) 4)) as A0
    by (apply Forall_repeat, HA; auto).
  assert (Forall (depth_in (F2Q rt_lo) (F2Q rt_hi))
            (repeat (rt_normal cfg) 4)) as R4
    by (apply Forall_repeat, HR; auto).
  unfold compute_targets. cbv zeta.
  destruct (_ || _); [cbn [fst snd]; auto |].
  destruct (get_base_aggro_bounds cfg ap_hi rt_lo rt_hi (gsi_active ctx)
              (weapon_cat ctx) Hc) as (Ba & Br).
  destruct (get_base_aggro cfg (gsi_active ctx) (weapon_cat ctx))
    as [base_ap base_rt].
  cbn [fst snd] in Ba, Br. pose proof Ba as (Fba & Lba & Uba).
  match goal with
  | |- context [axis_targets cfg (h ctx) ?va _ _ _ _ _] => set (vel_ap := va)
  end.
  assert (depth_in (F2Q (lit32 15 100)) (F2Q base_ap) vel_ap) as Hva.
  { unfold vel_ap. destruct (_ && _).
    - exact (vel_ap_bounds base_ap _ _ _ Fba Lba Fh Fv Fw).
    - split; [exact Fba | split; lra]. }
  clearbody vel_ap. pose proof Hva as (Fva & Lva & Uva).
  assert (depth_in (F2Q (lit32 15 100)) (F2Q ap_hi) vel_ap) as Hva'
    by (apply (depth_in_weaken (F2Q (lit32 15 100)) (F2Q base_ap));
        [lra | exact Uba | exact Hva]).
  assert (forall ms, valid64 ms = true -> is_nan ms = false ->
                     depth_in (F2Q (lit32 15 100)) (F2Q ap_hi)
                       (phase_decay_ap vel_ap ms)) as Hpd.
  { intros ms V N.
    apply (depth_in_weaken (F2Q (lit32 15 100)) (F2Q vel_ap));
      [lra | lra | exact (phase_decay_ap_bounds_any vel_ap ms Fva Lva V N)]. }
  destruct (axis_targets_bounds cfg (h ctx) vel_ap base_rt K_A K_D
              (repeat (ap_normal cfg) 4) (repeat (rt_normal cfg) 4)
              _ _ A0 R4 Hva' (Hpd _ Vh Nh) Br) as (A1 & R1 & LA1 & LR1).
  destruct (axis_targets cfg (h ctx) vel_ap base_rt K_A K_D
              (repeat (ap_normal cfg) 4) (repeat (rt_normal cfg) 4))
    as [apv1 rtv1].
  cbn [fst snd] in A1, R1, LA1, LR1. cbn [repeat List.length] in LA1, LR1.
  assert (exists apv2 rtv2,
             (if truthy (ws_adaptive cfg)
              then axis_targets cfg (v ctx) vel_ap base_rt K_S K_W apv1 rtv1
              else (apv1, rtv1)) = (apv2, rtv2) /\
             Forall (depth_in (F2Q (lit32 15 100)) (F2Q ap_hi)) apv2 /\
             Forall (depth_in (F2Q rt_lo) (F2Q rt_hi)) rtv2 /\
             List.length apv2 = 4%nat /\ List.length rtv2 = 4%nat)
    as (apv2 & rtv2 & -> & A2 & R2 & LA2 & LR2).
  { destruct (truthy (ws_adaptive cfg)).
    - destruct (axis_targets_bounds cfg (v ctx) vel_ap base_rt K_S K_W
                  apv1 rtv1 _ _ A1 R1 Hva' (Hpd _ Vv Nv) Br)
        as (A2 & R2 & LA2 & LR2).
      destruct (axis_targets cfg (v ctx) vel_ap base_rt K_S K_W apv1 rtv1)
        as [apv2 rtv2].
      exists apv2, rtv2. cbn [fst snd] in *. repeat split; try assumption;
        congruence.
    - exists apv1, rtv1. auto. }
  destruct (crouching ctx).
  - destruct (crouch_bounds cfg base_rt ap_hi rt_lo rt_hi Hc Br apv2 rtv2
                A2 R2 ltac:(congruence)) as (A3 & R3 & LA3 & LR3).
    repeat split; try assumption; congruence.
  - cbn [fst snd]. auto.
Qed.

(** X12. The depths the policy arrives at stay in the configured range.
    For a configuration whose actuation points are all at least 0.15 mm
    and at most [ap_hi], whose rapid-trigger depths lie in
    [rt_lo, rt_hi] and whose crouch factor lies in [0, 1], and for finite
    velocity estimates and weapon speed and counter-strafe times that are
    numbers: whatever the axis states, the flags, the game state and the
    enabled features, [update_targets] computes four actuation points
    and four rapid-trigger depths, every one finite, every actuation
    point between 0.15 mm and [ap_hi] and every rapid-trigger depth
    between [rt_lo] and [rt_hi]. *)
Theorem X12_targets_within_configured_depths cfg ap_hi rt_lo rt_hi ctx :
  depths_within cfg ap_hi rt_lo rt_hi -> estimates_sound ctx ->
  Forall (depth_in (F2Q (lit32 15 100)) (F2Q ap_hi))
    (fst (compute_targets cfg ctx)) /\
  Forall (depth_in (F2Q rt_lo) (F2Q rt_hi)) (snd (compute_targets cfg ctx)) /\
  List.length (fst (compute_targets cfg ctx)) = 4%nat /\
  List.length (snd (compute_targets cfg ctx)) = 4%nat.
Proof. exact (compute_targets_bounds cfg ap_hi rt_lo rt_hi ctx). Qed.

(** The defaults of [g_cfg] are in range: actuation points from 0.3 to
    1.5 mm, rapid-trigger depths from 0.1 to 1 mm, crouch factor 0.5. *)
Lemma g_cfg_depths :
  depths_within g_cfg (lit32 15 10) (lit32 1 10) (f32_of_Z 1).
Proof.
  unfold depths_within.
  do 7 (split; [vm_compute; first [reflexivity | discriminate] |]).
  split.
  - intros x [-> | [-> | [c ->]]]; [| | destruct c];
      (split; [vm_compute; reflexivity |]);
      split; vm_compute; discriminate.
  - intros x [-> | [-> | [c ->]]]; [| | destruct c];
      (split; [vm_compute; reflexivity |]);
      split; vm_compute; discriminate.
Qed.

Lemma sample_sound : input_sound sample_tick.
Proof. vm_compute. repeat split; reflexivity. Qed.

Lemma X12_witness :
  Forall (depth_in (F2Q (lit32 15 100)) (F2Q (lit32 15 10)))
    (fst (compute_targets g_cfg
            (sampled (AimContext_init g_cfg 0 0) sample_tick))) /\
  Forall (depth_in (F2Q (lit32 1 10)) (F2Q (f32_of_Z 1)))
    (snd (compute_targets g_cfg
            (sampled (AimContext_init g_cfg 0 0) sample_tick))) /\
  List.length
    (fst (compute_targets g_cfg
            (sampled (AimContext_init g_cfg 0 0) sample_tick))) = 4%nat /\
  List.length
    (snd (compute_targets g_cfg
            (sampled (AimContext_init g_cfg 0 0) sample_tick))) = 4%nat.
Proof.
  apply (X12_targets_within_configured_depths g_cfg (lit32 15 10)
           (lit32 1 10) (f32_of_Z 1)).
  - exact g_cfg_depths.
  - vm_compute. repeat split; reflexivity.
Defined.

(* ================================================================== *)
(** * The writer is defined on every run, and loses no change           *)
(* ================================================================== *)

Lemma nth_Forall {A : Type} (P : A -> Prop) l i d :
  Forall P l -> (i < List.length l)%nat -> P (nth i l d).
Proof.
  intros H Hi. apply (proj1 (Forall_forall P l) H). apply nth_In. exact Hi.
Qed.

Lemma wasd_convertible lo hi depth :
  Forall (depth_in lo hi) depth -> List.length depth = 4%nat ->
  (- (16777216) <= lo)%Q -> (hi <= 16777216)%Q ->
  convertible (wasd_settings depth).
Proof.
  intros H L Lo Hi. unfold convertible, wasd_settings.
  repeat constructor; cbn [mm];
    match goal with
    | |- context [nth ?i depth _] =>
        destruct (nth_Forall _ depth i S754_nan H
                    ltac:(rewrite L; unfold K_W, K_A, K_S, K_D; lia))
          as (F & A & B)
    end; first [exact F | lra].
Qed.

Lemma update_targets_fields cfg gsi ctx :
  let ctx' := update_targets cfg gsi ctx in
  current_ap ctx' = current_ap ctx /\ current_rt ctx' = current_rt ctx /\
  ((target_ap ctx' = target_ap ctx /\ target_rt ctx' = target_rt ctx /\
    needs_write ctx' = needs_write ctx) \/
   (exists snap,
       h snap = h ctx /\ v snap = v ctx /\
       vel_h snap = vel_h ctx /\ vel_v snap = vel_v ctx /\
       weapon_speed snap = gsi_weapon_speed gsi /\
       target_ap ctx' = fst (compute_targets cfg snap) /\
       target_rt ctx' = snd (compute_targets cfg snap) /\
       needs_write ctx' = true)).
Proof.
  cbv zeta. unfold update_targets.
  match goal with
  | |- context [compute_targets cfg ?s] => set (snap := s)
  end.
  destruct (compute_targets cfg snap) as [apv rtv] eqn:E.
  destruct (targets_changed _ _ _ _); cbn;
    (split; [reflexivity |]); (split; [reflexivity |]).
  - right. exists snap. rewrite E. cbn. auto 10.
  - left. auto.
Qed.

Lemma update_targets_inv cfg ap_hi rt_lo rt_hi ctx i :
  depths_within cfg ap_hi rt_lo rt_hi -> input_sound i ->
  targets_within ap_hi rt_lo rt_hi ctx -> written_when_idle ctx ->
  targets_within ap_hi rt_lo rt_hi
    (update_targets cfg (ti_gsi i) (sampled ctx i)) /\
  written_when_idle (update_targets cfg (ti_gsi i) (sampled ctx i)).
Proof.
  intros Hc (Fh & Fv & Fw & Vh & Nh & Vv & Nv) (TA & TR & LA & LR) W.
  destruct (update_targets_fields cfg (ti_gsi i) (sampled ctx i))
    as (Ca & Cr & [(Ea & Er & En) | (snap & Sh & Sv & Svh & Svv & Sw & Ea & Er & En)]).
  - cbn [sampled target_ap target_rt needs_write current_ap current_rt] in *.
    split.
    + unfold targets_within. rewrite Ea, Er. auto.
    + unfold written_when_idle. rewrite En, Ea, Er, Ca, Cr. exact W.
  - assert (estimates_sound snap) as Hs.
    { unfold estimates_sound. rewrite Sh, Sv, Svh, Svv, Sw.
      cbn [sampled h v vel_h vel_v]. auto 10. }
    destruct (compute_targets_bounds cfg ap_hi rt_lo rt_hi snap Hc Hs)
      as (A & R & L1 & L2).
    split.
    + unfold targets_within. rewrite Ea, Er. auto.
    + unfold written_when_idle. rewrite En. discriminate.
Qed.

(** [do_write] on targets in range: it is defined, keeps the targets,
    and leaves no change unwritten. *)
Lemma do_write_inv cfg ap_hi rt_lo rt_hi ctx hid freq clk :
  fin32 ap_hi = true -> (F2Q ap_hi <= 16777216)%Q ->
  (0 <= F2Q rt_lo)%Q -> (F2Q rt_hi <= 16777216)%Q ->
  targets_within ap_hi rt_lo rt_hi ctx -> written_when_idle ctx ->
  exists o ctx' hid' clk',
    do_write cfg ctx hid freq clk = Some (o, ctx', hid', clk') /\
    targets_within ap_hi rt_lo rt_hi ctx' /\ written_when_idle ctx'.
Proof.
  intros Fah Ua R0 Ur (TA & TR & LA & LR) W.
  pose proof min_ap_positive as P15.
  assert (convertible (wasd_settings (target_ap ctx))) as Ca
    by (apply (wasd_convertible _ _ _ TA LA); lra).
  assert (convertible (wasd_settings (target_rt ctx))) as Cr
    by (apply (wasd_convertible _ _ _ TR LR); lra).
  unfold do_write.
  destruct (negb (needs_write ctx) || _) eqn:E0.
  { exists Skipped, ctx, hid, clk.
    split; [reflexivity | split; [unfold targets_within; auto | exact W]]. }
  destruct hid as [dev |]; [| rewrite orb_true_r in E0; discriminate].
  unfold QueryPerformanceCounter.
  destruct (_ <? _)%f64.
  { eexists TooEarly, ctx, (Some dev), _.
    split; [reflexivity | split; [unfold targets_within; auto | exact W]]. }
  unfold wooting_hid_write_actuation, wooting_hid_write_rt.
  destruct (hid_write_keys_ok CMD_ACTUATION dev PROFILE_IDX
              (wasd_settings (target_ap ctx)) false Ca ltac:(cbn; lia))
    as (pa & _ & _ & Wa).
  change (Z.of_nat (List.length (wasd_settings (target_ap ctx)))) with 4 in Wa.
  rewrite Wa.
  match goal with
  | |- context [hid_write_keys CMD_RAPID_TRIGGER (Some ?d) _ _ _ _] =>
      destruct (hid_write_keys_ok CMD_RAPID_TRIGGER d PROFILE_IDX
                  (wasd_settings (target_rt ctx)) false Cr ltac:(cbn; lia))
        as (pr & _ & _ & Wr)
  end.
  change (Z.of_nat (List.length (wasd_settings (target_rt ctx)))) with 4 in Wr.
  rewrite Wr.
  do 4 eexists. split; [reflexivity |].
  split; [unfold targets_within; cbn; auto |].
  unfold written_when_idle. cbn. auto.
Qed.

Lemma adaptive_tick_inv cfg ap_hi rt_lo rt_hi freq ctx hid clk i :
  depths_within cfg ap_hi rt_lo rt_hi ->
  (F2Q ap_hi <= 16777216)%Q -> (F2Q rt_hi <= 16777216)%Q ->
  input_sound i ->
  targets_within ap_hi rt_lo rt_hi ctx -> written_when_idle ctx ->
  exists o ctx' hid' clk',
    adaptive_tick cfg freq ctx hid clk i = Some (o, ctx', hid', clk') /\
    targets_within ap_hi rt_lo rt_hi ctx' /\ written_when_idle ctx'.
Proof.
  intros Hc Ua Ur Hi T W. unfold adaptive_tick.
  destruct hid as [dev |].
  - destruct (update_targets_inv cfg ap_hi rt_lo rt_hi ctx i Hc Hi T W)
      as (T' & W').
    destruct Hc as (Fah & _ & _ & R0 & _).
    exact (do_write_inv cfg ap_hi rt_lo rt_hi _ (Some dev) freq clk
             Fah Ua R0 Ur T' W').
  - exists Skipped, (sampled ctx i), None, clk.
    split; [reflexivity |]. split; [exact T | exact W].
Qed.

Lemma writer_run_inv cfg ap_hi rt_lo rt_hi freq inputs :
  depths_within cfg ap_hi rt_lo rt_hi ->
  (F2Q ap_hi <= 16777216)%Q -> (F2Q rt_hi <= 16777216)%Q ->
  Forall input_sound inputs ->
  forall ctx hid clk,
    targets_within ap_hi rt_lo rt_hi ctx -> written_when_idle ctx ->
    exists os ctx' hid' clk',
      writer_run cfg freq ctx hid clk inputs = Some (os, ctx', hid', clk') /\
      List.length os = List.length inputs /\
      targets_within ap_hi rt_lo rt_hi ctx' /\ written_when_idle ctx'.
Proof.
  intros Hc Ua Ur Hin.
  induction Hin as [| i rest Hi Hrest IH]; intros ctx hid clk T W.
  - exists [], ctx, hid, clk. cbn. auto.
  - destruct (adaptive_tick_inv cfg ap_hi rt_lo rt_hi freq ctx hid clk i
                Hc Ua Ur Hi T W) as (o & ctx1 & hid1 & clk1 & E & T1 & W1).
    destruct (IH ctx1 hid1 clk1 T1 W1)
      as (os & ctx2 & hid2 & clk2 & E2 & L2 & T2 & W2).
    exists ((o, last_write_time ctx1) :: os), ctx2, hid2, clk2.
    cbn [writer_run]. rewrite E, E2. cbn [List.length]. auto.
Qed.

Lemma init_inv cfg ap_hi rt_lo rt_hi t_write t_vel :
  depths_within cfg ap_hi rt_lo rt_hi ->
  targets_within ap_hi rt_lo rt_hi (AimContext_init cfg t_write t_vel) /\
  written_when_idle (AimContext_init cfg t_write t_vel).
Proof.
  intros (_ & _ & _ & _ & _ & _ & _ & HA & HR). split.
  - unfold targets_within. cbn [AimContext_init target_ap target_rt].
    rewrite !repeat_length.
    repeat split; try reflexivity; apply Forall_repeat;
      first [apply HA | apply HR]; auto.
  - intros _. split; reflexivity.
Qed.

(** X13. The adaptive half of the main loop is defined on every run and
    loses no change. For a configuration whose depths are in range (as
    for X12, with [ap_hi] and [rt_hi] at most [2^24]), from the context
    [main] sets up, over any number of iterations on sound samples,
    with or without a device, whatever the counter reads and whatever
    the device answers: every call of [update_targets] and [do_write]
    is defined (no depth reaches [mm_to_firmware] outside the range of
    [int]), the targets stay four and four in range, and whenever no
    write is pending the depths recorded as written are the targets. *)
Theorem X13_writer_defined_and_nothing_lost cfg ap_hi rt_lo rt_hi freq
  t_write t_vel hid clk inputs :
  depths_within cfg ap_hi rt_lo rt_hi ->
  (F2Q ap_hi <= 16777216)%Q -> (F2Q rt_hi <= 16777216)%Q ->
  Forall input_sound inputs ->
  exists os ctx' hid' clk',
    writer_run cfg freq (AimContext_init cfg t_write t_vel) hid clk inputs
    = Some (os, ctx', hid', clk') /\
    List.length os = List.length inputs /\
    targets_within ap_hi rt_lo rt_hi ctx' /\ written_when_idle ctx'.
Proof.
  intros Hc Ua Ur Hin.
  destruct (init_inv cfg ap_hi rt_lo rt_hi t_write t_vel Hc) as (T & W).
  exact (writer_run_inv cfg ap_hi rt_lo rt_hi freq inputs Hc Ua Ur Hin
           _ hid clk T W).
Qed.

Lemma X13_witness :
  exists os ctx' hid' clk',
    writer_run g_cfg (f64_of_Z 1000000) (AimContext_init g_cfg 0 0)
      (Some sample_device) (Clock_of_list [10000; 60000; 120000])
      [sample_tick; sample_tick; sample_tick]
    = Some (os, ctx', hid', clk') /\
    List.length os = List.length [sample_tick; sample_tick; sample_tick] /\
    targets_within (lit32 15 10) (lit32 1 10) (f32_of_Z 1) ctx' /\
    written_when_idle ctx'.
Proof.
  apply (X13_writer_defined_and_nothing_lost g_cfg (lit32 15 10)
           (lit32 1 10) (f32_of_Z 1)).
  - exact g_cfg_depths.
  - vm_compute. discriminate.
  - vm_compute. discriminate.
  - repeat constructor; exact sample_sound.
Defined.

(* ================================================================== *)
(** * The adaptive policy: when it relaxes, and which keys it tunes     *)
(* ================================================================== *)

(** No value is below itself under the C comparison. *)
Lemma flt_irrefl x : (x <? x)%f32 = false.
Proof.
  unfold flt, SFltb.
  destruct x as [sx | sx | | sx mx ex]; try destruct sx; cbn;
    try reflexivity;
    change (PosDef.Pos.compare_cont Eq) with Pos.compare;
    rewrite Z.compare_refl, Pos.compare_refl; reflexivity.
Qed.

Lemma compute_targets_noncombat cfg ctx :
  gsi_active ctx = true -> weapon_cat ctx = WCAT_OTHER ->
  compute_targets cfg ctx
  = (repeat (ap_normal cfg) 4, repeat (rt_normal cfg) 4).
Proof.
  intros Hg Hw. unfold compute_targets. rewrite Hg, Hw. cbn [andb].
  rewrite orb_true_r. reflexivity.
Qed.

Lemma axis_targets_idle cfg ax vel_ap base_rt kneg kpos apv rtv :
  state ax = S_IDLE -> truthy (jiggle_enabled cfg) && is_jiggle ax = false ->
  axis_targets cfg ax vel_ap base_rt kneg kpos apv rtv = (apv, rtv).
Proof. intros Hs Hj. unfold axis_targets. rewrite Hs, Hj. reflexivity. Qed.

Lemma compute_targets_idle cfg ctx :
  state (h ctx) = S_IDLE ->
  truthy (jiggle_enabled cfg) && is_jiggle (h ctx) = false ->
  truthy (ws_adaptive cfg) = false \/
  (state (v ctx) = S_IDLE /\
   truthy (jiggle_enabled cfg) && is_jiggle (v ctx) = false) ->
  crouching ctx = false ->
  compute_targets cfg ctx
  = (repeat (ap_normal cfg) 4, repeat (rt_normal cfg) 4).
Proof.
  intros Hs Hj Hv Hc. unfold compute_targets. cbv zeta.
  destruct (_ || _); [reflexivity |].
  destruct (get_base_aggro cfg (gsi_active ctx) (weapon_cat ctx))
    as [base_ap base_rt].
  rewrite (axis_targets_idle cfg (h ctx) _ _ _ _ _ _ Hs Hj), Hc.
  destruct Hv as [-> | [Hsv Hjv]]; [reflexivity |].
  rewrite (axis_targets_idle cfg (v ctx) _ _ _ _ _ _ Hsv Hjv).
  destruct (truthy (ws_adaptive cfg)); reflexivity.
Qed.

(** X14. When the policy relaxes. With the game-state record connected
    and the weapon category OTHER (a grenade, the bomb, an unknown
    weapon), or with the horizontal axis idle outside jiggle mode, the
    vertical axis likewise or not adaptive, and no crouch, the depths
    [update_targets] computes are the normal ones for all four keys,
    whatever the velocities and the rest of the state. *)
Theorem X14_policy_relaxes cfg ctx :
  (gsi_active ctx = true /\ weapon_cat ctx = WCAT_OTHER) \/
  (state (h ctx) = S_IDLE /\
   truthy (jiggle_enabled cfg) && is_jiggle (h ctx) = false /\
   (truthy (ws_adaptive cfg) = false \/
    (state (v ctx) = S_IDLE /\
     truthy (jiggle_enabled cfg) && is_jiggle (v ctx) = false)) /\
   crouching ctx = false) ->
  compute_targets cfg ctx
  = (repeat (ap_normal cfg) 4, repeat (rt_normal cfg) 4).
Proof.
  intros [[Hg Hw] | (Hs & Hj & Hv & Hc)].
  - exact (compute_targets_noncombat cfg ctx Hg Hw).
  - exact (compute_targets_idle cfg ctx Hs Hj Hv Hc).
Qed.

Lemma X14_witness :
  compute_targets g_cfg (AimContext_init g_cfg 0 0)
  = (repeat (ap_normal g_cfg) 4, repeat (rt_normal g_cfg) 4).
Proof.
  apply (X14_policy_relaxes g_cfg (AimContext_init g_cfg 0 0)).
  right. repeat split; try reflexivity. left. reflexivity.
Defined.

(** The horizontal [switch] writes the entries of A and D only. *)
Lemma axis_targets_horizontal cfg ax vel_ap base_rt an rn :
  let r := axis_targets cfg ax vel_ap base_rt K_A K_D
             (repeat an 4) (repeat rn 4) in
  exists aa ad ra rd, r = ([an; aa; an; ad], [rn; ra; rn; rd]).
Proof.
  cbv zeta. unfold axis_targets.
  destruct (state ax);
    repeat match goal with
           | |- context [if ?c then _ else _] => destruct c
           end;
    cbn [repeat upd K_A K_D]; do 4 eexists; reflexivity.
Qed.

(** X15. Without [ws_adaptive], the policy never moves the actuation
    point of W or S: whatever the axes, velocities, weapon and crouch,
    both stay at the normal one. Their rapid-trigger depth stays normal
    too unless crouching, when it is the normal depth scaled by the
    crouch factor and raised to the base depth in force. *)
Theorem X15_vertical_keys_untouched cfg ctx :
  truthy (ws_adaptive cfg) = false ->
  let apv := fst (compute_targets cfg ctx) in
  let rtv := snd (compute_targets cfg ctx) in
  nth K_W apv S754_nan = ap_normal cfg /\
  nth K_S apv S754_nan = ap_normal cfg /\
  (crouching ctx = false ->
   nth K_W rtv S754_nan = rt_normal cfg /\
   nth K_S rtv S754_nan = rt_normal cfg) /\
  (crouching ctx = true ->
   nth K_W rtv S754_nan = rt_normal cfg \/
   exists base_rt,
     (base_rt = rt_aggro cfg \/ exists c, base_rt = rt (weapon cfg c)) /\
     nth K_W rtv S754_nan = nth K_S rtv S754_nan /\
     nth K_W rtv S754_nan
     = if (rt_normal cfg * crouch_rt_factor cfg <? base_rt)%f32
       then base_rt else (rt_normal cfg * crouch_rt_factor cfg)%f32).
Proof.
  intro Hws. cbv zeta. unfold compute_targets. cbv zeta. rewrite Hws.
  destruct (_ || _).
  { cbn. repeat split; auto. }
  assert (snd (get_base_aggro cfg (gsi_active ctx) (weapon_cat ctx))
          = rt_aggro cfg \/
          exists c, snd (get_base_aggro cfg (gsi_active ctx) (weapon_cat ctx))
                    = rt (weapon cfg c)) as Hb.
  { unfold get_base_aggro. destruct (gsi_active ctx); cbn [snd]; eauto. }
  destruct (get_base_aggro cfg (gsi_active ctx) (weapon_cat ctx))
    as [base_ap base_rt]. cbn [snd] in Hb.
  match goal with
  | |- context [axis_targets cfg (h ctx) ?va _ _ _ _ _] =>
      destruct (axis_targets_horizontal cfg (h ctx) va base_rt
                  (ap_normal cfg) (rt_normal cfg))
        as (aa & ad & ra & rd & ->)
  end.
  destruct (crouching ctx).
  - cbn [combine map split fst snd nth K_W K_S].
    unfold crouch_key. cbv zeta. cbn [fst snd nth].
    rewrite flt_irrefl.
    repeat split; try reflexivity; try discriminate.
    intros _. right. exists base_rt. repeat split; auto.
  - cbn. repeat split; try reflexivity; discriminate.
Qed.

Lemma X15_witness :
  nth K_W (fst (compute_targets g_cfg
                  (sampled (AimContext_init g_cfg 0 0) sample_tick)))
    S754_nan = ap_normal g_cfg.
Proof.
  refine (proj1 (X15_vertical_keys_untouched g_cfg
                   (sampled (AimContext_init g_cfg 0 0) sample_tick) _)).
  reflexivity.
Defined.

(* ================================================================== *)
(** * Weapon speeds, and the estimator under changing caps              *)
(* ================================================================== *)

(** The speeds of the table. *)
Lemma weapon_max_speed_values name :
  In (weapon_max_speed name)
    (map f32_of_Z [225; 250; 200; 215; 230; 220; 210; 240; 150; 195; 245]).
Proof.
  unfold weapon_max_speed. cbv zeta.
  repeat match goal with
         | |- context [if ?c then _ else _] =>
             destruct c; [cbn; tauto |]
         end.
  cbn. tauto.
Qed.

Lemma weapon_speed_range x :
  In x (map f32_of_Z [225; 250; 200; 215; 230; 220; 210; 240; 150; 195; 245]) ->
  fin32 x = true /\ (150 <= F2Q x)%Q /\ (F2Q x <= 250)%Q /\
  loop_max_spd x = x.
Proof.
  cbn [map In]. intros H.
  repeat (destruct H as [<- | H];
          [split; [vm_compute; reflexivity |];
           split; [vm_compute; discriminate |];
           split; [vm_compute; discriminate | vm_compute; reflexivity] |]).
  destruct H.
Qed.

(** X16. Every weapon name gets a speed of the table: a finite value
    between 150 and 250 units/s, which the main loop hands on unchanged
    as the cap of [vel_update]; before any weapon is known (a speed of
    0 in the zeroed game state) the loop uses 225. *)
Theorem X16_weapon_speed_caps name :
  fin32 (weapon_max_speed name) = true /\
  (150 <= F2Q (weapon_max_speed name))%Q /\
  (F2Q (weapon_max_speed name) <= 250)%Q /\
  loop_max_spd (weapon_max_speed name) = weapon_max_speed name /\
  loop_max_spd (f32_of_Z 0) = f32_of_Z 225.
Proof.
  destruct (weapon_speed_range _ (weapon_max_speed_values name))
    as (F & L & U & E).
  split; [exact F |]. split; [exact L |]. split; [exact U |].
  split; [exact E | reflexivity].
Qed.

(** One call of [vel_update] with a cap below a ceiling. *)
Lemma vel_update_under_ceiling ve p n mx now freq hi :
  fin64 freq = true -> is_zero freq = false ->
  (hi <= inject_Z (2 ^ 120))%Q ->
  fin32 mx = true -> (0 <= F2Q mx)%Q -> (F2Q mx <= hi)%Q ->
  fin32 (vel ve) = true -> (Qabs (F2Q (vel ve)) <= hi)%Q ->
  (vel ve = f32_of_Z 0 \/ (1 # 2 <= Qabs (F2Q (vel ve)))%Q) ->
  fin32 (vel (vel_update ve p n mx now freq)) = true /\
  (Qabs (F2Q (vel (vel_update ve p n mx now freq))) <= hi)%Q /\
  (vel (vel_update ve p n mx now freq) = f32_of_Z 0 \/
   (1 # 2 <= Qabs (F2Q (vel (vel_update ve p n mx now freq))))%Q).
Proof.
  intros Hf Zf Hh Hm M0 M1 Hv Bv Sv. rewrite vel_update_eq. cbv zeta.
  destruct ((double_of_ticks now (last_update ve) / freq <=? f64_of_Z 0)%f64
            || (double_of_ticks now (last_update ve) / freq >? lit64 1 10)%f64)
    eqn:E; cbn [vel].
  - auto.
  - destruct (elapsed_dt now (last_update ve) freq Hf Zf E) as (Hd & D0 & D1).
    destruct (vel_step_inv (vel ve) (p >? DEAD_ZONE)%f32 (n >? DEAD_ZONE)%f32
                mx _ Hv Hm Hd D0 D1 ltac:(lra) M0 ltac:(lra))
      as (F & B & S).
    split; [exact F |]. split; [lra | exact S].
Qed.

Lemma vel_run_under_ceiling freq hi l :
  fin64 freq = true -> is_zero freq = false ->
  (hi <= inject_Z (2 ^ 120))%Q ->
  Forall (fun i => fin32 (vi_max_speed i) = true /\
                   (0 <= F2Q (vi_max_speed i))%Q /\
                   (F2Q (vi_max_speed i) <= hi)%Q) l ->
  forall ve,
    fin32 (vel ve) = true -> (Qabs (F2Q (vel ve)) <= hi)%Q ->
    (vel ve = f32_of_Z 0 \/ (1 # 2 <= Qabs (F2Q (vel ve)))%Q) ->
    fin32 (vel (vel_run freq ve l)) = true /\
    (Qabs (F2Q (vel (vel_run freq ve l))) <= hi)%Q /\
    (vel (vel_run freq ve l) = f32_of_Z 0 \/
     (1 # 2 <= Qabs (F2Q (vel (vel_run freq ve l))))%Q).
Proof.
  intros Hf Zf Hh Hl.
  induction Hl as [| i l (Hm & M0 & M1) Hl IH]; intros ve Hv Bv Sv.
  - cbn. auto.
  - unfold vel_run. cbn [fold_left].
    destruct (vel_update_under_ceiling ve (vi_pos i) (vi_neg i)
                (vi_max_speed i) (vi_now i) freq hi
                Hf Zf Hh Hm M0 M1 Hv Bv Sv) as (F & B & S).
    exact (IH _ F B S).
Qed.

(** X17. The estimator as the main loop drives it. From the estimator
    [main] sets up, over any sequence of [vel_update] calls whose cap is
    each time the one the loop picks from the weapon speed in force (the
    speed of some weapon name, or 0 before any is known), so also across
    weapon switches and calls that return early, with any key depths and
    counter readings and a finite nonzero counter frequency: the
    velocity stays finite, within 250 units/s in magnitude, and exactly
    zero or of magnitude at least 0.5. *)
Theorem X17_velocity_within_weapon_speeds freq t0 l :
  fin64 freq = true -> is_zero freq = false ->
  Forall (fun i =>
            exists ws,
              vi_max_speed i = loop_max_spd ws /\
              (ws = f32_of_Z 0 \/ exists name, ws = weapon_max_speed name)) l ->
  fin32 (vel (vel_run freq (VelEstimator_init t0) l)) = true /\
  (Qabs (F2Q (vel (vel_run freq (VelEstimator_init t0) l))) <= 250)%Q /\
  (vel (vel_run freq (VelEstimator_init t0) l) = f32_of_Z 0 \/
   (1 # 2 <= Qabs (F2Q (vel (vel_run freq (VelEstimator_init t0) l))))%Q).
Proof.
  intros Hf Zf Hl.
  apply (vel_run_under_ceiling freq 250 l Hf Zf).
  - vm_compute. discriminate.
  - apply (Forall_impl _ (P := fun i =>
             exists ws,
               vi_max_speed i = loop_max_spd ws /\
               (ws = f32_of_Z 0 \/ exists name, ws = weapon_max_speed name)));
      [| exact Hl].
    intros i (ws & -> & [-> | (name & ->)]).
    + repeat split; vm_compute; first [reflexivity | discriminate].
    + destruct (weapon_speed_range _ (weapon_max_speed_values name))
        as (F & L & U & ->).
      repeat split; try assumption. lra.
  - reflexivity.
  - vm_compute. discriminate.
  - left. reflexivity.
Qed.

Lemma X17_witness :
  fin32
    (vel (vel_run (f64_of_Z 10000000) (VelEstimator_init 0)
            [ {| vi_pos := f32_of_Z 1; vi_neg := f32_of_Z 0;
                 vi_max_speed := loop_max_spd (weapon_max_speed "weapon_ak47");
                 vi_now := 10000 |};
              {| vi_pos := f32_of_Z 1; vi_neg := f32_of_Z 0;
                 vi_max_speed := loop_max_spd (f32_of_Z 0);
                 vi_now := 20000 |} ])) = true.
Proof.
  refine (proj1 (X17_velocity_within_weapon_speeds (f64_of_Z 10000000) 0 _
                   _ _ _)).
  - vm_compute. reflexivity.
  - vm_compute. reflexivity.
  - repeat constructor.
    + exists (weapon_max_speed "weapon_ak47"). split; [reflexivity |].
      right. exists "weapon_ak47"%string. reflexivity.
    + exists (f32_of_Z 0). split; [reflexivity | left; reflexivity].
Defined.

(* ================================================================== *)
(** * json_extract_str: what it finds and how much it copies           *)
(* ================================================================== *)

Lemma get_string_from k : forall text j,
  get j (string_from k text) = get (k + j) text.
Proof.
  induction k as [|k IH]; intros text j; [reflexivity|].
  destruct text as [|c text]; simpl.
  - destruct j; reflexivity.
  - apply IH.
Qed.

Lemma length_string_from k : forall text,
  String.length (string_from k text) = (String.length text - k)%nat.
Proof.
  induction k as [|k IH]; intros text; simpl.
  - lia.
  - destruct text as [|c text]; simpl; [reflexivity | apply IH].
Qed.

Lemma substring_string_from k : forall n text,
  substring 0 n (string_from k text) = substring k n text.
Proof.
  induction k as [|k IH]; intros n text; [reflexivity|].
  destruct text as [|c text]; simpl.
  - destruct n; reflexivity.
  - apply IH.
Qed.

Lemma quote_no_separator c : is_quote c = true -> is_separator c = false.
Proof.
  unfold is_quote. intros H. apply Ascii.eqb_eq in H. subst c. reflexivity.
Qed.

Lemma skip_separators_spec rest : forall room,
  (skip_separators rest room <= room)%nat /\
  (skip_separators rest room <= String.length rest)%nat /\
  (forall j, (j < skip_separators rest room)%nat ->
     exists c, get j rest = Some c /\ is_separator c = true) /\
  (skip_separators rest room = room \/
   skip_separators rest room = String.length rest \/
   exists c, get (skip_separators rest room) rest = Some c /\
             is_separator c = false).
Proof.
  induction rest as [|c rest IH]; intros room.
  - simpl. split; [lia|]. split; [lia|]. split; [intros j Hj; lia|].
    right; left; reflexivity.
  - destruct room as [|room]; simpl.
    + split; [lia|]. split; [lia|]. split; [intros j Hj; lia|].
      left; reflexivity.
    + destruct (is_separator c) eqn:Ec.
      * destruct (IH room) as (A & B & C & D).
        split; [lia|]. split; [lia|]. split.
        -- intros [|j] Hj; simpl.
           ++ exists c. split; [reflexivity | exact Ec].
           ++ apply C. lia.
        -- destruct D as [D | [D | D]].
           ++ left. lia.
           ++ right; left. lia.
           ++ right; right. exact D.
      * split; [lia|]. split; [lia|]. split; [intros j Hj; lia|].
        right; right. exists c. split; [reflexivity | exact Ec].
Qed.

Lemma skip_separators_unique rest : forall room n,
  (n < room)%nat ->
  (forall j, (j < n)%nat ->
     exists c, get j rest = Some c /\ is_separator c = true) ->
  (exists c, get n rest = Some c /\ is_separator c = false) ->
  skip_separators rest room = n.
Proof.
  induction rest as [|c rest IH]; intros room n Hn Hs (d & Hd & Ed).
  - destruct n; discriminate Hd.
  - destruct room as [|room]; [lia|]. simpl.
    destruct n as [|n].
    + simpl in Hd. injection Hd as ->. rewrite Ed. reflexivity.
    + destruct (Hs 0%nat ltac:(lia)) as (c0 & Hc0 & Ec0).
      simpl in Hc0. injection Hc0 as ->. rewrite Ec0. f_equal.
      apply IH; [lia | | exists d; split; [exact Hd | exact Ed]].
      intros j Hj. apply (Hs (S j)). lia.
Qed.

Lemma copy_value_spec room : forall rest space,
  (room <= String.length rest)%nat ->
  exists v, copy_value rest room space = Some v /\
    (String.length v <= space)%nat /\
    (String.length v <= room)%nat /\
    v = substring 0 (String.length v) rest /\
    (forall j c, get j v = Some c -> is_quote c = false) /\
    (String.length v = space \/ String.length v = room \/
     exists c, get (String.length v) rest = Some c /\ is_quote c = true).
Proof.
  induction room as [|room IH]; intros rest space Hr.
  - exists EmptyString. simpl.
    split; [reflexivity|]. split; [lia|]. split; [lia|].
    split; [destruct rest; reflexivity|].
    split; [intros j c H; destruct j; discriminate H|].
    right; left; reflexivity.
  - destruct rest as [|c rest]; [simpl in Hr; lia|].
    simpl in Hr. simpl.
    destruct (is_quote c) eqn:Ec.
    + exists EmptyString. simpl.
      split; [reflexivity|]. split; [lia|]. split; [lia|].
      split; [reflexivity|].
      split; [intros j d H; destruct j; discriminate H|].
      right; right. exists c. split; [reflexivity | exact Ec].
    + destruct space as [|space].
      * exists EmptyString. simpl.
        split; [reflexivity|]. split; [lia|]. split; [lia|].
        split; [reflexivity|].
        split; [intros j d H; destruct j; discriminate H|].
        left; reflexivity.
      * destruct (IH rest space ltac:(lia)) as (v & E & A & B & C & D & F).
        rewrite E. exists (String c v). simpl.
        split; [reflexivity|]. split; [lia|]. split; [lia|].
        split; [f_equal; exact C|]. split.
        -- intros [|j] d H; simpl in H.
           ++ injection H as <-. exact Ec.
           ++ apply (D j d H).
        -- destruct F as [F | [F | F]].
           ++ left. lia.
           ++ right; left. lia.
           ++ right; right. exact F.
Qed.

(** What [json_extract_str] returns when [end] lies within the string. *)
Lemma json_extract_str_spec text start end_ key buf_size :
  (end_ <= String.length text)%nat -> 1 <= buf_size ->
  exists ok v,
    json_extract_str text start end_ key buf_size = Some (ok, v) /\
    Z.of_nat (String.length v) <= buf_size - 1 /\
    (ok = false -> v = EmptyString) /\
    (forall p q,
       index start key text = Some p ->
       (p + String.length key <= q < end_)%nat ->
       (forall j, (p + String.length key <= j < q)%nat ->
          exists c, get j text = Some c /\ is_separator c = true) ->
       (exists c, get q text = Some c /\ is_quote c = true) ->
       ok = true) /\
    (ok = true ->
     exists p q,
       index start key text = Some p /\
       (p + String.length key <= q < end_)%nat /\
       (forall j, (p + String.length key <= j < q)%nat ->
          exists c, get j text = Some c /\ is_separator c = true) /\
       (exists c, get q text = Some c /\ is_quote c = true) /\
       v = substring (S q) (String.length v) text /\
       (S q + String.length v <= end_)%nat /\
       (forall j c, get j v = Some c -> is_quote c = false) /\
       (Z.of_nat (String.length v) = buf_size - 1 \/
        (S q + String.length v)%nat = end_ \/
        exists c, get (S q + String.length v) text = Some c /\
                  is_quote c = true)).
Proof.
  intros He Hb. unfold json_extract_str.
  destruct (index start key text) as [p|] eqn:Ei.
  2:{ exists false, EmptyString. split; [reflexivity|]. simpl.
      split; [lia|]. split; [reflexivity|].
      split; [intros p q H; discriminate H | intros H; discriminate H]. }
  destruct (Nat.ltb_spec p end_) as [Hp|Hp].
  2:{ exists false, EmptyString. split; [reflexivity|]. simpl.
      split; [lia|]. split; [reflexivity|].
      split; [|intros H; discriminate H].
      intros p' q H. injection H as <-. lia. }
  cbv zeta.
  set (k0 := (p + String.length key)%nat).
  set (n := skip_separators (string_from k0 text) (end_ - k0)).
  destruct (skip_separators_spec (string_from k0 text) (end_ - k0))
    as (A & B & C & D).
  fold n in A, B, C, D.
  assert (Cj : forall j, (k0 <= j < k0 + n)%nat ->
             exists c, get j text = Some c /\ is_separator c = true).
  { intros j Hj. destruct (C (j - k0)%nat ltac:(lia)) as (c & Hc & Ec).
    rewrite get_string_from in Hc.
    replace (k0 + (j - k0))%nat with j in Hc by lia.
    exists c. split; assumption. }
  assert (Uq : forall q, (k0 <= q < end_)%nat ->
             (forall j, (k0 <= j < q)%nat ->
                exists c, get j text = Some c /\ is_separator c = true) ->
             (exists c, get q text = Some c /\ is_quote c = true) ->
             (k0 + n)%nat = q).
  { intros q Hq Hs (c & Hc & Ec).
    assert (n = (q - k0)%nat); [|lia].
    apply skip_separators_unique; [lia | |].
    - intros j Hj. rewrite get_string_from. apply Hs. lia.
    - exists c. rewrite get_string_from.
      replace (k0 + (q - k0))%nat with q by lia.
      split; [exact Hc | apply quote_no_separator; exact Ec]. }
  destruct ((k0 + n <? end_)%nat
            && match get (k0 + n) text with
               | Some c => is_quote c
               | None => false
               end) eqn:Eq.
  - apply andb_prop in Eq. destruct Eq as [Hk Hq].
    apply Nat.ltb_lt in Hk.
    destruct (get (k0 + n) text) as [c|] eqn:Eg; [|discriminate Hq].
    destruct (copy_value_spec (end_ - S (k0 + n))
                (string_from (S (k0 + n)) text) (Z.to_nat (buf_size - 1)))
      as (v & E & V1 & V2 & V3 & V4 & V5).
    { rewrite length_string_from. lia. }
    rewrite E. exists true, v. split; [reflexivity|].
    split; [lia|]. split; [intros H; discriminate H|].
    split; [intros; reflexivity|]. intros _.
    exists p, (k0 + n)%nat.
    split; [reflexivity|]. split; [unfold k0 in *; lia|].
    split; [exact Cj|]. split; [exists c; split; assumption|].
    split; [rewrite <- substring_string_from; exact V3|].
    split; [lia|]. split; [exact V4|].
    destruct V5 as [F | [F | (d & Hd & Ed)]].
    + left. lia.
    + right; left. lia.
    + right; right. exists d. rewrite get_string_from in Hd.
      split; assumption.
  - exists false, EmptyString. split; [reflexivity|]. simpl.
    split; [lia|]. split; [reflexivity|].
    split; [|intros H; discriminate H].
    intros p' q H Hq Hs Hc. injection H as <-.
    pose proof (Uq q Hq Hs Hc) as U. exfalso.
    destruct Hc as (c & Hc & Ec). rewrite U, Hc, Ec in Eq.
    apply andb_false_iff in Eq. destruct Eq as [Eq | Eq]; [|discriminate Eq].
    apply Nat.ltb_ge in Eq. lia.
Qed.

(** X18 (main.c, json_extract_str): with [end] inside the string and a
    buffer of at least one byte, the function always returns, the value
    it leaves in the buffer is at most [buf_size - 1] characters long
    (so the terminator fits too), and it is empty when the result is
    false. The result is true exactly when the first occurrence of the
    key from [start] begins before [end] and is followed, after spaces,
    tabs and colons only, by a double quote before [end]. The value is
    then the text right after that quote, it holds no double quote, and
    it stops at the next double quote, at [end] or when the buffer is
    full, whichever comes first. *)
Theorem X18_json_extract_str_value text start end_ key buf_size :
  (end_ <= String.length text)%nat -> 1 <= buf_size ->
  exists ok v,
    json_extract_str text start end_ key buf_size = Some (ok, v) /\
    Z.of_nat (String.length v) <= buf_size - 1 /\
    (ok = false -> v = EmptyString) /\
    (forall p q,
       index start key text = Some p ->
       (p + String.length key <= q < end_)%nat ->
       (forall j, (p + String.length key <= j < q)%nat ->
          exists c, get j text = Some c /\ is_separator c = true) ->
       (exists c, get q text = Some c /\ is_quote c = true) ->
       ok = true) /\
    (ok = true ->
     exists p q,
       index start key text = Some p /\
       (p + String.length key <= q < end_)%nat /\
       (forall j, (p + String.length key <= j < q)%nat ->
          exists c, get j text = Some c /\ is_separator c = true) /\
       (exists c, get q text = Some c /\ is_quote c = true) /\
       v = substring (S q) (String.length v) text /\
       (S q + String.length v <= end_)%nat /\
       (forall j c, get j v = Some c -> is_quote c = false) /\
       (Z.of_nat (String.length v) = buf_size - 1 \/
        (S q + String.length v)%nat = end_ \/
        exists c, get (S q + String.length v) text = Some c /\
                  is_quote c = true)).
Proof. exact (json_extract_str_spec text start end_ key buf_size). Qed.

Lemma X18_witness :
  exists ok v,
    json_extract_str sample_json 0 (String.length sample_json) phase_key 16
    = Some (ok, v) /\
    Z.of_nat (String.length v) <= 16 - 1.
Proof.
  destruct (X18_json_extract_str_value sample_json 0
              (String.length sample_json) phase_key 16)
    as (ok & v & E & L & _).
  - apply Nat.le_refl.
  - lia.
  - exists ok, v. split; [exact E | exact L].
Defined.

(** With the closing quote missing, the copying loop goes on past the
    terminator when [end] and the buffer leave it room. *)
Lemma copy_value_past_terminator rest : forall room space,
  (forall j c, get j rest = Some c -> is_quote c = false) ->
  (String.length rest + 2 <= room)%nat ->
  (String.length rest + 1 <= space)%nat ->
  copy_value rest room space = None.
Proof.
  induction rest as [| c rest IH]; intros room space Hq Hr Hs.
  - destruct room as [| [| room]]; [simpl in Hr; lia | simpl in Hr; lia |].
    destruct space as [| space]; [simpl in Hs; lia |]. reflexivity.
  - destruct room as [| room]; [simpl in Hr; lia |].
    destruct space as [| space]; [simpl in Hs; lia |].
    simpl in Hr, Hs. cbn [copy_value].
    rewrite (Hq 0%nat c eq_refl).
    rewrite (IH room space); [reflexivity | | lia | lia].
    intros j d H. apply (Hq (S j) d). exact H.
Qed.

Lemma json_extract_str_past_terminator text start end_ key buf_size p q :
  index start key text = Some p ->
  (p + String.length key <= q < String.length text)%nat ->
  (forall j, (p + String.length key <= j < q)%nat ->
     exists c, get j text = Some c /\ is_separator c = true) ->
  (exists c, get q text = Some c /\ is_quote c = true) ->
  (forall j c, (q < j)%nat -> get j text = Some c -> is_quote c = false) ->
  (String.length text + 2 <= end_)%nat ->
  Z.of_nat (String.length text - q) <= buf_size - 1 ->
  json_extract_str text start end_ key buf_size = None.
Proof.
  intros Ei Hq Hs (c & Hc & Ec) Hn He Hb.
  unfold json_extract_str. rewrite Ei.
  destruct (Nat.ltb_spec p end_) as [Hp | Hp]; [| lia].
  cbv zeta.
  set (k0 := (p + String.length key)%nat) in *.
  assert (skip_separators (string_from k0 text) (end_ - k0) = (q - k0)%nat)
    as ->.
  { apply skip_separators_unique; [lia | |].
    - intros j Hj. rewrite get_string_from. apply Hs. lia.
    - exists c. rewrite get_string_from.
      replace (k0 + (q - k0))%nat with q by lia.
      split; [exact Hc | apply quote_no_separator; exact Ec]. }
  replace (k0 + (q - k0))%nat with q by lia.
  rewrite Hc, Ec.
  destruct (Nat.ltb_spec q end_) as [Hq' | Hq']; [| lia].
  cbn [andb].
  rewrite copy_value_past_terminator; [reflexivity | | |].
  - intros j d H. rewrite get_string_from in H.
    apply (Hn (S q + j)%nat d); [lia | exact H].
  - rewrite length_string_from. lia.
  - rewrite length_string_from. lia.
Qed.

(** X23 (main.c, json_extract_str): the bound on [end] matters. When
    the key is found and followed, after separators, by a double quote,
    but no further double quote closes the value before the terminator,
    [end] lies two bytes or more past the terminator and the buffer has
    room for the rest of the string and its terminator, the copying loop
    copies the terminator and then reads the byte after it: the model
    has no result for that read. *)
Theorem X23_json_extract_str_reads_past_terminator
  text start end_ key buf_size p q :
  index start key text = Some p ->
  (p + String.length key <= q < String.length text)%nat ->
  (forall j, (p + String.length key <= j < q)%nat ->
     exists c, get j text = Some c /\ is_separator c = true) ->
  (exists c, get q text = Some c /\ is_quote c = true) ->
  (forall j c, (q < j)%nat -> get j text = Some c -> is_quote c = false) ->
  (String.length text + 2 <= end_)%nat ->
  Z.of_nat (String.length text - q) <= buf_size - 1 ->
  json_extract_str text start end_ key buf_size = None.
Proof.
  exact (json_extract_str_past_terminator text start end_ key buf_size p q).
Qed.

Lemma X23_witness :
  json_extract_str cut_json 0 200 phase_key 16 = None.
Proof.
  apply (X23_json_extract_str_reads_past_terminator cut_json 0 200 phase_key
           16 1 10).
  - reflexivity.
  - cbn. lia.
  - intros j Hj. cbn in Hj.
    assert (j = 8 \/ j = 9)%nat as [-> | ->] by lia.
    + exists ":"%char. split; reflexivity.
    + exists " "%char. split; reflexivity.
  - exists "034"%char. split; reflexivity.
  - intros j c Hj H.
    assert (j = 11 \/ j = 12 \/ j = 13 \/ j = 14 \/ j = 15 \/ j = 16
            \/ 17 <= j)%nat
      as [-> | [-> | [-> | [-> | [-> | [-> | Hj']]]]]] by lia;
      try (cbn in H; injection H as <-; reflexivity).
    do 17 (destruct j as [| j]; [lia |]). cbn in H. discriminate H.
  - cbn. lia.
  - cbn. lia.
Defined.

(* ================================================================== *)
(** * Friction alone never speeds the estimate up                       *)
(* ================================================================== *)

(** The friction stage of [vel_step] scales the velocity by a factor
    between 0 and 1. *)
Lemma vel_friction_shrinks v dt :
  fin32 v = true -> fin32 dt = true ->
  (0 <= F2Q dt)%Q -> (F2Q dt <= 1)%Q ->
  (Qabs (F2Q v) <= inject_Z (2 ^ 120))%Q ->
  let speed := fabsf v in
  let v1 :=
    if (speed >? lit32 1 1000)%f32 then
      let control :=
        if (speed <? SV_STOPSPEED)%f32 then SV_STOPSPEED else speed in
      let drop := (control * SV_FRICTION * dt)%f32 in
      let new_speed := (speed - drop)%f32 in
      let new_speed :=
        if (new_speed <? f32_of_Z 0)%f32 then f32_of_Z 0 else new_speed in
      (v * (new_speed / speed))%f32
    else v in
  fin32 v1 = true /\
  ((0 <= F2Q v)%Q -> (0 <= F2Q v1)%Q /\ (F2Q v1 <= F2Q v)%Q) /\
  ((F2Q v <= 0)%Q -> (F2Q v <= F2Q v1)%Q /\ (F2Q v1 <= 0)%Q).
Proof.
  intros Hv Hdt D0 D1 Bv speed.
  assert (fin32 speed = true) as Hs by (unfold speed; rewrite fin32_fabsf; exact Hv).
  assert (F2Q speed == Qabs (F2Q v))%Q as Qs by apply F2Q_fabsf.
  cbv zeta. destruct (speed >? lit32 1 1000)%f32 eqn:E.
  2:{ split; [exact Hv|]. split; intros; split; lra. }
  apply fgt_Q in E; [| exact Hs | reflexivity].
  pose proof milli_pos as MP.
  destruct big_facts as (K & (P0 & N0 & QP0 & QN0) & (P1 & N1 & QP1 & QN1)
                        & (P3 & N3 & QP3 & QN3) & (P4 & N4 & QP4 & QN4)).
  revert K Bv QP0 QN0 QP1 QN1 QP3 QN3 QP4 QN4.
  generalize (inject_Z (2 ^ 120)). intros B K Bv QP0 QN0 QP1 QN1 QP3 QN3 QP4 QN4.
  apply Qabs_bounds in Bv. destruct Bv as [Bl Bu].
  assert (F2Q speed <= B)%Q as SB by (rewrite Qs; apply Qabs_bounds; split; lra).
  set (control := if (speed <? SV_STOPSPEED)%f32 then SV_STOPSPEED else speed).
  assert (fin32 control = true /\ (0 <= F2Q control)%Q /\ (F2Q control <= B)%Q)
    as (Hc & C0 & C1).
  { unfold control. destruct (speed <? SV_STOPSPEED)%f32.
    - split; [reflexivity |]. rewrite F2Q_f32_80. split; lra.
    - split; [exact Hs |]. split; lra. }
  destruct SV_FRICTION_bounds as [F0 F1].
  destruct (f32_mul_between control SV_FRICTION (f32_of_Z 0)
              (f32_of_Z (2 ^ (120 + 3)))) as (Hc1 & L1 & U1);
    try assumption; try reflexivity.
  { rewrite F2Q_f32_0. nra. }
  { rewrite QP3. nra. }
  rewrite F2Q_f32_0 in L1. rewrite QP3 in U1.
  set (c1 := (control * SV_FRICTION)%f32) in *.
  destruct (f32_mul_between c1 dt (f32_of_Z 0)
              (f32_of_Z (2 ^ (120 + 3)))) as (Hd & L2 & U2);
    try assumption; try reflexivity.
  { rewrite F2Q_f32_0. nra. }
  { rewrite QP3. nra. }
  rewrite F2Q_f32_0 in L2. rewrite QP3 in U2.
  set (drop := (c1 * dt)%f32) in *.
  destruct (f32_sub_between speed drop (f32_of_Z (- 2 ^ (120 + 3))) speed)
    as (Hn & L3 & U3); try assumption.
  { rewrite QN3. lra. }
  { lra. }
  rewrite QN3 in L3.
  set (ns0 := (speed - drop)%f32) in *.
  set (ns := if (ns0 <? f32_of_Z 0)%f32 then f32_of_Z 0 else ns0).
  assert (fin32 ns = true /\ (0 <= F2Q ns)%Q /\ (F2Q ns <= F2Q speed)%Q)
    as (Hns & N0' & N1').
  { unfold ns. destruct (ns0 <? f32_of_Z 0)%f32 eqn:E0.
    - split; [reflexivity |]. rewrite F2Q_f32_0. split; lra.
    - apply flt_nQ in E0; [| exact Hn | reflexivity].
      rewrite F2Q_f32_0 in E0. split; [exact Hn |]. split; lra. }
  assert (is_zero speed = false) as Zs by (apply F2Q_nonzero; lra).
  destruct (f32_div_between ns speed (f32_of_Z 0) (f32_of_Z 1))
    as (Hr & L4 & U4); try assumption; try reflexivity.
  { rewrite F2Q_f32_0. apply Qle_shift_div_l; lra. }
  { rewrite F2Q_f32_1. apply Qle_shift_div_r; lra. }
  rewrite F2Q_f32_0 in L4. rewrite F2Q_f32_1 in U4.
  set (ratio := (ns / speed)%f32) in *.
  destruct (Qlt_le_dec (F2Q v) 0) as [Neg | Pos].
  - destruct (f32_mul_between v ratio v (f32_of_Z 0)) as (H1 & L5 & U5);
      try assumption; try reflexivity.
    { nra. }
    { rewrite F2Q_f32_0. nra. }
    rewrite F2Q_f32_0 in U5.
    split; [exact H1|]. split; intros; split; lra.
  - destruct (f32_mul_between v ratio (f32_of_Z 0) v) as (H1 & L5 & U5);
      try assumption; try reflexivity.
    { rewrite F2Q_f32_0. nra. }
    { nra. }
    rewrite F2Q_f32_0 in L5.
    split; [exact H1|]. split; intros; split; lra.
Qed.

(** One step with no key or both keys held. *)
Lemma vel_step_coasts v k mx dt :
  fin32 v = true -> fin32 mx = true -> fin32 dt = true ->
  (0 <= F2Q dt)%Q -> (F2Q dt <= 1)%Q ->
  (Qabs (F2Q v) <= inject_Z (2 ^ 120))%Q ->
  (0 <= F2Q mx)%Q ->
  fin32 (vel_step v k k mx dt) = true /\
  ((0 <= F2Q v)%Q ->
   (0 <= F2Q (vel_step v k k mx dt))%Q /\
   (F2Q (vel_step v k k mx dt) <= F2Q v)%Q) /\
  ((F2Q v <= 0)%Q ->
   (F2Q v <= F2Q (vel_step v k k mx dt))%Q /\
   (F2Q (vel_step v k k mx dt) <= 0)%Q).
Proof.
  intros Hv Hm Hdt D0 D1 Bv M0.
  pose proof (vel_friction_shrinks v dt Hv Hdt D0 D1 Bv) as HF.
  cbv zeta in HF. destruct HF as (H1 & P1 & N1).
  unfold vel_step. cbv zeta.
  match type of H1 with fin32 ?e = true => set (v1 := e) in * end.
  replace (if k && negb k then f32_of_Z 1
           else if k && negb k then f32_of_Z (-1) else f32_of_Z 0)
    with (f32_of_Z 0) by (destruct k; reflexivity).
  replace (f32_of_Z 0 !=? f32_of_Z 0)%f32 with false by reflexivity.
  set (v3 := if (fabsf v1 >? mx)%f32
             then (if (v1 >? f32_of_Z 0)%f32 then mx else (- mx)%f32)
             else v1).
  assert (fin32 v3 = true /\
          ((0 <= F2Q v)%Q -> (0 <= F2Q v3)%Q /\ (F2Q v3 <= F2Q v)%Q) /\
          ((F2Q v <= 0)%Q -> (F2Q v <= F2Q v3)%Q /\ (F2Q v3 <= 0)%Q))
    as (H3 & P3 & N3).
  { unfold v3. destruct (fabsf v1 >? mx)%f32 eqn:E.
    2:{ split; [exact H1|]. split; assumption. }
    apply fgt_Q in E; [| rewrite fin32_fabsf; exact H1 | exact Hm].
    rewrite F2Q_fabsf in E.
    destruct (v1 >? f32_of_Z 0)%f32 eqn:E1.
    - apply fgt_Q in E1; [| exact H1 | reflexivity].
      rewrite F2Q_f32_0 in E1. rewrite Qabs_pos in E by lra.
      split; [exact Hm|]. split; intros Hs.
      + destruct (P1 Hs). split; lra.
      + destruct (N1 Hs). lra.
    - apply fgt_nQ in E1; [| exact H1 | reflexivity].
      rewrite F2Q_f32_0 in E1. rewrite Qabs_neg in E by lra.
      split; [rewrite fin32_neg; exact Hm|]. rewrite F2Q_neg.
      split; intros Hs.
      + destruct (P1 Hs). lra.
      + destruct (N1 Hs). split; lra. }
  destruct (fabsf v3 <? lit32 5 10)%f32.
  - split; [reflexivity|]. rewrite F2Q_f32_0. split; intros; split; lra.
  - split; [exact H3|]. split; assumption.
Qed.

(** A run of [vel_update] calls in which no call sees exactly one key. *)
Lemma vel_run_coasts freq l : forall ve,
  fin64 freq = true -> is_zero freq = false ->
  Forall (fun i => fin32 (vi_max_speed i) = true /\
                   (0 <= F2Q (vi_max_speed i))%Q /\
                   (vi_pos i >? DEAD_ZONE)%f32 = (vi_neg i >? DEAD_ZONE)%f32) l ->
  fin32 (vel ve) = true ->
  (Qabs (F2Q (vel ve)) <= inject_Z (2 ^ 120))%Q ->
  fin32 (vel (vel_run freq ve l)) = true /\
  ((0 <= F2Q (vel ve))%Q ->
   (0 <= F2Q (vel (vel_run freq ve l)))%Q /\
   (F2Q (vel (vel_run freq ve l)) <= F2Q (vel ve))%Q) /\
  ((F2Q (vel ve) <= 0)%Q ->
   (F2Q (vel ve) <= F2Q (vel (vel_run freq ve l)))%Q /\
   (F2Q (vel (vel_run freq ve l)) <= 0)%Q).
Proof.
  induction l as [| i l IH]; intros ve Hf Zf Hl Hv Bv.
  - cbn. split; [exact Hv|]. split; intros; split; lra.
  - inversion Hl as [| ? ? (Hm & M0 & Ek) Hl']; subst.
    unfold vel_run in *. cbn [fold_left].
    set (ve1 := vel_update ve (vi_pos i) (vi_neg i) (vi_max_speed i)
                  (vi_now i) freq).
    assert (fin32 (vel ve1) = true /\
            ((0 <= F2Q (vel ve))%Q ->
             (0 <= F2Q (vel ve1))%Q /\ (F2Q (vel ve1) <= F2Q (vel ve))%Q) /\
            ((F2Q (vel ve) <= 0)%Q ->
             (F2Q (vel ve) <= F2Q (vel ve1))%Q /\ (F2Q (vel ve1) <= 0)%Q))
      as (H1 & P1 & N1).
    { unfold ve1. rewrite vel_update_eq. cbv zeta.
      destruct ((double_of_ticks (vi_now i) (last_update ve) / freq
                 <=? f64_of_Z 0)%f64
                || (double_of_ticks (vi_now i) (last_update ve) / freq
                    >? lit64 1 10)%f64) eqn:E; cbn [vel].
      - split; [exact Hv|]. split; intros; split; lra.
      - destruct (elapsed_dt (vi_now i) (last_update ve) freq Hf Zf E)
          as (Hd & D0 & D1).
        rewrite Ek. apply vel_step_coasts; assumption. }
    assert (Qabs (F2Q (vel ve1)) <= inject_Z (2 ^ 120))%Q as B1.
    { apply Qabs_bounds in Bv. apply Qabs_bounds.
      destruct (Qlt_le_dec (F2Q (vel ve)) 0) as [Ng | Ps].
      - destruct (N1 ltac:(lra)). split; lra.
      - destruct (P1 Ps). split; lra. }
    destruct (IH ve1 Hf Zf Hl' H1 B1) as (H2 & P2 & N2).
    split; [exact H2|]. split; intros Hs.
    + destruct (P1 Hs). destruct (P2 ltac:(lra)). split; lra.
    + destruct (N1 Hs). destruct (N2 ltac:(lra)). split; lra.
Qed.

(** X20 (main.c, vel_update; test_math.c, vel_step): while no key or
    both keys of an axis are past the dead zone, the estimated velocity
    never grows and never changes sign: after any run of such calls it
    lies between zero and the velocity the run started from, whatever
    the time steps and the speed caps (finite and not negative) are.
    The start is any finite velocity of magnitude at most 2^120 and the
    counter frequency a finite nonzero double. *)
Theorem X20_velocity_coasts_down freq l ve :
  fin64 freq = true -> is_zero freq = false ->
  Forall (fun i => fin32 (vi_max_speed i) = true /\
                   (0 <= F2Q (vi_max_speed i))%Q /\
                   (vi_pos i >? DEAD_ZONE)%f32 = (vi_neg i >? DEAD_ZONE)%f32) l ->
  fin32 (vel ve) = true ->
  (Qabs (F2Q (vel ve)) <= inject_Z (2 ^ 120))%Q ->
  fin32 (vel (vel_run freq ve l)) = true /\
  ((0 <= F2Q (vel ve))%Q ->
   (0 <= F2Q (vel (vel_run freq ve l)))%Q /\
   (F2Q (vel (vel_run freq ve l)) <= F2Q (vel ve))%Q) /\
  ((F2Q (vel ve) <= 0)%Q ->
   (F2Q (vel ve) <= F2Q (vel (vel_run freq ve l)))%Q /\
   (F2Q (vel (vel_run freq ve l)) <= 0)%Q).
Proof. exact (vel_run_coasts freq l ve). Qed.

Lemma X20_witness :
  fin32
    (vel (vel_run (f64_of_Z 10000000)
            {| vel := f32_of_Z 200; max_speed := f32_of_Z 215;
               last_update := 0 |}
            [ {| vi_pos := f32_of_Z 0; vi_neg := f32_of_Z 0;
                 vi_max_speed := f32_of_Z 215; vi_now := 156250 |};
              {| vi_pos := f32_of_Z 1; vi_neg := f32_of_Z 1;
                 vi_max_speed := f32_of_Z 215; vi_now := 312500 |} ])) = true.
Proof.
  refine (proj1 (X20_velocity_coasts_down (f64_of_Z 10000000) _ _ _ _ _ _ _)).
  - vm_compute. reflexivity.
  - vm_compute. reflexivity.
  - repeat constructor; vm_compute; first [reflexivity | discriminate].
  - vm_compute. reflexivity.
  - vm_compute. discriminate.
Defined.

(* ================================================================== *)
(** * What the payload holds                                            *)
(* ================================================================== *)

Lemma skipn_nth_error {A : Type} (l : list A) : forall i x,
  nth_error l i = Some x -> skipn i l = x :: skipn (S i) l.
Proof.
  induction l as [| y l IH]; intros [| i] x H; try discriminate H.
  - cbn in H. injection H as ->. reflexivity.
  - cbn in H. cbn [skipn]. rewrite (IH i x H). reflexivity.
Qed.

(** The entry of one key: the tag of field 1 and the varint of its
    16-bit word, which decodes to the firmware value and the key index. *)
Lemma key_entry_decodes k fw :
  mm_to_firmware (mm k) = Some fw ->
  let en := 8 :: encode_varint (encode_key_entry fw (row k) (col k)) in
  Z.shiftr (varint_decode (tl en)) 8 = fw /\
  Z.land (varint_decode (tl en)) 255 = linear_key_index (row k) (col k).
Proof.
  intros Efw en. unfold en. cbn [tl].
  pose proof (mm_to_firmware_range _ _ Efw) as R.
  pose proof (linear_key_index_range (row k) (col k)) as Ri.
  pose proof (encode_key_entry_eq fw (row k) (col k) ltac:(lia)) as E.
  destruct (encode_varint_spec (encode_key_entry fw (row k) (col k)))
    as (D & _).
  { rewrite E. change (2 ^ 32) with 4294967296. lia. }
  rewrite D, E. split.
  - rewrite Z.shiftr_div_pow2 by lia. change (2 ^ 8) with 256.
    symmetry. apply (Z.div_unique _ 256 fw (linear_key_index (row k) (col k)));
      lia.
  - change 255 with (Z.ones 8). rewrite Z.land_ones by lia.
    change (2 ^ 8) with 256.
    symmetry. apply (Z.mod_unique _ 256 fw (linear_key_index (row k) (col k)));
      lia.
Qed.

Lemma build_inner_entries n : forall i keys inner,
  convertible keys -> (i + n <= List.length keys)%nat ->
  (List.length inner + 4 * n <= 512)%nat ->
  exists entries,
    build_inner n i keys inner = Some (Some (inner ++ List.concat entries)) /\
    Forall2 (fun k en =>
               exists fw, mm_to_firmware (mm k) = Some fw /\
                 en = 8 :: encode_varint (encode_key_entry fw (row k) (col k)))
            (firstn n (skipn i keys)) entries.
Proof.
  induction n as [| n IH]; intros i keys inner Hc Hi L.
  - exists []. cbn. rewrite app_nil_r. split; [reflexivity | constructor].
  - cbn [build_inner].
    destruct (nth_error keys i) as [k |] eqn:Ek.
    2:{ apply nth_error_None in Ek. lia. }
    pose proof (proj1 (Forall_forall _ _) Hc k (nth_error_In _ _ Ek))
      as (Hf & Hl & Hu).
    destruct (mm_to_firmware_defined (mm k) Hf Hl Hu) as (fw & Efw).
    rewrite Efw. cbv zeta.
    destruct (Z.gtb_spec (Z.of_nat (List.length inner) + 4) 512); [lia |].
    pose proof (entry_varint_length fw (row k) (col k)
                  (mm_to_firmware_range _ _ Efw)) as EL.
    destruct (IH (S i) keys
                (inner ++ 8 :: encode_varint (encode_key_entry fw (row k) (col k)))
                Hc ltac:(lia)) as (entries & E & F).
    { rewrite length_app. cbn [List.length]. lia. }
    exists ((8 :: encode_varint (encode_key_entry fw (row k) (col k)))
            :: entries).
    split.
    + rewrite E. cbn [List.concat]. rewrite <- app_assoc. reflexivity.
    + rewrite (skipn_nth_error keys i k Ek). cbn [firstn].
      constructor; [| exact F].
      exists fw. split; [exact Efw | reflexivity].
Qed.

Lemma build_partial_proto_entries keys :
  convertible keys -> (1 <= List.length keys <= 126)%nat ->
  exists entries,
    let inner_len := Z.of_nat (List.length (List.concat entries)) in
    let proto := 18 :: encode_varint inner_len ++ List.concat entries in
    build_partial_proto 512 keys (Z.of_nat (List.length keys))
    = Some (Z.of_nat (List.length proto), proto) /\
    varint_decode (encode_varint inner_len) = inner_len /\
    Forall2 (fun k en =>
               exists fw, mm_to_firmware (mm k) = Some fw /\
                 en = 8 :: encode_varint (encode_key_entry fw (row k) (col k)) /\
                 Z.shiftr (varint_decode (tl en)) 8 = fw /\
                 Z.land (varint_decode (tl en)) 255
                 = linear_key_index (row k) (col k))
            keys entries.
Proof.
  intros Hc Hn. unfold build_partial_proto. rewrite Nat2Z.id.
  destruct (build_inner_entries (List.length keys) 0 keys [] Hc ltac:(lia))
    as (entries & E & F).
  { cbn [List.length]. lia. }
  destruct (build_inner_ok (List.length keys) 0 keys [] Hc ltac:(lia))
    as (inner' & E' & B).
  { cbn [List.length]. lia. }
  rewrite E in E'. injection E' as <-.
  cbn [app List.length skipn] in *. rewrite firstn_all in F.
  rewrite E. cbv zeta.
  destruct (Z.gtb_spec (0 + 1 + 5 + Z.of_nat (List.length (List.concat entries))) 512);
    [lia |].
  exists entries. cbv zeta. split; [reflexivity |]. split.
  - apply encode_varint_spec. change (2 ^ 32) with 4294967296. lia.
  - revert F. apply Forall2_impl. intros k en (fw & Efw & ->).
    exists fw. split; [exact Efw |]. split; [reflexivity |].
    exact (key_entry_decodes k fw Efw).
Qed.

(** X19 (hid_writer.c, build_partial_proto): for 1 to 126 keys whose
    depths convert, the payload is the tag 0x12, the varint of the
    length of what follows (which decodes to that length), and then one
    entry for each key, in the order of the keys: the tag 0x08 and a
    varint that decodes to a word with the key's firmware value
    [mm_to_firmware] in its high byte and the key's index
    [linear_key_index] in its low byte. *)
Theorem X19_payload_one_entry_per_key keys :
  convertible keys -> (1 <= List.length keys <= 126)%nat ->
  exists entries,
    let inner_len := Z.of_nat (List.length (List.concat entries)) in
    let proto := 18 :: encode_varint inner_len ++ List.concat entries in
    build_partial_proto 512 keys (Z.of_nat (List.length keys))
    = Some (Z.of_nat (List.length proto), proto) /\
    varint_decode (encode_varint inner_len) = inner_len /\
    Forall2 (fun k en =>
               exists fw, mm_to_firmware (mm k) = Some fw /\
                 en = 8 :: encode_varint (encode_key_entry fw (row k) (col k)) /\
                 Z.shiftr (varint_decode (tl en)) 8 = fw /\
                 Z.land (varint_decode (tl en)) 255
                 = linear_key_index (row k) (col k))
            keys entries.
Proof. exact (build_partial_proto_entries keys). Qed.

Lemma X19_witness :
  exists entries,
    build_partial_proto 512
      (repeat {| row := KEY_D_ROW; col := KEY_D_COL; mm := lit32 4 10 |} 4) 4
    = Some (Z.of_nat (List.length
                        (18 :: encode_varint
                                 (Z.of_nat (List.length (List.concat entries)))
                            ++ List.concat entries)),
            18 :: encode_varint (Z.of_nat (List.length (List.concat entries)))
               ++ List.concat entries).
Proof.
  destruct (X19_payload_one_entry_per_key
              (repeat {| row := KEY_D_ROW; col := KEY_D_COL; mm := lit32 4 10 |} 4))
    as (entries & E & _).
  - apply convertible_repeat; vm_compute; first [reflexivity | discriminate].
  - cbn. lia.
  - exists entries. exact E.
Defined.

(* ================================================================== *)
(** * The axis state machine: what its counters count                   *)
(* ================================================================== *)










(* ================================================================== *)
(** * Friction alone stops the estimate                                 *)
(* ================================================================== *)

Lemma pow2_m24_small : (pow2 (-24) <= 1 # 16000000)%Q.
Proof. vm_compute. discriminate. Qed.

Lemma pow2_m150_small : (pow2 (-150) <= 1 # 1000000000000)%Q.
Proof. vm_compute. discriminate. Qed.

Lemma friction_consts :
  (F2Q (lit32 1 1000) < 1 # 2)%Q /\
  (519 # 100 <= F2Q SV_FRICTION)%Q /\
  (fin32 (f32_of_Z 415) = true /\ (F2Q (f32_of_Z 415) == 415)%Q) /\
  (fin32 (f32_of_Z 2000) = true /\ (F2Q (f32_of_Z 2000) == 2000)%Q) /\
  (fin32 (f32_of_Z (-2000)) = true /\ (F2Q (f32_of_Z (-2000)) == -2000)%Q) /\
  (fin32 (lit32 103 16) = true /\ (F2Q (lit32 103 16) == 103 # 16)%Q).
Proof.
  split; [vm_compute; reflexivity |].
  split; [vm_compute; discriminate |].
  repeat split; vm_compute; reflexivity.
Qed.

Lemma Qmul_mono_l z x y : (0 <= z)%Q -> (x <= y)%Q -> (z * x <= z * y)%Q.
Proof.
  intros Hz H. rewrite (Qmult_comm z x), (Qmult_comm z y).
  apply Qmult_le_compat_r; assumption.
Qed.

(** A product with a factor that is not negative, rounded: its
    magnitude. *)
Lemma mul_abs_bound v r :
  fin32 v = true -> fin32 r = true -> (0 <= F2Q r)%Q ->
  fin32 (v * r)%f32 = true ->
  (Qabs (F2Q (v * r)%f32)
   <= Qabs (F2Q v) * F2Q r + Qabs (F2Q v) * F2Q r * pow2 (-24)
      + pow2 (-150))%Q.
Proof.
  intros Hv Hr R0 Hm.
  pose proof (f32_mul_Rnd v r Hv Hr) as R.
  pose proof (pow2_pos (-24)) as P1. pose proof (pow2_pos (-150)) as P2.
  pose proof (fin32_finite _ Hm) as F.
  destruct (Qlt_le_dec 0 (F2Q v * F2Q r)) as [Pos | NPos].
  - assert (0 < F2Q v)%Q as V0 by nra.
    pose proof (Rnd_up_bound _ _ R Pos F) as U.
    destruct (Rnd_nonneg _ _ R ltac:(lra)) as [Vl Le].
    destruct (nonneg_shape _ Vl Le) as [I | [_ N]].
    { rewrite I in Hm. discriminate Hm. }
    rewrite Qabs_pos by exact N. rewrite (Qabs_pos (F2Q v)) by lra. exact U.
  - destruct (Qlt_le_dec (F2Q v * F2Q r) 0) as [Neg | Z].
    + assert (F2Q v < 0)%Q as V0 by nra.
      pose proof (Rnd_opp 24 128 prec32_pos _ _ R) as R'.
      assert (is_finite (SFopp (v * r)%f32) = true) as F'
        by (rewrite is_finite_opp; exact F).
      pose proof (Rnd_up_bound _ _ R' ltac:(lra) F') as U.
      destruct (Rnd_nonneg _ _ R' ltac:(lra)) as [Vl Le].
      destruct (nonneg_shape _ Vl Le) as [I | [_ N]].
      { rewrite I in F'. discriminate F'. }
      rewrite F2Q_opp in U. rewrite F2Q_opp in N.
      rewrite Qabs_neg by lra. rewrite (Qabs_neg (F2Q v)) by lra.
      nra.
    + assert (F2Q v * F2Q r == 0)%Q as Z0 by lra.
      destruct (f32_mul_between v r (f32_of_Z 0) (f32_of_Z 0))
        as (_ & L & U); try assumption; try reflexivity;
        try (rewrite F2Q_f32_0; lra).
      rewrite F2Q_f32_0 in L. rewrite F2Q_f32_0 in U.
      assert (F2Q (v * r)%f32 == 0)%Q as E by lra.
      rewrite E. change (Qabs 0) with 0%Q.
      pose proof (Qabs_nonneg (F2Q v)) as A.
      assert (0 <= Qabs (F2Q v) * F2Q r)%Q as A1 by nra.
      assert (0 <= Qabs (F2Q v) * F2Q r * pow2 (-24))%Q as A2 by nra.
      lra.
Qed.

(** The friction stage at a speed of 0.5 to 250 and a time step of
    1/64 s or more takes at least 6.4 off the speed, or all of it. *)
Lemma vel_friction_drops v dt :
  fin32 v = true -> fin32 dt = true ->
  (1 # 64 <= F2Q dt)%Q -> (F2Q dt <= 1)%Q ->
  (1 # 2 <= Qabs (F2Q v))%Q -> (Qabs (F2Q v) <= 250)%Q ->
  let speed := fabsf v in
  let v1 :=
    if (speed >? lit32 1 1000)%f32 then
      let control :=
        if (speed <? SV_STOPSPEED)%f32 then SV_STOPSPEED else speed in
      let drop := (control * SV_FRICTION * dt)%f32 in
      let new_speed := (speed - drop)%f32 in
      let new_speed :=
        if (new_speed <? f32_of_Z 0)%f32 then f32_of_Z 0 else new_speed in
      (v * (new_speed / speed))%f32
    else v in
  (F2Q v1 == 0)%Q \/ (Qabs (F2Q v1) <= Qabs (F2Q v) - (64 # 10))%Q.
Proof.
  intros Hv Hdt D0 D1 Bl Bu speed.
  destruct friction_consts
    as (Km & Kf & (H415 & Q415) & (H2000 & Q2000) & (Hm2000 & Qm2000)
        & (Hd0 & Qd0)).
  pose proof pow2_m24_small as E24. pose proof pow2_m150_small as E150.
  pose proof (pow2_pos (-24)) as P24. pose proof (pow2_pos (-150)) as P150.
  assert (fin32 speed = true) as Hs by (unfold speed; rewrite fin32_fabsf; exact Hv).
  assert (F2Q speed == Qabs (F2Q v))%Q as Qs by apply F2Q_fabsf.
  cbv zeta. destruct (speed >? lit32 1 1000)%f32 eqn:E.
  2:{ apply fgt_nQ in E; [| exact Hs | reflexivity]. lra. }
  clear E.
  set (control := if (speed <? SV_STOPSPEED)%f32 then SV_STOPSPEED else speed).
  assert (fin32 control = true /\ (80 <= F2Q control)%Q /\ (F2Q control <= 250)%Q)
    as (Hc & C0 & C1).
  { unfold control. destruct (speed <? SV_STOPSPEED)%f32 eqn:E0.
    - split; [reflexivity |]. rewrite F2Q_f32_80. split; lra.
    - apply flt_nQ in E0; [| exact Hs | reflexivity].
      rewrite F2Q_f32_80 in E0. split; [exact Hs |]. split; lra. }
  destruct SV_FRICTION_bounds as [F0 F1].
  destruct (f32_mul_between control SV_FRICTION (f32_of_Z 415) (f32_of_Z 2000))
    as (Hc1 & L1 & U1); try assumption; try reflexivity.
  { rewrite Q415. nra. }
  { rewrite Q2000. nra. }
  rewrite Q415 in L1. rewrite Q2000 in U1.
  set (c1 := (control * SV_FRICTION)%f32) in *.
  destruct (f32_mul_between c1 dt (lit32 103 16) (f32_of_Z 2000))
    as (Hd & L2 & U2); try assumption.
  { rewrite Qd0. nra. }
  { rewrite Q2000. nra. }
  rewrite Qd0 in L2. rewrite Q2000 in U2.
  set (drop := (c1 * dt)%f32) in *.
  pose proof (f32_sub_Rnd speed drop Hs Hd) as Rn.
  destruct (f32_Rnd_between (f32_of_Z (-2000)) speed _ _ Rn Hm2000 Hs)
    as (Hn & L3 & U3).
  { rewrite Qm2000. lra. }
  { lra. }
  set (ns0 := (speed - drop)%f32) in *.
  set (ns := if (ns0 <? f32_of_Z 0)%f32 then f32_of_Z 0 else ns0).
  set (x0 := (F2Q speed - F2Q drop)%Q) in *.
  assert (is_zero speed = false) as Zs by (apply F2Q_nonzero; lra).
  assert (fin32 ns = true /\ (0 <= F2Q ns)%Q /\ (F2Q ns <= F2Q speed)%Q /\
          ((x0 <= 0)%Q -> (F2Q ns == 0)%Q) /\
          ((0 < x0)%Q -> (F2Q ns <= x0 + x0 * pow2 (-24) + pow2 (-150))%Q))
    as (Hns & N0 & N1 & Nz & Nb).
  { unfold ns. destruct (ns0 <? f32_of_Z 0)%f32 eqn:E0.
    - split; [reflexivity |]. rewrite F2Q_f32_0.
      split; [lra |]. split; [lra |]. split; [intros; reflexivity |].
      intros Px. nra.
    - apply flt_nQ in E0; [| exact Hn | reflexivity].
      rewrite F2Q_f32_0 in E0. split; [exact Hn |].
      split; [exact E0 |]. split; [exact U3 |]. split.
      + intros Nx.
        destruct (f32_Rnd_between (f32_of_Z (-2000)) (f32_of_Z 0) _ _ Rn
                    Hm2000 ltac:(reflexivity)) as (_ & _ & U).
        { rewrite Qm2000. unfold x0. lra. }
        { rewrite F2Q_f32_0. exact Nx. }
        rewrite F2Q_f32_0 in U. fold ns0 in U. lra.
      + intros Px.
        exact (Rnd_up_bound _ _ Rn Px (fin32_finite _ Hn)). }
  pose proof (f32_div_Rnd ns speed Hns Hs Zs) as Rr.
  destruct (f32_Rnd_between (f32_of_Z 0) (f32_of_Z 1) _ _ Rr
              ltac:(reflexivity) ltac:(reflexivity)) as (Hr & L4 & U4).
  { rewrite F2Q_f32_0. apply Qle_shift_div_l; lra. }
  { rewrite F2Q_f32_1. apply Qle_shift_div_r; lra. }
  rewrite F2Q_f32_0 in L4. rewrite F2Q_f32_1 in U4.
  set (ratio := (ns / speed)%f32) in *.
  set (y := (F2Q ns / F2Q speed)%Q) in *.
  assert (F2Q speed * y == F2Q ns)%Q as Ey by (unfold y; field; lra).
  destruct (f32_mul_between v ratio (f32_of_Z (-250)) (f32_of_Z 250))
    as (H1 & _ & _); try assumption; try reflexivity.
  { assert (F2Q (f32_of_Z (-250)) == -250)%Q as -> by (vm_compute; reflexivity).
    apply Qabs_bounds in Bu. nra. }
  { assert (F2Q (f32_of_Z 250) == 250)%Q as -> by (vm_compute; reflexivity).
    apply Qabs_bounds in Bu. nra. }
  pose proof (mul_abs_bound v ratio Hv Hr L4 H1) as M.
  rewrite <- Qs in M. rewrite <- Qs.
  destruct (Qlt_le_dec 0 x0) as [Px | Nx].
  - right. specialize (Nb Px).
    assert (x0 <= F2Q speed - (103 # 16))%Q as X1 by (unfold x0; lra).
    assert (x0 * pow2 (-24) <= 250 * pow2 (-24))%Q as X2
      by (apply Qmult_le_compat_r; lra).
    assert (F2Q ns <= x0 + 250 * pow2 (-24) + pow2 (-150))%Q as A1 by lra.
    assert (F2Q ratio <= y + y * pow2 (-24) + pow2 (-150))%Q as A2.
    { destruct (Qlt_le_dec 0 y) as [Py | Ny].
      - exact (Rnd_up_bound _ _ Rr Py (fin32_finite _ Hr)).
      - destruct (f32_Rnd_between (f32_of_Z 0) (f32_of_Z 0) _ _ Rr
                    ltac:(reflexivity) ltac:(reflexivity)) as (_ & _ & U).
        { rewrite F2Q_f32_0. apply Qle_shift_div_l; lra. }
        { rewrite F2Q_f32_0. exact Ny. }
        rewrite F2Q_f32_0 in U. fold ratio in U.
        assert (y == 0)%Q as Y0.
        { assert (0 <= y)%Q by (apply Qle_shift_div_l; lra). lra. }
        rewrite Y0. lra. }
    assert (F2Q speed * F2Q ratio
            <= F2Q speed * (y + y * pow2 (-24) + pow2 (-150)))%Q as T1
      by (apply Qmul_mono_l; lra).
    assert (F2Q speed * (y + y * pow2 (-24) + pow2 (-150))
            == F2Q ns + F2Q ns * pow2 (-24) + F2Q speed * pow2 (-150))%Q as T2
      by (rewrite <- Ey; ring).
    assert (F2Q ns * pow2 (-24) <= 251 * pow2 (-24))%Q as T3
      by (apply Qmult_le_compat_r; lra).
    assert (F2Q speed * pow2 (-150) <= 250 * pow2 (-150))%Q as T4
      by (apply Qmult_le_compat_r; lra).
    assert (0 <= F2Q speed * F2Q ratio)%Q as T5
      by (apply Qmult_le_0_compat; lra).
    revert M T1 T5. generalize (F2Q speed * F2Q ratio)%Q. intros t M T1 T5.
    assert (t * pow2 (-24) <= 252 * pow2 (-24))%Q as T6
      by (apply Qmult_le_compat_r; lra).
    lra.
  - left. specialize (Nz Nx).
    assert (y == 0)%Q as Y0 by (unfold y; rewrite Nz; field; lra).
    destruct (f32_Rnd_between (f32_of_Z 0) (f32_of_Z 0) _ _ Rr
                ltac:(reflexivity) ltac:(reflexivity)) as (_ & L & U).
    { rewrite F2Q_f32_0. lra. }
    { rewrite F2Q_f32_0. lra. }
    rewrite F2Q_f32_0 in L. rewrite F2Q_f32_0 in U. fold ratio in L, U.
    assert (F2Q ratio == 0)%Q as R0 by lra.
    rewrite R0 in M.
    pose proof (Qabs_nonneg (F2Q (v * ratio)%f32)) as A.
    assert (Qabs (F2Q (v * ratio)%f32) <= pow2 (-150))%Q as Sml by nra.
    destruct (f32_mul_between v ratio (f32_of_Z 0) (f32_of_Z 0))
      as (_ & L' & U'); try assumption; try reflexivity.
    { rewrite F2Q_f32_0, R0. lra. }
    { rewrite F2Q_f32_0, R0. lra. }
    rewrite F2Q_f32_0 in L'. rewrite F2Q_f32_0 in U'. lra.
Qed.

(** The clamp and the snap that end [vel_step] never raise the speed. *)
Lemma clamp_snap_shrinks v mx :
  fin32 v = true -> fin32 mx = true -> (0 <= F2Q mx)%Q ->
  let v3 :=
    if (fabsf v >? mx)%f32
    then (if (v >? f32_of_Z 0)%f32 then mx else (- mx)%f32)
    else v in
  let r := if (fabsf v3 <? lit32 5 10)%f32 then f32_of_Z 0 else v3 in
  (Qabs (F2Q r) <= Qabs (F2Q v))%Q.
Proof.
  intros Hv Hm M0 v3 r.
  assert (Qabs (F2Q v3) <= Qabs (F2Q v))%Q as B3.
  { unfold v3. destruct (fabsf v >? mx)%f32 eqn:E; [| lra].
    apply fgt_Q in E; [| rewrite fin32_fabsf; exact Hv | exact Hm].
    rewrite F2Q_fabsf in E.
    destruct (v >? f32_of_Z 0)%f32.
    - rewrite Qabs_pos by exact M0. lra.
    - rewrite F2Q_neg, Qabs_opp, Qabs_pos by exact M0. lra. }
  unfold r. destruct (fabsf v3 <? lit32 5 10)%f32; [| exact B3].
  rewrite F2Q_f32_0. change (Qabs 0) with 0%Q. apply Qabs_nonneg.
Qed.

(** At rest with no key or both keys held, the estimate stays at rest. *)
Lemma vel_step_rest k mx dt :
  fin32 mx = true -> (0 <= F2Q mx)%Q ->
  vel_step (f32_of_Z 0) k k mx dt = f32_of_Z 0.
Proof.
  intros Hm M0. unfold vel_step. cbv zeta.
  replace (fabsf (f32_of_Z 0) >? lit32 1 1000)%f32 with false
    by (vm_compute; reflexivity).
  replace (if k && negb k then f32_of_Z 1
           else if k && negb k then f32_of_Z (-1) else f32_of_Z 0)
    with (f32_of_Z 0) by (destruct k; reflexivity).
  replace (f32_of_Z 0 !=? f32_of_Z 0)%f32 with false by reflexivity.
  destruct (fabsf (f32_of_Z 0) >? mx)%f32 eqn:E.
  - apply fgt_Q in E; [| reflexivity | exact Hm].
    rewrite F2Q_fabsf, F2Q_f32_0 in E. change (Qabs 0) with 0%Q in E. lra.
  - replace (fabsf (f32_of_Z 0) <? lit32 5 10)%f32 with true
      by (vm_compute; reflexivity).
    reflexivity.
Qed.

Lemma Q250_big : (250 <= inject_Z (2 ^ 120))%Q.
Proof. vm_compute. discriminate. Qed.

(** One step with no key or both keys held and a time step of 1/64 s
    or more: at rest, or slower by 6.4 at least. *)
Lemma vel_step_slows v k mx dt :
  fin32 v = true -> fin32 mx = true -> fin32 dt = true ->
  (1 # 64 <= F2Q dt)%Q -> (F2Q dt <= 1)%Q ->
  (Qabs (F2Q v) <= 250)%Q -> (0 <= F2Q mx)%Q ->
  fin32 (vel_step v k k mx dt) = true /\
  (Qabs (F2Q (vel_step v k k mx dt)) <= 250)%Q /\
  (vel_step v k k mx dt = f32_of_Z 0 \/
   (Qabs (F2Q (vel_step v k k mx dt)) <= Qabs (F2Q v) - (64 # 10))%Q).
Proof.
  intros Hv Hm Hdt D0 D1 Bu M0.
  pose proof Q250_big as Big.
  pose proof (vel_friction_shrinks v dt Hv Hdt ltac:(lra) D1 ltac:(lra)) as HF.
  cbv zeta in HF. destruct HF as (H1 & P1 & N1).
  pose proof (fun B => vel_friction_drops v dt Hv Hdt D0 D1 B Bu) as HD.
  cbv zeta in HD.
  unfold vel_step. cbv zeta.
  match type of H1 with fin32 ?e = true => set (v1 := e) in * end.
  replace (if k && negb k then f32_of_Z 1
           else if k && negb k then f32_of_Z (-1) else f32_of_Z 0)
    with (f32_of_Z 0) by (destruct k; reflexivity).
  replace (f32_of_Z 0 !=? f32_of_Z 0)%f32 with false by reflexivity.
  assert (Qabs (F2Q v1) <= Qabs (F2Q v))%Q as B1.
  { destruct (Qlt_le_dec (F2Q v) 0) as [Ng | Ps].
    - destruct (N1 ltac:(lra)).
      rewrite (Qabs_neg (F2Q v)) by lra. rewrite Qabs_neg by lra. lra.
    - destruct (P1 Ps).
      rewrite (Qabs_pos (F2Q v)) by lra. rewrite Qabs_pos by lra. lra. }
  pose proof (vel_clamp_snap v1 mx H1 Hm M0) as CS. cbv zeta in CS.
  pose proof (clamp_snap_shrinks v1 mx H1 Hm M0) as SH. cbv zeta in SH.
  match type of SH with (Qabs (F2Q ?e) <= _)%Q => set (r := e) in * end.
  destruct CS as (Hr & _ & Sr).
  split; [exact Hr |]. split; [lra |].
  destruct Sr as [Z | Hf]; [left; exact Z |].
  right. destruct (HD ltac:(lra)) as [Z1 | Dr].
  - rewrite Z1 in SH. change (Qabs 0) with 0%Q in SH. lra.
  - lra.
Qed.

Lemma vel_iter_slows v0 k mx dt :
  fin32 v0 = true -> fin32 mx = true -> fin32 dt = true ->
  (1 # 64 <= F2Q dt)%Q -> (F2Q dt <= 1)%Q ->
  (Qabs (F2Q v0) <= 250)%Q -> (0 <= F2Q mx)%Q ->
  forall n,
    let vn := Nat.iter n (fun v => vel_step v k k mx dt) v0 in
    fin32 vn = true /\ (Qabs (F2Q vn) <= 250)%Q /\
    (vn = f32_of_Z 0 \/
     (Qabs (F2Q vn)
      <= Qabs (F2Q v0) - (64 # 10) * inject_Z (Z.of_nat n))%Q).
Proof.
  intros Hv Hm Hdt D0 D1 Bu M0 n. cbv zeta.
  induction n as [| n (Hn & Bn & Sn)].
  - cbn [Nat.iter nat_rect Z.of_nat]. split; [exact Hv |]. split; [exact Bu |].
    right. change (inject_Z 0) with 0%Q. lra.
  - rewrite Nat.iter_succ.
    set (vn := Nat.iter n (fun v => vel_step v k k mx dt) v0) in *.
    destruct (vel_step_slows vn k mx dt Hn Hm Hdt D0 D1 Bn M0)
      as (Hr & Br & Sr).
    split; [exact Hr |]. split; [exact Br |].
    destruct Sn as [Z | Dn].
    + left. rewrite Z. apply vel_step_rest; assumption.
    + destruct Sr as [Z | Dr]; [left; exact Z | right].
      rewrite Nat2Z.inj_succ. unfold Z.succ. rewrite inject_Z_plus.
      change (inject_Z 1) with 1%Q. lra.
Qed.

Lemma vel_iter_stops v0 k mx dt :
  fin32 v0 = true -> fin32 mx = true -> fin32 dt = true ->
  (1 # 64 <= F2Q dt)%Q -> (F2Q dt <= 1)%Q ->
  (Qabs (F2Q v0) <= 250)%Q -> (0 <= F2Q mx)%Q ->
  forall n,
    let vn := Nat.iter n (fun v => vel_step v k k mx dt) v0 in
    (vn = f32_of_Z 0 \/
     (Qabs (F2Q vn)
      <= Qabs (F2Q v0) - (64 # 10) * inject_Z (Z.of_nat n))%Q) /\
    ((40 <= n)%nat -> vn = f32_of_Z 0).
Proof.
  intros Hv Hm Hdt D0 D1 Bu M0 n. cbv zeta.
  destruct (vel_iter_slows v0 k mx dt Hv Hm Hdt D0 D1 Bu M0 n)
    as (_ & _ & S).
  split; [exact S |]. intros Hn.
  destruct S as [Z | D]; [exact Z | exfalso].
  pose proof (Qabs_nonneg
                (F2Q (Nat.iter n (fun v => vel_step v k k mx dt) v0))) as A.
  assert (40 <= inject_Z (Z.of_nat n))%Q as N40.
  { change 40%Q with (inject_Z 40). rewrite <- Zle_Qle. lia. }
  lra.
Qed.

(** X22 (test_math.c, vel_step; main.c, vel_update): friction alone
    stops the estimate. With no key or both keys held, a time step of
    1/64 s or more (and at most 1 s) and any cap that is not negative,
    each step from a speed of at most 250 leaves the estimate at rest
    or slower by at least 6.4; so after n steps it is at rest or at
    least 6.4 n slower than at the start, and from the 40th step on it
    is exactly zero and stays there. *)
Theorem X22_friction_stops_within_40_ticks v0 k mx dt :
  fin32 v0 = true -> fin32 mx = true -> fin32 dt = true ->
  (1 # 64 <= F2Q dt)%Q -> (F2Q dt <= 1)%Q ->
  (Qabs (F2Q v0) <= 250)%Q -> (0 <= F2Q mx)%Q ->
  forall n,
    let vn := Nat.iter n (fun v => vel_step v k k mx dt) v0 in
    (vn = f32_of_Z 0 \/
     (Qabs (F2Q vn)
      <= Qabs (F2Q v0) - (64 # 10) * inject_Z (Z.of_nat n))%Q) /\
    ((40 <= n)%nat -> vn = f32_of_Z 0).
Proof. exact (vel_iter_stops v0 k mx dt). Qed.

Lemma X22_witness :
  Nat.iter 40
    (fun v => vel_step v false false (f32_of_Z 215) (lit32 1 64))
    (f32_of_Z 215)
  = f32_of_Z 0.
Proof.
  refine (proj2 (X22_friction_stops_within_40_ticks (f32_of_Z 215) false
                   (f32_of_Z 215) (lit32 1 64) _ _ _ _ _ _ _ 40%nat) _).
  - vm_compute. reflexivity.
  - vm_compute. reflexivity.
  - vm_compute. reflexivity.
  - vm_compute. discriminate.
  - vm_compute. discriminate.
  - vm_compute. discriminate.
  - vm_compute. discriminate.
  - apply Nat.le_refl.
Defined.

(* ================================================================== *)
(** * Roundings from below, and results that are exact                 *)
(* ================================================================== *)

Lemma Rnd_pos_repr x f :
  Rnd 24 128 x f -> (0 < x)%Q -> is_finite f = true ->
  exists g q, mag x g /\ rne (x * pow2 (- fexp 24 128 g)) q /\
              (F2Q f == inject_Z q * pow2 (fexp 24 128 g))%Q.
Proof.
  intros R P F. destruct (Rnd_pos_inv 24 128 x f R P) as (g & q & Hg & Hq & ->).
  destruct (rounded_bounds 24 128 prec32_pos x g q Hg Hq) as [[Q0 _] _].
  exists g, q. split; [exact Hg |]. split; [exact Hq |].
  exact (F2Q_mkf 24 128 prec32_pos q _ Q0 F).
Qed.

(** Rounding down moves a positive number by at most its [2^-24]-th
    part and [2^-150]. *)
Lemma Rnd_down_bound x f :
  Rnd 24 128 x f -> (0 < x)%Q -> is_finite f = true ->
  (x - x * pow2 (-24) - pow2 (-150) <= F2Q f)%Q.
Proof.
  intros R P F.
  destruct (Rnd_pos_repr x f R P F) as (g & q & [Lg Ug] & (L & U & _) & V).
  pose proof (pow2_pos (-150)) as P1.
  pose proof (pow2_pos (-24)) as P2.
  assert (pow2 (fexp 24 128 g - 1) <= x * pow2 (-24) + pow2 (-150))%Q as B.
  { unfold fexp, emin.
    destruct (Z.max_spec (g - 24) (3 - 128 - 24)) as [[_ ->] | [_ ->]].
    - change (3 - 128 - 24 - 1) with (-150). nra.
    - replace (g - 24 - 1) with ((g - 1) + (-24)) by lia.
      rewrite pow2_add. nra. }
  set (e := fexp 24 128 g) in *.
  pose proof (pow2_pos e) as Pe. pose proof (pow2_opp_mul e) as Po.
  pose proof (pow2_pred e) as Pp.
  assert (x == x * pow2 (- e) * pow2 e)%Q as Ex.
  { rewrite <- Qmult_assoc, (Qmult_comm (pow2 (- e))), Po. ring. }
  set (y := (x * pow2 (- e))%Q) in *.
  assert (x - F2Q f <= pow2 (e - 1))%Q as D.
  { rewrite V, Pp. rewrite Ex. nra. }
  lra.
Qed.

(** A positive value of the format: its magnitude and its mantissa. *)
Lemma fin32_pos_grid b :
  fin32 b = true -> (0 < F2Q b)%Q ->
  exists g k, mag (F2Q b) g /\ (F2Q b == inject_Z k * pow2 (fexp 24 128 g))%Q.
Proof.
  intros Hb P. destruct b as [s | s | | s m e]; try (cbn in P; lra).
  unfold fin32, finF in Hb. apply andb_prop in Hb. destruct Hb as [V _].
  destruct (valid_finite_inv 24 128 s m e V) as [C _].
  destruct s.
  - cbn [F2Q] in P. pose proof (F2Q_pos m e). lra.
  - exists (Zdigits2 (Zpos m) + e), (Zpos m). cbn [F2Q]. rewrite C.
    split; [apply mag_finite | reflexivity].
Qed.

(** A positive number on a grid as fine as the one of its magnitude
    rounds to itself. *)
Lemma Rnd_on_grid x f k e :
  Rnd 24 128 x f -> (0 < x)%Q -> is_finite f = true ->
  (x == inject_Z k * pow2 e)%Q ->
  (forall g, mag x g -> fexp 24 128 g <= e) ->
  (F2Q f == x)%Q.
Proof.
  intros R P F E G.
  destruct (Rnd_pos_repr x f R P F) as (g & q & Hg & Hq & V).
  specialize (G g Hg). set (E0 := fexp 24 128 g) in *.
  pose proof (pow2_opp_mul E0) as Po.
  assert (x * pow2 (- E0) == inject_Z (k * 2 ^ (e - E0)))%Q as Y.
  { rewrite E, inject_Z_mult, <- (pow2_Z (e - E0)) by lia.
    replace (e - E0) with (e + - E0) by lia. rewrite pow2_add. ring. }
  assert (q = k * 2 ^ (e - E0)) as ->.
  { apply (rne_unique (x * pow2 (- E0))); [exact Hq |].
    apply (rne_ext (inject_Z (k * 2 ^ (e - E0)))); [symmetry; exact Y |].
    apply rne_exact. }
  rewrite V, <- Y, <- Qmult_assoc, (Qmult_comm (pow2 (- E0))), Po. ring.
Qed.

(** The difference of two values of the format, each at most twice the
    other, is exact. *)
Lemma f32_sub_exact a b :
  fin32 a = true -> fin32 b = true ->
  (0 < F2Q b)%Q -> (F2Q b <= F2Q a)%Q -> (F2Q a <= 2 * F2Q b)%Q ->
  fin32 (a - b)%f32 = true /\ (F2Q (a - b)%f32 == F2Q a - F2Q b)%Q.
Proof.
  intros Ha Hb Pb L U.
  pose proof (f32_sub_Rnd a b Ha Hb) as R.
  destruct (f32_Rnd_between (f32_of_Z 0) a _ _ R ltac:(reflexivity) Ha)
    as (Hf & Lf & Uf).
  { rewrite F2Q_f32_0. lra. }
  { lra. }
  rewrite F2Q_f32_0 in Lf.
  split; [exact Hf |].
  destruct (Qlt_le_dec 0 (F2Q a - F2Q b)) as [Px | Zx].
  - destruct (fin32_pos_grid b Hb Pb) as (gb & kb & Mb & Eb).
    destruct (fin32_pos_grid a Ha ltac:(lra)) as (ga & ka & Ma & Ea).
    pose proof (mag_le _ _ _ _ Mb Ma L) as Gab.
    pose proof (fexp_mono 24 128 _ _ Gab) as Fab.
    set (eb := fexp 24 128 gb) in *. set (ea := fexp 24 128 ga) in *.
    apply (Rnd_on_grid _ _ (ka * 2 ^ (ea - eb) - kb) eb R Px
             (fin32_finite _ Hf)).
    + rewrite Ea, Eb. unfold Zminus at 1.
      rewrite inject_Z_plus, inject_Z_opp, inject_Z_mult.
      rewrite <- (pow2_Z (ea - eb)) by lia.
      replace ea with ((ea - eb) + eb) at 1 by lia. rewrite pow2_add. ring.
    + intros g Hg.
      assert (g <= gb) as Gx by (apply (mag_le _ _ _ _ Hg Mb); lra).
      apply (fexp_mono 24 128 _ _ Gx).
  - destruct (f32_Rnd_between (f32_of_Z 0) (f32_of_Z 0) _ _ R
                ltac:(reflexivity) ltac:(reflexivity)) as (_ & L0 & U0).
    { rewrite F2Q_f32_0. lra. }
    { rewrite F2Q_f32_0. lra. }
    rewrite F2Q_f32_0 in L0. rewrite F2Q_f32_0 in U0. lra.
Qed.

(** Two values of the format with the same value, not zero, are the
    same. *)
Lemma fin32_same a b :
  fin32 a = true -> fin32 b = true -> (F2Q a == F2Q b)%Q ->
  ~ (F2Q b == 0)%Q -> a = b.
Proof.
  intros Ha Hb E N.
  destruct (f32_Rnd_exact b (F2Q a) a (f32_fin_Rnd a Ha) Hb E)
    as [-> | [_ Z]]; [reflexivity | exfalso].
  destruct b; try discriminate Z. apply N. reflexivity.
Qed.

(** A positive value is its own magnitude. *)
Lemma fabsf_pos x : (0 < F2Q x)%Q -> fabsf x = x.
Proof.
  destruct x as [s | s | | s m e]; cbn [F2Q]; intro P; try lra.
  destruct s; [pose proof (F2Q_pos m e); lra | reflexivity].
Qed.

(** Multiplying by one changes no value. *)
Lemma f32_mul_one x :
  fin32 x = true ->
  fin32 (x * f32_of_Z 1)%f32 = true /\ (F2Q (x * f32_of_Z 1)%f32 == F2Q x)%Q.
Proof.
  intro Hx.
  pose proof (f32_mul_Rnd x (f32_of_Z 1) Hx ltac:(reflexivity)) as R.
  destruct (f32_Rnd_exact_F2Q x _ _ R Hx) as [F E].
  { rewrite F2Q_f32_1. ring. }
  split; [exact F |]. rewrite E, F2Q_f32_1. ring.
Qed.

(* ================================================================== *)
(** * A held key takes the estimate to the cap                          *)
(* ================================================================== *)

Lemma accel_consts :
  (5199 # 1000 <= F2Q SV_FRICTION)%Q /\ (F2Q SV_FRICTION <= 5201 # 1000)%Q /\
  (F2Q SV_ACCELERATE == 11 # 2)%Q /\
  (fin32 (f32_of_Z 500) = true /\ (F2Q (f32_of_Z 500) == 500)%Q) /\
  (fin32 (f32_of_Z 6) = true /\ (F2Q (f32_of_Z 6) == 6)%Q) /\
  (fin32 (f32_of_Z 250) = true /\ (F2Q (f32_of_Z 250) == 250)%Q) /\
  (F2Q (lit32 5 10) == 1 # 2)%Q.
Proof.
  split; [vm_compute; discriminate |].
  split; [vm_compute; discriminate |].
  repeat split; vm_compute; reflexivity.
Qed.

(** A rounding of a number that is not negative, from below and from
    above. *)
Lemma Rnd_nonneg_bounds x f :
  Rnd 24 128 x f -> (0 <= x)%Q -> fin32 f = true ->
  (0 <= F2Q f)%Q /\
  (x - x * pow2 (-24) - pow2 (-150) <= F2Q f)%Q /\
  (F2Q f <= x + x * pow2 (-24) + pow2 (-150))%Q.
Proof.
  intros R P F.
  pose proof (pow2_pos (-24)) as P24. pose proof (pow2_pos (-150)) as P150.
  destruct (Rnd_nonneg _ _ R P) as [Vl Le].
  destruct (nonneg_shape _ Vl Le) as [I | [_ N]].
  { rewrite I in F. discriminate F. }
  split; [exact N |].
  destruct (Qlt_le_dec 0 x) as [Px | Zx].
  - split.
    + exact (Rnd_down_bound _ _ R Px (fin32_finite _ F)).
    + exact (Rnd_up_bound _ _ R Px (fin32_finite _ F)).
  - assert (x == 0)%Q as X0 by lra.
    destruct (f32_Rnd_between (f32_of_Z 0) (f32_of_Z 0) _ _ R
                ltac:(reflexivity) ltac:(reflexivity)) as (_ & L0 & U0).
    { rewrite F2Q_f32_0. lra. }
    { rewrite F2Q_f32_0. lra. }
    rewrite F2Q_f32_0 in L0. rewrite F2Q_f32_0 in U0.
    rewrite X0. split; lra.
Qed.

(** The friction stage from below: it takes off no more than the drop
    of the model and a ten-thousandth. *)
Lemma vel_friction_floor v dt :
  fin32 v = true -> fin32 dt = true ->
  (1 # 64 <= F2Q dt)%Q -> (F2Q dt <= 9 # 100)%Q ->
  (1 # 2 <= F2Q v)%Q -> (F2Q v <= 250)%Q ->
  let speed := fabsf v in
  let v1 :=
    if (speed >? lit32 1 1000)%f32 then
      let control :=
        if (speed <? SV_STOPSPEED)%f32 then SV_STOPSPEED else speed in
      let drop := (control * SV_FRICTION * dt)%f32 in
      let new_speed := (speed - drop)%f32 in
      let new_speed :=
        if (new_speed <? f32_of_Z 0)%f32 then f32_of_Z 0 else new_speed in
      (v * (new_speed / speed))%f32
    else v in
  exists cq,
    (((F2Q v < 80)%Q /\ (cq == 80)%Q) \/ ((80 <= F2Q v)%Q /\ (cq == F2Q v)%Q)) /\
    (F2Q v - cq * F2Q SV_FRICTION * F2Q dt - (1 # 10000) <= F2Q v1)%Q.
Proof.
  intros Hv Hdt D0 D1 Bl Bu speed.
  destruct friction_consts
    as (Km & _ & (H415 & Q415) & (H2000 & Q2000) & (Hm2000 & Qm2000) & _).
  destruct accel_consts as (Kf0 & Kf1 & _).
  pose proof pow2_m24_small as E24. pose proof pow2_m150_small as E150.
  pose proof (pow2_pos (-24)) as P24. pose proof (pow2_pos (-150)) as P150.
  assert (speed = v) as Es by (apply fabsf_pos; lra).
  rewrite Es. clear speed Es.
  cbv zeta. destruct (v >? lit32 1 1000)%f32 eqn:E.
  2:{ apply fgt_nQ in E; [| exact Hv | reflexivity]. lra. }
  clear E.
  set (control := if (v <? SV_STOPSPEED)%f32 then SV_STOPSPEED else v).
  assert (fin32 control = true /\ (80 <= F2Q control)%Q /\
          (F2Q control <= 250)%Q /\
          (((F2Q v < 80)%Q /\ (F2Q control == 80)%Q) \/
           ((80 <= F2Q v)%Q /\ (F2Q control == F2Q v)%Q)))
    as (Hc & C0 & C1 & Cq).
  { unfold control. destruct (v <? SV_STOPSPEED)%f32 eqn:E0.
    - apply flt_Q in E0; [| exact Hv | reflexivity].
      rewrite F2Q_f32_80 in E0.
      split; [reflexivity |]. rewrite F2Q_f32_80.
      split; [lra |]. split; [lra |]. left. split; [exact E0 | reflexivity].
    - apply flt_nQ in E0; [| exact Hv | reflexivity].
      rewrite F2Q_f32_80 in E0. split; [exact Hv |].
      split; [lra |]. split; [lra |]. right. split; [exact E0 | reflexivity]. }
  exists (F2Q control). split; [exact Cq |]. clear Cq. clearbody control.
  assert (0 <= F2Q control * F2Q SV_FRICTION)%Q as CF0 by (apply Qmult_le_0_compat; lra).
  assert (F2Q control * F2Q SV_FRICTION <= 1301)%Q as CF1.
  { apply Qle_trans with (250 * F2Q SV_FRICTION)%Q; [apply Qmult_le_compat_r; lra | lra]. }
  pose proof (f32_mul_Rnd control SV_FRICTION Hc ltac:(reflexivity)) as R1.
  destruct (f32_Rnd_between (f32_of_Z 0) (f32_of_Z 2000) _ _ R1
              ltac:(reflexivity) H2000) as (Hc1 & _ & _).
  { rewrite F2Q_f32_0. exact CF0. }
  { rewrite Q2000. lra. }
  destruct (Rnd_nonneg_bounds _ _ R1 CF0 Hc1) as (N1 & _ & U1).
  set (c1 := (control * SV_FRICTION)%f32) in *. clearbody c1.
  assert (F2Q control * F2Q SV_FRICTION * pow2 (-24) <= 1301 * pow2 (-24))%Q as T1
    by (apply Qmult_le_compat_r; lra).
  assert (F2Q c1 <= 1302)%Q as C1b by lra.
  assert (0 <= F2Q c1 * F2Q dt)%Q as CD0 by (apply Qmult_le_0_compat; lra).
  assert (F2Q c1 * F2Q dt <= F2Q control * F2Q SV_FRICTION * F2Q dt + 118 * pow2 (-24)
                             + pow2 (-150))%Q as CD1.
  { apply Qle_trans with
      ((F2Q control * F2Q SV_FRICTION + 1301 * pow2 (-24) + pow2 (-150)) * F2Q dt)%Q.
    - apply Qmult_le_compat_r; lra.
    - assert ((1301 * pow2 (-24) + pow2 (-150)) * F2Q dt
              <= (1301 * pow2 (-24) + pow2 (-150)) * (9 # 100))%Q
        by (apply Qmul_mono_l; lra).
      lra. }
  assert (F2Q c1 * F2Q dt <= 118)%Q as CD2.
  { apply Qle_trans with (1302 * F2Q dt)%Q;
      [apply Qmult_le_compat_r; lra | lra]. }
  pose proof (f32_mul_Rnd c1 dt Hc1 Hdt) as R2.
  destruct (f32_Rnd_between (f32_of_Z 0) (f32_of_Z 2000) _ _ R2
              ltac:(reflexivity) H2000) as (Hd & _ & Ud).
  { rewrite F2Q_f32_0. exact CD0. }
  { rewrite Q2000. lra. }
  rewrite Q2000 in Ud.
  destruct (Rnd_nonneg_bounds _ _ R2 CD0 Hd) as (N2 & _ & U2).
  set (drop := (c1 * dt)%f32) in *. clearbody drop.
  assert (F2Q c1 * F2Q dt * pow2 (-24) <= 118 * pow2 (-24))%Q as T2
    by (apply Qmult_le_compat_r; lra).
  assert (F2Q drop <= F2Q control * F2Q SV_FRICTION * F2Q dt + 236 * pow2 (-24)
                      + 2 * pow2 (-150))%Q as Db by lra.
  clear T1 T2 U1 U2 CD1 R1 R2.
  pose proof (f32_sub_Rnd v drop Hv Hd) as Rn.
  destruct (f32_Rnd_between (f32_of_Z (-2000)) v _ _ Rn Hm2000 Hv)
    as (Hn & L3 & U3).
  { rewrite Qm2000. lra. }
  { lra. }
  set (ns0 := (v - drop)%f32) in *. clearbody ns0.
  set (ns := if (ns0 <? f32_of_Z 0)%f32 then f32_of_Z 0 else ns0).
  set (x0 := (F2Q v - F2Q drop)%Q) in *.
  assert (is_zero v = false) as Zs by (apply F2Q_nonzero; lra).
  assert (fin32 ns = true /\ (0 <= F2Q ns)%Q /\ (F2Q ns <= F2Q v)%Q /\
          (x0 - 250 * pow2 (-24) - pow2 (-150) <= F2Q ns)%Q)
    as (Hns & N0 & N1' & Nb).
  { assert (x0 <= 250)%Q as X250 by (unfold x0; lra).
    unfold ns. destruct (ns0 <? f32_of_Z 0)%f32 eqn:E0.
    - apply flt_Q in E0; [| exact Hn | reflexivity].
      rewrite F2Q_f32_0 in E0.
      split; [reflexivity |]. rewrite F2Q_f32_0.
      split; [lra |]. split; [lra |].
      destruct (Qlt_le_dec 0 x0) as [Px | Nx]; [| lra].
      pose proof (Rnd_down_bound _ _ Rn Px (fin32_finite _ Hn)) as Dn.
      assert (x0 * pow2 (-24) <= 250 * pow2 (-24))%Q
        by (apply Qmult_le_compat_r; lra).
      lra.
    - apply flt_nQ in E0; [| exact Hn | reflexivity].
      rewrite F2Q_f32_0 in E0. split; [exact Hn |].
      split; [exact E0 |]. split; [exact U3 |].
      destruct (Qlt_le_dec 0 x0) as [Px | Nx]; [| lra].
      pose proof (Rnd_down_bound _ _ Rn Px (fin32_finite _ Hn)) as Dn.
      assert (x0 * pow2 (-24) <= 250 * pow2 (-24))%Q
        by (apply Qmult_le_compat_r; lra).
      lra. }
  clearbody ns.
  pose proof (f32_div_Rnd ns v Hns Hv Zs) as Rr.
  set (y := (F2Q ns / F2Q v)%Q) in *.
  assert (0 <= y)%Q as Y0 by (apply Qle_shift_div_l; lra).
  assert (y <= 1)%Q as Y1 by (apply Qle_shift_div_r; lra).
  assert (F2Q v * y == F2Q ns)%Q as Ey by (unfold y; field; lra).
  destruct (f32_Rnd_between (f32_of_Z 0) (f32_of_Z 1) _ _ Rr
              ltac:(reflexivity) ltac:(reflexivity)) as (Hr & L4 & U4).
  { rewrite F2Q_f32_0. exact Y0. }
  { rewrite F2Q_f32_1. exact Y1. }
  rewrite F2Q_f32_0 in L4. rewrite F2Q_f32_1 in U4.
  destruct (Rnd_nonneg_bounds _ _ Rr Y0 Hr) as (_ & Lr & _).
  set (ratio := (ns / v)%f32) in *. clearbody ratio.
  assert (y * pow2 (-24) <= 1 * pow2 (-24))%Q as T3
    by (apply Qmult_le_compat_r; lra).
  assert (F2Q v * (y - pow2 (-24) - pow2 (-150)) <= F2Q v * F2Q ratio)%Q as T4
    by (apply Qmul_mono_l; lra).
  assert (F2Q v * (y - pow2 (-24) - pow2 (-150))
          == F2Q ns - F2Q v * pow2 (-24) - F2Q v * pow2 (-150))%Q as T5
    by (rewrite <- Ey; ring).
  assert (F2Q v * pow2 (-24) <= 250 * pow2 (-24))%Q as T6
    by (apply Qmult_le_compat_r; lra).
  assert (F2Q v * pow2 (-150) <= 250 * pow2 (-150))%Q as T7
    by (apply Qmult_le_compat_r; lra).
  assert (0 <= F2Q v * F2Q ratio)%Q as T8 by (apply Qmult_le_0_compat; lra).
  assert (F2Q v * F2Q ratio <= 250)%Q as T9.
  { apply Qle_trans with (F2Q v * 1)%Q; [apply Qmul_mono_l; lra | lra]. }
  pose proof (f32_mul_Rnd v ratio Hv Hr) as Rv.
  destruct (f32_Rnd_between (f32_of_Z 0) (f32_of_Z 250) _ _ Rv
              ltac:(reflexivity) ltac:(reflexivity)) as (H1 & _ & _).
  { rewrite F2Q_f32_0. exact T8. }
  { assert (F2Q (f32_of_Z 250) == 250)%Q as -> by (vm_compute; reflexivity).
    exact T9. }
  destruct (Rnd_nonneg_bounds _ _ Rv T8 H1) as (_ & Lv & _).
  revert Lv T4 T8 T9. generalize (F2Q v * F2Q ratio)%Q. intros t Lv T4 T8 T9.
  assert (t * pow2 (-24) <= 250 * pow2 (-24))%Q as T10
    by (apply Qmult_le_compat_r; lra).
  unfold x0 in Nb. lra.
Qed.

(** The speed the model adds in one step, as the code computes it. *)
Lemma accel_speed_bounds mx dt :
  fin32 mx = true -> fin32 dt = true ->
  (150 <= F2Q mx)%Q -> (F2Q mx <= 250)%Q ->
  (1 # 64 <= F2Q dt)%Q -> (F2Q dt <= 9 # 100)%Q ->
  fin32 (SV_ACCELERATE * dt * mx)%f32 = true /\
  ((11 # 2) * (F2Q dt * F2Q mx) - (1 # 10000)
   <= F2Q (SV_ACCELERATE * dt * mx)%f32)%Q /\
  (F2Q (SV_ACCELERATE * dt * mx)%f32
   <= (11 # 2) * (F2Q dt * F2Q mx) + (1 # 10000))%Q.
Proof.
  intros Hm Hdt M0 M1 D0 D1.
  destruct accel_consts as (_ & _ & QA & _ & _ & (H250 & Q250) & _).
  pose proof pow2_m24_small as E24. pose proof pow2_m150_small as E150.
  pose proof (pow2_pos (-24)) as P24. pose proof (pow2_pos (-150)) as P150.
  pose proof (f32_mul_Rnd SV_ACCELERATE dt ltac:(reflexivity) Hdt) as R1.
  assert (0 <= F2Q SV_ACCELERATE * F2Q dt)%Q as X0 by (rewrite QA; lra).
  assert (F2Q SV_ACCELERATE * F2Q dt <= 1)%Q as X1 by (rewrite QA; lra).
  destruct (f32_Rnd_between (f32_of_Z 0) (f32_of_Z 1) _ _ R1
              ltac:(reflexivity) ltac:(reflexivity)) as (H0 & L0 & U0).
  { rewrite F2Q_f32_0. exact X0. }
  { rewrite F2Q_f32_1. exact X1. }
  rewrite F2Q_f32_0 in L0. rewrite F2Q_f32_1 in U0.
  destruct (Rnd_nonneg_bounds _ _ R1 X0 H0) as (_ & La & Ua).
  assert (F2Q SV_ACCELERATE * F2Q dt * pow2 (-24) <= 1 * pow2 (-24))%Q as T0
    by (apply Qmult_le_compat_r; lra).
  rewrite QA in La, Ua, T0.
  set (a0 := (SV_ACCELERATE * dt)%f32) in *. clearbody a0.
  assert ((11 # 2) * F2Q dt - pow2 (-24) - pow2 (-150) <= F2Q a0)%Q as La' by lra.
  assert (F2Q a0 <= (11 # 2) * F2Q dt + pow2 (-24) + pow2 (-150))%Q as Ua' by lra.
  clear La Ua T0 R1 X0 X1.
  assert (0 <= F2Q a0 * F2Q mx)%Q as Y0 by (apply Qmult_le_0_compat; lra).
  assert (F2Q a0 * F2Q mx <= 250)%Q as Y1.
  { apply Qle_trans with (1 * F2Q mx)%Q; [apply Qmult_le_compat_r; lra | lra]. }
  assert (((11 # 2) * F2Q dt - pow2 (-24) - pow2 (-150)) * F2Q mx
          <= F2Q a0 * F2Q mx)%Q as Y2 by (apply Qmult_le_compat_r; lra).
  assert (F2Q a0 * F2Q mx
          <= ((11 # 2) * F2Q dt + pow2 (-24) + pow2 (-150)) * F2Q mx)%Q as Y3
    by (apply Qmult_le_compat_r; lra).
  assert (pow2 (-24) * F2Q mx <= pow2 (-24) * 250)%Q as Y4
    by (apply Qmul_mono_l; lra).
  assert (pow2 (-150) * F2Q mx <= pow2 (-150) * 250)%Q as Y5
    by (apply Qmul_mono_l; lra).
  pose proof (f32_mul_Rnd a0 mx H0 Hm) as R2.
  destruct (f32_Rnd_between (f32_of_Z 0) (f32_of_Z 250) _ _ R2
              ltac:(reflexivity) H250) as (H1 & _ & _).
  { rewrite F2Q_f32_0. exact Y0. }
  { rewrite Q250. exact Y1. }
  destruct (Rnd_nonneg_bounds _ _ R2 Y0 H1) as (_ & Lb & Ub).
  split; [exact H1 |].
  revert Lb Ub Y0 Y1 Y2 Y3. generalize (F2Q a0 * F2Q mx)%Q.
  intros t Lb Ub Y0 Y1 Y2 Y3.
  assert (t * pow2 (-24) <= 250 * pow2 (-24))%Q as Y6
    by (apply Qmult_le_compat_r; lra).
  assert (0 <= t * pow2 (-24))%Q as Y7 by (apply Qmult_le_0_compat; lra).
  ring_simplify in Y2. ring_simplify in Y3.
  split; lra.
Qed.

Lemma fgt_irrefl x : (x >? x)%f32 = false.
Proof. apply flt_irrefl. Qed.

(** The friction stage in a step that the positive key drives: what it
    leaves is at least 6 under the cap, and with the speed the model
    adds it closes the gap to the cap as stated. *)
Lemma vel_friction_gap v mx dt :
  fin32 v = true -> fin32 mx = true -> fin32 dt = true ->
  (150 <= F2Q mx)%Q -> (F2Q mx <= 250)%Q ->
  (1 # 64 <= F2Q dt)%Q -> (F2Q dt <= 9 # 100)%Q ->
  v = f32_of_Z 0 \/ (1 # 2 <= F2Q v)%Q -> (F2Q v <= F2Q mx)%Q ->
  let speed := fabsf v in
  let v1 :=
    if (speed >? lit32 1 1000)%f32 then
      let control :=
        if (speed <? SV_STOPSPEED)%f32 then SV_STOPSPEED else speed in
      let drop := (control * SV_FRICTION * dt)%f32 in
      let new_speed := (speed - drop)%f32 in
      let new_speed :=
        if (new_speed <? f32_of_Z 0)%f32 then f32_of_Z 0 else new_speed in
      (v * (new_speed / speed))%f32
    else v in
  fin32 v1 = true /\ (0 <= F2Q v1)%Q /\ (F2Q v1 <= F2Q mx - 6)%Q /\
  ((F2Q mx - F2Q v1 - (11 # 2) * (F2Q dt * F2Q mx) + (3 # 10000)
    <= F2Q mx - F2Q v - (63 # 10))%Q \/
   (F2Q mx - F2Q v1 - (11 # 2) * (F2Q dt * F2Q mx) + (3 # 10000)
    <= (919 # 1000) * (F2Q mx - F2Q v) - (7 # 10))%Q).
Proof.
  intros Hv Hm Hdt M0 M1 D0 D1 Sv Vm.
  destruct accel_consts as (Kf0 & Kf1 & _).
  assert (150 * F2Q dt <= F2Q dt * F2Q mx)%Q as P1.
  { rewrite (Qmult_comm 150). apply Qmul_mono_l; lra. }
  destruct Sv as [-> | Bl].
  - cbv zeta.
    replace (fabsf (f32_of_Z 0) >? lit32 1 1000)%f32 with false
      by (vm_compute; reflexivity).
    rewrite F2Q_f32_0. split; [reflexivity |]. split; [lra |].
    split; [lra |]. left. lra.
  - pose proof Q250_big as Big.
    pose proof (vel_friction_shrinks v dt Hv Hdt ltac:(lra) ltac:(lra)) as HS.
    pose proof (vel_friction_drops v dt Hv Hdt D0 ltac:(lra)) as HD.
    pose proof (vel_friction_floor v dt Hv Hdt D0 D1 Bl ltac:(lra)) as HF.
    cbv zeta in HS, HD, HF |- *.
    rewrite (Qabs_pos (F2Q v)) in HS, HD by lra.
    specialize (HS ltac:(lra)). specialize (HD Bl ltac:(lra)).
    destruct HS as (H1 & P & _). specialize (P ltac:(lra)).
    destruct P as [V0 V1]. destruct HF as (cq & Cq & Lf).
    match type of H1 with fin32 ?e = true => set (v1 := e) in * end.
    clearbody v1.
    rewrite (Qabs_pos (F2Q v1)) in HD by exact V0.
    split; [exact H1 |]. split; [exact V0 |].
    split; [destruct HD; lra |].
    assert (0 <= F2Q SV_FRICTION * F2Q dt)%Q as FD0
      by (apply Qmult_le_0_compat; lra).
    assert (F2Q SV_FRICTION * F2Q dt <= (5201 # 1000) * F2Q dt)%Q as FD1
      by (apply Qmult_le_compat_r; lra).
    assert ((5199 # 1000) * F2Q dt <= F2Q SV_FRICTION * F2Q dt)%Q as FD2
      by (apply Qmult_le_compat_r; lra).
    destruct Cq as [[C E] | [C E]].
    + left. rewrite E in Lf.
      assert (80 * F2Q SV_FRICTION * F2Q dt
              == 80 * (F2Q SV_FRICTION * F2Q dt))%Q as E1 by ring.
      rewrite E1 in Lf. lra.
    + right. rewrite E in Lf.
      assert (F2Q SV_FRICTION * (F2Q dt * F2Q mx)
              <= (5201 # 1000) * (F2Q dt * F2Q mx))%Q as M3
        by (apply Qmult_le_compat_r; lra).
      assert ((5199 # 64000) * (F2Q mx - F2Q v)
              <= (F2Q SV_FRICTION * F2Q dt) * (F2Q mx - F2Q v))%Q as G3
        by (apply Qmult_le_compat_r; lra).
      assert (F2Q v * F2Q SV_FRICTION * F2Q dt
              == F2Q SV_FRICTION * (F2Q dt * F2Q mx)
                 - (F2Q SV_FRICTION * F2Q dt) * (F2Q mx - F2Q v))%Q as E1
        by ring.
      rewrite E1 in Lf. lra.
Qed.

(** One step with the positive key alone: the estimate is at the cap,
    or nearer to it as stated. *)
Lemma vel_step_up v mx dt :
  fin32 v = true -> fin32 mx = true -> fin32 dt = true ->
  (150 <= F2Q mx)%Q -> (F2Q mx <= 250)%Q ->
  (1 # 64 <= F2Q dt)%Q -> (F2Q dt <= 9 # 100)%Q ->
  v = f32_of_Z 0 \/ (1 # 2 <= F2Q v)%Q -> (F2Q v <= F2Q mx)%Q ->
  vel_step v true false mx dt = mx \/
  (fin32 (vel_step v true false mx dt) = true /\
   (1 # 2 <= F2Q (vel_step v true false mx dt))%Q /\
   (F2Q (vel_step v true false mx dt) <= F2Q mx)%Q /\
   ((F2Q mx - F2Q (vel_step v true false mx dt)
     <= F2Q mx - F2Q v - (63 # 10))%Q \/
    (F2Q mx - F2Q (vel_step v true false mx dt)
     <= (919 # 1000) * (F2Q mx - F2Q v) - (7 # 10))%Q)).
Proof.
  intros Hv Hm Hdt M0 M1 D0 D1 Sv Vm.
  destruct accel_consts
    as (_ & _ & _ & (H500 & Q500) & (H6 & Q6) & (H250 & Q250) & Qh).
  pose proof pow2_m24_small as E24. pose proof pow2_m150_small as E150.
  pose proof (pow2_pos (-24)) as P24. pose proof (pow2_pos (-150)) as P150.
  pose proof (vel_friction_gap v mx dt Hv Hm Hdt M0 M1 D0 D1 Sv Vm) as HG.
  cbv zeta in HG. destruct HG as (H1 & V0 & V6 & Gap).
  destruct (accel_speed_bounds mx dt Hm Hdt M0 M1 D0 D1) as (Ha & La & Ua).
  assert (F2Q dt * F2Q mx <= (9 # 100) * F2Q mx)%Q as P2
    by (apply Qmult_le_compat_r; lra).
  assert (150 * F2Q dt <= F2Q dt * F2Q mx)%Q as P1.
  { rewrite (Qmult_comm 150). apply Qmul_mono_l; lra. }
  assert (fabsf mx = mx) as Am by (apply fabsf_pos; lra).
  assert ((fabsf mx <? lit32 5 10)%f32 = false) as Snap.
  { rewrite Am. destruct (mx <? lit32 5 10)%f32 eqn:E; [| reflexivity].
    apply flt_Q in E; [| exact Hm | reflexivity]. rewrite Qh in E. lra. }
  unfold vel_step. cbv zeta. cbn [andb negb].
  match type of H1 with fin32 ?e = true => set (v1 := e) in * end.
  clearbody v1.
  replace (f32_of_Z 1 !=? f32_of_Z 0)%f32 with true by reflexivity.
  destruct (f32_mul_one v1 H1) as (Hc & Qc).
  set (ciw := (v1 * f32_of_Z 1)%f32) in *. clearbody ciw.
  pose proof (f32_sub_Rnd mx ciw Hm Hc) as Rad.
  destruct (f32_Rnd_between (f32_of_Z 6) (f32_of_Z 250) _ _ Rad H6 H250)
    as (Had & Lad & Uad).
  { rewrite Q6, Qc. lra. }
  { rewrite Q250, Qc. lra. }
  rewrite Q6 in Lad. rewrite Q250 in Uad.
  destruct (Rnd_nonneg_bounds _ _ Rad ltac:(rewrite Qc; lra) Had)
    as (_ & Lad' & _).
  assert ((F2Q mx - F2Q ciw) * pow2 (-24) <= 250 * pow2 (-24))%Q as T1
    by (apply Qmult_le_compat_r; rewrite ?Qc; lra).
  set (a1 := (SV_ACCELERATE * dt * mx)%f32) in *. clearbody a1.
  assert (forall add, add = (mx - ciw)%f32 ->
            (add >? f32_of_Z 0)%f32 = true) as Pos.
  { intros add ->. destruct (mx - ciw >? f32_of_Z 0)%f32 eqn:E; [reflexivity |].
    apply fgt_nQ in E; [| exact Had | reflexivity].
    rewrite F2Q_f32_0 in E. lra. }
  rewrite (Pos _ eq_refl). clear Pos.
  destruct (a1 >? mx - ciw)%f32 eqn:Ec.
  - (* the speed to add is cut to what the cap leaves *)
    left. apply fgt_Q in Ec; [| exact Ha | exact Had].
    destruct (f32_sub_exact mx ciw Hm Hc) as (_ & Ex).
    { rewrite Qc. lra. }
    { rewrite Qc. lra. }
    { rewrite Qc. lra. }
    set (add := (mx - ciw)%f32) in *. clearbody add.
    destruct (f32_mul_one add Had) as (Hw & Qw).
    set (aw := (add * f32_of_Z 1)%f32) in *. clearbody aw.
    pose proof (f32_add_Rnd v1 aw H1 Hw) as Rv.
    assert ((v1 + aw)%f32 = mx) as ->.
    { destruct (f32_Rnd_exact mx _ _ Rv Hm) as [E | [_ Z]].
      - rewrite Qw, Ex, Qc. ring.
      - exact E.
      - exfalso. destruct mx; try discriminate Z. cbn in M0. lra. }
    rewrite Am, fgt_irrefl, Snap. reflexivity.
  - (* the whole of it is added *)
    apply fgt_nQ in Ec; [| exact Ha | exact Had].
    set (add := (mx - ciw)%f32) in *. clearbody add.
    destruct (f32_mul_one a1 Ha) as (Hw & Qw).
    set (aw := (a1 * f32_of_Z 1)%f32) in *. clearbody aw.
    pose proof (f32_add_Rnd v1 aw H1 Hw) as Rv.
    assert (12 <= F2Q v1 + F2Q aw)%Q as S0 by (rewrite Qw; lra).
    assert (F2Q v1 + F2Q aw <= 500)%Q as S1 by (rewrite Qw; lra).
    destruct (f32_Rnd_between (f32_of_Z 0) (f32_of_Z 500) _ _ Rv
                ltac:(reflexivity) H500) as (H2 & _ & _).
    { rewrite F2Q_f32_0. lra. }
    { rewrite Q500. lra. }
    destruct (Rnd_nonneg_bounds _ _ Rv ltac:(lra) H2) as (_ & L2 & _).
    assert ((F2Q v1 + F2Q aw) * pow2 (-24) <= 500 * pow2 (-24))%Q as T2
      by (apply Qmult_le_compat_r; lra).
    set (v2 := (v1 + aw)%f32) in *. clearbody v2.
    assert (11 <= F2Q v2)%Q as V2 by lra.
    assert (fabsf v2 = v2) as A2 by (apply fabsf_pos; lra).
    rewrite A2.
    destruct (v2 >? mx)%f32 eqn:Ek.
    + left.
      replace (v2 >? f32_of_Z 0)%f32 with true.
      * rewrite Snap. reflexivity.
      * symmetry. destruct (v2 >? f32_of_Z 0)%f32 eqn:E; [reflexivity |].
        apply fgt_nQ in E; [| exact H2 | reflexivity].
        rewrite F2Q_f32_0 in E. lra.
    + right. apply fgt_nQ in Ek; [| exact H2 | exact Hm].
      rewrite A2.
      replace (v2 <? lit32 5 10)%f32 with false.
      * split; [exact H2 |]. split; [lra |]. split; [exact Ek |].
        destruct Gap as [G | G]; [left | right]; lra.
      * symmetry. destruct (v2 <? lit32 5 10)%f32 eqn:E; [| reflexivity].
        apply flt_Q in E; [| exact H2 | reflexivity]. rewrite Qh in E. lra.
Qed.

Lemma gap_step_upper g G :
  (g <= G)%Q ->
  (g - (63 # 10) <= gap_step G)%Q /\
  ((919 # 1000) * g - (7 # 10) <= gap_step G)%Q.
Proof.
  intro H. unfold gap_step.
  destruct (Qle_bool ((919 # 1000) * G - (7 # 10)) (G - (63 # 10))) eqn:E.
  - apply Qle_bool_iff in E. split; lra.
  - assert (~ ((919 # 1000) * G - (7 # 10) <= G - (63 # 10))%Q) as N.
    { intro C. apply Qle_bool_iff in C. rewrite C in E. discriminate E. }
    split; lra.
Qed.

Lemma gap_bound_55 : (gap_bound 55 < 0)%Q.
Proof. vm_compute. reflexivity. Qed.

(** At the cap with the key held, the estimate stays at the cap. *)
Lemma vel_step_at_cap mx dt :
  fin32 mx = true -> fin32 dt = true ->
  (150 <= F2Q mx)%Q -> (F2Q mx <= 250)%Q ->
  (1 # 64 <= F2Q dt)%Q -> (F2Q dt <= 9 # 100)%Q ->
  vel_step mx true false mx dt = mx.
Proof.
  intros Hm Hdt M0 M1 D0 D1.
  destruct (vel_step_up mx mx dt Hm Hm Hdt M0 M1 D0 D1
              ltac:(right; lra) ltac:(lra)) as [E | (_ & _ & U & G)];
    [exact E | exfalso].
  destruct G; lra.
Qed.

Lemma vel_iter_up v0 mx dt :
  fin32 v0 = true -> fin32 mx = true -> fin32 dt = true ->
  (150 <= F2Q mx)%Q -> (F2Q mx <= 250)%Q ->
  (1 # 64 <= F2Q dt)%Q -> (F2Q dt <= 9 # 100)%Q ->
  v0 = f32_of_Z 0 \/ (1 # 2 <= F2Q v0)%Q -> (F2Q v0 <= F2Q mx)%Q ->
  forall n,
    let vn := Nat.iter n (fun v => vel_step v true false mx dt) v0 in
    vn = mx \/
    (fin32 vn = true /\ (vn = f32_of_Z 0 \/ (1 # 2 <= F2Q vn)%Q) /\
     (F2Q vn <= F2Q mx)%Q /\ (F2Q mx - F2Q vn <= gap_bound n)%Q).
Proof.
  intros Hv Hm Hdt M0 M1 D0 D1 Sv Vm n. cbv zeta.
  induction n as [| n IH].
  - right. cbn [Nat.iter nat_rect]. split; [exact Hv |]. split; [exact Sv |].
    split; [exact Vm |]. change (gap_bound 0) with 250%Q.
    destruct Sv as [-> | B]; [rewrite F2Q_f32_0 |]; lra.
  - rewrite Nat.iter_succ.
    set (vn := Nat.iter n (fun v => vel_step v true false mx dt) v0) in *.
    clearbody vn.
    destruct IH as [-> | (Hn & Sn & Un & Gn)].
    + left. apply vel_step_at_cap; assumption.
    + destruct (vel_step_up vn mx dt Hn Hm Hdt M0 M1 D0 D1 Sn Un)
        as [E | (Hr & Lr & Ur & G)]; [left; exact E | right].
      split; [exact Hr |]. split; [right; exact Lr |]. split; [exact Ur |].
      destruct (gap_step_upper _ _ Gn) as [G1 G2].
      change (gap_bound (S n)) with (gap_step (gap_bound n)).
      destruct G; lra.
Qed.

Lemma vel_iter_reaches_cap v0 mx dt :
  fin32 v0 = true -> fin32 mx = true -> fin32 dt = true ->
  (150 <= F2Q mx)%Q -> (F2Q mx <= 250)%Q ->
  (1 # 64 <= F2Q dt)%Q -> (F2Q dt <= 9 # 100)%Q ->
  v0 = f32_of_Z 0 \/ (1 # 2 <= F2Q v0)%Q -> (F2Q v0 <= F2Q mx)%Q ->
  forall n, (55 <= n)%nat ->
    Nat.iter n (fun v => vel_step v true false mx dt) v0 = mx.
Proof.
  intros Hv Hm Hdt M0 M1 D0 D1 Sv Vm n Hn.
  replace n with ((n - 55) + 55)%nat by lia.
  induction (n - 55)%nat as [| k IH].
  - cbn [Nat.add].
    destruct (vel_iter_up v0 mx dt Hv Hm Hdt M0 M1 D0 D1 Sv Vm 55)
      as [E | (_ & _ & U & G)]; [exact E | exfalso].
    pose proof gap_bound_55. lra.
  - cbn [Nat.add]. rewrite Nat.iter_succ, IH.
    apply vel_step_at_cap; assumption.
Qed.

(** X24 (test_math.c, vel_step; main.c, vel_update): a held key takes
    the estimate to the cap and keeps it there. With the positive key
    alone past the dead zone, a cap between 150 and 250 (the range of
    the weapon table) and a time step between 1/64 s and 0.09 s, from
    rest or from any speed of 0.5 or more in that direction and within
    the cap, the estimate after 55 steps or more is exactly the cap; in
    particular one more step at the cap leaves it at the cap. *)
Theorem X24_held_key_reaches_cap v0 mx dt :
  fin32 v0 = true -> fin32 mx = true -> fin32 dt = true ->
  (150 <= F2Q mx)%Q -> (F2Q mx <= 250)%Q ->
  (1 # 64 <= F2Q dt)%Q -> (F2Q dt <= 9 # 100)%Q ->
  v0 = f32_of_Z 0 \/ (1 # 2 <= F2Q v0)%Q -> (F2Q v0 <= F2Q mx)%Q ->
  forall n, (55 <= n)%nat ->
    Nat.iter n (fun v => vel_step v true false mx dt) v0 = mx.
Proof. exact (vel_iter_reaches_cap v0 mx dt). Qed.

Lemma X24_witness :
  Nat.iter 55
    (fun v => vel_step v true false (f32_of_Z 215) (lit32 1 64))
    (f32_of_Z 0)
  = f32_of_Z 215.
Proof.
  refine (X24_held_key_reaches_cap (f32_of_Z 0) (f32_of_Z 215) (lit32 1 64)
            _ _ _ _ _ _ _ _ _ 55%nat _).
  - reflexivity.
  - vm_compute. reflexivity.
  - vm_compute. reflexivity.
  - vm_compute. discriminate.
  - vm_compute. discriminate.
  - vm_compute. discriminate.
  - vm_compute. discriminate.
  - left. reflexivity.
  - vm_compute. discriminate.
  - apply Nat.le_refl.
Defined.
